(** * Chunk assignment (rollup, [src/utils/chunkAssignment.ts])

    A shallow embedding of [getChunkAssignments] and of the functions it
    calls, followed by the properties of the specification that are stated
    about them.

    Conventions of the embedding:
    - a [Module] object is identified by its address, a [nat]; the module
      graph is a store from addresses to the observables the code reads;
    - a JS [Set] or [Map] is a list in insertion order (iteration order is
      insertion order and the code depends on it);
    - a [for (const x of set)] loop over a set that grows while it is
      iterated is an index advancing over that list;
    - a loop that is not structurally bounded takes fuel; the entry points
      supply enough of it, which is proved below;
    - a [TypeError], raised by reading through [undefined] or by
      [prettyBytes], is a result of its own. *)

From Stdlib Require Import String Ascii Arith ZArith NArith Bool Lia Permutation List
  Sorted.
Import ListNotations.

Set Implicit Arguments.

#[local] Open Scope nat_scope.

(** ** Results of fallible code *)

Inductive result (A : Type) : Type :=
| Ok (a : A)
| TypeError
| OutOfFuel.

Arguments Ok {A} a.
Arguments TypeError {A}.
Arguments OutOfFuel {A}.

Definition bind {A B : Type} (r : result A) (k : A -> result B) : result B :=
  match r with
  | Ok a => k a
  | TypeError => TypeError
  | OutOfFuel => OutOfFuel
  end.

Notation "x <- r ;; k" := (bind r (fun x => k))
  (at level 61, r at next level, right associativity).

(** ** Signatures *)

Module Signature.

Definition CHAR_DEPENDENT : ascii := "X"%char.
Definition CHAR_INDEPENDENT : ascii := "_"%char.
Definition CHAR_CODE_DEPENDENT : nat := nat_of_ascii CHAR_DEPENDENT.

(** A JS number as far as the distance computation goes. *)
Inductive number : Type :=
| Finite (n : nat)
| Infinity.

Definition number_eqb (a b : number) : bool :=
match a, b with
| Finite x, Finite y => x =? y
| Infinity, Infinity => true
| _, _ => false
end.

(** [a < b] on numbers. *)
Definition number_ltb (a b : number) : bool :=
match a, b with
| Finite x, Finite y => x <? y
| Finite _, Infinity => true
| Infinity, _ => false
end.

Definition number_leb (a b : number) : bool := negb (number_ltb b a).

(** [s.charCodeAt(index)]; [None] is [NaN]. *)
Definition charCodeAt (s : string) (index : nat) : option nat :=
option_map nat_of_ascii (String.get index s).

(** [a !== b] on char codes: [NaN] differs from everything. *)
Definition code_neq (a b : option nat) : bool :=
match a, b with
| Some x, Some y => negb (x =? y)
| _, _ => true
end.

(** [a === code] for a char code [code] that is a number. *)
Definition code_is (a : option nat) (code : nat) : bool :=
match a with
| Some x => x =? code
| None => false
end.

(** The [for] loop of [getSignatureDistance]; [remaining] is
  [length - index]. *)
Fixpoint getSignatureDistance_loop (remaining index distance : nat)
  (sourceSignature targetSignature : string) (enforceSubset : bool) : number :=
match remaining with
| 0 => Finite distance
| S remaining' =>
    let sourceValue := charCodeAt sourceSignature index in
    if code_neq sourceValue (charCodeAt targetSignature index) then
      if enforceSubset && code_is sourceValue CHAR_CODE_DEPENDENT then Infinity
      else getSignatureDistance_loop remaining' (S index) (S distance)
             sourceSignature targetSignature enforceSubset
    else getSignatureDistance_loop remaining' (S index) distance
           sourceSignature targetSignature enforceSubset
end.

Definition getSignatureDistance (sourceSignature targetSignature : string)
  (enforceSubset : bool) : number :=
getSignatureDistance_loop (String.length sourceSignature) 0 0
  sourceSignature targetSignature enforceSubset.

(** The [for] loop of [mergeSignatures]. *)
Fixpoint mergeSignatures_loop (remaining index : nat) (signature : string)
  (sourceSignature targetSignature : string) : string :=
match remaining with
| 0 => signature
| S remaining' =>
    mergeSignatures_loop remaining' (S index)
      (signature ++
       String (if code_is (charCodeAt sourceSignature index) CHAR_CODE_DEPENDENT
                  || code_is (charCodeAt targetSignature index) CHAR_CODE_DEPENDENT
               then CHAR_DEPENDENT else CHAR_INDEPENDENT) EmptyString)%string
      sourceSignature targetSignature
end.

Definition mergeSignatures (sourceSignature targetSignature : string) : string :=
mergeSignatures_loop (String.length sourceSignature) 0 EmptyString
  sourceSignature targetSignature.

(** *** Vocabulary of the specification *)

(** A signature over the alphabet ['X'], ['_']. *)
Fixpoint wf_signature (s : string) : bool :=
match s with
| EmptyString => true
| String c s' =>
    (Ascii.eqb c CHAR_DEPENDENT || Ascii.eqb c CHAR_INDEPENDENT) && wf_signature s'
end.

(** The encoding ['_' |-> 0], ['X' |-> 1] of one position. *)
Definition bit_of (c : ascii) : bool := Ascii.eqb c CHAR_DEPENDENT.
Definition char_of (b : bool) : ascii := if b then CHAR_DEPENDENT else CHAR_INDEPENDENT.

(** A signature as a bit vector, position [i] being bit [i]. *)
Fixpoint encode (s : string) : N :=
match s with
| EmptyString => 0%N
| String c s' => ((if bit_of c then 1 else 0) + 2 * encode s')%N
end.

(** Number of positions at which two signatures differ. *)
Fixpoint differing (s t : string) : nat :=
match s, t with
| String c s', String d t' => (if Ascii.eqb c d then 0 else 1) + differing s' t'
| _, _ => 0
end.

(** [s] needs an entry that [t] does not: ['X'] in [s] where [t] has ['_']. *)
Definition exceeds (s t : string) : Prop :=
exists i, String.get i s = Some CHAR_DEPENDENT /\ String.get i t = Some CHAR_INDEPENDENT.

(** Every ['X'] of [s] is an ['X'] of [t]. *)
Fixpoint subset (s t : string) : bool :=
match s, t with
| String c s', String d t' => (negb (bit_of c) || bit_of d) && subset s' t'
| _, _ => true
end.

End Signature.

(** ** JS collections *)

Module Js.

(** *** [Set<Module>]: the elements in insertion order *)

Definition set_has (x : nat) (s : list nat) : bool := existsb (Nat.eqb x) s.

Definition set_add (x : nat) (s : list nat) : list nat :=
if set_has x s then s else s ++ [x].

(** [for (const x of xs) s.add(x)] *)
Definition set_add_all (xs : list nat) (s : list nat) : list nat :=
fold_left (fun acc x => set_add x acc) xs s.

(** [new Set(iterable)] *)
Definition set_of_list (xs : list nat) : list nat := set_add_all xs [].

(** *** [Map<Module, V>]: the entries in insertion order *)

Fixpoint map_get {V : Type} (k : nat) (m : list (nat * V)) : option V :=
match m with
| [] => None
| (k', v) :: m' => if k =? k' then Some v else map_get k m'
end.

(** [m.set(k, v)]: a present key keeps its place, a new key goes last. *)
Fixpoint map_set {V : Type} (k : nat) (v : V) (m : list (nat * V)) : list (nat * V) :=
match m with
| [] => [(k, v)]
| (k', v') :: m' => if k =? k' then (k, v) :: m' else (k', v') :: map_set k v m'
end.

(** Modelled from the spec: [getOrCreate] of [utils/getOrCreate], which
  is not among the sources. The value stored under the key; when the key
  is absent [init] is stored under it first (section 4.2: "Record
  [currentEntry] in [dependentEntriesByModule[module]]"). The result is
  the value together with the map as it is afterwards. *)
Definition getOrCreate {V : Type} (m : list (nat * V)) (k : nat) (init : V)
: V * list (nat * V) :=
match map_get k m with
| Some v => (v, m)
| None => (init, map_set k init m)
end.

(** *** Objects used as dictionaries ([Object.create(null)]) *)

Fixpoint obj_get {V : Type} (k : string) (o : list (string * V)) : option V :=
match o with
| [] => None
| (k', v) :: o' => if String.eqb k k' then Some v else obj_get k o'
end.

Fixpoint obj_set {V : Type} (k : string) (v : V) (o : list (string * V))
: list (string * V) :=
match o with
| [] => [(k, v)]
| (k', v') :: o' => if String.eqb k k' then (k, v) :: o' else (k', v') :: obj_set k v o'
end.

Definition is_digit (c : ascii) : bool :=
(48 <=? nat_of_ascii c) && (nat_of_ascii c <=? 57).

Fixpoint digits_value (s : string) (acc : N) : option N :=
match s with
| EmptyString => Some acc
| String c s' =>
    if is_digit c then digits_value s' (acc * 10 + N.of_nat (nat_of_ascii c - 48))%N
    else None
end.

(** A property key that is an array index: the canonical decimal form of an
  integer below [2^32 - 1]. *)
Definition arrayIndex (k : string) : option N :=
match k with
| EmptyString => None
| String c rest =>
    if Ascii.eqb c "0" && negb (String.eqb rest EmptyString) then None
    else match digits_value k 0%N with
         | Some n => if (n <? 4294967295)%N then Some n else None
         | None => None
         end
end.

Fixpoint insert_by_index {V : Type} (n : N) (e : string * V)
  (l : list (N * (string * V))) : list (N * (string * V)) :=
match l with
| [] => [(n, e)]
| (n', e') :: l' =>
    if (n <=? n')%N then (n, e) :: (n', e') :: l' else (n', e') :: insert_by_index n e l'
end.

Fixpoint index_entries {V : Type} (o : list (string * V)) : list (N * (string * V)) :=
match o with
| [] => []
| (k, v) :: o' =>
    match arrayIndex k with
    | Some n => insert_by_index n (k, v) (index_entries o')
    | None => index_entries o'
    end
end.

Definition is_index_key {V : Type} (e : string * V) : bool :=
match arrayIndex (fst e) with Some _ => true | None => false end.

(** [Object.entries(o)]: array-index keys first, in ascending numeric order,
  then the other keys in insertion order. *)
Definition Object_entries {V : Type} (o : list (string * V)) : list (string * V) :=
map snd (index_entries o) ++ filter (fun e => negb (is_index_key e)) o.

Definition Object_values {V : Type} (o : list (string * V)) : list V :=
map snd (Object_entries o).

(** *** [Set<ChunkDescription>] with deletion

  The set data of a JS [Set]: a deleted element leaves an empty slot, a new
  element goes last; an iterator is an index into these slots. *)

Definition cset_elements (s : list (option nat)) : list nat :=
flat_map (fun slot => match slot with Some x => [x] | None => [] end) s.

Definition cset_has (x : nat) (s : list (option nat)) : bool :=
set_has x (cset_elements s).

Definition cset_add (x : nat) (s : list (option nat)) : list (option nat) :=
if cset_has x s then s else s ++ [Some x].

Definition cset_delete (x : nat) (s : list (option nat)) : list (option nat) :=
map (fun slot => match slot with
                 | Some y => if x =? y then None else Some y
                 | None => None
                 end) s.

Definition cset_of_list (xs : list nat) : list (option nat) :=
fold_left (fun acc x => cset_add x acc) xs [].

End Js.

Import Js.

(** ** Iteration over a set that may grow while it is iterated *)

Section ForOf.
Context {St : Type}.
(** the set the loop iterates, read from the current state *)
Variable iterated : St -> list nat.
(** the loop body *)
Variable body : nat -> St -> result St.

Fixpoint forOf (fuel index : nat) (st : St) : result St :=
  match fuel with
  | 0 => OutOfFuel
  | S fuel' =>
      match nth_error (iterated st) index with
      | None => Ok st
      | Some x => st' <- body x st ;; forOf fuel' (S index) st'
      end
  end.
End ForOf.

(** A [for] loop over a fixed list in the result monad. *)
Fixpoint forEach {A St : Type} (body : A -> St -> result St) (xs : list A) (st : St)
  : result St :=
  match xs with
  | [] => Ok st
  | x :: xs' => st' <- body x st ;; forEach body xs' st'
  end.

(** ** The module graph *)

Inductive Dependency : Type :=
| DepModule (m : nat)
| DepExternal (x : nat).

(** The [resolution] of a dynamic import: a [Module], an [ExternalModule], or
    neither (a string or [null]). *)
Inductive Resolution : Type :=
| ResModule (m : nat)
| ResExternal (x : nat)
| ResUnresolved.

(** What the chunk assignment reads of a [Module]. *)
Record Module : Type := {
  dependencies : list Dependency;
  getDependenciesToBeIncluded : list Dependency;
  dynamicImports : list Resolution;
  includedDynamicImporters : list nat;
  implicitlyLoadedBefore : list nat;
  implicitlyLoadedAfter : list nat;
  hasEffects : bool;
  (** [magicString.toString().length] *)
  magicString_length : nat
}.

(** The store of [Module] objects. *)
Definition Graph : Type := list (nat * Module).

Definition noModule : Module :=
  {| dependencies := []; getDependenciesToBeIncluded := []; dynamicImports := [];
     includedDynamicImporters := []; implicitlyLoadedBefore := [];
     implicitlyLoadedAfter := []; hasEffects := false; magicString_length := 0 |}.

(** Reading a module through its address. An address outside the store does
    not occur in a JS heap; it reads as a module without edges. *)
Definition getModule (G : Graph) (m : nat) : Module :=
  match map_get m G with
  | Some module => module
  | None => noModule
  end.

Definition dependency_refs (d : Dependency) : list nat :=
  match d with DepModule m => [m] | DepExternal _ => [] end.

Definition resolution_refs (r : Resolution) : list nat :=
  match r with ResModule m => [m] | _ => [] end.

Definition module_refs (module : Module) : list nat :=
  flat_map dependency_refs (dependencies module)
  ++ flat_map dependency_refs (getDependenciesToBeIncluded module)
  ++ flat_map resolution_refs (dynamicImports module)
  ++ includedDynamicImporters module
  ++ implicitlyLoadedBefore module
  ++ implicitlyLoadedAfter module.

(** Every module address the store holds or mentions. *)
Definition graph_universe (G : Graph) : list nat :=
  flat_map (fun am => fst am :: module_refs (snd am)) G.

(** The output. *)
Record Chunk : Type := {
  alias : option string;
  modules : list nat
}.

(** ** Manual chunks *)

Record ManualTraversal : Type := {
  mt_modulesToHandle : list nat;
  mt_manualChunkModules : list nat;
  mt_modulesInManualChunks : list nat
}.

(** Enough fuel for a traversal whose work list holds the seed and module
    addresses of the graph. *)
Definition traversal_fuel (G : Graph) : nat := length (graph_universe G) + 2.

(** The body of [for (const module of modulesToHandle)] in
    [addStaticDependenciesToManualChunk]. *)
Definition addStaticDependenciesToManualChunk_module (G : Graph) (module : nat)
    (st : ManualTraversal) : result ManualTraversal :=
  let modulesInManualChunks := set_add module (mt_modulesInManualChunks st) in
  let manualChunkModules := mt_manualChunkModules st ++ [module] in
  Ok {| mt_modulesToHandle :=
          fold_left
            (fun modulesToHandle dependency =>
               match dependency with
               | DepExternal _ => modulesToHandle
               | DepModule d =>
                   if set_has d modulesInManualChunks then modulesToHandle
                   else set_add d modulesToHandle
               end)
            (dependencies (getModule G module)) (mt_modulesToHandle st);
        mt_manualChunkModules := manualChunkModules;
        mt_modulesInManualChunks := modulesInManualChunks |}.

(** The state the traversal of [entry] ends in: its work list, the bucket and
    [modulesInManualChunks]. *)
Definition addStaticDependenciesToManualChunk_run (G : Graph) (entry : nat)
    (manualChunkModules modulesInManualChunks : list nat) : result ManualTraversal :=
  forOf mt_modulesToHandle (addStaticDependenciesToManualChunk_module G)
    (traversal_fuel G) 0
    {| mt_modulesToHandle := [entry];
       mt_manualChunkModules := manualChunkModules;
       mt_modulesInManualChunks := modulesInManualChunks |}.

(** [addStaticDependenciesToManualChunk]: the bucket and
    [modulesInManualChunks] as the call leaves them. *)
Definition addStaticDependenciesToManualChunk (G : Graph) (entry : nat)
    (manualChunkModules modulesInManualChunks : list nat)
  : result (list nat * list nat) :=
  st <- addStaticDependenciesToManualChunk_run G entry manualChunkModules
          modulesInManualChunks ;;
  Ok (mt_manualChunkModules st, mt_modulesInManualChunks st).

(** [manualChunkModulesByAlias] and [modulesInManualChunks]. *)
Definition ManualChunks : Type := (list (string * list nat) * list nat)%type.

(** The body of [for (const [entry, alias] of manualChunkAliasByEntry)];
    [manualChunkModulesByAlias[alias] ||= []] creates the bucket of a new
    alias, and the traversal then pushes onto that bucket. *)
Definition manualChunks_entry (G : Graph) (entryAlias : nat * string) (st : ManualChunks)
  : result ManualChunks :=
  let '(entry, alias) := entryAlias in
  let '(manualChunkModulesByAlias, modulesInManualChunks) := st in
  let '(bucket, byAlias) :=
    match obj_get alias manualChunkModulesByAlias with
    | Some bucket => (bucket, manualChunkModulesByAlias)
    | None => ([], obj_set alias [] manualChunkModulesByAlias)
    end in
  r <- addStaticDependenciesToManualChunk G entry bucket modulesInManualChunks ;;
  Ok (obj_set alias (fst r) byAlias, snd r).

Definition manualChunks (G : Graph) (manualChunkAliasByEntry : list (nat * string))
  : result ManualChunks :=
  forEach (manualChunks_entry G) manualChunkAliasByEntry
    ([], set_of_list (map fst manualChunkAliasByEntry)).

(** ** Graph analysis *)

Record AnalysisState : Type := {
  as_dynamicEntries : list nat;
  as_dependentEntriesByModule : list (nat * list nat);
  as_allEntries : list nat
}.

Record AnalysisTraversal : Type := {
  at_state : AnalysisState;
  at_modulesToHandle : list nat
}.

(** The body of [for (const module of modulesToHandle)] in
    [analyzeModuleGraph]. *)
Definition analyzeModuleGraph_module (G : Graph) (currentEntry module : nat)
    (st : AnalysisTraversal) : result AnalysisTraversal :=
  let a := at_state st in
  let '(dependentEntries, byModule) :=
    getOrCreate (as_dependentEntriesByModule a) module [] in
  let byModule := map_set module (set_add currentEntry dependentEntries) byModule in
  let modulesToHandle :=
    fold_left
      (fun modulesToHandle dependency =>
         match dependency with
         | DepExternal _ => modulesToHandle
         | DepModule d => set_add d modulesToHandle
         end)
      (getDependenciesToBeIncluded (getModule G module)) (at_modulesToHandle st) in
  let entries1 :=
    fold_left
      (fun (acc : list nat * list nat) resolution =>
         let '(dynamicEntries, allEntries) := acc in
         match resolution with
         | ResModule r =>
             if (0 <? length (includedDynamicImporters (getModule G r)))
                && negb (set_has r allEntries)
             then (set_add r dynamicEntries, set_add r allEntries)
             else acc
         | _ => acc
         end)
      (dynamicImports (getModule G module)) (as_dynamicEntries a, as_allEntries a) in
  let entries2 :=
    fold_left
      (fun (acc : list nat * list nat) dependency =>
         let '(dynamicEntries, allEntries) := acc in
         if negb (set_has dependency allEntries)
         then (set_add dependency dynamicEntries, set_add dependency allEntries)
         else acc)
      (implicitlyLoadedBefore (getModule G module)) entries1 in
  Ok {| at_state := {| as_dynamicEntries := fst entries2;
                       as_dependentEntriesByModule := byModule;
                       as_allEntries := snd entries2 |};
        at_modulesToHandle := modulesToHandle |}.

(** The body of [for (const currentEntry of allEntries)]. *)
Definition analyzeModuleGraph_entry (G : Graph) (currentEntry : nat)
    (a : AnalysisState) : result AnalysisState :=
  st <- forOf at_modulesToHandle (analyzeModuleGraph_module G currentEntry)
          (traversal_fuel G) 0
          {| at_state := a; at_modulesToHandle := [currentEntry] |} ;;
  Ok (at_state st).

(** [getDynamicallyDependentEntriesByDynamicEntry]; iterating
    [dependentEntriesByModule.get(importer)] throws when the importer has no
    entry in the map. *)
Definition getDynamicallyDependentEntriesByDynamicEntry (G : Graph)
    (dependentEntriesByModule : list (nat * list nat)) (dynamicEntries : list nat)
  : result (list (nat * list nat)) :=
  forEach
    (fun dynamicEntry dynamicallyDependentEntriesByDynamicEntry =>
       let '(dynamicDependentEntries, byDynamicEntry) :=
         getOrCreate dynamicallyDependentEntriesByDynamicEntry dynamicEntry [] in
       added <- forEach
                  (fun importer dynamicDependentEntries =>
                     match map_get importer dependentEntriesByModule with
                     | None => TypeError
                     | Some entries => Ok (set_add_all entries dynamicDependentEntries)
                     end)
                  (includedDynamicImporters (getModule G dynamicEntry)
                   ++ implicitlyLoadedAfter (getModule G dynamicEntry))
                  dynamicDependentEntries ;;
       Ok (map_set dynamicEntry added byDynamicEntry))
    dynamicEntries [].

Record Analysis : Type := {
  allEntries : list nat;
  dependentEntriesByModule : list (nat * list nat);
  dynamicallyDependentEntriesByDynamicEntry : list (nat * list nat)
}.

Definition analyzeModuleGraph (G : Graph) (entries : list nat) : result Analysis :=
  a <- forOf as_allEntries (analyzeModuleGraph_entry G)
         (traversal_fuel G + length entries) 0
         {| as_dynamicEntries := [];
            as_dependentEntriesByModule := [];
            as_allEntries := set_of_list entries |} ;;
  byDynamicEntry <- getDynamicallyDependentEntriesByDynamicEntry G
                      (as_dependentEntriesByModule a) (as_dynamicEntries a) ;;
  Ok {| allEntries := as_allEntries a;
        dependentEntriesByModule := as_dependentEntriesByModule a;
        dynamicallyDependentEntriesByDynamicEntry := byDynamicEntry |}.

(** ** Entry assignment *)

Definition MAX_ENTRIES_TO_CHECK_FOR_SHARED_DEPENDENCIES : nat := 3.

(** The [for (const entry of entriesToCheck)] loop of
    [areEntriesContainedOrDynamicallyDependent]. [containedIn] and the value
    read from the map may be [undefined], and reading through them throws. *)
Fixpoint areEntriesContainedOrDynamicallyDependent_loop (fuel index : nat)
    (entriesToCheck : list nat) (containedIn : option (list nat))
    (staticEntries : list nat)
    (dynamicallyDependentEntriesByDynamicEntry : list (nat * list nat)) : result bool :=
  match fuel with
  | 0 => OutOfFuel
  | S fuel' =>
      match nth_error entriesToCheck index with
      | None => Ok true
      | Some entry =>
          match containedIn with
          | None => TypeError
          | Some contained =>
              if set_has entry contained then
                areEntriesContainedOrDynamicallyDependent_loop fuel' (S index)
                  entriesToCheck containedIn staticEntries
                  dynamicallyDependentEntriesByDynamicEntry
              else if set_has entry staticEntries then Ok false
              else
                match map_get entry dynamicallyDependentEntriesByDynamicEntry with
                | None => TypeError
                | Some dynamicallyDependentEntries =>
                    if MAX_ENTRIES_TO_CHECK_FOR_SHARED_DEPENDENCIES
                       <? length dynamicallyDependentEntries
                    then Ok false
                    else
                      areEntriesContainedOrDynamicallyDependent_loop fuel' (S index)
                        (set_add_all dynamicallyDependentEntries entriesToCheck)
                        containedIn staticEntries
                        dynamicallyDependentEntriesByDynamicEntry
                end
          end
      end
  end.

Definition areEntriesContainedOrDynamicallyDependent (entries : list nat)
    (containedIn : option (list nat)) (staticEntries : list nat)
    (dynamicallyDependentEntriesByDynamicEntry : list (nat * list nat)) : result bool :=
  if MAX_ENTRIES_TO_CHECK_FOR_SHARED_DEPENDENCIES <? length entries then Ok false
  else
    areEntriesContainedOrDynamicallyDependent_loop
      (length entries
       + length (flat_map snd dynamicallyDependentEntriesByDynamicEntry) + 1)
      0 (set_of_list entries) containedIn staticEntries
      dynamicallyDependentEntriesByDynamicEntry.

Record AssignTraversal : Type := {
  asg_assignedEntriesByModule : list (nat * list nat);
  asg_modulesToHandle : list nat
}.

(** The already-loaded check of [assignEntryToStaticDependencies] for one
    module: [dynamicDependentEntries && areEntriesContainedOr...(...)]. *)
Definition isAlreadyLoaded (a : Analysis) (staticEntries : list nat)
    (dynamicDependentEntries : option (list nat)) (module : nat) : result bool :=
  match dynamicDependentEntries with
  | None => Ok false
  | Some entries =>
      areEntriesContainedOrDynamicallyDependent entries
        (map_get module (dependentEntriesByModule a)) staticEntries
        (dynamicallyDependentEntriesByDynamicEntry a)
  end.

(** The body of [for (const module of modulesToHandle)] in
    [assignEntryToStaticDependencies]. *)
Definition assignEntryToStaticDependencies_module (G : Graph) (entry : nat)
    (a : Analysis) (modulesInManualChunks staticEntries : list nat)
    (dynamicDependentEntries : option (list nat))
    (module : nat) (st : AssignTraversal) : result AssignTraversal :=
  let '(assignedEntries, assigned) :=
    getOrCreate (asg_assignedEntriesByModule st) module [] in
  alreadyLoaded <- isAlreadyLoaded a staticEntries dynamicDependentEntries module ;;
  if alreadyLoaded then
    Ok {| asg_assignedEntriesByModule := assigned;
          asg_modulesToHandle := asg_modulesToHandle st |}
  else
    Ok {| asg_assignedEntriesByModule :=
            map_set module (set_add entry assignedEntries) assigned;
          asg_modulesToHandle :=
            fold_left
              (fun modulesToHandle dependency =>
                 match dependency with
                 | DepExternal _ => modulesToHandle
                 | DepModule d =>
                     if set_has d modulesInManualChunks then modulesToHandle
                     else set_add d modulesToHandle
                 end)
              (getDependenciesToBeIncluded (getModule G module))
              (asg_modulesToHandle st) |}.

(** The state the traversal of [entry] ends in: [assignedEntriesByModule] and
    the work list [modulesToHandle], the modules visited from [entry]. *)
Definition assignEntryToStaticDependencies_run (G : Graph) (entry : nat)
    (a : Analysis) (assignedEntriesByModule : list (nat * list nat))
    (modulesInManualChunks staticEntries : list nat) : result AssignTraversal :=
  forOf asg_modulesToHandle
    (assignEntryToStaticDependencies_module G entry a modulesInManualChunks
       staticEntries (map_get entry (dynamicallyDependentEntriesByDynamicEntry a)))
    (traversal_fuel G) 0
    {| asg_assignedEntriesByModule := assignedEntriesByModule;
       asg_modulesToHandle := [entry] |}.

Definition assignEntryToStaticDependencies (G : Graph) (entry : nat)
    (a : Analysis) (assignedEntriesByModule : list (nat * list nat))
    (modulesInManualChunks staticEntries : list nat)
  : result (list (nat * list nat)) :=
  st <- assignEntryToStaticDependencies_run G entry a assignedEntriesByModule
          modulesInManualChunks staticEntries ;;
  Ok (asg_assignedEntriesByModule st).

(** The loop [for (const entry of allEntries)] of [getChunkAssignments]. *)
Definition assignEntries (G : Graph) (a : Analysis)
    (modulesInManualChunks staticEntries : list nat)
  : result (list (nat * list nat)) :=
  forEach
    (fun entry assignedEntriesByModule =>
       if set_has entry modulesInManualChunks then Ok assignedEntriesByModule
       else assignEntryToStaticDependencies G entry a assignedEntriesByModule
              modulesInManualChunks staticEntries)
    (allEntries a) [].

(** ** Grouping by signature *)

Import Signature.

(** The signature of a module: one character per entry of [allEntries], in
    iteration order. *)
Definition chunkSignature (assignedEntries allEntries : list nat) : string :=
  fold_left
    (fun chunkSignature entry =>
       (chunkSignature
        ++ String (if set_has entry assignedEntries then CHAR_DEPENDENT
                   else CHAR_INDEPENDENT) EmptyString)%string)
    allEntries EmptyString.

Definition getChunkModulesBySignature (assignedEntriesByModule : list (nat * list nat))
    (allEntries : list nat) : list (string * list nat) :=
  fold_left
    (fun chunkModules (moduleEntries : nat * list nat) =>
       let '(module, assignedEntries) := moduleEntries in
       let chunkSignature := chunkSignature assignedEntries allEntries in
       match obj_get chunkSignature chunkModules with
       | Some chunk => obj_set chunkSignature (chunk ++ [module]) chunkModules
       | None => obj_set chunkSignature [module] chunkModules
       end)
    assignedEntriesByModule [].

(** ** Chunk descriptions and the partition *)

Module ChunkDescription.
Record t : Type := mk {
  modules : list nat;
  pure : bool;
  signature : string;
  size : nat
}.
End ChunkDescription.

(** The four sets of a [ChunkPartition]. *)
Inductive Bucket : Type := SmallPure | SmallSideEffect | BigPure | BigSideEffect.

(** [small.pure], [small.sideEffect], [big.pure], [big.sideEffect]: sets of
    references to chunk descriptions. *)
Record ChunkPartition : Type := {
  small_pure : list (option nat);
  small_sideEffect : list (option nat);
  big_pure : list (option nat);
  big_sideEffect : list (option nat)
}.

Definition bucket (b : Bucket) (p : ChunkPartition) : list (option nat) :=
  match b with
  | SmallPure => small_pure p
  | SmallSideEffect => small_sideEffect p
  | BigPure => big_pure p
  | BigSideEffect => big_sideEffect p
  end.

Definition bucket_update (b : Bucket) (f : list (option nat) -> list (option nat))
    (p : ChunkPartition) : ChunkPartition :=
  match b with
  | SmallPure =>
      {| small_pure := f (small_pure p); small_sideEffect := small_sideEffect p;
         big_pure := big_pure p; big_sideEffect := big_sideEffect p |}
  | SmallSideEffect =>
      {| small_pure := small_pure p; small_sideEffect := f (small_sideEffect p);
         big_pure := big_pure p; big_sideEffect := big_sideEffect p |}
  | BigPure =>
      {| small_pure := small_pure p; small_sideEffect := small_sideEffect p;
         big_pure := f (big_pure p); big_sideEffect := big_sideEffect p |}
  | BigSideEffect =>
      {| small_pure := small_pure p; small_sideEffect := small_sideEffect p;
         big_pure := big_pure p; big_sideEffect := f (big_sideEffect p) |}
  end.

(** The chunk description objects, by reference, and the partition that
    holds references to them. *)
Record MergeState : Type := {
  heap : list ChunkDescription.t;
  chunkPartition : ChunkPartition
}.

Definition noChunk : ChunkDescription.t :=
  ChunkDescription.mk [] true EmptyString 0.

(** Reading a chunk description through a reference; the references the
    partition holds all point into the heap. *)
Definition deref (h : list ChunkDescription.t) (ref : nat) : ChunkDescription.t :=
  nth ref h noChunk.

Fixpoint heap_update (ref : nat) (c : ChunkDescription.t) (h : list ChunkDescription.t)
  : list ChunkDescription.t :=
  match h, ref with
  | [], _ => []
  | _ :: h', 0 => c :: h'
  | c' :: h', S ref' => c' :: heap_update ref' c h'
  end.

(** [minChunkSize] is a JS number. The code compares it with the sizes of
    the chunks and with [0], and formats it for its log messages. Here it is
    an integer when it is finite, or one of the three numbers that are not
    finite; an integer is read as such a number. *)
Module Number.
Inductive t : Type :=
| Integer (z : Z)
| PositiveInfinity
| NegativeInfinity
| NaN.

(** [Number.isFinite(number)] *)
Definition isFinite (number : t) : bool :=
  match number with
  | Integer _ => true
  | PositiveInfinity | NegativeInfinity | NaN => false
  end.
End Number.

Coercion Number.Integer : Z >-> Number.t.
Bind Scope Z_scope with Number.t.

(** [size < minChunkSize]: every size is below [Infinity], and a comparison
    with [NaN] is false. *)
Definition is_small (size : nat) (minChunkSize : Number.t) : bool :=
  match minChunkSize with
  | Number.Integer z => (Z.of_nat size <? z)%Z
  | Number.PositiveInfinity => true
  | Number.NegativeInfinity | Number.NaN => false
  end.

(** [minChunkSize === 0] *)
Definition is_zero (minChunkSize : Number.t) : bool :=
  match minChunkSize with
  | Number.Integer z => (z =? 0)%Z
  | Number.PositiveInfinity | Number.NegativeInfinity | Number.NaN => false
  end.

(** [prettyBytes] of the package [pretty-bytes], which is not among the
    sources: it throws a [TypeError] unless its argument is a finite number.
    The string it returns for a finite number goes into a log message and
    nowhere else. *)
Definition prettyBytes (number : Number.t) : result unit :=
  if Number.isFinite number then Ok tt else TypeError.

Definition getChunksInPartition (chunk : ChunkDescription.t) (minChunkSize : Number.t)
  : Bucket :=
  if is_small (ChunkDescription.size chunk) minChunkSize
  then (if ChunkDescription.pure chunk then SmallPure else SmallSideEffect)
  else (if ChunkDescription.pure chunk then BigPure else BigSideEffect).

(** The chunk description [getPartitionedChunks] creates for one signature. *)
Definition describeChunk (G : Graph) (signatureModules : string * list nat)
  : ChunkDescription.t :=
  let '(signature, modules) := signatureModules in
  let '(size, pure) :=
    fold_left
      (fun (acc : nat * bool) module =>
         let '(size, pure) := acc in
         (size + magicString_length (getModule G module),
          pure && negb (hasEffects (getModule G module))))
      modules (0, true) in
  ChunkDescription.mk modules pure signature size.

(** [chunks.sort(compareChunks)]: ascending by [size], stable. *)
Fixpoint sort_insert (h : list ChunkDescription.t) (ref : nat) (sorted : list nat)
  : list nat :=
  match sorted with
  | [] => [ref]
  | ref' :: sorted' =>
      if ChunkDescription.size (deref h ref) <=? ChunkDescription.size (deref h ref')
      then ref :: ref' :: sorted'
      else ref' :: sort_insert h ref sorted'
  end.

Definition sortChunks (h : list ChunkDescription.t) (refs : list nat) : list nat :=
  fold_right (sort_insert h) [] refs.

Definition Bucket_eqb (a b : Bucket) : bool :=
  match a, b with
  | SmallPure, SmallPure | SmallSideEffect, SmallSideEffect
  | BigPure, BigPure | BigSideEffect, BigSideEffect => true
  | _, _ => false
  end.

(** The array of the chunks pushed onto one of the four arrays of
    [getPartitionedChunks], sorted and turned into a set. *)
Definition partitionedSet (h : list ChunkDescription.t) (minChunkSize : Number.t)
    (b : Bucket)
  : list (option nat) :=
  cset_of_list
    (sortChunks h
       (filter (fun ref => Bucket_eqb (getChunksInPartition (deref h ref) minChunkSize) b)
          (seq 0 (length h)))).

Definition getPartitionedChunks (G : Graph)
    (chunkModulesBySignature : list (string * list nat)) (minChunkSize : Number.t)
  : MergeState :=
  let h := map (describeChunk G) (Object_entries chunkModulesBySignature) in
  {| heap := h;
     chunkPartition :=
       {| small_pure := partitionedSet h minChunkSize SmallPure;
          small_sideEffect := partitionedSet h minChunkSize SmallSideEffect;
          big_pure := partitionedSet h minChunkSize BigPure;
          big_sideEffect := partitionedSet h minChunkSize BigSideEffect |} |}.

(** ** Merging *)

(** The distance [mergeChunks] computes between the chunk to merge and a
    target. *)
Definition mergeDistance (merged target : ChunkDescription.t) : number :=
  if ChunkDescription.pure merged
  then getSignatureDistance (ChunkDescription.signature merged)
         (ChunkDescription.signature target) (negb (ChunkDescription.pure target))
  else getSignatureDistance (ChunkDescription.signature target)
         (ChunkDescription.signature merged) true.

(** The loop [for (const targetChunk of concatLazy(targetChunks))]. *)
Fixpoint findClosestChunk (h : list ChunkDescription.t) (mergedChunk : nat)
    (targets : list nat) (closestChunk : option nat) (closestChunkDistance : number)
  : option nat :=
  match targets with
  | [] => closestChunk
  | targetChunk :: targets' =>
      if mergedChunk =? targetChunk
      then findClosestChunk h mergedChunk targets' closestChunk closestChunkDistance
      else
        let distance := mergeDistance (deref h mergedChunk) (deref h targetChunk) in
        if number_eqb distance (Finite 1) then Some targetChunk
        else if number_ltb distance closestChunkDistance
        then findClosestChunk h mergedChunk targets' (Some targetChunk) distance
        else findClosestChunk h mergedChunk targets' closestChunk closestChunkDistance
  end.

(** Modelled from the spec: [concatLazy] of [utils/iterators], which is
    not among the sources. The elements of the given sets, set after set
    ("scanning the candidate-set sequences in order"); the sets are not
    changed while they are scanned, so the lazy iteration sees them as they
    are when the scan starts. *)
Definition concatLazy (targetChunks : list Bucket) (p : ChunkPartition) : list nat :=
  flat_map (fun b => cset_elements (bucket b p)) targetChunks.

(** The target chosen for [mergedChunk], if any. *)
Definition closestChunkOf (targetChunks : list Bucket) (mergedChunk : nat)
    (st : MergeState) : option nat :=
  findClosestChunk (heap st) mergedChunk (concatLazy targetChunks (chunkPartition st))
    None Infinity.

(** The chunk [closestChunk] after its four fields have been updated with
    those of the merged chunk. *)
Definition absorb (closest merged : ChunkDescription.t) : ChunkDescription.t :=
  ChunkDescription.mk
    (ChunkDescription.modules closest ++ ChunkDescription.modules merged)
    (ChunkDescription.pure closest && ChunkDescription.pure merged)
    (mergeSignatures (ChunkDescription.signature merged)
       (ChunkDescription.signature closest))
    (ChunkDescription.size closest + ChunkDescription.size merged).

(** The statements under [if (closestChunk)]. *)
Definition mergeInto (chunksToBeMerged : Bucket) (minChunkSize : Number.t)
    (mergedChunk closestChunk : nat) (st : MergeState) : MergeState :=
  let merged := deref (heap st) mergedChunk in
  let closest := deref (heap st) closestChunk in
  let p1 := bucket_update chunksToBeMerged (cset_delete mergedChunk) (chunkPartition st) in
  let p2 := bucket_update (getChunksInPartition closest minChunkSize)
              (cset_delete closestChunk) p1 in
  let closest' := absorb closest merged in
  {| heap := heap_update closestChunk closest' (heap st);
     chunkPartition :=
       bucket_update (getChunksInPartition closest' minChunkSize)
         (cset_add closestChunk) p2 |}.

(** The body of [for (const mergedChunk of chunksToBeMerged)]. *)
Definition mergeChunks_chunk (chunksToBeMerged : Bucket) (targetChunks : list Bucket)
    (minChunkSize : Number.t) (mergedChunk : nat) (st : MergeState) : MergeState :=
  match closestChunkOf targetChunks mergedChunk st with
  | Some closestChunk => mergeInto chunksToBeMerged minChunkSize mergedChunk closestChunk st
  | None => st
  end.

(** One step of the iterator of [chunksToBeMerged] at slot [index]: [None]
    when the set is exhausted. *)
Definition mergeChunks_step (chunksToBeMerged : Bucket) (targetChunks : list Bucket)
    (minChunkSize : Number.t) (index : nat) (st : MergeState) : option MergeState :=
  match nth_error (bucket chunksToBeMerged (chunkPartition st)) index with
  | None => None
  | Some None => Some st
  | Some (Some mergedChunk) =>
      Some (mergeChunks_chunk chunksToBeMerged targetChunks minChunkSize mergedChunk st)
  end.

Fixpoint mergeChunks_loop (fuel : nat) (chunksToBeMerged : Bucket)
    (targetChunks : list Bucket) (minChunkSize : Number.t) (index : nat)
    (st : MergeState)
  : result MergeState :=
  match fuel with
  | 0 => OutOfFuel
  | S fuel' =>
      match mergeChunks_step chunksToBeMerged targetChunks minChunkSize index st with
      | None => Ok st
      | Some st' =>
          mergeChunks_loop fuel' chunksToBeMerged targetChunks minChunkSize (S index) st'
      end
  end.

Definition all_buckets : list Bucket := [SmallSideEffect; SmallPure; BigSideEffect; BigPure].

(** The chunks of the partition, in the order of the result of
    [getOptimizedChunks]. *)
Definition live_chunks (p : ChunkPartition) : list nat := concatLazy all_buckets p.

Definition mergeChunks (chunksToBeMerged : Bucket) (targetChunks : list Bucket)
    (minChunkSize : Number.t) (st : MergeState) : result MergeState :=
  mergeChunks_loop
    (length (bucket chunksToBeMerged (chunkPartition st))
     + length (live_chunks (chunkPartition st)) + 1)
    chunksToBeMerged targetChunks minChunkSize 0 st.

Definition pass1_targets : list Bucket := [SmallPure; BigPure].
Definition pass2_targets : list Bucket := [SmallPure; BigSideEffect; BigPure].

(** [getOptimizedChunks]. Of its log messages and timers what is kept is
    the four calls of [prettyBytes(minChunkSize)], which can throw: one
    before and one after each call of [mergeChunks]. *)
Definition getOptimizedChunks (G : Graph)
    (chunkModulesBySignature : list (string * list nat)) (minChunkSize : Number.t)
  : result (list ChunkDescription.t) :=
  let st0 := getPartitionedChunks G chunkModulesBySignature minChunkSize in
  logged <- prettyBytes minChunkSize ;;
  st1 <- mergeChunks SmallSideEffect pass1_targets minChunkSize st0 ;;
  logged <- prettyBytes minChunkSize ;;
  logged <- prettyBytes minChunkSize ;;
  st2 <- mergeChunks SmallPure pass2_targets minChunkSize st1 ;;
  logged <- prettyBytes minChunkSize ;;
  Ok (map (deref (heap st2)) (live_chunks (chunkPartition st2))).

Definition createChunks (G : Graph) (allEntries : list nat)
    (assignedEntriesByModule : list (nat * list nat)) (minChunkSize : Number.t)
  : result (list Chunk) :=
  let chunkModulesBySignature :=
    getChunkModulesBySignature assignedEntriesByModule allEntries in
  if is_zero minChunkSize
  then Ok (map (fun modules => {| alias := None; modules := modules |})
             (Object_values chunkModulesBySignature))
  else
    chunks <- getOptimizedChunks G chunkModulesBySignature minChunkSize ;;
    Ok (map (fun chunk => {| alias := None; modules := ChunkDescription.modules chunk |})
          chunks).

(** ** The entry point *)

(** What [getChunkAssignments] computes before it creates the automatic
    chunks. *)
Record Assignment : Type := {
  manualChunkModulesByAlias : list (string * list nat);
  modulesInManualChunks : list nat;
  analysis : Analysis;
  assignedEntriesByModule : list (nat * list nat)
}.

Definition assignModules (G : Graph) (entries : list nat)
    (manualChunkAliasByEntry : list (nat * string)) : result Assignment :=
  manual <- manualChunks G manualChunkAliasByEntry ;;
  a <- analyzeModuleGraph G entries ;;
  assigned <- assignEntries G a (snd manual) (set_of_list entries) ;;
  Ok {| manualChunkModulesByAlias := fst manual;
        modulesInManualChunks := snd manual;
        analysis := a;
        assignedEntriesByModule := assigned |}.

Definition getChunkAssignments (G : Graph) (entries : list nat)
    (manualChunkAliasByEntry : list (nat * string)) (minChunkSize : Number.t)
  : result (list Chunk) :=
  asg <- assignModules G entries manualChunkAliasByEntry ;;
  automatic <- createChunks G (allEntries (analysis asg))
                 (assignedEntriesByModule asg) minChunkSize ;;
  Ok (map (fun aliasModules : string * list nat =>
             {| alias := Some (fst aliasModules); modules := snd aliasModules |})
          (Object_entries (manualChunkModulesByAlias asg))
      ++ automatic).

(** ** Vocabulary of the properties *)

(** The merge of two signatures, position by position. *)
Fixpoint merge_pointwise (s t : string) : string :=
  match s, t with
  | String c s', String d t' => String (char_of (bit_of c || bit_of d)) (merge_pointwise s' t')
  | _, _ => EmptyString
  end.

(** Adding to a work list the module dependencies that are not excluded. *)
Definition enqueue (excluded : list nat) (deps : list Dependency) (modulesToHandle : list nat)
  : list nat :=
  fold_left
    (fun modulesToHandle dependency =>
       match dependency with
       | DepExternal _ => modulesToHandle
       | DepModule d =>
           if set_has d excluded then modulesToHandle else set_add d modulesToHandle
       end)
    deps modulesToHandle.

(** A work list stays within the seed and the graph, without repetition. *)
Definition worklist_ok (G : Graph) (seed : nat) (l : list nat) : Prop :=
  NoDup l /\ incl l (seed :: graph_universe G).

(** Section 4.4 of the specification on the traversal of
    [assignEntryToStaticDependencies], as a property of a final work list: it
    is closed under the included, non-external, non-manual dependencies. *)
Definition continues_regardless (G : Graph) (inManual : list nat) (visited : list nat)
  : Prop :=
  forall module d,
    In module visited ->
    In (DepModule d) (getDependenciesToBeIncluded (getModule G module)) ->
    ~ In d inManual ->
    In d visited.

(** What holds instead: the work list is closed under the dependencies of
    the modules whose attribution is not skipped, and nothing else is
    visited. *)
Definition continues_unless_skipped (G : Graph) (entry : nat) (a : Analysis)
    (inManual staticEntries : list nat) (visited : list nat) : Prop :=
  let dde := map_get entry (dynamicallyDependentEntriesByDynamicEntry a) in
  (forall module d,
      In module visited ->
      isAlreadyLoaded a staticEntries dde module = Ok false ->
      In (DepModule d) (getDependenciesToBeIncluded (getModule G module)) ->
      ~ In d inManual ->
      In d visited)
  /\ (forall d,
        In d visited ->
        d = entry
        \/ exists module,
             In module visited
             /\ isAlreadyLoaded a staticEntries dde module = Ok false
             /\ In (DepModule d) (getDependenciesToBeIncluded (getModule G module))
             /\ ~ In d inManual).

Fixpoint string_of_chars (l : list ascii) : string :=
  match l with
  | [] => EmptyString
  | c :: l' => String c (string_of_chars l')
  end.

(** A string without its first character. *)
Definition string_tail (t : string) : string :=
  match t with
  | EmptyString => EmptyString
  | String _ t' => t'
  end.

(** The modules of [assignedEntriesByModule] whose signature is [k], in the
    iteration order of the map. *)
Definition group_of (allEntries : list nat) (k : string)
    (assignedEntriesByModule : list (nat * list nat)) : list nat :=
  map fst (filter (fun me => String.eqb (chunkSignature (snd me) allEntries) k)
             assignedEntriesByModule).

(** The body of the loop of [getChunkModulesBySignature]. *)
Definition group_step (allEntries : list nat) (chunkModules : list (string * list nat))
    (moduleEntries : nat * list nat) : list (string * list nat) :=
  let '(module, assignedEntries) := moduleEntries in
  let chunkSignature := chunkSignature assignedEntries allEntries in
  match obj_get chunkSignature chunkModules with
  | Some chunk => obj_set chunkSignature (chunk ++ [module]) chunkModules
  | None => obj_set chunkSignature [module] chunkModules
  end.

(** *** The state of the merge *)

Definition chunk_at (st : MergeState) (ref : nat) : ChunkDescription.t :=
  deref (heap st) ref.

(** The chunk [ref] is in the set [b] of the partition. *)
Definition in_bucket (st : MergeState) (b : Bucket) (ref : nat) : Prop :=
  In ref (cset_elements (bucket b (chunkPartition st))).

(** The chunk [ref] is in the partition. *)
Definition live (st : MergeState) (ref : nat) : Prop :=
  exists b, in_bucket st b ref.

(** The two calls of [mergeChunks] in [getOptimizedChunks]. *)
Inductive Pass : Type := Pass1 | Pass2.

Definition pass_source (pass : Pass) : Bucket :=
  match pass with Pass1 => SmallSideEffect | Pass2 => SmallPure end.

Definition pass_targets (pass : Pass) : list Bucket :=
  match pass with Pass1 => pass1_targets | Pass2 => pass2_targets end.

(** The chunks whose signatures are pairwise different during a pass: all of
    them in the first pass, those in the target sets in the second. *)
Definition eligible (pass : Pass) (st : MergeState) (ref : nat) : Prop :=
  match pass with
  | Pass1 => live st ref
  | Pass2 => exists b, In b pass2_targets /\ in_bucket st b ref
  end.

Definition is_pure_module (G : Graph) (module : nat) : bool :=
  negb (hasEffects (getModule G module)).

(** The invariant of the merge: [n] is the number of entries, [osig] the
    signature a module had when it was grouped, [M] the modules grouped. *)
Record merge_inv (G : Graph) (minChunkSize : Z) (n : nat) (osig : nat -> string)
    (M : list nat) (pass : Pass) (st : MergeState) : Prop := {
  inv_nodup : forall b, NoDup (cset_elements (bucket b (chunkPartition st)));
  inv_heap : forall r, live st r -> r < length (heap st);
  inv_class : forall b r,
    in_bucket st b r -> getChunksInPartition (chunk_at st r) minChunkSize = b;
  inv_sig : forall r,
    live st r ->
    wf_signature (ChunkDescription.signature (chunk_at st r)) = true
    /\ String.length (ChunkDescription.signature (chunk_at st r)) = n;
  inv_pure : forall r,
    live st r ->
    ChunkDescription.pure (chunk_at st r)
    = forallb (is_pure_module G) (ChunkDescription.modules (chunk_at st r));
  inv_effects : forall r m,
    live st r -> In m (ChunkDescription.modules (chunk_at st r)) ->
    hasEffects (getModule G m) = true ->
    ChunkDescription.signature (chunk_at st r) = osig m;
  inv_distinct : forall r1 r2,
    eligible pass st r1 -> eligible pass st r2 -> r1 <> r2 ->
    ChunkDescription.signature (chunk_at st r1)
    <> ChunkDescription.signature (chunk_at st r2);
  inv_modules_nodup : forall r,
    live st r -> NoDup (ChunkDescription.modules (chunk_at st r));
  inv_modules_disjoint : forall r1 r2 m,
    live st r1 -> live st r2 ->
    In m (ChunkDescription.modules (chunk_at st r1)) ->
    In m (ChunkDescription.modules (chunk_at st r2)) -> r1 = r2;
  inv_modules_all : forall m,
    In m M <-> exists r, live st r /\ In m (ChunkDescription.modules (chunk_at st r))
}.

Arguments inv_nodup {G minChunkSize n osig M pass st} _ b.
Arguments inv_heap {G minChunkSize n osig M pass st} _ r _.
Arguments inv_class {G minChunkSize n osig M pass st} _ b r _.
Arguments inv_sig {G minChunkSize n osig M pass st} _ r _.
Arguments inv_pure {G minChunkSize n osig M pass st} _ r _.
Arguments inv_effects {G minChunkSize n osig M pass st} _ r m _ _ _.
Arguments inv_distinct {G minChunkSize n osig M pass st} _ r1 r2 _ _ _.
Arguments inv_modules_nodup {G minChunkSize n osig M pass st} _ r _.
Arguments inv_modules_disjoint {G minChunkSize n osig M pass st} _ r1 r2 m _ _ _ _.
Arguments inv_modules_all {G minChunkSize n osig M pass st} _ m.

(** The states the loop of [mergeChunks] passes through: from the iterator
    at slot [i] in state [st] to the iterator at slot [j] in state [st']. *)
Inductive loop_reaches (chunksToBeMerged : Bucket) (targetChunks : list Bucket)
    (minChunkSize : Z) : nat -> MergeState -> nat -> MergeState -> Prop :=
| reaches_here i st : loop_reaches chunksToBeMerged targetChunks minChunkSize i st i st
| reaches_step i st st' j st'' :
    mergeChunks_step chunksToBeMerged targetChunks minChunkSize i st = Some st' ->
    loop_reaches chunksToBeMerged targetChunks minChunkSize (S i) st' j st'' ->
    loop_reaches chunksToBeMerged targetChunks minChunkSize i st j st''.

(** The states the two passes of [getOptimizedChunks] go through, with the
    position of the iterator of the set being merged. *)
Definition pass_reaches (G : Graph) (chunkModulesBySignature : list (string * list nat))
    (minChunkSize : Z) (pass : Pass) (i : nat) (st : MergeState) : Prop :=
  match pass with
  | Pass1 =>
      loop_reaches SmallSideEffect pass1_targets minChunkSize 0
        (getPartitionedChunks G chunkModulesBySignature minChunkSize) i st
  | Pass2 =>
      exists st1,
        mergeChunks SmallSideEffect pass1_targets minChunkSize
          (getPartitionedChunks G chunkModulesBySignature minChunkSize) = Ok st1
        /\ loop_reaches SmallPure pass2_targets minChunkSize 0 st1 i st
  end.

(** The distance [mergeChunks] computes from the chunk [mergedChunk] to the
    chunk [x]. *)
Definition distance_from (h : list ChunkDescription.t) (mergedChunk x : nat) : number :=
  mergeDistance (deref h mergedChunk) (deref h x).

(** [target] is the first of the candidates other than [mergedChunk] at the
    least distance from it. *)
Definition first_closest (h : list ChunkDescription.t) (mergedChunk : nat)
    (candidates : list nat) (target : nat) : Prop :=
  target <> mergedChunk
  /\ distance_from h mergedChunk target <> Infinity
  /\ (forall x, In x candidates -> x <> mergedChunk ->
                number_leb (distance_from h mergedChunk target)
                  (distance_from h mergedChunk x) = true)
  /\ exists before after,
       candidates = before ++ target :: after
       /\ forall x, In x before -> x <> mergedChunk ->
                    number_ltb (distance_from h mergedChunk target)
                      (distance_from h mergedChunk x) = true.


(** The state of the scan of [findClosestChunk] after the candidates
    [before]. *)
Definition scan_ok (h : list ChunkDescription.t) (mergedChunk : nat)
    (before : list nat) (closest : option nat) (d : number) : Prop :=
  let distance := distance_from h mergedChunk in
  (forall x, In x before -> x <> mergedChunk -> distance x <> Finite 1)
  /\ (closest = None ->
      d = Infinity /\ forall x, In x before -> x <> mergedChunk -> distance x = Infinity)
  /\ (forall c, closest = Some c ->
        c <> mergedChunk /\ distance c = d /\ d <> Infinity
        /\ (forall x, In x before -> x <> mergedChunk -> number_leb d (distance x) = true)
        /\ exists b a, before = b ++ c :: a
                       /\ forall x, In x b -> x <> mergedChunk ->
                                    number_ltb d (distance x) = true).

(** The signature under which a module is grouped. *)
Definition grouped_signature (assignedEntriesByModule : list (nat * list nat))
    (allEntries : list nat) (module : nat) : string :=
  chunkSignature
    (match map_get module assignedEntriesByModule with
     | Some assignedEntries => assignedEntries
     | None => []
     end)
    allEntries.

(** The chunk descriptions of the signature groups, not merged: those with
    side effects first, then the pure ones, each kind in ascending size. *)
Definition unmergedChunks (G : Graph) (chunkModulesBySignature : list (string * list nat))
  : list ChunkDescription.t :=
  let h := map (describeChunk G) (Object_entries chunkModulesBySignature) in
  map (deref h)
    (sortChunks h
       (filter (fun ref => negb (ChunkDescription.pure (deref h ref))) (seq 0 (length h)))
     ++ sortChunks h
          (filter (fun ref => ChunkDescription.pure (deref h ref)) (seq 0 (length h)))).

(** The chunks of the manual aliases, as [getChunkAssignments] emits them. *)
Definition manualChunkDefinitions (manualChunkModulesByAlias : list (string * list nat))
  : list Chunk :=
  map (fun aliasModules : string * list nat =>
         {| alias := Some (fst aliasModules); modules := snd aliasModules |})
    (Object_entries manualChunkModulesByAlias).

(** An automatic chunk. *)
Definition automaticChunk (modules : list nat) : Chunk :=
  {| alias := None; modules := modules |}.

(** *** Entry assignment *)

(** The modules the traversal of [assignEntryToStaticDependencies] visits
    from [entry]: its final work list. It does not depend on the entries
    assigned so far. *)
Definition visitedFrom (G : Graph) (a : Analysis) (inManual staticEntries : list nat)
    (entry : nat) : result (list nat) :=
  st <- assignEntryToStaticDependencies_run G entry a [] inManual staticEntries ;;
  Ok (asg_modulesToHandle st).

(** The traversal of [entry] is run (the entry is in no manual chunk) and
    visits [module]. *)
Definition visits (G : Graph) (a : Analysis) (inManual staticEntries : list nat)
    (entry module : nat) : Prop :=
  ~ In entry inManual
  /\ exists visited,
       visitedFrom G a inManual staticEntries entry = Ok visited /\ In module visited.

(** The loop of [getChunkAssignments] runs the traversal of [entry], and that
    traversal visits [module]. *)
Definition reaches (G : Graph) (a : Analysis) (inManual staticEntries : list nat)
    (entry module : nat) : Prop :=
  In entry (allEntries a) /\ visits G a inManual staticEntries entry module.

(** The already-loaded check of the traversal of [entry] for [module]. *)
Definition alreadyLoadedFor (a : Analysis) (staticEntries : list nat) (entry module : nat)
  : result bool :=
  isAlreadyLoaded a staticEntries
    (map_get entry (dynamicallyDependentEntriesByDynamicEntry a)) module.

(** [entry] is in the entry set of [module]. *)
Definition assigned_to (assignedEntriesByModule : list (nat * list nat))
    (module entry : nat) : Prop :=
  exists assignedEntries,
    map_get module assignedEntriesByModule = Some assignedEntries
    /\ In entry assignedEntries.

(** The signature of a module assigned to no entry. *)
Definition independentSignature (n : nat) : string :=
  string_of_chars (repeat CHAR_INDEPENDENT n).

(** *** Manual chunks *)

(** What each traversal of [addStaticDependenciesToManualChunk] pushes, one
    list per entry of [manualChunkAliasByEntry], in iteration order. *)
Fixpoint manualTraversals (G : Graph) (manualChunkAliasByEntry : list (nat * string))
    (modulesInManualChunks : list nat) : result (list (list nat)) :=
  match manualChunkAliasByEntry with
  | [] => Ok []
  | (entry, _) :: rest =>
      st <- addStaticDependenciesToManualChunk_run G entry [] modulesInManualChunks ;;
      more <- manualTraversals G rest (mt_modulesInManualChunks st) ;;
      Ok (mt_manualChunkModules st :: more)
  end.

(** A traversal that handled the modules [handled] came across [module]: it
    is a dependency of one of them. *)
Definition traversal_reaches (G : Graph) (handled : list nat) (module : nat) : Prop :=
  exists x, In x handled /\ In (DepModule module) (dependencies (getModule G x)).

(** The modules pushed by the traversals of the entries mapped to [alias],
    traversal after traversal. *)
Definition pushed_for (alias : string) (aliases : list string) (pushed : list (list nat))
  : list nat :=
  concat (map snd (filter (fun ap => String.eqb alias (fst ap)) (combine aliases pushed))).

(** The specification on two aliases whose traversals reach the same module,
    for the traversals [i] and [j] of the entries of two aliases, [i] before
    [j]: the module is in the bucket of the first alias (and, it adds, in no
    other). *)
Definition first_alias_wins (G : Graph) (manualChunkAliasByEntry : list (nat * string))
    (pushed : list (list nat)) (byAlias : list (string * list nat)) : Prop :=
  forall i j entryI aliasI entryJ aliasJ handledI handledJ module,
    i < j ->
    nth_error manualChunkAliasByEntry i = Some (entryI, aliasI) ->
    nth_error manualChunkAliasByEntry j = Some (entryJ, aliasJ) ->
    aliasI <> aliasJ ->
    nth_error pushed i = Some handledI -> nth_error pushed j = Some handledJ ->
    traversal_reaches G handledI module -> traversal_reaches G handledJ module ->
    exists bucket, obj_get aliasI byAlias = Some bucket /\ In module bucket.

(** ** Example inputs *)

Module Examples.

(** A module with static dependencies, all of them included, and dynamic
  imports. *)
Definition moduleOf (deps dynamic importers : list nat) (effects : bool) (length : nat)
: Module :=
{| dependencies := map DepModule deps;
   getDependenciesToBeIncluded := map DepModule deps;
   dynamicImports := map ResModule dynamic;
   includedDynamicImporters := importers;
   implicitlyLoadedBefore := [];
   implicitlyLoadedAfter := [];
   hasEffects := effects;
   magicString_length := length |}.

(** Entry 0 imports module 1 dynamically; both depend on module 2, which
  depends on module 3. *)
Definition elisionGraph : Graph :=
[(0, moduleOf [2] [1] [] false 10);
 (1, moduleOf [2] [] [0] false 10);
 (2, moduleOf [3] [] [] false 10);
 (3, moduleOf [] [] [] false 5)].

Definition elisionAnalysis : Analysis :=
{| allEntries := [0; 1];
   dependentEntriesByModule := [(0, [0]); (2, [0; 1]); (3, [0; 1]); (1, [1])];
   dynamicallyDependentEntriesByDynamicEntry := [(1, [0])] |}.

(** Entries 0 and 1 both depend on module 2, which has side effects. *)
Definition effectGraph : Graph :=
[(0, moduleOf [2] [] [] false 10);
 (1, moduleOf [2] [] [] false 20);
 (2, moduleOf [] [] [] true 30)].

Definition effectAssigned : list (nat * list nat) :=
[(0, [0]); (2, [0; 1]); (1, [1])].

(** Three manual entries 0, 3 and 1; the first two depend on the third and
    on module 2. *)
Definition manualGraph : Graph :=
  [(0, moduleOf [1; 2] [] [] false 10);
   (3, moduleOf [1; 2] [] [] false 10);
   (1, moduleOf [] [] [] false 10);
   (2, moduleOf [] [] [] false 10)].

Definition manualAliases : list (nat * string) :=
  [(0, "a"%string); (3, "b"%string); (1, "c"%string)].

(** A dynamic entry (module 1) that has no importer: nothing is attributed
  to it. *)
Definition orphanGraph : Graph :=
[(0, {| dependencies := []; getDependenciesToBeIncluded := [];
        dynamicImports := []; includedDynamicImporters := [];
        implicitlyLoadedBefore := [1]; implicitlyLoadedAfter := [];
        hasEffects := false; magicString_length := 10 |});
 (1, moduleOf [] [] [] false 10)].

(** What [assignModules] computes for [elisionGraph] with entry 0. *)
Definition elisionAssignment : Assignment :=
  {| manualChunkModulesByAlias := [];
     modulesInManualChunks := [];
     analysis := elisionAnalysis;
     assignedEntriesByModule := [(0, [0]); (2, [0]); (3, [0]); (1, [1])] |}.

(** What [assignModules] computes for [orphanGraph] with entry 0. *)
Definition orphanAssignment : Assignment :=
  {| manualChunkModulesByAlias := [];
     modulesInManualChunks := [];
     analysis := {| allEntries := [0; 1];
                    dependentEntriesByModule := [(0, [0]); (1, [1])];
                    dynamicallyDependentEntriesByDynamicEntry := [(1, [])] |};
     assignedEntriesByModule := [(0, [0]); (1, [])] |}.

End Examples.

(** ** Structurally equal inputs

    A second invocation that is given structurally equal inputs is given the
    same graph with its objects at other addresses. The definitions below
    move every [Module] from its address [a] to [r a] and every
    [ExternalModule] from [e] to [x e], in the arguments of
    [getChunkAssignments], in its result and in the states of its loops. *)

Definition map_result {A B : Type} (f : A -> B) (res : result A) : result B :=
  match res with
  | Ok a => Ok (f a)
  | TypeError => TypeError
  | OutOfFuel => OutOfFuel
  end.

Definition map_values {K V W : Type} (f : V -> W) (m : list (K * V)) : list (K * W) :=
  map (fun kv => (fst kv, f (snd kv))) m.

Section Rename.
Variables (r x : nat -> nat).

Definition rename_dependency (d : Dependency) : Dependency :=
  match d with
  | DepModule m => DepModule (r m)
  | DepExternal e => DepExternal (x e)
  end.

Definition rename_resolution (res : Resolution) : Resolution :=
  match res with
  | ResModule m => ResModule (r m)
  | ResExternal e => ResExternal (x e)
  | ResUnresolved => ResUnresolved
  end.

Definition rename_module (module : Module) : Module :=
  {| dependencies := map rename_dependency (dependencies module);
     getDependenciesToBeIncluded :=
       map rename_dependency (getDependenciesToBeIncluded module);
     dynamicImports := map rename_resolution (dynamicImports module);
     includedDynamicImporters := map r (includedDynamicImporters module);
     implicitlyLoadedBefore := map r (implicitlyLoadedBefore module);
     implicitlyLoadedAfter := map r (implicitlyLoadedAfter module);
     hasEffects := hasEffects module;
     magicString_length := magicString_length module |}.

(** A [Map] whose keys are modules. *)
Definition rename_keys {V W : Type} (f : V -> W) (m : list (nat * V)) : list (nat * W) :=
  map (fun kv => (r (fst kv), f (snd kv))) m.

Definition rename_graph (G : Graph) : Graph := rename_keys rename_module G.

Definition rename_aliases (manualChunkAliasByEntry : list (nat * string))
  : list (nat * string) :=
  rename_keys (fun alias => alias) manualChunkAliasByEntry.

Definition rename_entries (m : list (nat * list nat)) : list (nat * list nat) :=
  rename_keys (map r) m.

Definition rename_chunk (chunk : Chunk) : Chunk :=
  {| alias := alias chunk; modules := map r (modules chunk) |}.

Definition rename_description (chunk : ChunkDescription.t) : ChunkDescription.t :=
  ChunkDescription.mk (map r (ChunkDescription.modules chunk))
    (ChunkDescription.pure chunk) (ChunkDescription.signature chunk)
    (ChunkDescription.size chunk).

Definition rename_merge_state (st : MergeState) : MergeState :=
  {| heap := map rename_description (heap st); chunkPartition := chunkPartition st |}.

Definition rename_manual_traversal (st : ManualTraversal) : ManualTraversal :=
  {| mt_modulesToHandle := map r (mt_modulesToHandle st);
     mt_manualChunkModules := map r (mt_manualChunkModules st);
     mt_modulesInManualChunks := map r (mt_modulesInManualChunks st) |}.

Definition rename_manual_chunks (st : ManualChunks) : ManualChunks :=
  (map_values (map r) (fst st), map r (snd st)).

Definition rename_analysis_state (a : AnalysisState) : AnalysisState :=
  {| as_dynamicEntries := map r (as_dynamicEntries a);
     as_dependentEntriesByModule := rename_entries (as_dependentEntriesByModule a);
     as_allEntries := map r (as_allEntries a) |}.

Definition rename_analysis_traversal (st : AnalysisTraversal) : AnalysisTraversal :=
  {| at_state := rename_analysis_state (at_state st);
     at_modulesToHandle := map r (at_modulesToHandle st) |}.

Definition rename_analysis (a : Analysis) : Analysis :=
  {| allEntries := map r (allEntries a);
     dependentEntriesByModule := rename_entries (dependentEntriesByModule a);
     dynamicallyDependentEntriesByDynamicEntry :=
       rename_entries (dynamicallyDependentEntriesByDynamicEntry a) |}.

Definition rename_assign_traversal (st : AssignTraversal) : AssignTraversal :=
  {| asg_assignedEntriesByModule := rename_entries (asg_assignedEntriesByModule st);
     asg_modulesToHandle := map r (asg_modulesToHandle st) |}.

Definition rename_assignment (asg : Assignment) : Assignment :=
  {| manualChunkModulesByAlias := map_values (map r) (manualChunkModulesByAlias asg);
     modulesInManualChunks := map r (modulesInManualChunks asg);
     analysis := rename_analysis (analysis asg);
     assignedEntriesByModule := rename_entries (assignedEntriesByModule asg) |}.
End Rename.

(** ** Vocabulary of the further properties *)

(** *** Graph analysis *)

(** The importers of a dynamic entry that
    [getDynamicallyDependentEntriesByDynamicEntry] iterates:
    [[...includedDynamicImporters, ...implicitlyLoadedAfter]]. *)
Definition importersOf (G : Graph) (dynamicEntry : nat) : list nat :=
  includedDynamicImporters (getModule G dynamicEntry)
  ++ implicitlyLoadedAfter (getModule G dynamicEntry).

(** [module] is reached from [entry] through dependencies to be included
    that are modules. *)
Inductive included_path (G : Graph) (entry : nat) : nat -> Prop :=
| included_here : included_path G entry entry
| included_step module dependency :
    included_path G entry module ->
    In (DepModule dependency) (getDependenciesToBeIncluded (getModule G module)) ->
    included_path G entry dependency.

(** [module] makes [target] an entry: it imports it dynamically and the
    import is included, or it names it in [implicitlyLoadedBefore]. *)
Definition discovers (G : Graph) (module target : nat) : Prop :=
  (In (ResModule target) (dynamicImports (getModule G module))
   /\ includedDynamicImporters (getModule G target) <> [])
  \/ In target (implicitlyLoadedBefore (getModule G module)).

(** The loop over [module.dynamicImports] in [analyzeModuleGraph], on the
    pair of [dynamicEntries] and [allEntries]. *)
Definition addDynamicImports (G : Graph) (resolutions : list Resolution)
    (sets : list nat * list nat) : list nat * list nat :=
  fold_left
    (fun (acc : list nat * list nat) resolution =>
       let '(dynamicEntries, allEntries) := acc in
       match resolution with
       | ResModule r =>
           if (0 <? length (includedDynamicImporters (getModule G r)))
              && negb (set_has r allEntries)
           then (set_add r dynamicEntries, set_add r allEntries)
           else acc
       | _ => acc
       end)
    resolutions sets.

(** The loop over [module.implicitlyLoadedBefore] in [analyzeModuleGraph]. *)
Definition addImplicitlyLoadedBefore (dependencies : list nat)
    (sets : list nat * list nat) : list nat * list nat :=
  fold_left
    (fun (acc : list nat * list nat) dependency =>
       let '(dynamicEntries, allEntries) := acc in
       if negb (set_has dependency allEntries)
       then (set_add dependency dynamicEntries, set_add dependency allEntries)
       else acc)
    dependencies sets.

(** [allEntries] is the static entries [base] followed by the dynamic
    entries, without repetition. *)
Definition entries_split (base : list nat) (sets : list nat * list nat) : Prop :=
  snd sets = base ++ fst sets /\ NoDup (snd sets).

(** The modules that are entries: the given ones, and those that a module
    reached from an entry makes an entry. *)
Inductive is_entry (G : Graph) (entries : list nat) : nat -> Prop :=
| entry_static entry : In entry entries -> is_entry G entries entry
| entry_dynamic entry module target :
    is_entry G entries entry -> included_path G entry module ->
    discovers G module target -> is_entry G entries target.

(** *** Entry assignment *)

(** The modules the traversal of [assignEntryToStaticDependencies] from
    [entry] comes to: [entry], and the dependencies to be included, in no
    manual chunk, of the modules it comes to and does not find already
    loaded. *)
Inductive assign_path (G : Graph) (a : Analysis) (inManual staticEntries : list nat)
    (entry : nat) : nat -> Prop :=
| assign_here : assign_path G a inManual staticEntries entry entry
| assign_step module dependency :
    assign_path G a inManual staticEntries entry module ->
    alreadyLoadedFor a staticEntries entry module = Ok false ->
    In (DepModule dependency) (getDependenciesToBeIncluded (getModule G module)) ->
    ~ In dependency inManual ->
    assign_path G a inManual staticEntries entry dependency.

(** [module] is reached from [entry] through dependencies to be included
    that are in no manual chunk. *)
Inductive manual_free_path (G : Graph) (inManual : list nat) (entry : nat) : nat -> Prop :=
| manual_free_here : manual_free_path G inManual entry entry
| manual_free_step module dependency :
    manual_free_path G inManual entry module ->
    In (DepModule dependency) (getDependenciesToBeIncluded (getModule G module)) ->
    ~ In dependency inManual ->
    manual_free_path G inManual entry dependency.

(** What [areEntriesContainedOrDynamicallyDependent] accepts of an entry [x]
    it checks, [checked] being all the entries it checks: [x] is contained,
    or it is not a static entry and its dynamically dependent entries, at
    most [MAX_ENTRIES_TO_CHECK_FOR_SHARED_DEPENDENCIES] of them, are checked
    as well. *)
Definition entry_accepted (contained staticEntries : list nat)
    (dynamicallyDependentEntriesByDynamicEntry : list (nat * list nat))
    (checked : list nat) (x : nat) : Prop :=
  In x contained
  \/ (~ In x staticEntries
      /\ exists dependent,
           map_get x dynamicallyDependentEntriesByDynamicEntry = Some dependent
           /\ length dependent <= MAX_ENTRIES_TO_CHECK_FOR_SHARED_DEPENDENCIES
           /\ incl dependent checked).

(** *** Chunk descriptions *)

(** The total length of the code of [modules]. *)
Definition modules_size (G : Graph) (modules : list nat) : nat :=
  list_sum (map (fun module => magicString_length (getModule G module)) modules).

(** The fields [size] and [pure] of a chunk description say what its modules
    are. *)
Definition described (G : Graph) (chunk : ChunkDescription.t) : Prop :=
  ChunkDescription.size chunk = modules_size G (ChunkDescription.modules chunk)
  /\ ChunkDescription.pure chunk
     = forallb (is_pure_module G) (ChunkDescription.modules chunk).

(** A chunk description of the partition: it has modules and describes
    them. *)
Definition consistent (G : Graph) (chunk : ChunkDescription.t) : Prop :=
  ChunkDescription.modules chunk <> [] /\ described G chunk.

(** The chunk description of a signature group, as [getPartitionedChunks]
    creates it and when nothing has been merged into it. *)
Definition groupDescription (G : Graph) (signatureModules : string * list nat)
  : ChunkDescription.t :=
  ChunkDescription.mk (snd signatureModules)
    (forallb (is_pure_module G) (snd signatureModules))
    (fst signatureModules)
    (modules_size G (snd signatureModules)).

(** [sorted] is [chunks] in ascending size, the chunks of one size in the
    order they have in [chunks]. *)
Definition sorted_by_size (chunks sorted : list ChunkDescription.t) : Prop :=
  Permutation sorted chunks
  /\ StronglySorted
       (fun a b => ChunkDescription.size a <= ChunkDescription.size b) sorted
  /\ forall size,
       filter (fun chunk => ChunkDescription.size chunk =? size) sorted
       = filter (fun chunk => ChunkDescription.size chunk =? size) chunks.

(** *** Manual chunks *)

(** [module] is reached from [entry] through static dependencies that are
    modules, to be included or not. *)
Inductive dependency_path (G : Graph) (entry : nat) : nat -> Prop :=
| dependency_here : dependency_path G entry entry
| dependency_step module dependency :
    dependency_path G entry module ->
    In (DepModule dependency) (dependencies (getModule G module)) ->
    dependency_path G entry dependency.

(** ** [src/utils/chunkAssignment.ts]: the already loaded modules

    The revision of the file with [getAlreadyLoadedModulesByDynamicEntry]:
    it computes, for every dynamic entry, the modules that are in memory
    whenever the entry is loaded, and assigns a dynamic entry to the modules
    it reaches that are not among them. Its manual chunks and its
    [createChunks] are those above. *)

Module AlreadyLoaded.

(** The collections of [getAlreadyLoadedModulesByDynamicEntry]. *)
Record State : Type := {
  st_allModules : list nat;
  st_dependentEntryPointsByModule : list (nat * list nat);
  st_dynamicImportsByEntry : list (nat * list nat);
  st_dynamicallyDependentEntryPointsByDynamicEntry : list (nat * list nat);
  st_entriesToHandle : list nat
}.

(** The collections during the traversal from [currentEntry]:
    [dynamicImports] is the set stored under [currentEntry] in
    [dynamicImportsByEntry], so what is added to it shows in the map. *)
Record Traversal : Type := {
  tr_state : State;
  tr_dynamicImports : list nat;
  tr_modulesToHandle : list nat
}.

(** [getOrCreate(map, key, () => new Set()).add(value)] *)
Definition addTo (map : list (nat * list nat)) (key value : nat) : list (nat * list nat) :=
  let '(set, map') := getOrCreate map key [] in
  map_set key (set_add value set) map'.

(** [modulesToHandle.add(dependency); allModules.add(dependency)] *)
Definition addDependency (dependency : nat) (tr : Traversal) : Traversal :=
  let st := tr_state tr in
  {| tr_state :=
       {| st_allModules := set_add dependency (st_allModules st);
          st_dependentEntryPointsByModule := st_dependentEntryPointsByModule st;
          st_dynamicImportsByEntry := st_dynamicImportsByEntry st;
          st_dynamicallyDependentEntryPointsByDynamicEntry :=
            st_dynamicallyDependentEntryPointsByDynamicEntry st;
          st_entriesToHandle := st_entriesToHandle st |};
     tr_dynamicImports := tr_dynamicImports tr;
     tr_modulesToHandle := set_add dependency (tr_modulesToHandle tr) |}.

(** The four statements for a dynamic import that is included and for a
    module of [implicitlyLoadedBefore]. *)
Definition addDynamicEntry (currentEntry resolution : nat) (tr : Traversal) : Traversal :=
  let st := tr_state tr in
  let dynamicImports := set_add resolution (tr_dynamicImports tr) in
  {| tr_state :=
       {| st_allModules := set_add resolution (st_allModules st);
          st_dependentEntryPointsByModule := st_dependentEntryPointsByModule st;
          st_dynamicImportsByEntry :=
            map_set currentEntry dynamicImports (st_dynamicImportsByEntry st);
          st_dynamicallyDependentEntryPointsByDynamicEntry :=
            addTo (st_dynamicallyDependentEntryPointsByDynamicEntry st)
              resolution currentEntry;
          st_entriesToHandle := set_add resolution (st_entriesToHandle st) |};
     tr_dynamicImports := dynamicImports;
     tr_modulesToHandle := tr_modulesToHandle tr |}.

(** [getOrCreate(dependentEntryPointsByModule, module, ...).add(currentEntry)] *)
Definition addDependentEntryPoint (currentEntry module : nat) (tr : Traversal) : Traversal :=
  let st := tr_state tr in
  {| tr_state :=
       {| st_allModules := st_allModules st;
          st_dependentEntryPointsByModule :=
            addTo (st_dependentEntryPointsByModule st) module currentEntry;
          st_dynamicImportsByEntry := st_dynamicImportsByEntry st;
          st_dynamicallyDependentEntryPointsByDynamicEntry :=
            st_dynamicallyDependentEntryPointsByDynamicEntry st;
          st_entriesToHandle := st_entriesToHandle st |};
     tr_dynamicImports := tr_dynamicImports tr;
     tr_modulesToHandle := tr_modulesToHandle tr |}.

Definition addDependencies (deps : list Dependency) (tr : Traversal) : Traversal :=
  fold_left
    (fun tr dependency =>
       match dependency with
       | DepExternal _ => tr
       | DepModule d => addDependency d tr
       end)
    deps tr.

Definition addDynamicImports (G : Graph) (currentEntry : nat)
    (resolutions : list Resolution) (tr : Traversal) : Traversal :=
  fold_left
    (fun tr resolution =>
       match resolution with
       | ResModule r =>
           if 0 <? length (includedDynamicImporters (getModule G r))
           then addDynamicEntry currentEntry r tr
           else tr
       | _ => tr
       end)
    resolutions tr.

Definition addImplicitlyLoadedBefore (currentEntry : nat) (dependencies : list nat)
    (tr : Traversal) : Traversal :=
  fold_left (fun tr dependency => addDynamicEntry currentEntry dependency tr)
    dependencies tr.

(** The body of [for (const module of modulesToHandle)]. *)
Definition getAlreadyLoadedModulesByDynamicEntry_module (G : Graph)
    (currentEntry module : nat) (tr : Traversal) : result Traversal :=
  Ok (addImplicitlyLoadedBefore currentEntry (implicitlyLoadedBefore (getModule G module))
        (addDynamicImports G currentEntry (dynamicImports (getModule G module))
           (addDependencies (getDependenciesToBeIncluded (getModule G module))
              (addDependentEntryPoint currentEntry module tr)))).

(** The body of [for (const currentEntry of entriesToHandle)]. *)
Definition getAlreadyLoadedModulesByDynamicEntry_entry (G : Graph) (currentEntry : nat)
    (st : State) : result State :=
  tr <- forOf tr_modulesToHandle
          (getAlreadyLoadedModulesByDynamicEntry_module G currentEntry)
          (traversal_fuel G) 0
          {| tr_state :=
               {| st_allModules := st_allModules st;
                  st_dependentEntryPointsByModule := st_dependentEntryPointsByModule st;
                  st_dynamicImportsByEntry :=
                    map_set currentEntry [] (st_dynamicImportsByEntry st);
                  st_dynamicallyDependentEntryPointsByDynamicEntry :=
                    st_dynamicallyDependentEntryPointsByDynamicEntry st;
                  st_entriesToHandle := st_entriesToHandle st |};
             tr_dynamicImports := [];
             tr_modulesToHandle := [currentEntry] |} ;;
  Ok (tr_state tr).

(** The collections when the loop over [entriesToHandle] has ended. *)
Definition collect (G : Graph) (entryModules : list nat) : result State :=
  forOf st_entriesToHandle (getAlreadyLoadedModulesByDynamicEntry_entry G)
    (traversal_fuel G + length entryModules) 0
    {| st_allModules := set_of_list entryModules;
       st_dependentEntryPointsByModule := [];
       st_dynamicImportsByEntry := [];
       st_dynamicallyDependentEntryPointsByDynamicEntry := [];
       st_entriesToHandle := set_of_list entryModules |}.

(** *** [buildAlreadyLoadedModulesByDynamicEntry] *)

Section Build.
Variables (dependentEntryPointsByModule dynamicImportsByEntry
           dynamicallyDependentEntryPointsByDynamicEntry : list (nat * list nat)).

(** [alreadyLoadedModulesByDynamicEntry] and the array
    [dynamicEntriesToHandle], which grows while it is iterated. *)
Record Propagation : Type := {
  pr_alreadyLoadedModulesByDynamicEntry : list (nat * list nat);
  pr_dynamicEntriesToHandle : list nat
}.

(** [alreadyLoadedModulesByDynamicEntry.get(sibling)?.has(module)] *)
Definition loadedFor (alreadyLoadedModulesByDynamicEntry : list (nat * list nat))
    (sibling module : nat) : bool :=
  match map_get sibling alreadyLoadedModulesByDynamicEntry with
  | Some alreadyLoadedModules => set_has module alreadyLoadedModules
  | None => false
  end.

(** The loop over the sibling dependent entries: [true] when it runs to its
    end, [false] when it leaves through [continue nextDynamicEntry]. *)
Definition siblingsHaveLoaded (dependentEntryPoints : list nat)
    (alreadyLoadedModulesByDynamicEntry : list (nat * list nat)) (module : nat)
    (siblings : list nat) : bool :=
  forallb
    (fun siblingDependentEntry =>
       set_has siblingDependentEntry dependentEntryPoints
       || loadedFor alreadyLoadedModulesByDynamicEntry siblingDependentEntry module)
    siblings.

(** The body of [for (const dynamicEntry of dynamicEntriesToHandle)]. The
    maps are read with [get(...)!]: what is read is used at once, and an
    [undefined] throws there. *)
Definition build_dynamicEntry (module : nat) (dependentEntryPoints : list nat)
    (dynamicEntry : nat) (pr : Propagation) : result Propagation :=
  match map_get dynamicEntry (pr_alreadyLoadedModulesByDynamicEntry pr) with
  | None => TypeError
  | Some alreadyLoadedModules =>
      if set_has module alreadyLoadedModules then Ok pr
      else
        match map_get dynamicEntry dynamicallyDependentEntryPointsByDynamicEntry with
        | None => TypeError
        | Some siblings =>
            if siblingsHaveLoaded dependentEntryPoints
                 (pr_alreadyLoadedModulesByDynamicEntry pr) module siblings
            then
              match map_get dynamicEntry dynamicImportsByEntry with
              | None => TypeError
              | Some dynamicImports =>
                  Ok {| pr_alreadyLoadedModulesByDynamicEntry :=
                          map_set dynamicEntry (set_add module alreadyLoadedModules)
                            (pr_alreadyLoadedModulesByDynamicEntry pr);
                        pr_dynamicEntriesToHandle :=
                          pr_dynamicEntriesToHandle pr ++ dynamicImports |}
              end
            else Ok pr
        end
  end.

(** Enough fuel for the loop over [dynamicEntriesToHandle]: a dynamic entry
    adds its imports to the array once for a module. *)
Definition propagation_fuel (dynamicEntriesToHandle : list nat) : nat :=
  length dynamicEntriesToHandle
  + length dynamicImportsByEntry * length (flat_map snd dynamicImportsByEntry) + 1.

(** The body of [for (const entry of dependentEntryPoints)]. *)
Definition build_entry (module : nat) (dependentEntryPoints : list nat) (entry : nat)
    (alreadyLoadedModulesByDynamicEntry : list (nat * list nat))
  : result (list (nat * list nat)) :=
  match map_get entry dynamicImportsByEntry with
  | None => TypeError
  | Some dynamicImports =>
      pr <- forOf pr_dynamicEntriesToHandle (build_dynamicEntry module dependentEntryPoints)
              (propagation_fuel dynamicImports) 0
              {| pr_alreadyLoadedModulesByDynamicEntry := alreadyLoadedModulesByDynamicEntry;
                 pr_dynamicEntriesToHandle := dynamicImports |} ;;
      Ok (pr_alreadyLoadedModulesByDynamicEntry pr)
  end.

(** The body of [for (const module of allModules)]. *)
Definition build_module (module : nat)
    (alreadyLoadedModulesByDynamicEntry : list (nat * list nat))
  : result (list (nat * list nat)) :=
  match map_get module dependentEntryPointsByModule with
  | None => TypeError
  | Some dependentEntryPoints =>
      forEach (build_entry module dependentEntryPoints) dependentEntryPoints
        alreadyLoadedModulesByDynamicEntry
  end.

Definition buildAlreadyLoadedModulesByDynamicEntry (allModules : list nat)
  : result (list (nat * list nat)) :=
  forEach build_module allModules
    (fold_left (fun alreadyLoadedModulesByDynamicEntry dynamicEntry =>
                  map_set dynamicEntry [] alreadyLoadedModulesByDynamicEntry)
       (map fst dynamicallyDependentEntryPointsByDynamicEntry) []).
End Build.

Definition getAlreadyLoadedModulesByDynamicEntry (G : Graph) (entryModules : list nat)
  : result (list (nat * list nat)) :=
  st <- collect G entryModules ;;
  buildAlreadyLoadedModulesByDynamicEntry
    (st_dependentEntryPointsByModule st) (st_dynamicImportsByEntry st)
    (st_dynamicallyDependentEntryPointsByDynamicEntry st) (st_allModules st).

(** *** Entry assignment *)

(** [alreadyLoadedModules?.has(module)] *)
Definition isAlreadyLoaded (alreadyLoadedModules : option (list nat)) (module : nat) : bool :=
  match alreadyLoadedModules with
  | Some loaded => set_has module loaded
  | None => false
  end.

(** The body of [for (const module of modulesToHandle)] in
    [assignEntryToStaticDependencies]. *)
Definition assignEntryToStaticDependencies_module (G : Graph) (entry : nat)
    (alreadyLoadedModules : option (list nat)) (modulesInManualChunks : list nat)
    (module : nat) (st : AssignTraversal) : result AssignTraversal :=
  let '(assignedEntryPoints, assigned) :=
    getOrCreate (asg_assignedEntriesByModule st) module [] in
  if isAlreadyLoaded alreadyLoadedModules module then
    Ok {| asg_assignedEntriesByModule := assigned;
          asg_modulesToHandle := asg_modulesToHandle st |}
  else
    Ok {| asg_assignedEntriesByModule :=
            map_set module (set_add entry assignedEntryPoints) assigned;
          asg_modulesToHandle :=
            fold_left
              (fun modulesToHandle dependency =>
                 match dependency with
                 | DepExternal _ => modulesToHandle
                 | DepModule d =>
                     if set_has d modulesInManualChunks then modulesToHandle
                     else set_add d modulesToHandle
                 end)
              (getDependenciesToBeIncluded (getModule G module))
              (asg_modulesToHandle st) |}.

Definition assignEntryToStaticDependencies_run (G : Graph) (entry : nat)
    (alreadyLoadedModules : option (list nat))
    (assignedEntryPointsByModule : list (nat * list nat))
    (modulesInManualChunks : list nat) : result AssignTraversal :=
  forOf asg_modulesToHandle
    (assignEntryToStaticDependencies_module G entry alreadyLoadedModules
       modulesInManualChunks)
    (traversal_fuel G) 0
    {| asg_assignedEntriesByModule := assignedEntryPointsByModule;
       asg_modulesToHandle := [entry] |}.

Definition assignEntryToStaticDependencies (G : Graph) (entry : nat)
    (alreadyLoadedModules : option (list nat))
    (assignedEntryPointsByModule : list (nat * list nat))
    (modulesInManualChunks : list nat) : result (list (nat * list nat)) :=
  st <- assignEntryToStaticDependencies_run G entry alreadyLoadedModules
          assignedEntryPointsByModule modulesInManualChunks ;;
  Ok (asg_assignedEntriesByModule st).

(** The loop [for (const entry of entries)] of [getChunkAssignments]. *)
Definition assignStaticEntries (G : Graph) (entries modulesInManualChunks : list nat)
    (assignedEntryPointsByModule : list (nat * list nat))
  : result (list (nat * list nat)) :=
  forEach
    (fun entry assignedEntryPointsByModule =>
       if set_has entry modulesInManualChunks then Ok assignedEntryPointsByModule
       else assignEntryToStaticDependencies G entry None assignedEntryPointsByModule
              modulesInManualChunks)
    entries assignedEntryPointsByModule.

(** The loop [for (const entry of alreadyLoadedModulesByDynamicEntry.keys())]. *)
Definition assignDynamicEntries (G : Graph)
    (alreadyLoadedModulesByDynamicEntry : list (nat * list nat))
    (modulesInManualChunks : list nat)
    (assignedEntryPointsByModule : list (nat * list nat))
  : result (list (nat * list nat)) :=
  forEach
    (fun entry assignedEntryPointsByModule =>
       if set_has entry modulesInManualChunks then Ok assignedEntryPointsByModule
       else assignEntryToStaticDependencies G entry
              (map_get entry alreadyLoadedModulesByDynamicEntry)
              assignedEntryPointsByModule modulesInManualChunks)
    (map fst alreadyLoadedModulesByDynamicEntry) assignedEntryPointsByModule.

(** What [getChunkAssignments] computes before it creates the automatic
    chunks. *)
Record Assignment : Type := {
  manualChunkModulesByAlias : list (string * list nat);
  modulesInManualChunks : list nat;
  alreadyLoadedModulesByDynamicEntry : list (nat * list nat);
  assignedEntryPointsByModule : list (nat * list nat)
}.

Definition assignModules (G : Graph) (entries : list nat)
    (manualChunkAliasByEntry : list (nat * string)) : result Assignment :=
  manual <- manualChunks G manualChunkAliasByEntry ;;
  alreadyLoaded <- getAlreadyLoadedModulesByDynamicEntry G entries ;;
  assigned <- assignStaticEntries G entries (snd manual) [] ;;
  assigned <- assignDynamicEntries G alreadyLoaded (snd manual) assigned ;;
  Ok {| manualChunkModulesByAlias := fst manual;
        modulesInManualChunks := snd manual;
        alreadyLoadedModulesByDynamicEntry := alreadyLoaded;
        assignedEntryPointsByModule := assigned |}.

Definition getChunkAssignments (G : Graph) (entries : list nat)
    (manualChunkAliasByEntry : list (nat * string)) (minChunkSize : Number.t)
  : result (list Chunk) :=
  asg <- assignModules G entries manualChunkAliasByEntry ;;
  automatic <- createChunks G
                 (entries ++ map fst (alreadyLoadedModulesByDynamicEntry asg))
                 (assignedEntryPointsByModule asg) minChunkSize ;;
  Ok (map (fun aliasModules : string * list nat =>
             {| alias := Some (fst aliasModules); modules := snd aliasModules |})
          (Object_entries (manualChunkModulesByAlias asg))
      ++ automatic).

(** *** Vocabulary *)

(** When [module] is in memory at the time [entry] is loaded, as far as the
    maps say: [entry] depends on it, or [entry] is a dynamic entry and the
    module is in memory for each of the entries it is dynamically dependent
    on. *)
Inductive loaded_with (dependentEntryPointsByModule
    dynamicallyDependentEntryPointsByDynamicEntry : list (nat * list nat))
    (module : nat) : nat -> Prop :=
| loaded_statically entry :
    assigned_to dependentEntryPointsByModule module entry ->
    loaded_with dependentEntryPointsByModule
      dynamicallyDependentEntryPointsByDynamicEntry module entry
| loaded_dynamically dynamicEntry siblings :
    map_get dynamicEntry dynamicallyDependentEntryPointsByDynamicEntry = Some siblings ->
    (forall sibling, In sibling siblings ->
       loaded_with dependentEntryPointsByModule
         dynamicallyDependentEntryPointsByDynamicEntry module sibling) ->
    loaded_with dependentEntryPointsByModule
      dynamicallyDependentEntryPointsByDynamicEntry module dynamicEntry.

(** The maps name what [buildAlreadyLoadedModulesByDynamicEntry] reads
    through them. *)
Definition keys_present (dependentEntryPointsByModule dynamicImportsByEntry
    dynamicallyDependentEntryPointsByDynamicEntry : list (nat * list nat))
    (allModules : list nat) : Prop :=
  (forall module, In module allModules ->
     In module (map fst dependentEntryPointsByModule))
  /\ (forall module entry, assigned_to dependentEntryPointsByModule module entry ->
        In entry (map fst dynamicImportsByEntry))
  /\ (forall entry dynamicEntry, assigned_to dynamicImportsByEntry entry dynamicEntry ->
        In dynamicEntry (map fst dynamicImportsByEntry)
        /\ In dynamicEntry (map fst dynamicallyDependentEntryPointsByDynamicEntry)).

(** No set of the map is empty. *)
Definition sets_nonempty (byKey : list (nat * list nat)) : Prop :=
  forall key, In key (map fst byKey) -> exists value, assigned_to byKey key value.

(** The modules that the loops over [module.dynamicImports] and
    [module.implicitlyLoadedBefore] take as dynamic entries. *)
Definition dynamicTargets (G : Graph) (resolutions : list Resolution) : list nat :=
  flat_map
    (fun resolution =>
       match resolution with
       | ResModule r =>
           if 0 <? length (includedDynamicImporters (getModule G r)) then [r] else []
       | _ => []
       end)
    resolutions.

Definition discovered (G : Graph) (module : nat) : list nat :=
  dynamicTargets G (dynamicImports (getModule G module))
  ++ implicitlyLoadedBefore (getModule G module).

(** [entry] imports [target] dynamically: a module it reaches through
    dependencies to be included makes [target] an entry. *)
Definition imports_dynamically (G : Graph) (entry target : nat) : Prop :=
  exists module, included_path G entry module /\ discovers G module target.

(** When [module] is in memory at the time [entry] is loaded: [entry]
    reaches it through dependencies to be included, or [entry] is imported
    dynamically and the module is in memory for each of the entries that
    import it. *)
Inductive in_memory (G : Graph) (entries : list nat) (module : nat) : nat -> Prop :=
| in_memory_static entry :
    included_path G entry module -> in_memory G entries module entry
| in_memory_dynamic dynamicEntry :
    (exists entry, is_entry G entries entry /\ imports_dynamically G entry dynamicEntry) ->
    (forall entry, is_entry G entries entry -> imports_dynamically G entry dynamicEntry ->
       in_memory G entries module entry) ->
    in_memory G entries module dynamicEntry.

(** The modules the traversal of [assignEntryToStaticDependencies] from
    [entry] comes to: [entry], and the dependencies to be included, in no
    manual chunk, of the modules it comes to that are not already loaded. *)
Inductive unloaded_path (G : Graph) (alreadyLoadedModules : option (list nat))
    (inManual : list nat) (entry : nat) : nat -> Prop :=
| unloaded_here : unloaded_path G alreadyLoadedModules inManual entry entry
| unloaded_step module dependency :
    unloaded_path G alreadyLoadedModules inManual entry module ->
    isAlreadyLoaded alreadyLoadedModules module = false ->
    In (DepModule dependency) (getDependenciesToBeIncluded (getModule G module)) ->
    ~ In dependency inManual ->
    unloaded_path G alreadyLoadedModules inManual entry dependency.

End AlreadyLoaded.

(** ** The merge of [getMergeableChunks]

    The revision of the file in which [getOptimizedChunks] works on the
    result of [getMergeableChunks]: the chunks without side effects that are
    not above [minChunkSize] are merged into the closest chunk. *)

Module Mergeable.

(** [alias] is [null] in every chunk description; [size] is [null] in a
    chunk that cannot be merged. *)
Record ChunkDescription : Type := {
  modules : list nat;
  signature : string;
  size : option nat
}.

(** The chunk description objects, by reference, the set
    [chunksToBeMerged] and the array [unmergeableChunks] of references to
    them. *)
Record State : Type := {
  heap : list ChunkDescription;
  chunksToBeMerged : list nat;
  unmergeableChunks : list nat
}.

Definition noChunk : ChunkDescription :=
  {| modules := []; signature := EmptyString; size := None |}.

Definition deref (h : list ChunkDescription) (ref : nat) : ChunkDescription :=
  nth ref h noChunk.

Fixpoint heap_update (ref : nat) (c : ChunkDescription) (h : list ChunkDescription)
  : list ChunkDescription :=
  match h, ref with
  | [], _ => []
  | _ :: h', 0 => c :: h'
  | c' :: h', S ref' => c' :: heap_update ref' c h'
  end.

(** [set.delete(x)] on a set that is not iterated by index. *)
Definition set_delete (x : nat) (s : list nat) : list nat :=
  filter (fun y => negb (x =? y)) s.

(** The block [checkModules]: the size when the loop over the modules runs
    to its end, [None] when the block is left through [break]. *)
Fixpoint checkModules (G : Graph) (minChunkSize : Z) (modules : list nat) (size : nat)
  : option nat :=
  match modules with
  | [] => Some size
  | module :: modules' =>
      if hasEffects (getModule G module) then None
      else
        let size := size + magicString_length (getModule G module) in
        if (minChunkSize <? Z.of_nat size)%Z then None
        else checkModules G minChunkSize modules' size
  end.

(** The body of the loop of [getMergeableChunks]. *)
Definition getMergeableChunks_entry (G : Graph) (minChunkSize : Z) (st : State)
    (signatureModules : string * list nat) : State :=
  let '(signature, modules) := signatureModules in
  let ref := length (heap st) in
  match checkModules G minChunkSize modules 0 with
  | Some size =>
      {| heap := heap st ++ [{| modules := modules; signature := signature;
                                size := Some size |}];
         chunksToBeMerged := set_add ref (chunksToBeMerged st);
         unmergeableChunks := unmergeableChunks st |}
  | None =>
      {| heap := heap st ++ [{| modules := modules; signature := signature;
                                size := None |}];
         chunksToBeMerged := chunksToBeMerged st;
         unmergeableChunks := unmergeableChunks st ++ [ref] |}
  end.

Definition getMergeableChunks (G : Graph)
    (chunkModulesBySignature : list (string * list nat)) (minChunkSize : Z) : State :=
  fold_left (getMergeableChunks_entry G minChunkSize)
    (Object_entries chunkModulesBySignature)
    {| heap := []; chunksToBeMerged := []; unmergeableChunks := [] |}.

Import Signature.

(** The loop [for (const targetChunk of concatLazy(...))]. *)
Fixpoint findClosestChunk (h : list ChunkDescription) (chunksToBeMerged : list nat)
    (sourceSignature : string) (targets : list nat) (closestChunk : option nat)
    (closestChunkDistance : number) : option nat :=
  match targets with
  | [] => closestChunk
  | targetChunk :: targets' =>
      let distance :=
        getSignatureDistance sourceSignature (signature (deref h targetChunk))
          (negb (set_has targetChunk chunksToBeMerged)) in
      if number_eqb distance (Finite 1) then Some targetChunk
      else if number_ltb distance closestChunkDistance
      then findClosestChunk h chunksToBeMerged sourceSignature targets'
             (Some targetChunk) distance
      else findClosestChunk h chunksToBeMerged sourceSignature targets'
             closestChunk closestChunkDistance
  end.

(** A [size] as a number: [null] counts as [0] in a sum. *)
Definition number_of (size : option nat) : nat :=
  match size with Some n => n | None => 0 end.

(** The body of [for (const sourceChunk of chunksToBeMerged)]. *)
Definition mergeSource (minChunkSize : Z) (sourceChunk : nat) (st : State) : State :=
  let toBeMerged := set_delete sourceChunk (chunksToBeMerged st) in
  let source := deref (heap st) sourceChunk in
  match findClosestChunk (heap st) toBeMerged (signature source)
          (toBeMerged ++ unmergeableChunks st) None Infinity with
  | Some closestChunk =>
      let closest := deref (heap st) closestChunk in
      let modules := modules closest ++ modules source in
      if set_has closestChunk toBeMerged then
        let size := number_of (size closest) + number_of (size source) in
        let merged := {| modules := modules;
                         signature := mergeSignatures (signature source) (signature closest);
                         size := Some size |} in
        if (minChunkSize <? Z.of_nat size)%Z then
          {| heap := heap_update closestChunk merged (heap st);
             chunksToBeMerged := set_delete closestChunk toBeMerged;
             unmergeableChunks := unmergeableChunks st ++ [closestChunk] |}
        else
          {| heap := heap_update closestChunk merged (heap st);
             chunksToBeMerged := toBeMerged;
             unmergeableChunks := unmergeableChunks st |}
      else
        {| heap := heap_update closestChunk
                     {| modules := modules; signature := signature closest;
                        size := size closest |} (heap st);
           chunksToBeMerged := toBeMerged;
           unmergeableChunks := unmergeableChunks st |}
  | None =>
      {| heap := heap st;
         chunksToBeMerged := toBeMerged;
         unmergeableChunks := unmergeableChunks st ++ [sourceChunk] |}
  end.

(** The loop over [chunksToBeMerged]. Chunks are deleted from the set while
    it is iterated and none is added: the iterator comes to the chunks the
    set held at the start, in their order, and passes over those deleted
    before it comes to them. *)
Definition mergeAll (minChunkSize : Z) (st : State) : State :=
  fold_left
    (fun st sourceChunk =>
       if set_has sourceChunk (chunksToBeMerged st)
       then mergeSource minChunkSize sourceChunk st
       else st)
    (chunksToBeMerged st) st.

(** [getOptimizedChunks], without its timers. *)
Definition getOptimizedChunks (G : Graph)
    (chunkModulesBySignature : list (string * list nat)) (minChunkSize : Z)
  : list ChunkDescription :=
  let st := mergeAll minChunkSize
              (getMergeableChunks G chunkModulesBySignature minChunkSize) in
  map (deref (heap st)) (unmergeableChunks st).

Definition createChunks (G : Graph) (allEntryPoints : list nat)
    (assignedEntryPointsByModule : list (nat * list nat)) (minChunkSize : Z)
  : list Chunk :=
  let chunkModulesBySignature :=
    getChunkModulesBySignature assignedEntryPointsByModule allEntryPoints in
  if (minChunkSize =? 0)%Z
  then map (fun modules => Build_Chunk None modules)
         (Object_values chunkModulesBySignature)
  else map (fun chunk => Build_Chunk None (modules chunk))
         (getOptimizedChunks G chunkModulesBySignature minChunkSize).

(** *** Vocabulary *)

(** A chunk can be merged: none of its modules has side effects and their
    code is not longer than [minChunkSize]; a chunk without modules can be
    merged. *)
Definition mergeable (G : Graph) (minChunkSize : Z) (modules : list nat) : bool :=
  forallb (is_pure_module G) modules
  && (match modules with [] => true | _ => false end
      || (Z.of_nat (modules_size G modules) <=? minChunkSize)%Z).

(** The signature and the modules of a chunk description. *)
Definition group (chunk : ChunkDescription) : string * list nat :=
  (signature chunk, modules chunk).

(** The modules of the chunk [ref]. *)
Definition modules_at (h : list ChunkDescription) (ref : nat) : list nat :=
  modules (deref h ref).

(** The chunks of a state that are in the set or in the array. *)
Definition live (st : State) : list nat := chunksToBeMerged st ++ unmergeableChunks st.

End Mergeable.

(** ** Inputs of the examples for the already loaded modules *)

Module LoadedExamples.

(** An entry [0] that depends on [2] and imports [1] dynamically; [1]
    depends on [2] and [3]. *)
Definition dependentEntryPointsByModule : list (nat * list nat) :=
  [(0, [0]); (2, [0; 1]); (1, [1]); (3, [1])].
Definition dynamicImportsByEntry : list (nat * list nat) := [(0, [1]); (1, [])].
Definition dynamicallyDependentEntryPointsByDynamicEntry : list (nat * list nat) :=
  [(1, [0])].
Definition allModules : list nat := [0; 2; 1; 3].

End LoadedExamples.

(** ** Inputs of the examples for the merge of [getMergeableChunks] *)

Module MergeableExamples.

(** The groups of [Examples.effectGraph] for the entries 0 and 1: module 2,
    which both entries depend on, has side effects. *)
Definition chunkModulesBySignature : list (string * list nat) :=
  [("X_"%string, [0]); ("XX"%string, [2]); ("_X"%string, [1])].

End MergeableExamples.
(** * Properties *)

(** ** The result monad *)

Lemma bind_Ok_inv {A B : Type} (r : result A) (k : A -> result B) (b : B) :
  bind r k = Ok b -> exists a, r = Ok a /\ k a = Ok b.
Proof. destruct r; simpl; intros H; try discriminate. eauto. Qed.

Lemma bind_fuel {A B : Type} (r : result A) (k : A -> result B) :
  r <> OutOfFuel -> (forall a, r = Ok a -> k a <> OutOfFuel) -> bind r k <> OutOfFuel.
Proof. destruct r; simpl; intros H1 H2; auto. discriminate. Qed.


(** ** Signatures *)

Import Signature.

Lemma nat_of_ascii_eqb (c d : ascii) :
  (nat_of_ascii c =? nat_of_ascii d) = Ascii.eqb c d.
Proof.
  destruct (Ascii.eqb_spec c d) as [->|Hne].
  - apply Nat.eqb_refl.
  - apply Nat.eqb_neq. intros H. apply Hne.
    rewrite <- (ascii_nat_embedding c), <- (ascii_nat_embedding d). now rewrite H.
Qed.

Lemma charCodeAt_cons (c : ascii) (s : string) (i : nat) :
  charCodeAt (String c s) (S i) = charCodeAt s i.
Proof. reflexivity. Qed.

Lemma charCodeAt_head (c : ascii) (s : string) :
  charCodeAt (String c s) 0 = Some (nat_of_ascii c).
Proof. reflexivity. Qed.

Lemma code_is_dependent (c : ascii) :
  code_is (Some (nat_of_ascii c)) CHAR_CODE_DEPENDENT = bit_of c.
Proof. unfold code_is, CHAR_CODE_DEPENDENT, bit_of. apply nat_of_ascii_eqb. Qed.

Lemma getSignatureDistance_loop_cons n i d c s c' t e :
  getSignatureDistance_loop n (S i) d (String c s) (String c' t) e
  = getSignatureDistance_loop n i d s t e.
Proof.
  revert i d. induction n as [|n IH]; intros i d; simpl; [reflexivity|].
  rewrite !charCodeAt_cons, !IH. reflexivity.
Qed.

Lemma mergeSignatures_loop_cons n i acc c s c' t :
  mergeSignatures_loop n (S i) acc (String c s) (String c' t)
  = mergeSignatures_loop n i acc s t.
Proof.
  revert i acc. induction n as [|n IH]; intros i acc; simpl; [reflexivity|].
  rewrite !charCodeAt_cons, IH. reflexivity.
Qed.

Lemma string_app_assoc (a b c : string) : ((a ++ b) ++ c = a ++ (b ++ c))%string.
Proof. induction a as [|x a IH]; simpl; [reflexivity|]. now rewrite IH. Qed.

Lemma string_app_nil_r (a : string) : (a ++ EmptyString)%string = a.
Proof. induction a as [|x a IH]; simpl; [reflexivity|]. now rewrite IH. Qed.

Lemma mergeSignatures_loop_pointwise s : forall t acc,
  String.length s = String.length t ->
  mergeSignatures_loop (String.length s) 0 acc s t = (acc ++ merge_pointwise s t)%string.
Proof.
  induction s as [|c s IH]; intros [|d t] acc Hlen; simpl in Hlen; try discriminate.
  - simpl. now rewrite string_app_nil_r.
  - cbn [String.length mergeSignatures_loop].
    rewrite !charCodeAt_head, !code_is_dependent, mergeSignatures_loop_cons.
    rewrite IH by lia. rewrite string_app_assoc. reflexivity.
Qed.

Lemma mergeSignatures_pointwise s t :
  String.length s = String.length t -> mergeSignatures s t = merge_pointwise s t.
Proof. intros H. unfold mergeSignatures. now rewrite mergeSignatures_loop_pointwise. Qed.

Lemma merge_pointwise_length s : forall t,
  String.length s = String.length t -> String.length (merge_pointwise s t) = String.length s.
Proof.
  induction s as [|c s IH]; intros [|d t] H; simpl in *; try discriminate; auto.
Qed.

Lemma merge_pointwise_wf s : forall t, wf_signature (merge_pointwise s t) = true.
Proof.
  induction s as [|c s IH]; intros [|d t]; simpl; auto.
  rewrite IH. now destruct (bit_of c || bit_of d).
Qed.

Lemma bit_of_char_of b : bit_of (char_of b) = b.
Proof. now destruct b. Qed.

Lemma wf_char c : (Ascii.eqb c CHAR_DEPENDENT || Ascii.eqb c CHAR_INDEPENDENT) = true ->
  char_of (bit_of c) = c.
Proof.
  unfold bit_of, char_of. destruct (Ascii.eqb_spec c CHAR_DEPENDENT) as [->|H1]; [reflexivity|].
  destruct (Ascii.eqb_spec c CHAR_INDEPENDENT) as [->|H2]; [reflexivity|discriminate].
Qed.

Lemma merge_pointwise_comm s : forall t, merge_pointwise s t = merge_pointwise t s.
Proof.
  induction s as [|c s IH]; intros [|d t]; simpl; auto.
  now rewrite IH, orb_comm.
Qed.

Lemma merge_pointwise_assoc a : forall b c,
  merge_pointwise (merge_pointwise a b) c = merge_pointwise a (merge_pointwise b c).
Proof.
  induction a as [|x a IH]; intros [|y b] [|z c]; simpl; auto.
  now rewrite IH, !bit_of_char_of, orb_assoc.
Qed.

Lemma merge_pointwise_idem a : wf_signature a = true -> merge_pointwise a a = a.
Proof.
  induction a as [|x a IH]; simpl; auto. intros H.
  apply andb_true_iff in H as [Hx Ha]. rewrite IH by assumption.
  now rewrite orb_diag, wf_char.
Qed.

Lemma merge_pointwise_encode a : forall b,
  String.length a = String.length b ->
  encode (merge_pointwise a b) = N.lor (encode a) (encode b).
Proof.
  induction a as [|x a IH]; intros [|y b] Hlen; simpl in *; try discriminate; auto.
  rewrite bit_of_char_of, IH by lia.
  destruct (bit_of x), (bit_of y), (encode a), (encode b); reflexivity.
Qed.

Lemma merge_pointwise_get a : forall b i ca cb,
  String.get i a = Some ca -> String.get i b = Some cb ->
  String.get i (merge_pointwise a b) = Some (char_of (bit_of ca || bit_of cb)).
Proof.
  induction a as [|x a IH]; intros [|y b] i ca cb Ha Hb; simpl in *; try discriminate.
  destruct i as [|i].
  - now inversion Ha; inversion Hb; subst.
  - eauto.
Qed.

(** C7. Merge-signature law: on signatures of equal length over ['X'], ['_'],
    [mergeSignatures] is commutative, associative and idempotent, and it is
    the bitwise OR of its arguments under ['_' |-> 0], ['X' |-> 1], both on the
    signatures read as bit vectors and position by position. *)
Theorem mergeSignatures_laws (a b c : string) :
  wf_signature a = true -> wf_signature b = true -> wf_signature c = true ->
  String.length a = String.length b -> String.length b = String.length c ->
  mergeSignatures a b = mergeSignatures b a
  /\ mergeSignatures (mergeSignatures a b) c = mergeSignatures a (mergeSignatures b c)
  /\ mergeSignatures a a = a
  /\ encode (mergeSignatures a b) = N.lor (encode a) (encode b)
  /\ (forall i ca cb, String.get i a = Some ca -> String.get i b = Some cb ->
        String.get i (mergeSignatures a b) = Some (char_of (bit_of ca || bit_of cb))).
Proof.
  intros Ha Hb Hc Hab Hbc.
  assert (Hlab : String.length (merge_pointwise a b) = String.length c)
    by (rewrite merge_pointwise_length; lia).
  assert (Hlbc : String.length a = String.length (merge_pointwise b c))
    by (rewrite merge_pointwise_length; lia).
  repeat split.
  - rewrite (mergeSignatures_pointwise a b), (mergeSignatures_pointwise b a) by lia.
    apply merge_pointwise_comm.
  - rewrite (mergeSignatures_pointwise a b), (mergeSignatures_pointwise b c) by lia.
    rewrite (mergeSignatures_pointwise _ c), (mergeSignatures_pointwise a _) by assumption.
    apply merge_pointwise_assoc.
  - rewrite mergeSignatures_pointwise by reflexivity. now apply merge_pointwise_idem.
  - rewrite mergeSignatures_pointwise by lia. now apply merge_pointwise_encode.
  - intros i ca cb Hia Hib. rewrite mergeSignatures_pointwise by lia.
    now apply merge_pointwise_get.
Qed.

Lemma mergeSignatures_laws_witness :
  mergeSignatures "X__" "_X_" = mergeSignatures "_X_" "X__"
  /\ mergeSignatures (mergeSignatures "X__" "_X_") "__X"
     = mergeSignatures "X__" (mergeSignatures "_X_" "__X")
  /\ mergeSignatures "X__" "X__" = "X__"%string
  /\ encode (mergeSignatures "X__" "_X_") = N.lor (encode "X__") (encode "_X_")
  /\ (forall i ca cb, String.get i "X__" = Some ca -> String.get i "_X_" = Some cb ->
        String.get i (mergeSignatures "X__" "_X_") = Some (char_of (bit_of ca || bit_of cb))).
Proof.
  apply (@mergeSignatures_laws "X__" "_X_" "__X"); reflexivity.
Defined.

(** The distance, position by position: infinite as soon as the source has
    an ['X'] the target lacks and the subset is enforced, the number of
    differing positions otherwise. *)
Lemma getSignatureDistance_loop_spec s : forall t d e,
  String.length s = String.length t ->
  getSignatureDistance_loop (String.length s) 0 d s t e
  = if e && negb (subset s t) then Infinity else Finite (d + differing s t).
Proof.
  induction s as [|c s IH]; intros [|c' t] d e Hlen; simpl in Hlen; try discriminate.
  - simpl. rewrite andb_false_r. f_equal. lia.
  - cbn [String.length getSignatureDistance_loop subset differing].
    rewrite !charCodeAt_head, code_is_dependent. cbn [code_neq].
    rewrite nat_of_ascii_eqb, !getSignatureDistance_loop_cons, !IH by lia.
    destruct (Ascii.eqb_spec c c') as [<-|Hne]; cbn [negb].
    + rewrite orb_negb_l. cbn [andb]. reflexivity.
    + destruct e; cbn [andb].
      * destruct (bit_of c) eqn:Hc; cbn [negb orb andb].
        -- assert (Hc' : bit_of c' = false).
           { apply Ascii.eqb_neq. intros ->. apply Hne.
             now apply Ascii.eqb_eq in Hc. }
           rewrite Hc'. reflexivity.
        -- destruct (subset s t); simpl; [f_equal; lia | reflexivity].
      * f_equal. lia.
Qed.

Lemma getSignatureDistance_spec s t e :
  String.length s = String.length t ->
  getSignatureDistance s t e
  = if e && negb (subset s t) then Infinity else Finite (differing s t).
Proof. intros H. unfold getSignatureDistance. now rewrite getSignatureDistance_loop_spec. Qed.

Lemma differing_refl s : differing s s = 0.
Proof. induction s as [|c s IH]; simpl; [reflexivity|]. now rewrite Ascii.eqb_refl. Qed.

Lemma subset_refl s : subset s s = true.
Proof. induction s as [|c s IH]; simpl; [reflexivity|]. now rewrite orb_negb_l. Qed.

Lemma exceeds_not_subset s : forall t, exceeds s t -> subset s t = false.
Proof.
  induction s as [|c s IH]; intros t [i [Hs Ht]]; [discriminate|].
  destruct t as [|d t]; [discriminate|]. simpl.
  destruct i as [|i]; simpl in Hs, Ht.
  - inversion Hs; inversion Ht; subst. reflexivity.
  - rewrite (IH t); [apply andb_false_r|]. now exists i.
Qed.

Lemma not_subset_exceeds s : forall t,
  wf_signature t = true -> String.length s = String.length t ->
  subset s t = false -> exceeds s t.
Proof.
  induction s as [|c s IH]; intros [|d t] Hwf Hlen Hsub; simpl in *; try discriminate.
  apply andb_true_iff in Hwf as [Hd Hwf].
  apply andb_false_iff in Hsub as [Hsub|Hsub].
  - exists 0. simpl. apply orb_false_iff in Hsub as [Hc Hd'].
    apply negb_false_iff in Hc. unfold bit_of in Hc, Hd'.
    apply Ascii.eqb_eq in Hc. rewrite Hd' in Hd. simpl in Hd.
    apply Ascii.eqb_eq in Hd. now subst.
  - destruct (IH t Hwf ltac:(lia) Hsub) as [i Hi]. now exists (S i).
Qed.

(** C8. Distance law: on signatures of equal length over ['X'], ['_'], the
    distance of a signature to itself is 0 whatever [enforceSubset] is; with
    [enforceSubset] the distance from [s] to [t] is infinite when [s] has an
    ['X'] where [t] has ['_']; in every other case the distance is the number
    of positions at which [s] and [t] differ. *)
Theorem getSignatureDistance_law (s t : string) (enforceSubset : bool) :
  wf_signature s = true -> wf_signature t = true ->
  String.length s = String.length t ->
  getSignatureDistance s s enforceSubset = Finite 0
  /\ (exceeds s t -> getSignatureDistance s t true = Infinity)
  /\ (enforceSubset = false \/ ~ exceeds s t ->
      getSignatureDistance s t enforceSubset = Finite (differing s t)).
Proof.
  intros Hs Ht Hlen. repeat split.
  - rewrite getSignatureDistance_spec by reflexivity.
    now rewrite subset_refl, andb_false_r, differing_refl.
  - intros Hex. rewrite getSignatureDistance_spec by assumption.
    now rewrite (exceeds_not_subset Hex).
  - intros Hcase. rewrite getSignatureDistance_spec by assumption.
    destruct Hcase as [->|Hnex]; [reflexivity|].
    destruct (subset s t) eqn:Hsub; [now rewrite andb_false_r|].
    exfalso. apply Hnex. now apply not_subset_exceeds.
Qed.

Lemma getSignatureDistance_law_witness :
  getSignatureDistance "XX_" "XX_" true = Finite 0
  /\ (exceeds "XX_" "_XX" -> getSignatureDistance "XX_" "_XX" true = Infinity)
  /\ (true = false \/ ~ exceeds "XX_" "_XX" ->
      getSignatureDistance "XX_" "_XX" true = Finite (differing "XX_" "_XX")).
Proof.
  apply (@getSignatureDistance_law "XX_" "_XX" true); reflexivity.
Defined.

(** ** Sets and maps *)

Lemma set_has_In x s : set_has x s = true <-> In x s.
Proof.
  unfold set_has. rewrite existsb_exists. split.
  - intros [y [Hy Heq]]. apply Nat.eqb_eq in Heq. now subst.
  - intros H. exists x. split; [assumption|apply Nat.eqb_refl].
Qed.

Lemma set_has_false x s : set_has x s = false <-> ~ In x s.
Proof.
  rewrite <- set_has_In. destruct (set_has x s); split; intros; congruence.
Qed.

Lemma set_add_In x y s : In y (set_add x s) <-> y = x \/ In y s.
Proof.
  unfold set_add. destruct (set_has x s) eqn:H.
  - apply set_has_In in H. split; [auto|]. intros [->|]; assumption.
  - rewrite in_app_iff. simpl. intuition.
Qed.

Lemma set_add_prefix x s : exists l, set_add x s = s ++ l.
Proof.
  unfold set_add. destruct (set_has x s).
  - exists []. now rewrite app_nil_r.
  - now exists [x].
Qed.

Lemma set_add_NoDup x s : NoDup s -> NoDup (set_add x s).
Proof.
  unfold set_add. intros H. destruct (set_has x s) eqn:Hx; [assumption|].
  apply set_has_false in Hx. apply NoDup_app; [assumption|repeat constructor; intros []|].
  intros y Hy [<-|[]]. contradiction.
Qed.

Lemma set_add_all_In xs : forall s y, In y (set_add_all xs s) <-> In y xs \/ In y s.
Proof.
  unfold set_add_all. induction xs as [|x xs IH]; intros s y; simpl.
  - intuition.
  - rewrite IH, set_add_In. intuition.
Qed.

Lemma set_add_all_prefix xs : forall s, exists l, set_add_all xs s = s ++ l.
Proof.
  unfold set_add_all. induction xs as [|x xs IH]; intros s; simpl.
  - exists []. now rewrite app_nil_r.
  - destruct (IH (set_add x s)) as [l Hl], (set_add_prefix x s) as [l' Hl'].
    exists (l' ++ l). now rewrite Hl, Hl', app_assoc.
Qed.

Lemma set_add_all_NoDup xs : forall s, NoDup s -> NoDup (set_add_all xs s).
Proof.
  unfold set_add_all. induction xs as [|x xs IH]; intros s H; simpl; [assumption|].
  apply IH. now apply set_add_NoDup.
Qed.

Lemma set_of_list_In xs y : In y (set_of_list xs) <-> In y xs.
Proof. unfold set_of_list. rewrite set_add_all_In. simpl. intuition. Qed.

Lemma set_of_list_NoDup xs : NoDup (set_of_list xs).
Proof. apply set_add_all_NoDup. constructor. Qed.

Lemma prefix_nth_error {A : Type} (s l : list A) i x :
  nth_error s i = Some x -> nth_error (s ++ l) i = Some x.
Proof.
  intros H. rewrite nth_error_app1; [assumption|].
  apply nth_error_Some. congruence.
Qed.

Lemma map_get_set_same {V : Type} k (v : V) m : map_get k (map_set k v m) = Some v.
Proof.
  induction m as [|[k' v'] m IH]; simpl.
  - now rewrite Nat.eqb_refl.
  - destruct (k =? k') eqn:E; simpl; [now rewrite Nat.eqb_refl|now rewrite E].
Qed.

Lemma map_get_set_other {V : Type} k k' (v : V) m :
  k <> k' -> map_get k (map_set k' v m) = map_get k m.
Proof.
  intros Hne. induction m as [|[k0 v0] m IH]; simpl.
  - apply Nat.eqb_neq in Hne. now rewrite Hne.
  - destruct (k' =? k0) eqn:E; simpl.
    + apply Nat.eqb_eq in E. subst k0.
      apply Nat.eqb_neq in Hne. now rewrite Hne.
    + now rewrite IH.
Qed.

Lemma map_get_In {V : Type} k (v : V) m : map_get k m = Some v -> In (k, v) m.
Proof.
  induction m as [|[k' v'] m IH]; simpl; [discriminate|].
  destruct (k =? k') eqn:E.
  - apply Nat.eqb_eq in E. intros H. inversion H. subst. now left.
  - auto.
Qed.

Lemma map_get_None {V : Type} k (m : list (nat * V)) :
  map_get k m = None <-> ~ In k (map fst m).
Proof.
  induction m as [|[k' v'] m IH]; simpl.
  - intuition.
  - destruct (k =? k') eqn:E.
    + apply Nat.eqb_eq in E. subst. split; [discriminate|]. intros H. exfalso. auto.
    + apply Nat.eqb_neq in E. rewrite IH. intuition.
Qed.

Lemma map_get_Some_key {V : Type} k (v : V) m : map_get k m = Some v -> In k (map fst m).
Proof. intros H. apply map_get_In in H. now apply (in_map fst) in H. Qed.

Lemma In_map_get {V : Type} k (v : V) m :
  NoDup (map fst m) -> In (k, v) m -> map_get k m = Some v.
Proof.
  induction m as [|[k' v'] m IH]; simpl; [intros _ []|].
  intros Hnd [Heq|Hin].
  - inversion Heq. subst. now rewrite Nat.eqb_refl.
  - inversion Hnd as [|? ? Hnotin Hnd']. subst.
    destruct (k =? k') eqn:E.
    + apply Nat.eqb_eq in E. subst. exfalso. apply Hnotin.
      now apply (in_map fst) in Hin.
    + auto.
Qed.

Lemma map_set_keys {V : Type} k (v : V) m :
  map fst (map_set k v m)
  = if set_has k (map fst m) then map fst m else map fst m ++ [k].
Proof.
  induction m as [|[k' v'] m IH]; simpl; [reflexivity|].
  destruct (k =? k') eqn:E; simpl.
  - apply Nat.eqb_eq in E. now subst.
  - rewrite IH. unfold set_has. now destruct (existsb (Nat.eqb k) (map fst m)).
Qed.

Lemma map_set_keys_set_add {V : Type} k (v : V) m :
  map fst (map_set k v m) = set_add k (map fst m).
Proof. apply map_set_keys. Qed.

Lemma getOrCreate_get {V : Type} (m : list (nat * V)) k init :
  map_get k (snd (getOrCreate m k init)) = Some (fst (getOrCreate m k init)).
Proof.
  unfold getOrCreate. destruct (map_get k m) eqn:E; simpl; [assumption|].
  apply map_get_set_same.
Qed.

Lemma getOrCreate_other {V : Type} (m : list (nat * V)) k k' init :
  k' <> k -> map_get k' (snd (getOrCreate m k init)) = map_get k' m.
Proof.
  intros Hne. unfold getOrCreate. destruct (map_get k m); simpl; [reflexivity|].
  now apply map_get_set_other.
Qed.

Lemma getOrCreate_keys {V : Type} (m : list (nat * V)) k init :
  map fst (snd (getOrCreate m k init)) = set_add k (map fst m).
Proof.
  unfold getOrCreate. destruct (map_get k m) eqn:E; simpl.
  - apply map_get_Some_key in E. apply set_has_In in E. unfold set_add. now rewrite E.
  - apply map_set_keys.
Qed.

(** ** Loops *)

Section ForOfFacts.
Context {St : Type}.
Variable iterated : St -> list nat.
Variable body : nat -> St -> result St.

(** An invariant that may mention the position of the iterator holds when
    the loop ends, and the iterator is then past the end of the set. *)
Lemma forOf_invariant (P : nat -> St -> Prop) :
  (forall i x st st', P i st -> nth_error (iterated st) i = Some x ->
                      body x st = Ok st' -> P (S i) st') ->
  forall fuel i st st',
    P i st -> forOf iterated body fuel i st = Ok st' ->
    exists j, P j st' /\ length (iterated st') <= j.
Proof.
  intros Hstep. induction fuel as [|fuel IH]; intros i st st' HP Hrun; simpl in Hrun.
  - discriminate.
  - destruct (nth_error (iterated st) i) as [x|] eqn:Hnth.
    + apply bind_Ok_inv in Hrun as [st1 [Hbody Hrest]].
      eapply IH; [|exact Hrest]. eapply Hstep; eauto.
    + inversion Hrun. subst. exists i. split; [assumption|].
      now apply nth_error_None.
Qed.

(** The same for an invariant of the state alone. *)
Lemma forOf_preserves (P : St -> Prop) :
  (forall x st st', P st -> In x (iterated st) -> body x st = Ok st' -> P st') ->
  forall fuel i st st',
    P st -> forOf iterated body fuel i st = Ok st' -> P st'.
Proof.
  intros Hstep fuel i st st' HP Hrun.
  destruct (@forOf_invariant (fun _ => P)) with (2 := HP) (3 := Hrun) as [j [H _]];
    [|exact H].
  intros k x s s' Hs Hnth Hb. eapply Hstep; eauto. eapply nth_error_In; eauto.
Qed.

(** The loop does not run out of fuel when an invariant bounds the size of
    the iterated set and the fuel exceeds the bound. *)
Lemma forOf_fuel (P : St -> Prop) (bound : nat) :
  (forall x st st', P st -> In x (iterated st) -> body x st = Ok st' -> P st') ->
  (forall x st, P st -> In x (iterated st) -> body x st <> OutOfFuel) ->
  (forall st, P st -> length (iterated st) <= bound) ->
  forall fuel i st,
    P st -> 0 < fuel -> bound < fuel + i ->
    forOf iterated body fuel i st <> OutOfFuel.
Proof.
  intros Hstep Hbody Hbound. induction fuel as [|fuel IH]; intros i st HP Hpos Hlt.
  - lia.
  - simpl. destruct (nth_error (iterated st) i) as [x|] eqn:Hnth; [|discriminate].
    assert (Hin : In x (iterated st)) by (eapply nth_error_In; eauto).
    assert (Hi : i < length (iterated st)) by (apply nth_error_Some; congruence).
    specialize (Hbound st HP).
    apply bind_fuel; [now apply Hbody|].
    intros st1 Hst1. apply IH; [eapply Hstep; eauto|lia|lia].
Qed.
End ForOfFacts.

Lemma forEach_preserves {A St : Type} (body : A -> St -> result St) (P : St -> Prop) :
  (forall x st st', P st -> body x st = Ok st' -> P st') ->
  forall xs st st', P st -> forEach body xs st = Ok st' -> P st'.
Proof.
  intros Hstep. induction xs as [|x xs IH]; intros st st' HP Hrun; simpl in Hrun.
  - inversion Hrun. now subst.
  - apply bind_Ok_inv in Hrun as [st1 [Hb Hrest]]. eauto.
Qed.

Lemma forEach_preserves_in {A St : Type} (body : A -> St -> result St)
    (xs : list A) (P : St -> Prop) :
  (forall x st st', In x xs -> P st -> body x st = Ok st' -> P st') ->
  forall st st', P st -> forEach body xs st = Ok st' -> P st'.
Proof.
  induction xs as [|x xs IH]; intros Hstep st st' HP Hrun; simpl in Hrun.
  - inversion Hrun. now subst.
  - apply bind_Ok_inv in Hrun as [st1 [Hb Hrest]].
    eapply IH; [| |exact Hrest].
    + intros y s s' Hy. apply Hstep. now right.
    + eapply Hstep; eauto. now left.
Qed.

Lemma forEach_fuel {A St : Type} (body : A -> St -> result St) (P : St -> Prop) :
  (forall x st st', P st -> body x st = Ok st' -> P st') ->
  (forall x st, P st -> body x st <> OutOfFuel) ->
  forall xs st, P st -> forEach body xs st <> OutOfFuel.
Proof.
  intros Hstep Hbody. induction xs as [|x xs IH]; intros st HP; simpl; [discriminate|].
  apply bind_fuel; [now apply Hbody|]. intros st1 H1. apply IH. eauto.
Qed.

Lemma NoDup_incl_le (l u : list nat) : NoDup l -> incl l u -> length l <= length u.
Proof. intros. now apply NoDup_incl_length. Qed.

(** ** The module graph *)

Lemma getModule_refs G m d :
  In d (module_refs (getModule G m)) -> In d (graph_universe G).
Proof.
  unfold getModule. destruct (map_get m G) as [module|] eqn:E; [|intros []].
  intros Hd. apply map_get_In in E. unfold graph_universe.
  apply in_flat_map. exists (m, module). split; [assumption|]. now right.
Qed.

Lemma dependency_refs_In d deps :
  In (DepModule d) deps -> In d (flat_map dependency_refs deps).
Proof. intros H. apply in_flat_map. exists (DepModule d). split; [assumption|now left]. Qed.

Lemma included_in_universe G m d :
  In (DepModule d) (getDependenciesToBeIncluded (getModule G m)) ->
  In d (graph_universe G).
Proof.
  intros H. apply (@getModule_refs G m). unfold module_refs.
  rewrite !in_app_iff. right. left. now apply dependency_refs_In.
Qed.

Lemma dependencies_in_universe G m d :
  In (DepModule d) (dependencies (getModule G m)) -> In d (graph_universe G).
Proof.
  intros H. apply (@getModule_refs G m). unfold module_refs.
  rewrite !in_app_iff. left. now apply dependency_refs_In.
Qed.

Lemma enqueue_In excluded deps : forall acc d,
  In d (enqueue excluded deps acc)
  <-> In d acc \/ (In (DepModule d) deps /\ ~ In d excluded).
Proof.
  unfold enqueue. induction deps as [|dep deps IH]; intros acc d; simpl.
  - intuition.
  - rewrite IH. destruct dep as [m|x].
    + destruct (set_has m excluded) eqn:E.
      * apply set_has_In in E. split; [intuition|].
        intros [H|[[H|H] Hn]]; auto. inversion H. subst. contradiction.
      * apply set_has_false in E. rewrite set_add_In. split.
        -- intros [[->|H]|[H Hn]]; auto.
        -- intros [H|[[H|H] Hn]]; auto. inversion H. subst. auto.
    + split; [intuition|]. intros [H|[[H|H] Hn]]; auto. discriminate.
Qed.

Lemma enqueue_prefix excluded deps : forall acc,
  exists l, enqueue excluded deps acc = acc ++ l.
Proof.
  unfold enqueue. induction deps as [|dep deps IH]; intros acc; simpl.
  - exists []. now rewrite app_nil_r.
  - destruct dep as [m|x]; [|apply IH].
    destruct (set_has m excluded); [apply IH|].
    destruct (IH (set_add m acc)) as [l Hl], (set_add_prefix m acc) as [l' Hl'].
    exists (l' ++ l). now rewrite Hl, Hl', app_assoc.
Qed.

Lemma enqueue_NoDup excluded deps : forall acc,
  NoDup acc -> NoDup (enqueue excluded deps acc).
Proof.
  unfold enqueue. induction deps as [|dep deps IH]; intros acc H; simpl; [assumption|].
  destruct dep as [m|x]; [|now apply IH].
  destruct (set_has m excluded); [now apply IH|]. apply IH. now apply set_add_NoDup.
Qed.

Lemma enqueue_nil deps acc : enqueue [] deps acc =
  fold_left (fun modulesToHandle dependency =>
               match dependency with
               | DepExternal _ => modulesToHandle
               | DepModule d => set_add d modulesToHandle
               end) deps acc.
Proof. reflexivity. Qed.

Lemma worklist_ok_length G seed l :
  worklist_ok G seed l -> length l <= length (graph_universe G) + 1.
Proof.
  intros [Hnd Hincl]. apply NoDup_incl_le in Hincl; [|assumption]. simpl in Hincl. lia.
Qed.

Lemma worklist_ok_seed G seed : worklist_ok G seed [seed].
Proof.
  split; [repeat constructor; intros []|]. intros x [<-|[]]. now left.
Qed.

Lemma worklist_ok_enqueue G seed excluded deps l :
  (forall d, In (DepModule d) deps -> In d (graph_universe G)) ->
  worklist_ok G seed l -> worklist_ok G seed (enqueue excluded deps l).
Proof.
  intros Hdeps [Hnd Hincl]. split; [now apply enqueue_NoDup|].
  intros d Hd. apply enqueue_In in Hd as [Hd|[Hd _]]; [now apply Hincl|].
  right. now apply Hdeps.
Qed.

(** ** Entry assignment *)

Section AssignTraversal.
Variables (G : Graph) (entry : nat) (a : Analysis).
Variables (inManual staticEntries : list nat).

Let dde := map_get entry (dynamicallyDependentEntriesByDynamicEntry a).
Let body := assignEntryToStaticDependencies_module G entry a inManual staticEntries dde.

Lemma assign_module_inv module st st' :
  body module st = Ok st' ->
  exists alreadyLoaded,
    isAlreadyLoaded a staticEntries dde module = Ok alreadyLoaded
    /\ asg_modulesToHandle st'
       = (if alreadyLoaded then asg_modulesToHandle st
          else enqueue inManual (getDependenciesToBeIncluded (getModule G module))
                 (asg_modulesToHandle st))
    /\ asg_assignedEntriesByModule st'
       = (let r := getOrCreate (asg_assignedEntriesByModule st) module [] in
          if alreadyLoaded then snd r
          else map_set module (set_add entry (fst r)) (snd r)).
Proof.
  unfold body, assignEntryToStaticDependencies_module.
  destruct (getOrCreate (asg_assignedEntriesByModule st) module []) as [s m] eqn:Eg.
  intros H. apply bind_Ok_inv in H as [r [Hr H]]. exists r. split; [exact Hr|].
  destruct r; inversion H; subst; simpl; auto.
Qed.

Lemma assign_module_prefix module st st' :
  body module st = Ok st' ->
  exists l, asg_modulesToHandle st' = asg_modulesToHandle st ++ l.
Proof.
  intros H. apply assign_module_inv in H as [r [_ [-> _]]]. destruct r.
  - exists []. now rewrite app_nil_r.
  - apply enqueue_prefix.
Qed.

Let P (i : nat) (st : AssignTraversal) : Prop :=
  (forall k module d,
      k < i -> nth_error (asg_modulesToHandle st) k = Some module ->
      isAlreadyLoaded a staticEntries dde module = Ok false ->
      In (DepModule d) (getDependenciesToBeIncluded (getModule G module)) ->
      ~ In d inManual ->
      In d (asg_modulesToHandle st))
  /\ (forall d,
        In d (asg_modulesToHandle st) ->
        d = entry
        \/ exists module,
             In module (asg_modulesToHandle st)
             /\ isAlreadyLoaded a staticEntries dde module = Ok false
             /\ In (DepModule d) (getDependenciesToBeIncluded (getModule G module))
             /\ ~ In d inManual).

Lemma assign_P_step i x st st' :
  P i st -> nth_error (asg_modulesToHandle st) i = Some x ->
  body x st = Ok st' -> P (S i) st'.
Proof.
  intros [Hclosed Horigin] Hnth Hbody.
  destruct (assign_module_prefix _ _ Hbody) as [l Hl].
  destruct (assign_module_inv _ _ Hbody) as [r [Hr [Hmth _]]].
  split.
  - intros k module d Hk Hk' Hload Hdep Hman.
    assert (Hlt : k < i \/ k = i) by lia. destruct Hlt as [Hlt| ->].
    + rewrite Hl in Hk'. rewrite nth_error_app1 in Hk'
        by (apply Nat.lt_trans with i; [assumption|apply nth_error_Some; congruence]).
      rewrite Hl. apply in_or_app. left. eapply Hclosed; eauto.
    + rewrite Hl in Hk'. rewrite (prefix_nth_error _ l _ Hnth) in Hk'.
      inversion Hk'. subst module. rewrite Hload in Hr. inversion Hr. subst r.
      rewrite Hmth. apply enqueue_In. now right.
  - intros d Hd. rewrite Hmth in Hd. destruct r.
    + destruct (Horigin d Hd) as [->|[module [H1 H2]]]; [now left|].
      right. exists module. split; [|exact H2]. rewrite Hl. apply in_or_app. now left.
    + apply enqueue_In in Hd as [Hd|[Hdep Hman]].
      * destruct (Horigin d Hd) as [->|[module [H1 H2]]]; [now left|].
        right. exists module. split; [|exact H2]. rewrite Hl. apply in_or_app. now left.
      * right. exists x. repeat split; auto.
        rewrite Hl. apply in_or_app. left. eapply nth_error_In; eauto.
Qed.

(** C2, as the code has it. The traversal of
    [assignEntryToStaticDependencies] enqueues the included, non-external,
    non-manual dependencies of a module only when the entry is attributed to
    the module: the modules visited from an entry are the entry and the
    dependencies of the visited modules that were not found already loaded.
    A module whose attribution is skipped contributes no dependency. *)
Theorem traversal_continues_unless_skipped assigned st :
  assignEntryToStaticDependencies_run G entry a assigned inManual staticEntries = Ok st ->
  continues_unless_skipped G entry a inManual staticEntries (asg_modulesToHandle st).
Proof.
  unfold assignEntryToStaticDependencies_run. intros Hrun.
  eapply forOf_invariant with (P := P) in Hrun as [j [[Hclosed Horigin] Hj]].
  - split; [|exact Horigin]. intros module d Hin.
    apply In_nth_error in Hin as [k Hk]. apply (Hclosed k).
    + apply Nat.lt_le_trans with (length (asg_modulesToHandle st)); [|assumption].
      apply nth_error_Some. congruence.
    + exact Hk.
  - exact assign_P_step.
  - split; [intros k module d Hk; lia|]. simpl. intros d [<-|[]]. now left.
Qed.

(** Every module visited has an entry set in [assignedEntriesByModule]. *)
Lemma assign_run_keys assigned st :
  assignEntryToStaticDependencies_run G entry a assigned inManual staticEntries = Ok st ->
  forall module,
    In module (asg_modulesToHandle st) ->
    In module (map fst (asg_assignedEntriesByModule st)).
Proof.
  unfold assignEntryToStaticDependencies_run. intros Hrun.
  pose (Q := fun (i : nat) (st : AssignTraversal) =>
    forall k module, k < i -> nth_error (asg_modulesToHandle st) k = Some module ->
                     In module (map fst (asg_assignedEntriesByModule st))).
  eapply forOf_invariant with (P := Q) in Hrun as [j [HQ Hj]].
  - intros module Hin. apply In_nth_error in Hin as [k Hk]. apply (HQ k); [|exact Hk].
    apply Nat.lt_le_trans with (length (asg_modulesToHandle st)); [|assumption].
    apply nth_error_Some. congruence.
  - intros i x s s' HQ Hnth Hbody k module Hk Hk'.
    destruct (assign_module_prefix _ _ Hbody) as [l Hl].
    destruct (assign_module_inv _ _ Hbody) as [r [_ [_ Hasg]]].
    assert (Hkeys : forall y, In y (set_add x (map fst (asg_assignedEntriesByModule s)))
                              -> In y (map fst (asg_assignedEntriesByModule s'))).
    { intros y Hy. rewrite Hasg. simpl. destruct r.
      - now rewrite getOrCreate_keys.
      - rewrite map_set_keys_set_add, getOrCreate_keys. apply set_add_In. now right. }
    apply Hkeys. apply set_add_In.
    assert (Hlt : k < i \/ k = i) by lia. destruct Hlt as [Hlt| ->].
    + right. apply (HQ k); [assumption|].
      rewrite Hl in Hk'. rewrite nth_error_app1 in Hk'; [assumption|].
      apply Nat.lt_trans with i; [assumption|apply nth_error_Some; congruence].
    + left. rewrite Hl in Hk'. rewrite (prefix_nth_error _ l _ Hnth) in Hk'. congruence.
  - intros k module Hk. lia.
Qed.
End AssignTraversal.

(** ** Objects used as dictionaries *)

Lemma obj_get_set_same {V : Type} k (v : V) o : obj_get k (obj_set k v o) = Some v.
Proof.
  induction o as [|[k' v'] o IH]; simpl.
  - now rewrite String.eqb_refl.
  - destruct (String.eqb k k') eqn:E; simpl; [now rewrite String.eqb_refl|now rewrite E].
Qed.

Lemma obj_get_set_other {V : Type} k k' (v : V) o :
  k <> k' -> obj_get k (obj_set k' v o) = obj_get k o.
Proof.
  intros Hne. induction o as [|[k0 v0] o IH]; simpl.
  - apply String.eqb_neq in Hne. now rewrite Hne.
  - destruct (String.eqb k' k0) eqn:E; simpl.
    + apply String.eqb_eq in E. subst k0. apply String.eqb_neq in Hne. now rewrite Hne.
    + now rewrite IH.
Qed.

Lemma obj_get_In {V : Type} k (v : V) o : obj_get k o = Some v -> In (k, v) o.
Proof.
  induction o as [|[k' v'] o IH]; simpl; [discriminate|].
  destruct (String.eqb k k') eqn:E.
  - apply String.eqb_eq in E. intros H. inversion H. subst. now left.
  - auto.
Qed.

Lemma obj_get_None {V : Type} k (o : list (string * V)) :
  obj_get k o = None <-> ~ In k (map fst o).
Proof.
  induction o as [|[k' v'] o IH]; simpl.
  - intuition.
  - destruct (String.eqb k k') eqn:E.
    + apply String.eqb_eq in E. subst. split; [discriminate|]. intros H. exfalso. auto.
    + apply String.eqb_neq in E. rewrite IH. intuition.
Qed.

Lemma In_obj_get {V : Type} k (v : V) o :
  NoDup (map fst o) -> In (k, v) o -> obj_get k o = Some v.
Proof.
  induction o as [|[k' v'] o IH]; simpl; [intros _ []|].
  intros Hnd [Heq|Hin].
  - inversion Heq. subst. now rewrite String.eqb_refl.
  - inversion Hnd as [|? ? Hnotin Hnd']. subst.
    destruct (String.eqb k k') eqn:E.
    + apply String.eqb_eq in E. subst. exfalso. apply Hnotin.
      now apply (in_map fst) in Hin.
    + auto.
Qed.

Lemma obj_set_keys_present {V : Type} k (v : V) o :
  In k (map fst o) -> map fst (obj_set k v o) = map fst o.
Proof.
  induction o as [|[k' v'] o IH]; simpl; [intros []|].
  destruct (String.eqb k k') eqn:E; simpl.
  - apply String.eqb_eq in E. now subst.
  - apply String.eqb_neq in E. intros [H|H]; [congruence|]. now rewrite IH.
Qed.

Lemma obj_set_keys_absent {V : Type} k (v : V) o :
  ~ In k (map fst o) -> map fst (obj_set k v o) = map fst o ++ [k].
Proof.
  induction o as [|[k' v'] o IH]; simpl; [reflexivity|].
  destruct (String.eqb k k') eqn:E; simpl.
  - apply String.eqb_eq in E. subst. intros H. exfalso. auto.
  - intros H. rewrite IH; auto.
Qed.

Lemma obj_set_keys_In {V : Type} k k' (v : V) o :
  In k' (map fst (obj_set k v o)) <-> k' = k \/ In k' (map fst o).
Proof.
  destruct (in_dec string_dec k (map fst o)) as [Hin|Hnin].
  - rewrite obj_set_keys_present by assumption. split; [auto|]. now intros [->|].
  - rewrite obj_set_keys_absent, in_app_iff by assumption. simpl. intuition.
Qed.

Lemma obj_set_NoDup {V : Type} k (v : V) o :
  NoDup (map fst o) -> NoDup (map fst (obj_set k v o)).
Proof.
  intros Hnd. destruct (in_dec string_dec k (map fst o)) as [Hin|Hnin].
  - now rewrite obj_set_keys_present.
  - rewrite obj_set_keys_absent by assumption.
    apply NoDup_app; [assumption|repeat constructor; intros []|].
    intros y Hy [<-|[]]. contradiction.
Qed.

(** An object none of whose keys is an array index lists its entries in
    insertion order. *)
Lemma Object_entries_no_index {V : Type} (o : list (string * V)) :
  (forall k, In k (map fst o) -> arrayIndex k = None) -> Object_entries o = o.
Proof.
  intros H. unfold Object_entries.
  assert (Hidx : index_entries o = []).
  { induction o as [|[k v] o IH]; [reflexivity|]. simpl.
    rewrite (H k) by now left. apply IH. intros k' Hk'. apply H. now right. }
  rewrite Hidx. simpl.
  induction o as [|[k v] o IH]; [reflexivity|]. simpl.
  unfold is_index_key at 1. simpl. rewrite (H k) by now left. simpl. f_equal.
  apply IH.
  - intros k' Hk'. apply H. now right.
  - simpl in Hidx. rewrite (H k) in Hidx by now left. exact Hidx.
Qed.

(** ** Signatures of modules *)

Lemma chunkSignature_chars assignedEntries allEntries :
  chunkSignature assignedEntries allEntries
  = string_of_chars (map (fun entry => char_of (set_has entry assignedEntries)) allEntries).
Proof.
  unfold chunkSignature.
  assert (H : forall l acc,
    fold_left (fun chunkSignature entry =>
       (chunkSignature ++ String (if set_has entry assignedEntries then CHAR_DEPENDENT
                                  else CHAR_INDEPENDENT) EmptyString)%string) l acc
    = (acc ++ string_of_chars
                (map (fun entry => char_of (set_has entry assignedEntries)) l))%string).
  { induction l as [|e l IH]; intros acc; simpl.
    - now rewrite string_app_nil_r.
    - rewrite IH, string_app_assoc. reflexivity. }
  now rewrite H.
Qed.

Lemma string_of_chars_length l : String.length (string_of_chars l) = length l.
Proof. induction l as [|c l IH]; simpl; auto. Qed.

Lemma string_of_chars_get l : forall i, String.get i (string_of_chars l) = nth_error l i.
Proof. induction l as [|c l IH]; intros [|i]; simpl; auto. Qed.

Lemma chunkSignature_length assignedEntries allEntries :
  String.length (chunkSignature assignedEntries allEntries) = length allEntries.
Proof. now rewrite chunkSignature_chars, string_of_chars_length, length_map. Qed.

Lemma chunkSignature_wf assignedEntries allEntries :
  wf_signature (chunkSignature assignedEntries allEntries) = true.
Proof.
  rewrite chunkSignature_chars. induction allEntries as [|e l IH]; simpl; [reflexivity|].
  rewrite IH. now destruct (set_has e assignedEntries).
Qed.

(** Position [i] of the signature is ['X'] exactly when the module is
    assigned to entry [i]. *)
Lemma chunkSignature_get assignedEntries allEntries i entry :
  nth_error allEntries i = Some entry ->
  String.get i (chunkSignature assignedEntries allEntries)
  = Some (char_of (set_has entry assignedEntries)).
Proof.
  intros H. rewrite chunkSignature_chars, string_of_chars_get, nth_error_map, H.
  reflexivity.
Qed.

Lemma chunkSignature_eq a b allEntries :
  chunkSignature a allEntries = chunkSignature b allEntries ->
  forall entry, In entry allEntries -> set_has entry a = set_has entry b.
Proof.
  intros Heq entry Hin. apply In_nth_error in Hin as [i Hi].
  assert (H := chunkSignature_get a _ _ Hi). rewrite Heq in H.
  rewrite (chunkSignature_get b _ _ Hi) in H. inversion H as [H'].
  now destruct (set_has entry a), (set_has entry b).
Qed.

Lemma wf_signature_not_index k : wf_signature k = true -> arrayIndex k = None.
Proof.
  destruct k as [|c k]; [reflexivity|]. simpl. intros H.
  apply andb_true_iff in H as [H _]. apply orb_true_iff in H as [H|H];
    apply Ascii.eqb_eq in H; subst; reflexivity.
Qed.

(** ** Grouping by signature *)

Lemma getChunkModulesBySignature_fold assigned allEntries :
  getChunkModulesBySignature assigned allEntries
  = fold_left (group_step allEntries) assigned [].
Proof. reflexivity. Qed.

Lemma group_fold_get allEntries assigned : forall acc k,
  obj_get k (fold_left (group_step allEntries) assigned acc)
  = match obj_get k acc, group_of allEntries k assigned with
    | None, [] => None
    | None, g => Some g
    | Some b, g => Some (b ++ g)
    end.
Proof.
  induction assigned as [|[m s] l IH]; intros acc k; simpl.
  - unfold group_of. simpl. destruct (obj_get k acc); [now rewrite app_nil_r|reflexivity].
  - rewrite IH. unfold group_of. simpl.
    destruct (String.eqb_spec (chunkSignature s allEntries) k) as [<-|Hne]; simpl.
    + destruct (obj_get (chunkSignature s allEntries) acc) as [b|] eqn:E;
        rewrite obj_get_set_same; [now rewrite <- app_assoc|reflexivity].
    + assert (Hother : forall v, obj_get k (obj_set (chunkSignature s allEntries) v acc)
                                 = obj_get k acc)
        by (intros v; apply obj_get_set_other; congruence).
      destruct (obj_get (chunkSignature s allEntries) acc); now rewrite Hother.
Qed.

Lemma group_fold_keys allEntries assigned : forall acc k,
  In k (map fst (fold_left (group_step allEntries) assigned acc))
  <-> In k (map fst acc)
      \/ exists me, In me assigned /\ chunkSignature (snd me) allEntries = k.
Proof.
  induction assigned as [|[m s] l IH]; intros acc k; simpl.
  - split; [auto|]. intros [H|[me [[] _]]]. assumption.
  - rewrite IH.
    assert (Hk : In k (map fst (group_step allEntries acc (m, s)))
                 <-> k = chunkSignature s allEntries \/ In k (map fst acc)).
    { simpl. destruct (obj_get (chunkSignature s allEntries) acc); apply obj_set_keys_In. }
    rewrite Hk. split.
    + intros [[->|H]|[me [H1 H2]]].
      * right. exists (m, s). auto.
      * now left.
      * right. exists me. auto.
    + intros [H|[me [[<-|H1] H2]]].
      * left. now right.
      * left. left. now subst.
      * right. exists me. auto.
Qed.

Lemma group_fold_NoDup allEntries assigned : forall acc,
  NoDup (map fst acc) -> NoDup (map fst (fold_left (group_step allEntries) assigned acc)).
Proof.
  induction assigned as [|[m s] l IH]; intros acc H; simpl; [assumption|].
  apply IH. destruct (obj_get (chunkSignature s allEntries) acc); now apply obj_set_NoDup.
Qed.

Lemma getChunkModulesBySignature_NoDup assigned allEntries :
  NoDup (map fst (getChunkModulesBySignature assigned allEntries)).
Proof. rewrite getChunkModulesBySignature_fold. apply group_fold_NoDup. constructor. Qed.

Lemma getChunkModulesBySignature_keys assigned allEntries k :
  In k (map fst (getChunkModulesBySignature assigned allEntries))
  <-> exists me, In me assigned /\ chunkSignature (snd me) allEntries = k.
Proof.
  rewrite getChunkModulesBySignature_fold, group_fold_keys. simpl. intuition.
Qed.

(** Each group holds exactly the modules of its signature. *)
Lemma getChunkModulesBySignature_group assigned allEntries k modules :
  In (k, modules) (getChunkModulesBySignature assigned allEntries) ->
  modules = group_of allEntries k assigned /\ modules <> [].
Proof.
  intros Hin. apply In_obj_get in Hin; [|apply getChunkModulesBySignature_NoDup].
  rewrite getChunkModulesBySignature_fold, group_fold_get in Hin. simpl in Hin.
  destruct (group_of allEntries k assigned); inversion Hin. split; [reflexivity|discriminate].
Qed.

Lemma getChunkModulesBySignature_entries assigned allEntries :
  Object_entries (getChunkModulesBySignature assigned allEntries)
  = getChunkModulesBySignature assigned allEntries.
Proof.
  apply Object_entries_no_index. intros k Hk.
  apply getChunkModulesBySignature_keys in Hk as [me [_ <-]].
  apply wf_signature_not_index, chunkSignature_wf.
Qed.

Lemma group_of_In allEntries k assigned m :
  In m (group_of allEntries k assigned)
  <-> exists s, In (m, s) assigned /\ chunkSignature s allEntries = k.
Proof.
  unfold group_of. rewrite in_map_iff. split.
  - intros [[m' s] [Hm Hf]]. simpl in Hm. subst. apply filter_In in Hf as [Hin Heq].
    apply String.eqb_eq in Heq. eauto.
  - intros [s [Hin Heq]]. exists (m, s). split; [reflexivity|].
    apply filter_In. split; [assumption|]. now apply String.eqb_eq.
Qed.

(** ** Sets of chunks *)

Lemma cset_elements_app s1 s2 :
  cset_elements (s1 ++ s2) = cset_elements s1 ++ cset_elements s2.
Proof. unfold cset_elements. apply flat_map_app. Qed.

Lemma cset_has_In x s : cset_has x s = true <-> In x (cset_elements s).
Proof. apply set_has_In. Qed.

Lemma cset_add_elements x s :
  cset_elements (cset_add x s)
  = if cset_has x s then cset_elements s else cset_elements s ++ [x].
Proof.
  unfold cset_add. destruct (cset_has x s); [reflexivity|].
  now rewrite cset_elements_app.
Qed.

Lemma cset_add_In x y s :
  In y (cset_elements (cset_add x s)) <-> y = x \/ In y (cset_elements s).
Proof.
  rewrite cset_add_elements. destruct (cset_has x s) eqn:E.
  - apply cset_has_In in E. split; [auto|]. now intros [->|].
  - rewrite in_app_iff. simpl. intuition.
Qed.

Lemma cset_add_NoDup x s :
  NoDup (cset_elements s) -> NoDup (cset_elements (cset_add x s)).
Proof.
  intros H. rewrite cset_add_elements. destruct (cset_has x s) eqn:E; [assumption|].
  assert (Hx : ~ In x (cset_elements s)).
  { intros Hin. apply cset_has_In in Hin. congruence. }
  apply NoDup_app; [assumption|repeat constructor; intros []|].
  intros y Hy [<-|[]]. contradiction.
Qed.

Lemma cset_add_length x s : length (cset_add x s) <= S (length s).
Proof.
  unfold cset_add. destruct (cset_has x s); [lia|]. rewrite length_app. simpl. lia.
Qed.

Lemma cset_add_nth_error x s i slot :
  nth_error s i = Some slot -> nth_error (cset_add x s) i = Some slot.
Proof.
  unfold cset_add. destruct (cset_has x s); [auto|]. apply prefix_nth_error.
Qed.

Lemma cset_delete_In x y s :
  In y (cset_elements (cset_delete x s)) <-> y <> x /\ In y (cset_elements s).
Proof.
  unfold cset_elements, cset_delete. induction s as [|[z|] s IH]; simpl.
  - intuition.
  - destruct (x =? z) eqn:E; simpl.
    + apply Nat.eqb_eq in E. subst z. rewrite IH. intuition. congruence.
    + apply Nat.eqb_neq in E. rewrite IH. intuition. congruence.
  - exact IH.
Qed.

Lemma cset_delete_NoDup x s :
  NoDup (cset_elements s) -> NoDup (cset_elements (cset_delete x s)).
Proof.
  induction s as [|[z|] s IH]; simpl; intros H; [constructor| |auto].
  inversion H as [|? ? Hz Hs]. subst.
  destruct (x =? z); simpl; [auto|].
  constructor; [|auto]. intros Hin. apply cset_delete_In in Hin. tauto.
Qed.

Lemma cset_delete_length x s : length (cset_delete x s) = length s.
Proof. apply length_map. Qed.

Lemma cset_delete_absent x s :
  ~ In x (cset_elements s) -> cset_delete x s = s.
Proof.
  induction s as [|[z|] s IH]; simpl; intros H; [reflexivity| |].
  - destruct (x =? z) eqn:E.
    + apply Nat.eqb_eq in E. subst. exfalso. apply H. now left.
    + f_equal. apply IH. intros Hin. apply H. now right.
  - f_equal. now apply IH.
Qed.

Lemma cset_of_list_elements xs :
  NoDup xs -> cset_elements (cset_of_list xs) = xs.
Proof.
  unfold cset_of_list.
  assert (H : forall l acc, NoDup (cset_elements acc ++ l) ->
    cset_elements (fold_left (fun acc x => cset_add x acc) l acc) = cset_elements acc ++ l).
  { induction l as [|x l IH]; intros acc Hnd; simpl.
    - now rewrite app_nil_r.
    - assert (Hx : ~ In x (cset_elements acc)).
      { apply NoDup_remove_2 in Hnd. intros Hin. apply Hnd. apply in_or_app. now left. }
      rewrite IH.
      + rewrite cset_add_elements.
        destruct (cset_has x acc) eqn:E; [apply cset_has_In in E; contradiction|].
        now rewrite <- app_assoc.
      + rewrite cset_add_elements.
        destruct (cset_has x acc) eqn:E; [apply cset_has_In in E; contradiction|].
        now rewrite <- app_assoc. }
  intros Hnd. now rewrite H.
Qed.

Lemma cset_of_list_nil : cset_of_list [] = [].
Proof. reflexivity. Qed.

(** ** Buckets *)

Lemma Bucket_eqb_eq a b : Bucket_eqb a b = true <-> a = b.
Proof. destruct a, b; simpl; split; intros; congruence. Qed.

Lemma Bucket_eq_dec (a b : Bucket) : {a = b} + {a <> b}.
Proof. decide equality. Qed.

Lemma bucket_update_same b f p : bucket b (bucket_update b f p) = f (bucket b p).
Proof. now destruct b. Qed.

Lemma bucket_update_other b b' f p :
  b <> b' -> bucket b' (bucket_update b f p) = bucket b' p.
Proof. destruct b, b'; simpl; congruence. Qed.

Lemma live_chunks_In p r :
  In r (live_chunks p) <-> exists b, In r (cset_elements (bucket b p)).
Proof.
  unfold live_chunks, concatLazy, all_buckets. simpl. rewrite !in_app_iff. split.
  - intros [H|[H|[H|[H|[]]]]];
      [exists SmallSideEffect|exists SmallPure|exists BigSideEffect|exists BigPure];
      exact H.
  - intros [[] H]; simpl in H; tauto.
Qed.

Lemma concatLazy_In targets p r :
  In r (concatLazy targets p) <-> exists b, In b targets /\ In r (cset_elements (bucket b p)).
Proof. unfold concatLazy. apply in_flat_map. Qed.

(** ** The heap of chunk descriptions *)

Lemma heap_update_length r c h : length (heap_update r c h) = length h.
Proof.
  revert r. induction h as [|c' h IH]; intros [|r]; simpl; auto.
Qed.

Lemma deref_update_same r c h : r < length h -> deref (heap_update r c h) r = c.
Proof.
  unfold deref. revert r. induction h as [|c' h IH]; intros [|r] H; simpl in *; try lia; auto.
  apply IH. lia.
Qed.

Lemma deref_update_other r r' c h : r <> r' -> deref (heap_update r c h) r' = deref h r'.
Proof.
  unfold deref. revert r r'. induction h as [|c' h IH]; intros [|r] [|r'] H; simpl; auto.
  - congruence.
Qed.

(** ** Distances *)

Ltac number_cases :=
  repeat match goal with x : number |- _ => destruct x end;
  unfold number_leb, number_ltb, number_eqb in *; simpl in *;
  repeat match goal with
         | H : negb _ = true |- _ => apply negb_true_iff in H
         | H : negb _ = false |- _ => apply negb_false_iff in H
         | H : (_ <? _) = true |- _ => apply Nat.ltb_lt in H
         | H : (_ <? _) = false |- _ => apply Nat.ltb_ge in H
         | |- negb _ = true => apply negb_true_iff
         | |- (_ <? _) = true => apply Nat.ltb_lt
         | |- (_ <? _) = false => apply Nat.ltb_ge
         end;
  try congruence; try lia.

Lemma number_leb_refl a : number_leb a a = true.
Proof. number_cases. Qed.

Lemma number_ltb_leb a b : number_ltb a b = true -> number_leb a b = true.
Proof. intros. number_cases. Qed.

Lemma number_ltb_leb_trans a d b :
  number_ltb a d = true -> number_leb d b = true -> number_ltb a b = true.
Proof. intros. number_cases. Qed.

Lemma number_ltb_Infinity a d : number_ltb a d = true -> number_ltb a Infinity = true.
Proof. intros. number_cases. Qed.

Lemma number_ltb_false a d : number_ltb a d = false -> number_leb d a = true.
Proof. intros. number_cases. Qed.

Lemma number_ltb_Infinity_false a : number_ltb a Infinity = false -> a = Infinity.
Proof. intros. number_cases. Qed.

Lemma number_leb_lt_contra a b :
  number_leb a b = true -> number_ltb b a = true -> False.
Proof. intros. number_cases. Qed.

Lemma number_eqb_eq a b : number_eqb a b = true <-> a = b.
Proof.
  destruct a, b; simpl; split; intros H; try congruence.
  - apply Nat.eqb_eq in H. now subst.
  - inversion H. apply Nat.eqb_refl.
Qed.

Lemma differing_zero s : forall t,
  String.length s = String.length t -> differing s t = 0 -> s = t.
Proof.
  induction s as [|c s IH]; intros [|d t] Hlen H; simpl in *; try discriminate; auto.
  destruct (Ascii.eqb_spec c d); [|discriminate]. subst. f_equal. apply IH; lia.
Qed.

Lemma getSignatureDistance_zero s t e :
  String.length s = String.length t -> getSignatureDistance s t e = Finite 0 -> s = t.
Proof.
  intros Hlen H. rewrite getSignatureDistance_spec in H by assumption.
  destruct (e && negb (subset s t)); [discriminate|]. inversion H.
  now apply differing_zero.
Qed.

Lemma getSignatureDistance_finite s t :
  String.length s = String.length t ->
  getSignatureDistance s t true <> Infinity -> subset s t = true.
Proof.
  intros Hlen H. rewrite getSignatureDistance_spec in H by assumption.
  destruct (subset s t); [reflexivity|]. now simpl in H.
Qed.

Lemma merge_pointwise_subset_r s : forall t,
  String.length s = String.length t -> wf_signature t = true ->
  subset s t = true -> merge_pointwise s t = t.
Proof.
  induction s as [|c s IH]; intros [|d t] Hlen Hwf Hsub; simpl in *; try discriminate; auto.
  apply andb_true_iff in Hwf as [Hd Hwf]. apply andb_true_iff in Hsub as [Hcd Hsub].
  rewrite IH by (assumption || lia). f_equal.
  apply wf_char in Hd.
  destruct (bit_of c) eqn:Hc; simpl in *.
  - now rewrite Hcd in Hd.
  - exact Hd.
Qed.

Lemma merge_pointwise_subset_l s : forall t,
  String.length s = String.length t -> wf_signature s = true ->
  subset t s = true -> merge_pointwise s t = s.
Proof.
  intros t Hlen Hwf Hsub. rewrite merge_pointwise_comm.
  apply merge_pointwise_subset_r; auto.
Qed.

Lemma subset_merge_pointwise s : forall t,
  String.length s = String.length t -> subset s (merge_pointwise s t) = true.
Proof.
  induction s as [|c s IH]; intros [|d t] Hlen; simpl in *; try discriminate; auto.
  rewrite IH by lia. rewrite bit_of_char_of. now destruct (bit_of c), (bit_of d).
Qed.

Lemma differing_merge_pointwise s : forall t,
  String.length s = String.length t ->
  wf_signature s = true -> wf_signature t = true ->
  differing s (merge_pointwise s t) <= differing s t
  /\ (subset s t = false -> differing s (merge_pointwise s t) < differing s t).
Proof.
  induction s as [|c s IH]; intros [|d t] Hlen Hs Ht; simpl in *; try discriminate.
  - split; [lia|discriminate].
  - apply andb_true_iff in Hs as [Hc Hs]. apply andb_true_iff in Ht as [Hd Ht].
    destruct (IH t ltac:(lia) Hs Ht) as [Hle Hlt].
    apply wf_char in Hc, Hd. unfold char_of in *.
    destruct (bit_of c) eqn:Bc, (bit_of d) eqn:Bd; subst c d; simpl in *;
      (split; [lia|]); intros Hsub; try (specialize (Hlt Hsub)); lia.
Qed.

(** ** Choosing the target *)

Section FindClosest.
Variables (h : list ChunkDescription.t) (mergedChunk : nat).

Local Abbreviation distance := (distance_from h mergedChunk).

Lemma findClosestChunk_found targets : forall closest d target,
  findClosestChunk h mergedChunk targets closest d = Some target ->
  closest = Some target
  \/ (In target targets /\ target <> mergedChunk /\ distance target <> Infinity).
Proof.
  induction targets as [|x targets IH]; intros closest d target H; simpl in H; [now left|].
  destruct (mergedChunk =? x) eqn:Ex.
  - destruct (IH _ _ _ H) as [H1|[H1 H2]]; [now left|right; split; [now right|exact H2]].
  - apply Nat.eqb_neq in Ex.
    change (mergeDistance (deref h mergedChunk) (deref h x)) with (distance x) in H.
    destruct (number_eqb (distance x) (Finite 1)) eqn:E1.
    + inversion H. subst x. right. apply number_eqb_eq in E1.
      split; [now left|]. split; [congruence|]. rewrite E1. discriminate.
    + destruct (number_ltb (distance x) d) eqn:Elt.
      * destruct (IH _ _ _ H) as [H1|[H1 H2]].
        -- inversion H1. subst x. right. split; [now left|]. split; [congruence|].
           intros Hinf. rewrite Hinf in Elt. discriminate.
        -- right. split; [now right|exact H2].
      * destruct (IH _ _ _ H) as [H1|[H1 H2]]; [now left|].
        right. split; [now right|exact H2].
Qed.

Lemma findClosestChunk_first targets : forall before closest d target,
  (forall x, In x (before ++ targets) -> x <> mergedChunk -> distance x <> Finite 0) ->
  scan_ok h mergedChunk before closest d ->
  findClosestChunk h mergedChunk targets closest d = Some target ->
  first_closest h mergedChunk (before ++ targets) target.
Proof.
  induction targets as [|x targets IH]; intros before closest d target Hzero Hok H;
    simpl in H.
  - subst closest. destruct Hok as [_ [_ Hsome]].
    destruct (Hsome target eq_refl) as [Hne [Hd [Hfin [Hmin Hfirst]]]].
    rewrite app_nil_r. unfold first_closest. rewrite Hd.
    repeat split; auto.
  - replace (before ++ x :: targets) with ((before ++ [x]) ++ targets) in *
      by (now rewrite <- app_assoc).
    destruct Hok as [Hone [Hnone Hsome]].
    destruct (mergedChunk =? x) eqn:Ex.
    + apply Nat.eqb_eq in Ex. subst x.
      apply (IH (before ++ [mergedChunk]) closest d); [assumption| |assumption].
      split; [|split].
      * intros y Hy Hne. apply in_app_iff in Hy as [Hy|[<-|[]]]; [auto|congruence].
      * intros Hc. destruct (Hnone Hc) as [Hd Hall]. split; [assumption|].
        intros y Hy Hne. apply in_app_iff in Hy as [Hy|[<-|[]]]; [auto|congruence].
      * intros c Hc. destruct (Hsome c Hc) as [Hne [Hd [Hfin [Hmin [b [a [Hb Hfirst]]]]]]].
        repeat split; auto.
        -- intros y Hy Hney. apply in_app_iff in Hy as [Hy|[<-|[]]]; [auto|congruence].
        -- exists b, (a ++ [mergedChunk]). split; [|assumption].
           rewrite Hb, <- app_assoc. reflexivity.
    + apply Nat.eqb_neq in Ex.
      change (mergeDistance (deref h mergedChunk) (deref h x)) with (distance x) in H.
      assert (Hx0 : distance x <> Finite 0).
      { apply Hzero; [|congruence]. apply in_or_app. left. apply in_or_app.
        right. now left. }
      destruct (number_eqb (distance x) (Finite 1)) eqn:E1.
      * inversion H. subst x. apply number_eqb_eq in E1.
        unfold first_closest. rewrite E1.
        split; [congruence|]. split; [discriminate|]. split.
        -- intros y Hy Hney. specialize (Hzero y Hy Hney).
           destruct (distance y) as [[|n]|]; [congruence| |]; reflexivity.
        -- exists before, targets. split; [now rewrite <- app_assoc|].
           intros y Hy Hney.
           assert (H0 : distance y <> Finite 0).
           { apply Hzero; [|assumption]. apply in_or_app. left. apply in_or_app.
             now left. }
           specialize (Hone y Hy Hney).
           destruct (distance y) as [[|[|n]]|]; try congruence; reflexivity.
      * assert (Hx1 : distance x <> Finite 1).
        { intros Heq. rewrite Heq in E1. discriminate. }
        destruct (number_ltb (distance x) d) eqn:Elt.
        -- apply (IH (before ++ [x]) (Some x) (distance x)); [assumption| |assumption].
           split; [|split].
           ++ intros y Hy Hney. apply in_app_iff in Hy as [Hy|[<-|[]]]; auto.
           ++ discriminate.
           ++ intros c Hc. inversion Hc. subst c.
              split; [congruence|]. split; [reflexivity|].
              split; [intros Hinf; rewrite Hinf in Elt; discriminate|].
              split.
              ** intros y Hy Hney. apply in_app_iff in Hy as [Hy|[<-|[]]].
                 --- apply number_ltb_leb. destruct closest as [c|].
                     +++ destruct (Hsome c eq_refl) as [_ [_ [_ [Hmin _]]]].
                         eapply number_ltb_leb_trans; [exact Elt|auto].
                     +++ destruct (Hnone eq_refl) as [_ Hall].
                         rewrite (Hall y Hy Hney).
                         eapply number_ltb_Infinity; eauto.
                 --- apply number_leb_refl.
              ** exists before, []. split; [reflexivity|].
                 intros y Hy Hney. destruct closest as [c|].
                 --- destruct (Hsome c eq_refl) as [_ [_ [_ [Hmin _]]]].
                     eapply number_ltb_leb_trans; [exact Elt|auto].
                 --- destruct (Hnone eq_refl) as [_ Hall].
                     rewrite (Hall y Hy Hney).
                     eapply number_ltb_Infinity; eauto.
        -- apply (IH (before ++ [x]) closest d); [assumption| |assumption].
           split; [|split].
           ++ intros y Hy Hney. apply in_app_iff in Hy as [Hy|[<-|[]]]; auto.
           ++ intros Hc. destruct (Hnone Hc) as [Hd Hall]. split; [assumption|].
              intros y Hy Hney. apply in_app_iff in Hy as [Hy|[<-|[]]]; [auto|].
              subst d. now apply number_ltb_Infinity_false.
           ++ intros c Hc.
              destruct (Hsome c Hc) as [Hne [Hd [Hfin [Hmin [b [a [Hb Hfirst]]]]]]].
              repeat split; auto.
              ** intros y Hy Hney. apply in_app_iff in Hy as [Hy|[<-|[]]]; [auto|].
                 now apply number_ltb_false.
              ** exists b, (a ++ [x]). split; [|assumption].
                 rewrite Hb, <- app_assoc. reflexivity.
Qed.

Lemma scan_ok_start : scan_ok h mergedChunk [] None Infinity.
Proof.
  split; [intros x []|]. split; [|discriminate].
  intros _. split; [reflexivity|intros x []].
Qed.
End FindClosest.

(** ** One merge *)

Lemma in_bucket_update st b b0 f r h' :
  in_bucket {| heap := h'; chunkPartition := bucket_update b0 f (chunkPartition st) |} b r
  <-> (b = b0 /\ In r (cset_elements (f (bucket b (chunkPartition st)))))
      \/ (b <> b0 /\ in_bucket st b r).
Proof.
  unfold in_bucket. simpl. destruct (Bucket_eq_dec b0 b) as [<-|Hne].
  - rewrite bucket_update_same. intuition.
  - rewrite bucket_update_other by assumption. intuition. congruence.
Qed.

Lemma getChunksInPartition_pure c minChunkSize :
  ChunkDescription.pure c
  = match getChunksInPartition c minChunkSize with
    | SmallPure | BigPure => true
    | _ => false
    end.
Proof.
  unfold getChunksInPartition.
  now destruct (is_small (ChunkDescription.size c) minChunkSize), (ChunkDescription.pure c).
Qed.

Section MergeInto.
Variables (minChunkSize : Z) (source : Bucket) (mergedChunk closestChunk : nat) (st : MergeState).

Local Abbreviation closest' := (absorb (chunk_at st closestChunk) (chunk_at st mergedChunk)).

Let st' : MergeState := mergeInto source minChunkSize mergedChunk closestChunk st.

Hypothesis Hsource : forall b, in_bucket st b mergedChunk -> b = source.
Hypothesis Htarget : forall b, in_bucket st b closestChunk -> b = getChunksInPartition (chunk_at st closestChunk) minChunkSize.
Hypothesis Hheap : closestChunk < length (heap st).
Hypothesis Hne : closestChunk <> mergedChunk.

Lemma mergeInto_chunk_at r :
  chunk_at st' r = if r =? closestChunk then closest' else chunk_at st r.
Proof.
  unfold st', mergeInto, chunk_at. simpl. destruct (r =? closestChunk) eqn:E.
  - apply Nat.eqb_eq in E. subst r. now rewrite deref_update_same.
  - apply Nat.eqb_neq in E. rewrite deref_update_other by congruence. reflexivity.
Qed.

Lemma mergeInto_chunk_at_closest : chunk_at st' closestChunk = closest'.
Proof. now rewrite mergeInto_chunk_at, Nat.eqb_refl. Qed.

Lemma mergeInto_chunk_at_other r : r <> closestChunk -> chunk_at st' r = chunk_at st r.
Proof.
  intros H. rewrite mergeInto_chunk_at. apply Nat.eqb_neq in H. now rewrite H.
Qed.

Lemma mergeInto_heap_length : length (heap st') = length (heap st).
Proof. unfold st', mergeInto. simpl. apply heap_update_length. Qed.

Lemma mergeInto_in_bucket b r :
  in_bucket st' b r
  <-> (r = closestChunk /\ b = getChunksInPartition closest' minChunkSize)
      \/ (r <> closestChunk /\ r <> mergedChunk /\ in_bucket st b r).
Proof.
  unfold st', mergeInto. fold (chunk_at st mergedChunk). fold (chunk_at st closestChunk).
  set (p1 := bucket_update source (cset_delete mergedChunk) (chunkPartition st)).
  set (p2 := bucket_update (getChunksInPartition (chunk_at st closestChunk) minChunkSize)
               (cset_delete closestChunk) p1).
  assert (H1 : forall b r, In r (cset_elements (bucket b p1)) <-> r <> mergedChunk /\ in_bucket st b r).
  { intros b0 r0. unfold p1, in_bucket. destruct (Bucket_eq_dec source b0) as [<-|Hb].
    - rewrite bucket_update_same. apply cset_delete_In.
    - rewrite bucket_update_other by assumption. split; [|tauto].
      intros Hin. split; [|assumption]. intros ->. apply Hb. symmetry. now apply Hsource. }
  assert (H2 : forall b r, In r (cset_elements (bucket b p2))
                           <-> r <> closestChunk /\ r <> mergedChunk /\ in_bucket st b r).
  { intros b0 r0. unfold p2.
    destruct (Bucket_eq_dec (getChunksInPartition (chunk_at st closestChunk) minChunkSize) b0)
      as [<-|Hb].
    - rewrite bucket_update_same, cset_delete_In, H1. tauto.
    - rewrite bucket_update_other by assumption. rewrite H1. split; [|tauto].
      intros [Hs Hin]. split; [|tauto]. intros ->. apply Hb. symmetry. now apply Htarget. }
  unfold in_bucket at 1. simpl.
  destruct (Bucket_eq_dec (getChunksInPartition closest' minChunkSize) b) as [<-|Hb].
  - rewrite bucket_update_same, cset_add_In, H2. split.
    + intros [->|H]; [left; auto|right; exact H].
    + intros [[-> _]|H]; [now left|now right].
  - rewrite bucket_update_other by assumption. rewrite H2. split.
    + intros H. now right.
    + intros [[_ Heq]|H]; [congruence|exact H].
Qed.

Lemma mergeInto_live r :
  live st' r <-> r = closestChunk \/ (r <> mergedChunk /\ live st r).
Proof.
  unfold live. split.
  - intros [b Hb]. apply mergeInto_in_bucket in Hb as [[-> _]|[H1 [H2 H3]]]; [now left|].
    right. split; [assumption|]. now exists b.
  - intros [->|[Hs [b Hb]]].
    + exists (getChunksInPartition closest' minChunkSize). apply mergeInto_in_bucket. now left.
    + destruct (Nat.eq_dec r closestChunk) as [->|Hr].
      * exists (getChunksInPartition closest' minChunkSize). apply mergeInto_in_bucket. now left.
      * exists b. apply mergeInto_in_bucket. right. auto.
Qed.

Lemma mergeInto_NoDup :
  (forall b, NoDup (cset_elements (bucket b (chunkPartition st)))) ->
  forall b, NoDup (cset_elements (bucket b (chunkPartition st'))).
Proof.
  intros Hnd b. unfold st', mergeInto. simpl.
  assert (Hupd : forall b0 f p,
    (forall s, NoDup (cset_elements s) -> NoDup (cset_elements (f s))) ->
    (forall b, NoDup (cset_elements (bucket b p))) ->
    forall b, NoDup (cset_elements (bucket b (bucket_update b0 f p)))).
  { intros b0 f p Hf Hp b1. destruct (Bucket_eq_dec b0 b1) as [<-|Hb].
    - rewrite bucket_update_same. apply Hf, Hp.
    - rewrite bucket_update_other by assumption. apply Hp. }
  apply Hupd; [intros s; apply cset_add_NoDup|].
  apply Hupd; [intros s; apply cset_delete_NoDup|].
  apply Hupd; [intros s; apply cset_delete_NoDup|]. exact Hnd.
Qed.
End MergeInto.

(** ** The invariant of the merge *)

Lemma pass_source_is_target pass : pass = Pass2 -> In (pass_source pass) (pass_targets pass).
Proof. intros ->. simpl. now left. Qed.

Lemma eligible_live pass st r : eligible pass st r -> live st r.
Proof.
  destruct pass; simpl; [auto|]. intros [b [_ Hb]]. now exists b.
Qed.

Lemma mergeDistance_zero c1 c2 :
  String.length (ChunkDescription.signature c1) = String.length (ChunkDescription.signature c2) ->
  mergeDistance c1 c2 = Finite 0 ->
  ChunkDescription.signature c1 = ChunkDescription.signature c2.
Proof.
  unfold mergeDistance. intros Hlen H. destruct (ChunkDescription.pure c1).
  - now apply getSignatureDistance_zero in H.
  - symmetry. now apply getSignatureDistance_zero in H.
Qed.

Section MergeStep.
Variables (G : Graph) (minChunkSize : Z) (n : nat) (osig : nat -> string) (M : list nat).
Variables (pass : Pass) (st : MergeState) (mergedChunk closestChunk : nat).

Hypothesis Hinv : merge_inv G minChunkSize n osig M pass st.
Hypothesis Hsource : in_bucket st (pass_source pass) mergedChunk.
Hypothesis Hclosest :
  closestChunkOf (pass_targets pass) mergedChunk st = Some closestChunk.

Local Abbreviation merged := (chunk_at st mergedChunk).
Local Abbreviation closest := (chunk_at st closestChunk).
Local Abbreviation st' := (mergeInto (pass_source pass) minChunkSize mergedChunk closestChunk st).

Lemma step_target_bucket :
  exists b, In b (pass_targets pass) /\ in_bucket st b closestChunk.
Proof.
  unfold closestChunkOf in Hclosest.
  apply findClosestChunk_found in Hclosest as [H|[H _]]; [discriminate|].
  now apply concatLazy_In in H.
Qed.

Lemma step_distinct : closestChunk <> mergedChunk.
Proof.
  unfold closestChunkOf in Hclosest.
  apply findClosestChunk_found in Hclosest as [H|[_ [H _]]]; [discriminate|assumption].
Qed.

Lemma step_finite : distance_from (heap st) mergedChunk closestChunk <> Infinity.
Proof.
  unfold closestChunkOf in Hclosest.
  apply findClosestChunk_found in Hclosest as [H|[_ [_ H]]]; [discriminate|assumption].
Qed.

Lemma step_live_merged : live st mergedChunk.
Proof. now exists (pass_source pass). Qed.

Lemma step_live_closest : live st closestChunk.
Proof. destruct step_target_bucket as [b [_ Hb]]. now exists b. Qed.

Lemma step_source_only b : in_bucket st b mergedChunk -> b = pass_source pass.
Proof.
  intros Hb. rewrite <- (inv_class Hinv _ _ Hb). apply (inv_class Hinv _ _ Hsource).
Qed.

Lemma step_target_only b :
  in_bucket st b closestChunk -> b = getChunksInPartition closest minChunkSize.
Proof. intros Hb. symmetry. apply (inv_class Hinv _ _ Hb). Qed.

Lemma step_heap : closestChunk < length (heap st).
Proof. apply (inv_heap Hinv). apply step_live_closest. Qed.

Lemma step_length r :
  live st r -> String.length (ChunkDescription.signature (chunk_at st r)) = n.
Proof. intros H. now apply (inv_sig Hinv). Qed.

Lemma step_wf r :
  live st r -> wf_signature (ChunkDescription.signature (chunk_at st r)) = true.
Proof. intros H. now apply (inv_sig Hinv). Qed.

Lemma step_eligible_merged : eligible pass st mergedChunk.
Proof.
  assert (H : forall p, in_bucket st (pass_source p) mergedChunk -> eligible p st mergedChunk).
  { intros [|] Hp; simpl in *; [now exists SmallSideEffect|].
    exists SmallPure. split; [now left|assumption]. }
  apply H, Hsource.
Qed.

Lemma step_eligible_candidate x :
  In x (concatLazy (pass_targets pass) (chunkPartition st)) -> eligible pass st x.
Proof.
  assert (H : forall p, In x (concatLazy (pass_targets p) (chunkPartition st)) ->
                        eligible p st x).
  { intros [|] H; apply concatLazy_In in H as [b [Hb Hx]]; simpl; exists b; auto. }
  apply H.
Qed.

Lemma step_no_zero x :
  In x (concatLazy (pass_targets pass) (chunkPartition st)) -> x <> mergedChunk ->
  distance_from (heap st) mergedChunk x <> Finite 0.
Proof.
  intros Hx Hne Hzero. apply step_eligible_candidate in Hx.
  apply (inv_distinct Hinv _ _ step_eligible_merged Hx); [congruence|].
  apply mergeDistance_zero; [|exact Hzero].
  fold (chunk_at st mergedChunk). fold (chunk_at st x).
  assert (Hlx : live st x) by (eapply eligible_live; eauto).
  now rewrite (step_length step_live_merged), (step_length Hlx).
Qed.

Lemma step_lengths :
  String.length (ChunkDescription.signature merged)
  = String.length (ChunkDescription.signature closest).
Proof. now rewrite (step_length step_live_merged), (step_length step_live_closest). Qed.

(** The target is the first candidate at the least distance. *)
Lemma step_first_closest :
  first_closest (heap st) mergedChunk
    (concatLazy (pass_targets pass) (chunkPartition st)) closestChunk.
Proof.
  apply (@findClosestChunk_first (heap st) mergedChunk _ [] None Infinity).
  - simpl. apply step_no_zero.
  - apply scan_ok_start.
  - exact Hclosest.
Qed.

Lemma step_merged_pure :
  ChunkDescription.pure merged = match pass with Pass1 => false | Pass2 => true end.
Proof.
  rewrite (getChunksInPartition_pure _ minChunkSize), (inv_class Hinv _ _ Hsource).
  now destruct pass.
Qed.

Lemma step_closest_pure : pass = Pass1 -> ChunkDescription.pure closest = true.
Proof.
  intros Hp. destruct step_target_bucket as [b [Hb Hin]].
  rewrite (getChunksInPartition_pure _ minChunkSize), (inv_class Hinv _ _ Hin).
  rewrite Hp in Hb. simpl in Hb. destruct Hb as [<-|[<-|[]]]; reflexivity.
Qed.

Lemma step_signature_pointwise :
  ChunkDescription.signature (absorb closest merged)
  = merge_pointwise (ChunkDescription.signature merged) (ChunkDescription.signature closest).
Proof.
  simpl. apply mergeSignatures_pointwise, step_lengths.
Qed.

(** A chunk with side effects keeps its signature when it takes part in a
    merge. *)
Lemma step_signature_merged :
  ChunkDescription.pure merged = false ->
  ChunkDescription.signature (absorb closest merged) = ChunkDescription.signature merged.
Proof.
  intros Hpure. rewrite step_signature_pointwise.
  apply merge_pointwise_subset_l.
  - apply step_lengths.
  - apply step_wf, step_live_merged.
  - assert (Hfin := step_finite). unfold distance_from, mergeDistance in Hfin.
    fold (chunk_at st mergedChunk) in Hfin. fold (chunk_at st closestChunk) in Hfin.
    rewrite Hpure in Hfin. apply getSignatureDistance_finite in Hfin; [assumption|].
    symmetry. apply step_lengths.
Qed.

Lemma step_signature_closest :
  ChunkDescription.pure merged = true -> ChunkDescription.pure closest = false ->
  ChunkDescription.signature (absorb closest merged) = ChunkDescription.signature closest.
Proof.
  intros Hpure Himpure. rewrite step_signature_pointwise.
  apply merge_pointwise_subset_r.
  - apply step_lengths.
  - apply step_wf, step_live_closest.
  - assert (Hfin := step_finite). unfold distance_from, mergeDistance in Hfin.
    fold (chunk_at st mergedChunk) in Hfin. fold (chunk_at st closestChunk) in Hfin.
    rewrite Hpure, Himpure in Hfin. apply getSignatureDistance_finite in Hfin; [assumption|].
    apply step_lengths.
Qed.

Lemma step_pass_of_pure :
  (ChunkDescription.pure merged = false -> pass = Pass1)
  /\ (ChunkDescription.pure merged = true -> pass = Pass2).
Proof.
  pose proof step_merged_pure as H. clear - H.
  destruct pass; split; intros; congruence.
Qed.

Lemma step_in_bucket b r :
  in_bucket st' b r
  <-> (r = closestChunk /\ b = getChunksInPartition (absorb closest merged) minChunkSize)
      \/ (r <> closestChunk /\ r <> mergedChunk /\ in_bucket st b r).
Proof. apply mergeInto_in_bucket; [apply step_source_only|apply step_target_only]. Qed.

Lemma step_live r :
  live st' r <-> r = closestChunk \/ (r <> mergedChunk /\ live st r).
Proof. apply mergeInto_live; [apply step_source_only|apply step_target_only]. Qed.

Lemma step_live_old r : live st' r -> live st r.
Proof.
  intros H. apply step_live in H as [->|[_ H]]; [apply step_live_closest|assumption].
Qed.

Lemma step_chunk_at_closest : chunk_at st' closestChunk = absorb closest merged.
Proof. apply mergeInto_chunk_at_closest, step_heap. Qed.

Lemma step_chunk_at_other r : r <> closestChunk -> chunk_at st' r = chunk_at st r.
Proof. apply mergeInto_chunk_at_other, step_heap. Qed.

Lemma step_closest_eligible : eligible pass st closestChunk.
Proof.
  apply step_eligible_candidate. unfold closestChunkOf in Hclosest.
  apply findClosestChunk_found in Hclosest as [H|[H _]]; [discriminate|assumption].
Qed.

Lemma step_eligible r :
  eligible pass st' r ->
  r = closestChunk \/ (r <> closestChunk /\ r <> mergedChunk /\ eligible pass st r).
Proof.
  assert (H : forall p,
    eligible p st' r ->
    r = closestChunk \/ (r <> closestChunk /\ r <> mergedChunk /\ eligible p st r)).
  { intros [|]; simpl.
    - intros Hl. destruct (Nat.eq_dec r closestChunk) as [->|Hr]; [now left|].
      right. apply step_live in Hl as [->|[H1 H2]]; [congruence|auto].
    - intros [b [Hb Hin]]. apply step_in_bucket in Hin as [[-> _]|[H1 [H2 H3]]];
        [now left|]. right. split; [assumption|]. split; [assumption|]. now exists b. }
  apply H.
Qed.

(** The signature of the merged chunk differs from that of every other
    chunk that can still be a target. *)
Lemma step_absorb_distinct r :
  r <> closestChunk -> r <> mergedChunk -> eligible pass st r ->
  ChunkDescription.signature (absorb closest merged)
  <> ChunkDescription.signature (chunk_at st r).
Proof.
  intros Hrc Hrm Hr.
  destruct (ChunkDescription.pure merged) eqn:Hpm.
  - destruct (ChunkDescription.pure closest) eqn:Hpc.
    + rewrite step_signature_pointwise.
      destruct (subset (ChunkDescription.signature merged)
                  (ChunkDescription.signature closest)) eqn:Hsub.
      * rewrite merge_pointwise_subset_r;
          [|apply step_lengths|apply step_wf, step_live_closest|assumption].
        apply (inv_distinct Hinv); [apply step_closest_eligible|assumption|congruence].
      * intros Heq.
        assert (Hp2 : pass = Pass2) by (now apply step_pass_of_pure).
        assert (Hcand : In r (concatLazy (pass_targets pass) (chunkPartition st))).
        { clear - Hr Hp2. rewrite Hp2 in *. simpl in Hr. now apply concatLazy_In. }
        destruct step_first_closest as [_ [_ [Hmin _]]].
        specialize (Hmin r Hcand Hrm).
        unfold distance_from, mergeDistance in Hmin.
        fold (chunk_at st mergedChunk) in Hmin. fold (chunk_at st closestChunk) in Hmin.
        fold (chunk_at st r) in Hmin. rewrite Hpm, Hpc in Hmin.
        rewrite !getSignatureDistance_spec in Hmin;
          [|rewrite (step_length step_live_merged), (step_length (eligible_live _ _ _ Hr));
            reflexivity
           |apply step_lengths].
        rewrite <- Heq in Hmin. rewrite subset_merge_pointwise in Hmin by apply step_lengths.
        rewrite andb_false_r in Hmin. simpl in Hmin.
        destruct (@differing_merge_pointwise (ChunkDescription.signature merged)
                    (ChunkDescription.signature closest) step_lengths
                    (step_wf step_live_merged) (step_wf step_live_closest)) as [_ Hlt].
        specialize (Hlt Hsub). unfold number_leb, number_ltb in Hmin.
        apply negb_true_iff, Nat.ltb_ge in Hmin. lia.
    + rewrite step_signature_closest by assumption.
      apply (inv_distinct Hinv); [apply step_closest_eligible|assumption|congruence].
  - rewrite step_signature_merged by assumption.
    apply (inv_distinct Hinv); [apply step_eligible_merged|assumption|congruence].
Qed.

Lemma forallb_pure_In l m :
  forallb (is_pure_module G) l = true -> In m l -> hasEffects (getModule G m) = false.
Proof.
  intros H Hin. rewrite forallb_forall in H. specialize (H m Hin).
  unfold is_pure_module in H. now apply negb_true_iff in H.
Qed.

(** One merge preserves the invariant. *)
Lemma mergeInto_preserves : merge_inv G minChunkSize n osig M pass st'.
Proof.
  constructor.
  - apply mergeInto_NoDup. apply (inv_nodup Hinv).
  - intros r Hr. rewrite mergeInto_heap_length. apply (inv_heap Hinv).
    now apply step_live_old.
  - intros b r Hb. apply step_in_bucket in Hb as [[-> ->]|[H1 [H2 H3]]].
    + now rewrite step_chunk_at_closest.
    + rewrite step_chunk_at_other by assumption. now apply (inv_class Hinv).
  - intros r Hr. destruct (Nat.eq_dec r closestChunk) as [->|Hne].
    + rewrite step_chunk_at_closest, step_signature_pointwise. split.
      * apply merge_pointwise_wf.
      * rewrite merge_pointwise_length by apply step_lengths.
        apply step_length, step_live_merged.
    + rewrite step_chunk_at_other by assumption. apply (inv_sig Hinv).
      now apply step_live_old.
  - intros r Hr. destruct (Nat.eq_dec r closestChunk) as [->|Hne].
    + rewrite step_chunk_at_closest. simpl. rewrite forallb_app.
      now rewrite <- (inv_pure Hinv _ step_live_closest), <- (inv_pure Hinv _ step_live_merged).
    + rewrite step_chunk_at_other by assumption. apply (inv_pure Hinv).
      now apply step_live_old.
  - intros r m Hr Hm Heff. destruct (Nat.eq_dec r closestChunk) as [->|Hne].
    + rewrite step_chunk_at_closest in *. simpl in Hm. apply in_app_iff in Hm.
      destruct (ChunkDescription.pure merged) eqn:Hpm.
      * assert (Hmc : In m (ChunkDescription.modules closest)).
        { destruct Hm as [Hm|Hm]; [assumption|]. exfalso.
          rewrite (inv_pure Hinv _ step_live_merged) in Hpm.
          rewrite (@forallb_pure_In _ _ Hpm Hm) in Heff. discriminate. }
        assert (Hpc : ChunkDescription.pure closest = false).
        { destruct (ChunkDescription.pure closest) eqn:Hpc; [|reflexivity]. exfalso.
          rewrite (inv_pure Hinv _ step_live_closest) in Hpc.
          rewrite (@forallb_pure_In _ _ Hpc Hmc) in Heff. discriminate. }
        rewrite step_signature_closest by assumption.
        apply (inv_effects Hinv); auto using step_live_closest.
      * rewrite step_signature_merged by assumption.
        assert (Hp1 : pass = Pass1) by (now apply step_pass_of_pure).
        assert (Hpc := step_closest_pure Hp1).
        destruct Hm as [Hm|Hm].
        -- exfalso. rewrite (inv_pure Hinv _ step_live_closest) in Hpc.
           rewrite (@forallb_pure_In _ _ Hpc Hm) in Heff. discriminate.
        -- apply (inv_effects Hinv); auto using step_live_merged.
    + rewrite step_chunk_at_other in * by assumption.
      apply (inv_effects Hinv); auto. now apply step_live_old.
  - intros r1 r2 H1 H2 Hne.
    apply step_eligible in H1 as [->|[H1a [H1b H1c]]];
      apply step_eligible in H2 as [->|[H2a [H2b H2c]]].
    + congruence.
    + rewrite step_chunk_at_closest, step_chunk_at_other by assumption.
      now apply step_absorb_distinct.
    + rewrite step_chunk_at_closest, step_chunk_at_other by assumption.
      intros Heq. symmetry in Heq. revert Heq. now apply step_absorb_distinct.
    + rewrite !step_chunk_at_other by assumption. now apply (inv_distinct Hinv).
  - intros r Hr. destruct (Nat.eq_dec r closestChunk) as [->|Hne].
    + rewrite step_chunk_at_closest. simpl. apply NoDup_app.
      * apply (inv_modules_nodup Hinv), step_live_closest.
      * apply (inv_modules_nodup Hinv), step_live_merged.
      * intros m Hc Hm. apply step_distinct.
        apply (inv_modules_disjoint Hinv _ _ _ step_live_closest step_live_merged Hc Hm).
    + rewrite step_chunk_at_other by assumption. apply (inv_modules_nodup Hinv).
      now apply step_live_old.
  - assert (Hcase : forall r m,
      live st' r -> In m (ChunkDescription.modules (chunk_at st' r)) ->
      (r = closestChunk /\ (In m (ChunkDescription.modules closest)
                            \/ In m (ChunkDescription.modules merged)))
      \/ (r <> closestChunk /\ r <> mergedChunk /\ live st r
          /\ In m (ChunkDescription.modules (chunk_at st r)))).
    { intros r m Hr Hm. destruct (Nat.eq_dec r closestChunk) as [->|Hne].
      - left. split; [reflexivity|]. rewrite step_chunk_at_closest in Hm. simpl in Hm.
        now apply in_app_iff in Hm.
      - right. rewrite step_chunk_at_other in Hm by assumption.
        apply step_live in Hr as [->|[Hr1 Hr2]]; [congruence|auto]. }
    intros r1 r2 m H1 H2 Hm1 Hm2.
    destruct (Hcase _ _ H1 Hm1) as [[-> Hc1]|[Ha1 [Hb1 [Hl1 Hi1]]]];
      destruct (Hcase _ _ H2 Hm2) as [[-> Hc2]|[Ha2 [Hb2 [Hl2 Hi2]]]].
    + reflexivity.
    + exfalso. destruct Hc1 as [Hc1|Hc1].
      * apply Ha2. apply (inv_modules_disjoint Hinv _ _ _ Hl2 step_live_closest Hi2 Hc1).
      * apply Hb2. apply (inv_modules_disjoint Hinv _ _ _ Hl2 step_live_merged Hi2 Hc1).
    + exfalso. destruct Hc2 as [Hc2|Hc2].
      * apply Ha1. apply (inv_modules_disjoint Hinv _ _ _ Hl1 step_live_closest Hi1 Hc2).
      * apply Hb1. apply (inv_modules_disjoint Hinv _ _ _ Hl1 step_live_merged Hi1 Hc2).
    + apply (inv_modules_disjoint Hinv _ _ _ Hl1 Hl2 Hi1 Hi2).
  - intros m. rewrite (inv_modules_all Hinv). split.
    + intros [r [Hr Hm]]. destruct (Nat.eq_dec r closestChunk) as [->|Hnc].
      * exists closestChunk. split; [apply step_live; now left|].
        rewrite step_chunk_at_closest. simpl. apply in_or_app. now left.
      * destruct (Nat.eq_dec r mergedChunk) as [->|Hnm].
        -- exists closestChunk. split; [apply step_live; now left|].
           rewrite step_chunk_at_closest. simpl. apply in_or_app. now right.
        -- exists r. split; [apply step_live; now right|].
           now rewrite step_chunk_at_other.
    + intros [r [Hr Hm]]. destruct (Nat.eq_dec r closestChunk) as [->|Hnc].
      * rewrite step_chunk_at_closest in Hm. simpl in Hm.
        apply in_app_iff in Hm as [Hm|Hm].
        -- exists closestChunk. split; [apply step_live_closest|assumption].
        -- exists mergedChunk. split; [apply step_live_merged|assumption].
      * exists r. split; [now apply step_live_old|].
        now rewrite step_chunk_at_other in Hm.
Qed.
End MergeStep.

(** ** The loop of [mergeChunks] *)

Lemma cset_slot_In s i x : nth_error s i = Some (Some x) -> In x (cset_elements s).
Proof.
  intros H. apply nth_error_In in H. unfold cset_elements. apply in_flat_map.
  exists (Some x). split; [assumption|now left].
Qed.

Section MergeLoop.
Variables (G : Graph) (minChunkSize : Z) (n : nat) (osig : nat -> string) (M : list nat).
Variable pass : Pass.

Local Abbreviation source := (pass_source pass).
Local Abbreviation targets := (pass_targets pass).
Local Abbreviation Inv := (merge_inv G minChunkSize n osig M pass).

Lemma mergeChunks_step_preserves i st st' :
  Inv st -> mergeChunks_step source targets minChunkSize i st = Some st' -> Inv st'.
Proof.
  intros Hinv. unfold mergeChunks_step.
  destruct (nth_error (bucket source (chunkPartition st)) i) as [[mergedChunk|]|] eqn:Hnth;
    intros H; inversion H; subst; [|assumption].
  unfold mergeChunks_chunk.
  destruct (closestChunkOf targets mergedChunk st) as [closestChunk|] eqn:Hc; [|assumption].
  eapply mergeInto_preserves; eauto. eapply cset_slot_In; eauto.
Qed.

Lemma loop_reaches_preserves i st j st' :
  loop_reaches source targets minChunkSize i st j st' -> Inv st -> Inv st'.
Proof.
  induction 1 as [|i st st1 j st2 Hstep _ IH]; [auto|].
  intros Hinv. apply IH. eapply mergeChunks_step_preserves; eauto.
Qed.


(** The loop function runs through the states of [loop_reaches]. *)
Lemma mergeChunks_loop_reaches fuel : forall i st st',
  mergeChunks_loop fuel source targets minChunkSize i st = Ok st' ->
  exists j, loop_reaches source targets minChunkSize i st j st'
            /\ mergeChunks_step source targets minChunkSize j st' = None.
Proof.
  induction fuel as [|fuel IH]; intros i st st' H; simpl in H; [discriminate|].
  destruct (mergeChunks_step source targets minChunkSize i st) as [st1|] eqn:Hstep.
  - destruct (IH _ _ _ H) as [j [Hr Hend]]. exists j. split; [|assumption].
    eapply reaches_step; eauto.
  - inversion H. subst. exists i. split; [constructor|assumption].
Qed.

Lemma live_chunks_NoDup st : Inv st -> NoDup (live_chunks (chunkPartition st)).
Proof.
  intros Hinv. unfold live_chunks, concatLazy, all_buckets. simpl. rewrite app_nil_r.
  assert (Hdisj : forall b1 b2 r, b1 <> b2 ->
            In r (cset_elements (bucket b1 (chunkPartition st))) ->
            In r (cset_elements (bucket b2 (chunkPartition st))) -> False).
  { intros b1 b2 r Hne H1 H2. apply Hne.
    rewrite <- (inv_class Hinv b1 r H1). apply (inv_class Hinv b2 r H2). }
  pose proof (inv_nodup Hinv) as Hnd.
  apply NoDup_app; [apply (Hnd SmallSideEffect)| |].
  - apply NoDup_app; [apply (Hnd SmallPure)| |].
    + apply NoDup_app; [apply (Hnd BigSideEffect)|apply (Hnd BigPure)|].
      intros r H1 H2. apply (Hdisj BigSideEffect BigPure r); [discriminate|assumption..].
    + intros r H1 H2. apply in_app_iff in H2 as [H2|H2].
      * apply (Hdisj SmallPure BigSideEffect r); [discriminate|assumption..].
      * apply (Hdisj SmallPure BigPure r); [discriminate|assumption..].
  - intros r H1 H2. apply in_app_iff in H2 as [H2|H2]; [|apply in_app_iff in H2 as [H2|H2]].
    + apply (Hdisj SmallSideEffect SmallPure r); [discriminate|assumption..].
    + apply (Hdisj SmallSideEffect BigSideEffect r); [discriminate|assumption..].
    + apply (Hdisj SmallSideEffect BigPure r); [discriminate|assumption..].
Qed.

Lemma remove_length_In (x : nat) l :
  In x l -> length (remove Nat.eq_dec x l) < length l.
Proof.
  induction l as [|y l IH]; simpl; [intros []|].
  intros Hin. destruct (Nat.eq_dec x y) as [->|Hne].
  - pose proof (remove_length_le Nat.eq_dec l y). lia.
  - simpl. destruct Hin as [->|Hin]; [congruence|]. specialize (IH Hin). lia.
Qed.

(** A merge takes one chunk out of the partition and lengthens the set
    that is iterated by one slot at most. *)
Lemma mergeInto_measure st mergedChunk closestChunk :
  Inv st -> in_bucket st source mergedChunk ->
  closestChunkOf targets mergedChunk st = Some closestChunk ->
  let st' := mergeInto source minChunkSize mergedChunk closestChunk st in
  length (live_chunks (chunkPartition st')) < length (live_chunks (chunkPartition st))
  /\ length (bucket source (chunkPartition st'))
     <= S (length (bucket source (chunkPartition st))).
Proof.
  intros Hinv Hsrc Hc st'. split.
  - assert (Hinv' : Inv st') by (eapply mergeInto_preserves; eauto).
    apply Nat.le_lt_trans with
      (length (remove Nat.eq_dec mergedChunk (live_chunks (chunkPartition st)))).
    + apply NoDup_incl_length; [now apply live_chunks_NoDup|].
      intros r Hr. apply live_chunks_In in Hr.
      eapply step_live in Hr; eauto. apply in_in_remove.
      * destruct Hr as [->|[Hr _]]; [|assumption]. eapply step_distinct; eauto.
      * apply live_chunks_In. destruct Hr as [->|[_ Hr]]; [|assumption].
        eapply step_live_closest; eauto.
    + apply remove_length_In. apply live_chunks_In. now exists source.
  - unfold st', mergeInto. simpl.
    assert (Hupd : forall b f p k,
      (forall s, length (f s) <= length s + k) ->
      length (bucket source (bucket_update b f p)) <= length (bucket source p) + k).
    { intros b f p k Hf. destruct (Bucket_eq_dec b source) as [->|Hb].
      - rewrite bucket_update_same. apply Hf.
      - rewrite bucket_update_other by assumption. lia. }
    eapply Nat.le_trans; [apply (Hupd _ _ _ 1)|].
    + intros s. pose proof (cset_add_length closestChunk s). lia.
    + eapply Nat.le_trans; [apply Nat.add_le_mono_r, (Hupd _ _ _ 0)|].
      * intros s. rewrite cset_delete_length. lia.
      * eapply Nat.le_trans; [apply Nat.add_le_mono_r, Nat.add_le_mono_r, (Hupd _ _ _ 0)|].
        -- intros s. rewrite cset_delete_length. lia.
        -- lia.
Qed.

Lemma mergeChunks_step_measure i st st' :
  Inv st -> mergeChunks_step source targets minChunkSize i st = Some st' ->
  (length (bucket source (chunkPartition st')) - S i)
  + length (live_chunks (chunkPartition st'))
  < (length (bucket source (chunkPartition st)) - i)
    + length (live_chunks (chunkPartition st)).
Proof.
  intros Hinv. unfold mergeChunks_step.
  destruct (nth_error (bucket source (chunkPartition st)) i) as [slot|] eqn:Hnth;
    [|discriminate].
  assert (Hi : i < length (bucket source (chunkPartition st)))
    by (apply nth_error_Some; congruence).
  destruct slot as [mergedChunk|]; intros H; inversion H; subst; [|lia].
  unfold mergeChunks_chunk.
  destruct (closestChunkOf targets mergedChunk st) as [closestChunk|] eqn:Hc; [|lia].
  destruct (@mergeInto_measure st mergedChunk closestChunk Hinv) as [H1 H2];
    [eapply cset_slot_In; eauto|assumption|]. lia.
Qed.

Lemma mergeChunks_loop_fuel fuel : forall i st,
  Inv st ->
  (length (bucket source (chunkPartition st)) - i)
  + length (live_chunks (chunkPartition st)) < fuel ->
  exists st', mergeChunks_loop fuel source targets minChunkSize i st = Ok st'.
Proof.
  induction fuel as [|fuel IH]; intros i st Hinv Hlt; [lia|]. simpl.
  destruct (mergeChunks_step source targets minChunkSize i st) as [st1|] eqn:Hstep.
  - apply IH; [eapply mergeChunks_step_preserves; eauto|].
    pose proof (mergeChunks_step_measure _ Hinv Hstep). lia.
  - now exists st.
Qed.

(** [mergeChunks] returns, in a state that satisfies the invariant. *)
Lemma mergeChunks_returns st :
  Inv st ->
  exists st', mergeChunks source targets minChunkSize st = Ok st' /\ Inv st'.
Proof.
  intros Hinv. unfold mergeChunks.
  destruct (@mergeChunks_loop_fuel
              (length (bucket source (chunkPartition st))
               + length (live_chunks (chunkPartition st)) + 1) 0 st Hinv) as [st' Hst'];
    [lia|].
  exists st'. split; [assumption|].
  apply mergeChunks_loop_reaches in Hst' as [j [Hr _]].
  eapply loop_reaches_preserves; eauto.
Qed.
End MergeLoop.

Lemma merge_inv_next_pass G minChunkSize n osig M st :
  merge_inv G minChunkSize n osig M Pass1 st -> merge_inv G minChunkSize n osig M Pass2 st.
Proof.
  intros [H1 H2 H3 H4 H5 H6 H7 H8 H9 H10]. constructor; auto.
  intros r1 r2 Hr1 Hr2. apply H7; eapply eligible_live; eauto.
Qed.

(** ** The partition [getPartitionedChunks] starts from *)

Lemma describeChunk_fold G modules : forall size pure,
  fold_left
    (fun (acc : nat * bool) module =>
       let '(size, pure) := acc in
       (size + magicString_length (getModule G module),
        pure && negb (hasEffects (getModule G module))))
    modules (size, pure)
  = (size + list_sum (map (fun m => magicString_length (getModule G m)) modules),
     pure && forallb (is_pure_module G) modules).
Proof.
  induction modules as [|m l IH]; intros size pure; simpl.
  - now rewrite Nat.add_0_r, andb_true_r.
  - rewrite IH. unfold is_pure_module. f_equal; [lia|]. now rewrite andb_assoc.
Qed.

Lemma describeChunk_spec G k modules :
  describeChunk G (k, modules)
  = ChunkDescription.mk modules (forallb (is_pure_module G) modules) k
      (list_sum (map (fun m => magicString_length (getModule G m)) modules)).
Proof. unfold describeChunk. now rewrite describeChunk_fold. Qed.

Lemma sort_insert_perm h x l : Permutation (sort_insert h x l) (x :: l).
Proof.
  induction l as [|y l IH]; simpl; [reflexivity|].
  destruct (ChunkDescription.size (deref h x) <=? ChunkDescription.size (deref h y));
    [reflexivity|].
  rewrite IH. apply perm_swap.
Qed.

Lemma sortChunks_perm h l : Permutation (sortChunks h l) l.
Proof.
  unfold sortChunks. induction l as [|x l IH]; simpl; [reflexivity|].
  rewrite sort_insert_perm. now constructor.
Qed.

Lemma partitionedSet_elements h minChunkSize b :
  cset_elements (partitionedSet h minChunkSize b)
  = sortChunks h
      (filter (fun ref => Bucket_eqb (getChunksInPartition (deref h ref) minChunkSize) b)
         (seq 0 (length h))).
Proof.
  unfold partitionedSet. apply cset_of_list_elements.
  eapply Permutation_NoDup; [symmetry; apply sortChunks_perm|].
  apply NoDup_filter, seq_NoDup.
Qed.

Lemma partitionedSet_In h minChunkSize b r :
  In r (cset_elements (partitionedSet h minChunkSize b))
  <-> r < length h /\ getChunksInPartition (deref h r) minChunkSize = b.
Proof.
  rewrite partitionedSet_elements. split.
  - intros H. apply (Permutation_in _ (sortChunks_perm h _)) in H.
    apply filter_In in H as [H1 H2]. apply in_seq in H1. apply Bucket_eqb_eq in H2.
    split; [lia|assumption].
  - intros [H1 H2]. apply (Permutation_in _ (Permutation_sym (sortChunks_perm h _))).
    apply filter_In. split; [apply in_seq; lia|now apply Bucket_eqb_eq].
Qed.

Lemma partitionedSet_NoDup h minChunkSize b :
  NoDup (cset_elements (partitionedSet h minChunkSize b)).
Proof.
  rewrite partitionedSet_elements.
  eapply Permutation_NoDup; [symmetry; apply sortChunks_perm|].
  apply NoDup_filter, seq_NoDup.
Qed.

Lemma getPartitionedChunks_in_bucket G sigs minChunkSize b r :
  in_bucket (getPartitionedChunks G sigs minChunkSize) b r
  <-> r < length (heap (getPartitionedChunks G sigs minChunkSize))
      /\ getChunksInPartition (chunk_at (getPartitionedChunks G sigs minChunkSize) r)
           minChunkSize = b.
Proof.
  unfold in_bucket, chunk_at, getPartitionedChunks. simpl.
  destruct b; simpl; apply partitionedSet_In.
Qed.

Lemma getPartitionedChunks_live G sigs minChunkSize r :
  live (getPartitionedChunks G sigs minChunkSize) r
  <-> r < length (heap (getPartitionedChunks G sigs minChunkSize)).
Proof.
  unfold live. split.
  - intros [b Hb]. now apply getPartitionedChunks_in_bucket in Hb.
  - intros H. eexists. apply getPartitionedChunks_in_bucket. split; [exact H|reflexivity].
Qed.

Lemma NoDup_map_filter {A B : Type} (f : A -> B) (p : A -> bool) l :
  NoDup (map f l) -> NoDup (map f (filter p l)).
Proof.
  induction l as [|x l IH]; simpl; intros H; [constructor|].
  inversion H as [|? ? Hx Hl]. subst. destruct (p x); simpl; [|auto].
  constructor; [|auto]. intros Hin. apply Hx. apply in_map_iff in Hin as [y [Hy Hin]].
  apply filter_In in Hin as [Hin _]. apply in_map_iff. eauto.
Qed.

Section InitialPartition.
Variables (G : Graph) (minChunkSize : Z).
Variables (assigned : list (nat * list nat)) (allEntries : list nat).
Hypothesis Hkeys : NoDup (map fst assigned).

Local Abbreviation sigs := (getChunkModulesBySignature assigned allEntries).
Local Abbreviation st0 := (getPartitionedChunks G sigs minChunkSize).

Lemma initial_heap : heap st0 = map (describeChunk G) sigs.
Proof.
  unfold getPartitionedChunks. simpl. now rewrite getChunkModulesBySignature_entries.
Qed.

(** The chunk at reference [r] describes the [r]-th signature group. *)
Lemma initial_chunk r :
  r < length (heap st0) ->
  exists k modules,
    nth_error sigs r = Some (k, modules)
    /\ chunk_at st0 r = describeChunk G (k, modules)
    /\ modules = group_of allEntries k assigned.
Proof.
  intros Hr. rewrite initial_heap, length_map in Hr.
  destruct (nth_error sigs r) as [[k modules]|] eqn:Hnth;
    [|apply nth_error_None in Hnth; lia].
  exists k, modules. split; [reflexivity|]. split.
  - unfold chunk_at, deref. rewrite initial_heap.
    apply nth_error_nth. now rewrite nth_error_map, Hnth.
  - apply nth_error_In in Hnth. now apply getChunkModulesBySignature_group in Hnth.
Qed.

Lemma initial_module_signature k m :
  In m (group_of allEntries k assigned) -> grouped_signature assigned allEntries m = k.
Proof.
  intros H. apply group_of_In in H as [s [Hin Hs]].
  unfold grouped_signature. now rewrite (In_map_get _ _ _ Hkeys Hin).
Qed.

Lemma initial_same_key r1 r2 k m1 m2 :
  nth_error sigs r1 = Some (k, m1) -> nth_error sigs r2 = Some (k, m2) -> r1 = r2.
Proof.
  intros H1 H2.
  pose proof (getChunkModulesBySignature_NoDup assigned allEntries) as Hnd.
  rewrite NoDup_nth_error in Hnd. apply Hnd.
  - rewrite length_map. apply nth_error_Some. congruence.
  - now rewrite !nth_error_map, H1, H2.
Qed.

Lemma initial_inv :
  merge_inv G minChunkSize (length allEntries) (grouped_signature assigned allEntries)
    (map fst assigned) Pass1 st0.
Proof.
  constructor.
  - intros b. unfold getPartitionedChunks. destruct b; simpl; apply partitionedSet_NoDup.
  - intros r Hr. now apply getPartitionedChunks_live.
  - intros b r Hb. now apply getPartitionedChunks_in_bucket in Hb.
  - intros r Hr. apply getPartitionedChunks_live in Hr.
    destruct (initial_chunk Hr) as [k [modules [Hnth [-> _]]]].
    rewrite describeChunk_spec. simpl.
    assert (Hk : In k (map fst sigs)).
    { apply nth_error_In in Hnth. now apply (in_map fst) in Hnth. }
    apply getChunkModulesBySignature_keys in Hk as [me [_ <-]].
    split; [apply chunkSignature_wf|apply chunkSignature_length].
  - intros r Hr. apply getPartitionedChunks_live in Hr.
    destruct (initial_chunk Hr) as [k [modules [_ [-> _]]]].
    now rewrite describeChunk_spec.
  - intros r m Hr Hm _. apply getPartitionedChunks_live in Hr.
    destruct (initial_chunk Hr) as [k [modules [_ [Hc Hmods]]]].
    rewrite Hc, describeChunk_spec in *. simpl in *. subst modules.
    symmetry. now apply initial_module_signature.
  - intros r1 r2 H1 H2 Hne Heq. simpl in H1, H2.
    apply getPartitionedChunks_live in H1, H2.
    destruct (initial_chunk H1) as [k1 [mods1 [Hn1 [Hc1 _]]]].
    destruct (initial_chunk H2) as [k2 [mods2 [Hn2 [Hc2 _]]]].
    rewrite Hc1, Hc2, !describeChunk_spec in Heq. simpl in Heq. subst k2.
    apply Hne. eapply initial_same_key; eauto.
  - intros r Hr. apply getPartitionedChunks_live in Hr.
    destruct (initial_chunk Hr) as [k [modules [_ [-> ->]]]].
    rewrite describeChunk_spec. simpl. unfold group_of. now apply NoDup_map_filter.
  - intros r1 r2 m H1 H2 Hm1 Hm2. apply getPartitionedChunks_live in H1, H2.
    destruct (initial_chunk H1) as [k1 [mods1 [Hn1 [Hc1 Hg1]]]].
    destruct (initial_chunk H2) as [k2 [mods2 [Hn2 [Hc2 Hg2]]]].
    rewrite Hc1, describeChunk_spec in Hm1. rewrite Hc2, describeChunk_spec in Hm2.
    simpl in Hm1, Hm2. subst mods1 mods2.
    apply initial_module_signature in Hm1, Hm2. subst k1 k2.
    eapply initial_same_key; eauto.
  - intros m. split.
    + intros Hm. apply in_map_iff in Hm as [[m' s] [Heq Hin]]. simpl in Heq. subst m'.
      assert (Hk : In (chunkSignature s allEntries) (map fst sigs)).
      { apply getChunkModulesBySignature_keys. now exists (m, s). }
      apply in_map_iff in Hk as [[k modules] [Hk Hin']]. simpl in Hk. subst k.
      destruct (In_nth_error _ _ Hin') as [r Hr].
      assert (Hlt : r < length (heap st0)).
      { rewrite initial_heap, length_map. apply nth_error_Some. congruence. }
      exists r. split; [now apply getPartitionedChunks_live|].
      destruct (initial_chunk Hlt) as [k' [mods' [Hn [Hc Hg]]]].
      rewrite Hr in Hn. injection Hn as <- <-.
      rewrite Hc, describeChunk_spec. simpl. rewrite Hg.
      apply group_of_In. now exists s.
    + intros [r [Hr Hm]]. apply getPartitionedChunks_live in Hr.
      destruct (initial_chunk Hr) as [k [modules [_ [Hc Hg]]]].
      rewrite Hc, describeChunk_spec in Hm. simpl in Hm. subst modules.
      apply group_of_In in Hm as [s [Hin _]]. now apply (in_map fst) in Hin.
Qed.
End InitialPartition.

(** ** The two passes of [getOptimizedChunks] *)

Section Optimized.
Variables (G : Graph) (minChunkSize : Z).
Variables (assigned : list (nat * list nat)) (allEntries : list nat).
Hypothesis Hkeys : NoDup (map fst assigned).

Local Abbreviation sigs := (getChunkModulesBySignature assigned allEntries).
Local Abbreviation st0 := (getPartitionedChunks G sigs minChunkSize).
Local Abbreviation Inv :=
  (merge_inv G minChunkSize (length allEntries) (grouped_signature assigned allEntries)
     (map fst assigned)).

Lemma pass_reaches_inv pass i st :
  pass_reaches G sigs minChunkSize pass i st -> Inv pass st.
Proof.
  pose proof (@initial_inv G minChunkSize assigned allEntries Hkeys) as H0.
  destruct pass; simpl.
  - intros H. eapply (@loop_reaches_preserves _ _ _ _ _ Pass1); eauto.
  - intros [st1 [H1 H2]].
    eapply (@loop_reaches_preserves _ _ _ _ _ Pass2); eauto.
    apply merge_inv_next_pass.
    destruct (@mergeChunks_returns _ _ _ _ _ Pass1 _ H0) as [st1' [Hst1 Hinv1]].
    simpl in Hst1. rewrite H1 in Hst1. inversion Hst1. now subst.
Qed.

(** [getOptimizedChunks] returns the chunks of a partition that satisfies
    the invariant and that the second pass reaches. *)
Lemma getOptimizedChunks_returns :
  exists i st2,
    pass_reaches G sigs minChunkSize Pass2 i st2
    /\ getOptimizedChunks G sigs minChunkSize
       = Ok (map (chunk_at st2) (live_chunks (chunkPartition st2))).
Proof.
  pose proof (@initial_inv G minChunkSize assigned allEntries Hkeys) as H0.
  destruct (@mergeChunks_returns _ _ _ _ _ Pass1 _ H0) as [st1 [Hst1 Hinv1]].
  apply merge_inv_next_pass in Hinv1.
  destruct (@mergeChunks_returns _ _ _ _ _ Pass2 _ Hinv1) as [st2 [Hst2 Hinv2]].
  simpl in Hst1, Hst2.
  assert (Hloop := Hst2). unfold mergeChunks in Hloop.
  apply (@mergeChunks_loop_reaches minChunkSize Pass2) in Hloop as [j [Hreach _]].
  exists j, st2. split.
  - simpl. exists st1. split; assumption.
  - unfold getOptimizedChunks. rewrite Hst1. simpl. rewrite Hst2. reflexivity.
Qed.

(** Every grouped module is in exactly one chunk of the partition, once. *)
Lemma live_chunks_cover pass st m :
  Inv pass st -> In m (map fst assigned) ->
  exists i r,
    nth_error (live_chunks (chunkPartition st)) i = Some r
    /\ In m (ChunkDescription.modules (chunk_at st r))
    /\ NoDup (ChunkDescription.modules (chunk_at st r))
    /\ forall j r', nth_error (live_chunks (chunkPartition st)) j = Some r' ->
                    In m (ChunkDescription.modules (chunk_at st r')) -> j = i.
Proof.
  intros Hinv Hm. apply (inv_modules_all Hinv) in Hm as [r [Hr Hin]].
  assert (Hlive : In r (live_chunks (chunkPartition st))) by now apply live_chunks_In.
  apply In_nth_error in Hlive as [i Hi]. exists i, r.
  split; [assumption|]. split; [assumption|]. split; [now apply (inv_modules_nodup Hinv)|].
  intros j r' Hj Hin'.
  assert (Hr' : live st r') by (apply live_chunks_In; eapply nth_error_In; eauto).
  assert (r' = r) by (eapply (inv_modules_disjoint Hinv); eauto). subst r'.
  pose proof (live_chunks_NoDup Hinv) as Hnd. rewrite NoDup_nth_error in Hnd.
  apply Hnd; [apply nth_error_Some|]; congruence.
Qed.
End Optimized.

(** C1. Side-effect safety of merging. For every integer [minChunkSize],
    in every state the two passes of [getOptimizedChunks] go through, a
    chunk that holds a module with side effects has the signature under
    which that module was grouped: no merge adds an ['X'] to, or removes one
    from, the signature that covers a side-effect module.
    [getOptimizedChunks] returns, and in each chunk it returns that holds a
    module with side effects, position [i] of the signature is ['X'] exactly
    when the module was assigned to entry [i]. *)
Theorem side_effect_safety (G : Graph) (assigned : list (nat * list nat))
    (allEntries : list nat) (minChunkSize : Z) :
  NoDup (map fst assigned) ->
  let sigs := getChunkModulesBySignature assigned allEntries in
  (forall pass i st r m,
      pass_reaches G sigs minChunkSize pass i st ->
      live st r -> In m (ChunkDescription.modules (chunk_at st r)) ->
      hasEffects (getModule G m) = true ->
      ChunkDescription.signature (chunk_at st r) = grouped_signature assigned allEntries m)
  /\ exists chunks,
       getOptimizedChunks G sigs minChunkSize = Ok chunks
       /\ forall chunk m,
            In chunk chunks -> In m (ChunkDescription.modules chunk) ->
            hasEffects (getModule G m) = true ->
            exists assignedEntries,
              map_get m assigned = Some assignedEntries
              /\ ChunkDescription.signature chunk = chunkSignature assignedEntries allEntries
              /\ forall i entry,
                   nth_error allEntries i = Some entry ->
                   (String.get i (ChunkDescription.signature chunk) = Some CHAR_DEPENDENT
                    <-> In entry assignedEntries).
Proof.
  intros Hkeys sigs.
  assert (Hall : forall pass i st r m,
      pass_reaches G sigs minChunkSize pass i st ->
      live st r -> In m (ChunkDescription.modules (chunk_at st r)) ->
      hasEffects (getModule G m) = true ->
      ChunkDescription.signature (chunk_at st r) = grouped_signature assigned allEntries m).
  { intros pass i st r m Hreach Hr Hm Heff.
    apply (@pass_reaches_inv G minChunkSize assigned allEntries Hkeys) in Hreach.
    now apply (inv_effects Hreach). }
  split; [exact Hall|].
  destruct (@getOptimizedChunks_returns G minChunkSize assigned allEntries Hkeys) as [i [st2 [Hreach Hres]]].
  eexists. split; [exact Hres|].
  intros chunk m Hchunk Hm Heff. apply in_map_iff in Hchunk as [r [<- Hr]].
  apply live_chunks_In in Hr.
  assert (Hsig := Hall Pass2 i st2 r m Hreach Hr Hm Heff).
  assert (Hinv := @pass_reaches_inv G minChunkSize assigned allEntries Hkeys _ _ _ Hreach).
  assert (HM : In m (map fst assigned)) by (apply (inv_modules_all Hinv); eauto).
  destruct (map_get m assigned) as [assignedEntries|] eqn:Hget;
    [|apply map_get_None in Hget; contradiction].
  exists assignedEntries. split; [reflexivity|].
  unfold grouped_signature in Hsig. rewrite Hget in Hsig. split; [assumption|].
  intros k entry Hk. rewrite Hsig, (chunkSignature_get _ _ _ Hk), <- set_has_In.
  destruct (set_has entry assignedEntries); simpl; split; intros H;
    try reflexivity; discriminate.
Qed.





(** ** A negative [minChunkSize] *)

Lemma is_small_negative size minChunkSize :
  (minChunkSize < 0)%Z -> is_small size minChunkSize = false.
Proof. intros H. unfold is_small. apply Z.ltb_ge. lia. Qed.

Lemma filter_none {A : Type} (f : A -> bool) l :
  (forall x, f x = false) -> filter f l = [].
Proof.
  intros H. induction l as [|x l IH]; [reflexivity|]. simpl. now rewrite H.
Qed.

Lemma partitionedSet_negative h minChunkSize b :
  (minChunkSize < 0)%Z ->
  cset_elements (partitionedSet h minChunkSize b)
  = match b with
    | SmallPure | SmallSideEffect => []
    | BigPure =>
        sortChunks h (filter (fun ref => ChunkDescription.pure (deref h ref))
                        (seq 0 (length h)))
    | BigSideEffect =>
        sortChunks h (filter (fun ref => negb (ChunkDescription.pure (deref h ref)))
                        (seq 0 (length h)))
    end
  /\ (match b with
      | SmallPure | SmallSideEffect => partitionedSet h minChunkSize b = []
      | _ => True
      end).
Proof.
  intros Hneg. rewrite partitionedSet_elements.
  assert (Hclass : forall ref,
    getChunksInPartition (deref h ref) minChunkSize
    = if ChunkDescription.pure (deref h ref) then BigPure else BigSideEffect).
  { intros ref. unfold getChunksInPartition. now rewrite is_small_negative. }
  assert (Hfilter : forall b',
    filter (fun ref => Bucket_eqb (getChunksInPartition (deref h ref) minChunkSize) b')
      (seq 0 (length h))
    = filter (fun ref => Bucket_eqb (if ChunkDescription.pure (deref h ref)
                                     then BigPure else BigSideEffect) b')
        (seq 0 (length h))).
  { intros b'. apply filter_ext. intros ref. now rewrite Hclass. }
  assert (Hnone : forall b', (b' = SmallPure \/ b' = SmallSideEffect) ->
    filter (fun ref => Bucket_eqb (getChunksInPartition (deref h ref) minChunkSize) b')
      (seq 0 (length h)) = []).
  { intros b' Hb'. rewrite Hfilter. apply filter_none. intros x.
    destruct (ChunkDescription.pure (deref h x)), Hb' as [->| ->]; reflexivity. }
  destruct b.
  - rewrite Hnone by auto. split; [reflexivity|]. unfold partitionedSet.
    now rewrite Hnone by auto.
  - rewrite Hnone by auto. split; [reflexivity|]. unfold partitionedSet.
    now rewrite Hnone by auto.
  - split; [|exact I]. rewrite Hfilter. f_equal. apply filter_ext.
    intros ref. now destruct (ChunkDescription.pure (deref h ref)).
  - split; [|exact I]. rewrite Hfilter. f_equal. apply filter_ext.
    intros ref. now destruct (ChunkDescription.pure (deref h ref)).
Qed.

Lemma mergeChunks_empty source targets minChunkSize st :
  bucket source (chunkPartition st) = [] ->
  mergeChunks source targets minChunkSize st = Ok st.
Proof.
  intros H. unfold mergeChunks. rewrite H. simpl.
  rewrite Nat.add_1_r. simpl. unfold mergeChunks_step. now rewrite H.
Qed.

Lemma getOptimizedChunks_negative G sigs minChunkSize :
  (minChunkSize < 0)%Z ->
  getOptimizedChunks G sigs minChunkSize = Ok (unmergedChunks G sigs).
Proof.
  intros Hneg. unfold getOptimizedChunks.
  set (st0 := getPartitionedChunks G sigs minChunkSize).
  set (h := map (describeChunk G) (Object_entries sigs)).
  assert (Hsp : small_pure (chunkPartition st0) = [])
    by apply (partitionedSet_negative h SmallPure Hneg).
  assert (Hsse : small_sideEffect (chunkPartition st0) = [])
    by apply (partitionedSet_negative h SmallSideEffect Hneg).
  rewrite mergeChunks_empty by exact Hsse. simpl.
  rewrite mergeChunks_empty by exact Hsp. simpl.
  unfold unmergedChunks, live_chunks, concatLazy, all_buckets. simpl. fold h.
  rewrite (proj1 (partitionedSet_negative h SmallSideEffect Hneg)).
  rewrite (proj1 (partitionedSet_negative h SmallPure Hneg)).
  rewrite (proj1 (partitionedSet_negative h BigSideEffect Hneg)).
  rewrite (proj1 (partitionedSet_negative h BigPure Hneg)).
  simpl. now rewrite app_nil_r.
Qed.

(** *** The order of the chunks that are not merged *)

Lemma sort_insert_filter h (f : nat -> bool) x l :
  (forall a, f a = true -> ChunkDescription.size (deref h a) <> ChunkDescription.size (deref h x) -> f x = false) ->
  filter f (sort_insert h x l) = filter f (x :: l).
Proof.
  intros Hf. induction l as [|a l IH]; [reflexivity|]. cbn [sort_insert].
  destruct (ChunkDescription.size (deref h x) <=? ChunkDescription.size (deref h a))
    eqn:Hle; [reflexivity|].
  apply Nat.leb_gt in Hle. cbn [filter] in *. rewrite IH.
  destruct (f a) eqn:Ha; [|reflexivity].
  assert (Hx : f x = false) by (apply (Hf a Ha); lia). now rewrite Hx.
Qed.

(** The sort is stable: the chunks of one size keep their order. *)
Lemma sortChunks_stable h size refs :
  filter (fun ref => ChunkDescription.size (deref h ref) =? size) (sortChunks h refs)
  = filter (fun ref => ChunkDescription.size (deref h ref) =? size) refs.
Proof.
  unfold sortChunks. induction refs as [|x l IH]; [reflexivity|]. cbn [fold_right].
  rewrite sort_insert_filter.
  - cbn [filter]. now rewrite IH.
  - intros a Ha Hne. apply Nat.eqb_eq in Ha. apply Nat.eqb_neq. congruence.
Qed.

Lemma sort_insert_sorted h x l :
  StronglySorted
    (fun a b => ChunkDescription.size (deref h a) <= ChunkDescription.size (deref h b)) l ->
  StronglySorted
    (fun a b => ChunkDescription.size (deref h a) <= ChunkDescription.size (deref h b))
    (sort_insert h x l).
Proof.
  induction l as [|a l IH]; intros Hs; cbn [sort_insert].
  - repeat constructor.
  - destruct (ChunkDescription.size (deref h x) <=? ChunkDescription.size (deref h a))
      eqn:Hle.
    + apply Nat.leb_le in Hle. constructor; [exact Hs|].
      inversion Hs as [|? ? Hl Ha]. subst. constructor; [exact Hle|].
      eapply Forall_impl; [|exact Ha]. simpl. intros b Hb. lia.
    + apply Nat.leb_gt in Hle. inversion Hs as [|? ? Hl Ha]. subst.
      constructor; [now apply IH|].
      apply (Permutation_Forall (Permutation_sym (sort_insert_perm h x l))).
      constructor; [lia|exact Ha].
Qed.

(** The sort is by ascending size. *)
Lemma sortChunks_sorted h refs :
  StronglySorted
    (fun a b => ChunkDescription.size (deref h a) <= ChunkDescription.size (deref h b))
    (sortChunks h refs).
Proof.
  unfold sortChunks. induction refs as [|x l IH]; cbn [fold_right]; [constructor|].
  now apply sort_insert_sorted.
Qed.

Lemma StronglySorted_map {A B : Type} (R : B -> B -> Prop) (f : A -> B) l :
  StronglySorted (fun a b => R (f a) (f b)) l -> StronglySorted R (map f l).
Proof.
  induction 1 as [|a l Hs IH Ha]; simpl; constructor; [exact IH|].
  apply Forall_map. exact Ha.
Qed.

Lemma filter_map_commute {A B : Type} (p : B -> bool) (f : A -> B) l :
  filter p (map f l) = map f (filter (fun a => p (f a)) l).
Proof.
  induction l as [|a l IH]; simpl; [reflexivity|]. rewrite IH. now destruct (p (f a)).
Qed.

(** The chunks that the references to the chunks with a property point to,
    in the order of the references, are the chunks of the heap with that
    property, in the order of the heap. *)
Lemma map_deref_filter (p : ChunkDescription.t -> bool) h :
  map (deref h) (filter (fun ref => p (deref h ref)) (seq 0 (length h))) = filter p h.
Proof.
  induction h as [|c h IH]; [reflexivity|].
  cbn [length seq filter]. rewrite <- seq_shift, filter_map_commute.
  change (deref (c :: h) 0) with c.
  assert (Htail : map (deref (c :: h))
                    (map S (filter (fun a => p (deref (c :: h) (S a))) (seq 0 (length h))))
                  = filter p h).
  { rewrite map_map. exact IH. }
  destruct (p c); cbn [map]; now rewrite Htail.
Qed.

(** The chunks of the heap that have a property, as [getPartitionedChunks]
    sorts them. *)
Lemma sortChunks_sorted_by_size (p : ChunkDescription.t -> bool) h :
  sorted_by_size (filter p h)
    (map (deref h)
       (sortChunks h (filter (fun ref => p (deref h ref)) (seq 0 (length h))))).
Proof.
  split; [|split].
  - rewrite <- (map_deref_filter p h). apply Permutation_map, sortChunks_perm.
  - apply StronglySorted_map, sortChunks_sorted.
  - intros size. rewrite <- (map_deref_filter p h).
    rewrite !filter_map_commute. f_equal. apply sortChunks_stable.
Qed.

Lemma describeChunk_group G signatureModules :
  describeChunk G signatureModules = groupDescription G signatureModules.
Proof. destruct signatureModules as [k modules]. apply describeChunk_spec. Qed.

(** A number that is not finite makes [getOptimizedChunks] throw: the
    first call of [prettyBytes] throws, before anything is merged. *)
Lemma getOptimizedChunks_not_finite G sigs (minChunkSize : Number.t) :
  Number.isFinite minChunkSize = false ->
  getOptimizedChunks G sigs minChunkSize = TypeError.
Proof.
  intros H. unfold getOptimizedChunks, prettyBytes. rewrite H. reflexivity.
Qed.

(** No number that is not finite is [0]. *)
Lemma is_zero_finite (minChunkSize : Number.t) :
  is_zero minChunkSize = true -> Number.isFinite minChunkSize = true.
Proof. now destruct minChunkSize. Qed.

Lemma createChunks_not_finite G allEntries assigned (minChunkSize : Number.t) :
  Number.isFinite minChunkSize = false ->
  createChunks G allEntries assigned minChunkSize = TypeError.
Proof.
  intros H. unfold createChunks.
  destruct (is_zero minChunkSize) eqn:Hz.
  - apply is_zero_finite in Hz. congruence.
  - now rewrite getOptimizedChunks_not_finite.
Qed.

(** C9, as the code has it. [getChunkAssignments] does not check its
    arguments. Whenever the assignment of the modules itself succeeds, it
    returns a chunk list for every negative integer [minChunkSize], the same
    for all of them: no chunk counts as small, nothing is merged, and the
    automatic chunks are the signature groups, those with side effects
    first, then the pure ones, each kind in ascending size and, at equal
    size, in the order of the groups. Only with [-Infinity] does the call
    throw: a [TypeError] of [prettyBytes], which is called for a log
    message. *)
Theorem negative_minChunkSize_is_accepted (G : Graph) (entries : list nat)
    (manualChunkAliasByEntry : list (nat * string)) (asg : Assignment) :
  assignModules G entries manualChunkAliasByEntry = Ok asg ->
  let groups :=
    map (groupDescription G)
      (getChunkModulesBySignature (assignedEntriesByModule asg)
         (allEntries (analysis asg))) in
  (exists sideEffect pure,
      sorted_by_size
        (filter (fun chunk => negb (ChunkDescription.pure chunk)) groups) sideEffect
      /\ sorted_by_size (filter ChunkDescription.pure groups) pure
      /\ forall minChunkSize : Z,
           (minChunkSize < 0)%Z ->
           getChunkAssignments G entries manualChunkAliasByEntry minChunkSize
           = Ok (manualChunkDefinitions (manualChunkModulesByAlias asg)
                 ++ map (fun chunk => automaticChunk (ChunkDescription.modules chunk))
                      (sideEffect ++ pure)))
  /\ getChunkAssignments G entries manualChunkAliasByEntry Number.NegativeInfinity
     = TypeError.
Proof.
  intros Hasg groups.
  set (sigs := getChunkModulesBySignature (assignedEntriesByModule asg)
                 (allEntries (analysis asg))).
  set (h := map (describeChunk G) (Object_entries sigs)).
  assert (Hh : h = groups).
  { unfold h, groups, sigs. rewrite getChunkModulesBySignature_entries.
    apply map_ext. apply describeChunk_group. }
  split.
  - exists (map (deref h)
              (sortChunks h
                 (filter (fun ref => negb (ChunkDescription.pure (deref h ref)))
                    (seq 0 (length h))))),
           (map (deref h)
              (sortChunks h
                 (filter (fun ref => ChunkDescription.pure (deref h ref))
                    (seq 0 (length h))))).
    split; [|split].
    + rewrite <- Hh.
      apply (sortChunks_sorted_by_size (fun chunk => negb (ChunkDescription.pure chunk))).
    + rewrite <- Hh. apply (sortChunks_sorted_by_size ChunkDescription.pure).
    + intros minChunkSize Hneg. unfold getChunkAssignments. rewrite Hasg. simpl.
      unfold createChunks.
      assert (Hz : is_zero minChunkSize = false) by (apply Z.eqb_neq; lia).
      rewrite Hz. fold sigs. rewrite getOptimizedChunks_negative by assumption.
      unfold unmergedChunks. fold h. rewrite map_app. reflexivity.
  - unfold getChunkAssignments. rewrite Hasg. cbn [bind].
    now rewrite createChunks_not_finite.
Qed.

Lemma negative_minChunkSize_is_accepted_witness :
  let groups :=
    map (groupDescription Examples.effectGraph)
      (getChunkModulesBySignature Examples.effectAssigned [0; 1]) in
  (exists sideEffect pure,
      sorted_by_size
        (filter (fun chunk => negb (ChunkDescription.pure chunk)) groups) sideEffect
      /\ sorted_by_size (filter ChunkDescription.pure groups) pure
      /\ forall minChunkSize : Z,
           (minChunkSize < 0)%Z ->
           getChunkAssignments Examples.effectGraph [0; 1] [] minChunkSize
           = Ok (manualChunkDefinitions []
                 ++ map (fun chunk => automaticChunk (ChunkDescription.modules chunk))
                      (sideEffect ++ pure)))
  /\ getChunkAssignments Examples.effectGraph [0; 1] [] Number.NegativeInfinity
     = TypeError.
Proof.
  apply (@negative_minChunkSize_is_accepted Examples.effectGraph [0; 1] []
           {| manualChunkModulesByAlias := [];
              modulesInManualChunks := [];
              analysis := {| allEntries := [0; 1];
                             dependentEntriesByModule := [(0, [0]); (2, [0; 1]); (1, [1])];
                             dynamicallyDependentEntriesByDynamicEntry := [] |};
              assignedEntriesByModule := Examples.effectAssigned |}).
  reflexivity.
Defined.

(** A call with a negative [minChunkSize] that returns a chunk list. *)
Lemma negative_minChunkSize_returns :
  (-1 < 0)%Z
  /\ getChunkAssignments Examples.effectGraph [0; 1] [] (-1)
     = Ok [{| alias := None; modules := [2] |};
           {| alias := None; modules := [0] |};
           {| alias := None; modules := [1] |}].
Proof. split; reflexivity. Qed.

Lemma side_effect_safety_witness :
  let sigs := getChunkModulesBySignature Examples.effectAssigned [0; 1] in
  (forall pass i st r m,
      pass_reaches Examples.effectGraph sigs 35 pass i st ->
      live st r -> In m (ChunkDescription.modules (chunk_at st r)) ->
      hasEffects (getModule Examples.effectGraph m) = true ->
      ChunkDescription.signature (chunk_at st r)
      = grouped_signature Examples.effectAssigned [0; 1] m)
  /\ exists chunks,
       getOptimizedChunks Examples.effectGraph sigs 35 = Ok chunks
       /\ forall chunk m,
            In chunk chunks -> In m (ChunkDescription.modules chunk) ->
            hasEffects (getModule Examples.effectGraph m) = true ->
            exists assignedEntries,
              map_get m Examples.effectAssigned = Some assignedEntries
              /\ ChunkDescription.signature chunk = chunkSignature assignedEntries [0; 1]
              /\ forall i entry,
                   nth_error [0; 1] i = Some entry ->
                   (String.get i (ChunkDescription.signature chunk) = Some CHAR_DEPENDENT
                    <-> In entry assignedEntries).
Proof.
  apply (@side_effect_safety Examples.effectGraph Examples.effectAssigned [0; 1] 35).
  repeat constructor; simpl; intuition discriminate.
Defined.


(** ** What entry assignment computes *)

Lemma map_set_In {V : Type} k (v : V) m k' v' :
  In (k', v') (map_set k v m) -> (k', v') = (k, v) \/ In (k', v') m.
Proof.
  induction m as [|[k0 v0] m IH]; simpl.
  - intros [H|[]]. left. now symmetry.
  - destruct (k =? k0) eqn:E; simpl.
    + intros [H|H]; [left; now symmetry|right; now right].
    + intros [H|H]; [right; now left|]. destruct (IH H) as [H'|H']; auto.
Qed.

Lemma assigned_to_set_same assigned module s entry :
  assigned_to (map_set module s assigned) module entry <-> In entry s.
Proof.
  unfold assigned_to. rewrite map_get_set_same. split.
  - intros [s' [H1 H2]]. now inversion H1; subst.
  - intros H. now exists s.
Qed.

Lemma assigned_to_set_other assigned module module' s entry :
  module' <> module ->
  assigned_to (map_set module s assigned) module' entry
  <-> assigned_to assigned module' entry.
Proof. intros H. unfold assigned_to. now rewrite map_get_set_other. Qed.

Lemma assigned_to_getOrCreate assigned module module' entry :
  assigned_to (snd (getOrCreate assigned module [])) module' entry
  <-> assigned_to assigned module' entry.
Proof.
  unfold assigned_to, getOrCreate. destruct (map_get module assigned) eqn:E; simpl.
  - reflexivity.
  - destruct (Nat.eq_dec module' module) as [->|Hne].
    + rewrite map_get_set_same, E. split; intros [s [H1 H2]]; [|discriminate].
      inversion H1. subst. destruct H2.
    + now rewrite map_get_set_other.
Qed.

Lemma getOrCreate_fst_In assigned module entry :
  In entry (fst (getOrCreate assigned module [])) <-> assigned_to assigned module entry.
Proof.
  unfold assigned_to, getOrCreate. destruct (map_get module assigned) eqn:E; simpl.
  - split; [intros H; eauto|]. intros [s [H1 H2]]. now inversion H1; subst.
  - split; [intros []|]. intros [s [H1 _]]. discriminate.
Qed.

Section AssignCharacterization.
Variables (G : Graph) (a : Analysis) (inManual staticEntries : list nat).
Variable entry : nat.

Local Abbreviation dde := (map_get entry (dynamicallyDependentEntriesByDynamicEntry a)).
Local Abbreviation body :=
  (assignEntryToStaticDependencies_module G entry a inManual staticEntries dde).

(** The work list evolves in the same way whatever the entries assigned so
    far. *)
Lemma assign_run_worklist fuel : forall i st1 st2 st1',
  asg_modulesToHandle st1 = asg_modulesToHandle st2 ->
  forOf asg_modulesToHandle body fuel i st1 = Ok st1' ->
  exists st2',
    forOf asg_modulesToHandle body fuel i st2 = Ok st2'
    /\ asg_modulesToHandle st1' = asg_modulesToHandle st2'.
Proof.
  induction fuel as [|fuel IH]; intros i st1 st2 st1' Heq Hrun; simpl in *; [discriminate|].
  rewrite <- Heq. destruct (nth_error (asg_modulesToHandle st1) i) as [x|] eqn:Hnth.
  - apply bind_Ok_inv in Hrun as [s1 [Hb1 Hrest]].
    pose proof Hb1 as Hb1'. apply assign_module_inv in Hb1' as [r [Hr [Hm1 _]]].
    assert (Hb2 : exists s2, body x st2 = Ok s2
                             /\ asg_modulesToHandle s1 = asg_modulesToHandle s2).
    { unfold assignEntryToStaticDependencies_module.
      destruct (getOrCreate (asg_assignedEntriesByModule st2) x []) as [s m].
      rewrite Hr. simpl. destruct r; eexists; (split; [reflexivity|]); simpl;
        rewrite Hm1, Heq; reflexivity. }
    destruct Hb2 as [s2 [Hb2 Heq2]]. rewrite Hb2. simpl. eapply IH; eauto.
  - inversion Hrun. subst. exists st2. split; [reflexivity|assumption].
Qed.

Lemma assign_run_visitedFrom assigned st :
  assignEntryToStaticDependencies_run G entry a assigned inManual staticEntries = Ok st ->
  visitedFrom G a inManual staticEntries entry = Ok (asg_modulesToHandle st).
Proof.
  unfold visitedFrom, assignEntryToStaticDependencies_run. intros Hrun.
  eapply assign_run_worklist
    with (st2 := {| asg_assignedEntriesByModule := []; asg_modulesToHandle := [entry] |})
    in Hrun as [st2 [Hrun2 Heq]]; [|reflexivity].
  simpl in Hrun2. rewrite Hrun2. simpl. now rewrite Heq.
Qed.

(** The entry sets after the traversal of [entry]: a module visited has an
    entry set, and [entry] is added to it unless the module is already
    loaded. *)
Lemma assign_run_assigned assigned st :
  NoDup (map fst assigned) ->
  assignEntryToStaticDependencies_run G entry a assigned inManual staticEntries = Ok st ->
  NoDup (map fst (asg_assignedEntriesByModule st))
  /\ (forall module,
        In module (map fst (asg_assignedEntriesByModule st))
        <-> In module (map fst assigned) \/ In module (asg_modulesToHandle st))
  /\ (forall module e,
        assigned_to (asg_assignedEntriesByModule st) module e
        <-> assigned_to assigned module e
            \/ (e = entry /\ In module (asg_modulesToHandle st)
                /\ alreadyLoadedFor a staticEntries entry module = Ok false)).
Proof.
  intros Hnd Hrun. unfold assignEntryToStaticDependencies_run in Hrun.
  pose (P := fun (i : nat) (st : AssignTraversal) =>
    NoDup (map fst (asg_assignedEntriesByModule st))
    /\ (forall module,
          In module (map fst (asg_assignedEntriesByModule st))
          <-> In module (map fst assigned)
              \/ exists k, k < i /\ nth_error (asg_modulesToHandle st) k = Some module)
    /\ (forall module e,
          assigned_to (asg_assignedEntriesByModule st) module e
          <-> assigned_to assigned module e
              \/ (e = entry
                  /\ (exists k, k < i /\ nth_error (asg_modulesToHandle st) k = Some module)
                  /\ alreadyLoadedFor a staticEntries entry module = Ok false))).
  eapply forOf_invariant with (P := P) in Hrun as [j [[H1 [H2 H3]] Hj]].
  - assert (Hidx : forall module,
      (exists k, k < j /\ nth_error (asg_modulesToHandle st) k = Some module)
      <-> In module (asg_modulesToHandle st)).
    { intros module. split.
      - intros [k [_ Hk]]. eapply nth_error_In; eauto.
      - intros Hin. apply In_nth_error in Hin as [k Hk]. exists k. split; [|assumption].
        apply Nat.lt_le_trans with (length (asg_modulesToHandle st)); [|assumption].
        apply nth_error_Some. congruence. }
    split; [assumption|]. split.
    + intros module. now rewrite H2, Hidx.
    + intros module e. now rewrite H3, Hidx.
  - clear Hrun. intros i x s s' [H1 [H2 H3]] Hnth Hbody.
    pose proof Hbody as Hbody'. apply assign_module_prefix in Hbody' as [l Hl].
    pose proof Hbody as Hbody'. apply assign_module_inv in Hbody' as [r [Hr [_ Hasg]]].
    assert (Hidx : forall module,
      (exists k, k < S i /\ nth_error (asg_modulesToHandle s') k = Some module)
      <-> module = x
          \/ exists k, k < i /\ nth_error (asg_modulesToHandle s) k = Some module).
    { intros module. rewrite Hl. split.
      - intros [k [Hk Hk']]. assert (Hlt : k < i \/ k = i) by lia.
        destruct Hlt as [Hlt| ->].
        + right. exists k. split; [assumption|].
          rewrite nth_error_app1 in Hk'; [assumption|].
          apply Nat.lt_trans with i; [assumption|apply nth_error_Some; congruence].
        + left. rewrite (prefix_nth_error _ l _ Hnth) in Hk'. congruence.
      - intros [->|[k [Hk Hk']]].
        + exists i. split; [lia|]. now apply prefix_nth_error.
        + exists k. split; [lia|]. now apply prefix_nth_error. }
    assert (Hkeys : map fst (asg_assignedEntriesByModule s')
                    = set_add x (map fst (asg_assignedEntriesByModule s))).
    { rewrite Hasg. simpl. destruct r.
      - apply getOrCreate_keys.
      - rewrite map_set_keys_set_add, getOrCreate_keys.
        unfold set_add at 1.
        assert (Hin : set_has x (set_add x (map fst (asg_assignedEntriesByModule s))) = true).
        { apply set_has_In, set_add_In. now left. }
        now rewrite Hin. }
    split; [rewrite Hkeys; now apply set_add_NoDup|]. split.
    + intros module. rewrite Hkeys, set_add_In, H2, Hidx. tauto.
    + intros module e. rewrite Hasg. simpl. unfold alreadyLoadedFor in *.
      destruct r.
      * rewrite assigned_to_getOrCreate, H3, Hidx. split.
        -- intros [H|[He [Hk Hload]]]; [now left|]. right. auto.
        -- intros [H|[He [[->|Hk] Hload]]]; [now left| |right; auto].
           rewrite Hload in Hr. discriminate.
      * destruct (Nat.eq_dec module x) as [->|Hne].
        -- rewrite assigned_to_set_same, set_add_In, getOrCreate_fst_In, H3, Hidx.
           split.
           ++ intros [->|[H|[He [Hk Hload]]]]; [right; auto|now left|right; auto].
           ++ intros [H|[He [Hk Hload]]]; [right; now left|]. now left.
        -- rewrite assigned_to_set_other, assigned_to_getOrCreate, H3, Hidx by assumption.
           split.
           ++ intros [H|[He [Hk Hload]]]; [now left|right; auto].
           ++ intros [H|[He [[->|Hk] Hload]]]; [now left|congruence|right; auto].
  - split; [assumption|]. split.
    + intros module. split; [now left|]. intros [H|[k [Hk _]]]; [assumption|lia].
    + intros module e. split; [now left|]. intros [H|[_ [[k [Hk _]] _]]]; [assumption|lia].
Qed.
End AssignCharacterization.

Section AssignEntries.
Variables (G : Graph) (a : Analysis) (inManual staticEntries : list nat).

Local Abbreviation body :=
  (fun entry assignedEntriesByModule =>
     if set_has entry inManual then Ok assignedEntriesByModule
     else assignEntryToStaticDependencies G entry a assignedEntriesByModule
            inManual staticEntries).

Local Abbreviation visits := (visits G a inManual staticEntries).

Lemma assignEntries_fold entries : forall acc0 acc,
  NoDup (map fst acc0) ->
  forEach body entries acc0 = Ok acc ->
  NoDup (map fst acc)
  /\ (forall module,
        In module (map fst acc)
        <-> In module (map fst acc0)
            \/ exists entry, In entry entries /\ visits entry module)
  /\ (forall module e,
        assigned_to acc module e
        <-> assigned_to acc0 module e
            \/ (In e entries /\ visits e module
                /\ alreadyLoadedFor a staticEntries e module = Ok false)).
Proof.
  induction entries as [|entry entries IH]; intros acc0 acc Hnd Hrun; simpl in Hrun.
  - inversion Hrun. subst. split; [assumption|]. split.
    + intros module. split; [now left|]. intros [H|[e [[] _]]]. assumption.
    + intros module e. split; [now left|]. intros [H|[[] _]]. assumption.
  - apply bind_Ok_inv in Hrun as [acc1 [Hbody Hrest]].
    assert (Hstep :
      NoDup (map fst acc1)
      /\ (forall module,
            In module (map fst acc1)
            <-> In module (map fst acc0) \/ visits entry module)
      /\ (forall module e,
            assigned_to acc1 module e
            <-> assigned_to acc0 module e
                \/ (e = entry /\ visits entry module
                    /\ alreadyLoadedFor a staticEntries entry module = Ok false))).
    { destruct (set_has entry inManual) eqn:Hman.
      - inversion Hbody. subst acc1. apply set_has_In in Hman.
        split; [assumption|]. split.
        + intros module. split; [now left|]. intros [H|[H _]]; [assumption|contradiction].
        + intros module e. split; [now left|].
          intros [H|[_ [[H _] _]]]; [assumption|contradiction].
      - apply set_has_false in Hman. unfold assignEntryToStaticDependencies in Hbody.
        apply bind_Ok_inv in Hbody as [st [Hst Hacc1]]. inversion Hacc1. subst acc1.
        pose proof Hst as Hvis. apply assign_run_visitedFrom in Hvis.
        pose proof Hst as Hspec. apply assign_run_assigned in Hspec as [H1 [H2 H3]];
          [|assumption].
        split; [assumption|]. split.
        + intros module. rewrite H2. split.
          * intros [H|H]; [now left|]. right. split; [assumption|]. eauto.
          * intros [H|[_ [visited [Hv Hin]]]]; [now left|]. right.
            rewrite Hvis in Hv. now inversion Hv; subst.
        + intros module e. rewrite H3. split.
          * intros [H|[He [Hin Hload]]]; [now left|]. right. subst e.
            split; [reflexivity|]. split; [|assumption]. split; [assumption|]. eauto.
          * intros [H|[He [[_ [visited [Hv Hin]]] Hload]]]; [now left|]. right. subst e.
            rewrite Hvis in Hv. inversion Hv; subst. auto. }
    destruct Hstep as [S1 [S2 S3]].
    destruct (IH _ _ S1 Hrest) as [H1 [H2 H3]].
    split; [assumption|]. split.
    + intros module. rewrite H2, S2. split.
      * intros [[H|H]|[e [He Hv]]]; [now left| |].
        -- right. exists entry. split; [now left|assumption].
        -- right. exists e. split; [now right|assumption].
      * intros [H|[e [[<-|He] Hv]]]; [now left; left|now left; right|].
        right. now exists e.
    + intros module e. rewrite H3, S3. split.
      * intros [[H|[-> [Hv Hl]]]|[He [Hv Hl]]]; [now left| |].
        -- right. split; [now left|]. auto.
        -- right. split; [now right|]. auto.
      * intros [H|[[<-|He] [Hv Hl]]]; [now left; left| |].
        -- left. right. auto.
        -- right. auto.
Qed.

(** The entry sets [getChunkAssignments] computes: a module has an entry set
    when the traversal of some entry visits it, and the set holds the entries
    whose traversal visits the module without finding it already loaded. *)
Lemma assignEntries_spec assigned :
  assignEntries G a inManual staticEntries = Ok assigned ->
  NoDup (map fst assigned)
  /\ (forall module,
        In module (map fst assigned)
        <-> exists entry, reaches G a inManual staticEntries entry module)
  /\ (forall module e,
        assigned_to assigned module e
        <-> reaches G a inManual staticEntries e module
            /\ alreadyLoadedFor a staticEntries e module = Ok false).
Proof.
  unfold assignEntries. intros H.
  apply assignEntries_fold in H as [H1 [H2 H3]]; [|constructor].
  split; [assumption|]. unfold reaches. split.
  - intros module. rewrite H2. simpl. split.
    + intros [[]|[e [He Hv]]]. exists e. auto.
    + intros [e [He Hv]]. right. exists e. auto.
  - intros module e. rewrite H3. unfold assigned_to. simpl. split.
    + intros [[s [Hs _]]|[He [Hv Hl]]]; [discriminate|]. auto.
    + intros [[He Hv] Hl]. right. auto.
Qed.
End AssignEntries.

(** ** The automatic chunks *)

Lemma assignModules_inv G entries manualChunkAliasByEntry asg :
  assignModules G entries manualChunkAliasByEntry = Ok asg ->
  manualChunks G manualChunkAliasByEntry
  = Ok (manualChunkModulesByAlias asg, modulesInManualChunks asg)
  /\ analyzeModuleGraph G entries = Ok (analysis asg)
  /\ assignEntries G (analysis asg) (modulesInManualChunks asg) (set_of_list entries)
     = Ok (assignedEntriesByModule asg).
Proof.
  unfold assignModules. intros H.
  apply bind_Ok_inv in H as [[byAlias inManual] [Hm H]].
  apply bind_Ok_inv in H as [a [Ha H]].
  apply bind_Ok_inv in H as [assigned [Hasg H]].
  inversion H. subst. simpl in *. auto.
Qed.

Lemma independentSignature_spec allEntries :
  chunkSignature [] allEntries = independentSignature (length allEntries).
Proof.
  rewrite chunkSignature_chars. unfold independentSignature. f_equal.
  induction allEntries as [|e l IH]; simpl; [reflexivity|]. f_equal. exact IH.
Qed.

Lemma nth_error_map_Some {A B : Type} (f : A -> B) l i y :
  nth_error (map f l) i = Some y -> exists x, nth_error l i = Some x /\ f x = y.
Proof.
  rewrite nth_error_map. destruct (nth_error l i) as [x|]; simpl; [|discriminate].
  intros H. inversion H. eauto.
Qed.

Section CreateChunks.
Variables (G : Graph) (allEntries : list nat) (assigned : list (nat * list nat)).
Hypothesis Hkeys : NoDup (map fst assigned).

Local Abbreviation groups := (getChunkModulesBySignature assigned allEntries).

Lemma group_position module assignedEntries :
  map_get module assigned = Some assignedEntries ->
  exists i modules,
    nth_error groups i = Some (chunkSignature assignedEntries allEntries, modules)
    /\ In module modules /\ NoDup modules
    /\ forall j signature modules',
         nth_error groups j = Some (signature, modules') -> In module modules' -> j = i.
Proof.
  intros Hget. apply map_get_In in Hget as Hin.
  assert (Hk : In (chunkSignature assignedEntries allEntries) (map fst groups)).
  { apply getChunkModulesBySignature_keys. now exists (module, assignedEntries). }
  apply in_map_iff in Hk as [[k modules] [Hk Hin']]. simpl in Hk. subst k.
  destruct (In_nth_error _ _ Hin') as [i Hi]. exists i, modules.
  destruct (getChunkModulesBySignature_group _ _ _ _ Hin') as [Hg _].
  split; [assumption|]. split; [|split].
  - rewrite Hg. apply group_of_In. now exists assignedEntries.
  - rewrite Hg. unfold group_of. now apply NoDup_map_filter.
  - intros j signature modules' Hj Hm.
    destruct (getChunkModulesBySignature_group _ _ _ _ (nth_error_In _ _ Hj)) as [Hg' _].
    rewrite Hg' in Hm. apply group_of_In in Hm as [s [Hs Hsig]].
    rewrite (In_map_get _ _ _ Hkeys Hs) in Hget. inversion Hget. subst s signature.
    eapply initial_same_key; eauto.
Qed.

(** For every integer [minChunkSize], [createChunks] returns, and every module
    that has an entry set is in exactly one of the chunks, once. *)
Lemma createChunks_cover (minChunkSize : Z) :
  exists chunks,
    createChunks G allEntries assigned minChunkSize = Ok chunks
    /\ forall module,
         In module (map fst assigned) ->
         exists i chunk,
           nth_error chunks i = Some chunk
           /\ alias chunk = None
           /\ In module (modules chunk) /\ NoDup (modules chunk)
           /\ forall j chunk',
                nth_error chunks j = Some chunk' -> In module (modules chunk') -> j = i.
Proof.
  unfold createChunks, is_zero. destruct (minChunkSize =? 0)%Z.
  - eexists. split; [reflexivity|]. intros module Hm.
    destruct (map_get module assigned) as [s|] eqn:Hget;
      [|apply map_get_None in Hget; contradiction].
    destruct (group_position _ Hget) as [i [mods [Hi [Hin [Hnd Huniq]]]]].
    unfold Object_values. rewrite getChunkModulesBySignature_entries.
    exists i, (automaticChunk mods). split.
    + now rewrite !nth_error_map, Hi.
    + split; [reflexivity|]. split; [assumption|]. split; [assumption|].
      intros j chunk' Hj Hm'.
      apply nth_error_map_Some in Hj as [mods' [Hj <-]].
      apply nth_error_map_Some in Hj as [[k mods''] [Hj Heq]]. simpl in Heq. subst mods''.
      eapply Huniq; eauto.
  - destruct (@getOptimizedChunks_returns G minChunkSize assigned allEntries Hkeys)
      as [k [st2 [Hreach Hres]]].
    rewrite Hres. simpl. eexists. split; [reflexivity|]. intros module Hm.
    pose proof (@pass_reaches_inv G minChunkSize assigned allEntries Hkeys _ _ _ Hreach)
      as Hinv.
    destruct (@live_chunks_cover G minChunkSize assigned allEntries Pass2 st2 module Hinv Hm)
      as [i [r [Hi [Hin [Hnd Huniq]]]]].
    exists i, (automaticChunk (ChunkDescription.modules (chunk_at st2 r))). split.
    + now rewrite !nth_error_map, Hi.
    + split; [reflexivity|]. split; [assumption|]. split; [assumption|].
      intros j chunk' Hj Hm'.
      apply nth_error_map_Some in Hj as [c [Hj <-]].
      apply nth_error_map_Some in Hj as [r' [Hj <-]].
      eapply Huniq; eauto.
Qed.
End CreateChunks.

(** C4. With [minChunkSize] 0 the automatic chunks are the signature groups,
    one chunk with a null alias per group and in the order of the groups.
    No two groups have the same signature. Every module that has an entry
    set is in the group of the signature of its entry set, and in no other
    group. A group is not empty and holds, once and in the iteration order
    of [assignedEntriesByModule], exactly the modules of its signature. Two
    modules of the same chunk have the same entries in their entry sets. *)
Theorem signature_groups_without_merge (G : Graph) (entries : list nat)
    (manualChunkAliasByEntry : list (nat * string)) (asg : Assignment) :
  assignModules G entries manualChunkAliasByEntry = Ok asg ->
  let assigned := assignedEntriesByModule asg in
  let all := allEntries (analysis asg) in
  let groups := getChunkModulesBySignature assigned all in
  getChunkAssignments G entries manualChunkAliasByEntry 0
  = Ok (manualChunkDefinitions (manualChunkModulesByAlias asg)
        ++ map automaticChunk (map snd groups))
  /\ NoDup (map fst groups)
  /\ (forall module assignedEntries,
        map_get module assigned = Some assignedEntries ->
        exists i modules,
          nth_error groups i = Some (chunkSignature assignedEntries all, modules)
          /\ In module modules
          /\ forall j signature modules',
               nth_error groups j = Some (signature, modules') ->
               In module modules' -> j = i)
  /\ (forall signature modules,
        In (signature, modules) groups ->
        modules <> [] /\ NoDup modules
        /\ modules = group_of all signature assigned
        /\ forall module,
             In module modules
             <-> exists assignedEntries,
                   map_get module assigned = Some assignedEntries
                   /\ chunkSignature assignedEntries all = signature)
  /\ (forall modules m1 m2 entries1 entries2,
        In modules (map snd groups) -> In m1 modules -> In m2 modules ->
        map_get m1 assigned = Some entries1 -> map_get m2 assigned = Some entries2 ->
        forall entry, In entry entries1 <-> In entry entries2).
Proof.
  intros Hasg assigned all groups.
  destruct (assignModules_inv _ _ _ Hasg) as [_ [_ Hassign]].
  destruct (assignEntries_spec _ _ _ _ Hassign) as [Hkeys [_ Hspec]].
  fold assigned in Hkeys, Hspec.
  assert (Hgroup : forall signature modules,
    In (signature, modules) groups ->
    forall module,
      In module modules
      <-> exists assignedEntries,
            map_get module assigned = Some assignedEntries
            /\ chunkSignature assignedEntries all = signature).
  { intros signature modules Hin module.
    destruct (getChunkModulesBySignature_group _ _ _ _ Hin) as [-> _].
    rewrite group_of_In. split.
    - intros [s [Hs Hsig]]. exists s. split; [now apply In_map_get|assumption].
    - intros [s [Hs Hsig]]. exists s. split; [now apply map_get_In|assumption]. }
  split; [|split; [|split; [|split]]].
  - unfold getChunkAssignments. rewrite Hasg. simpl. unfold createChunks. simpl.
    unfold Object_values. now rewrite getChunkModulesBySignature_entries.
  - apply getChunkModulesBySignature_NoDup.
  - intros module assignedEntries Hget.
    destruct (@group_position all assigned Hkeys _ _ Hget)
      as [i [modules [Hi [Hin [_ Huniq]]]]].
    exists i, modules. auto.
  - intros signature modules Hin.
    destruct (getChunkModulesBySignature_group _ _ _ _ Hin) as [Hg Hne].
    split; [exact Hne|]. split; [|split; [exact Hg|now apply Hgroup]].
    rewrite Hg. unfold group_of. now apply NoDup_map_filter.
  - intros modules m1 m2 entries1 entries2 Hmods H1 H2 Hg1 Hg2 entry.
    apply in_map_iff in Hmods as [[signature mods] [Heq Hin]]. simpl in Heq. subst mods.
    apply (Hgroup _ _ Hin) in H1 as [s1 [Hs1 Hsig1]].
    apply (Hgroup _ _ Hin) in H2 as [s2 [Hs2 Hsig2]].
    rewrite Hg1 in Hs1. rewrite Hg2 in Hs2. inversion Hs1. inversion Hs2. subst s1 s2.
    assert (Hall : forall m s, map_get m assigned = Some s -> In entry s -> In entry all).
    { intros m s Hm He.
      assert (Hto : assigned_to assigned m entry) by (exists s; auto).
      apply Hspec in Hto as [[Hentry _] _]. exact Hentry. }
    assert (Hsame : In entry all -> set_has entry entries1 = set_has entry entries2).
    { apply chunkSignature_eq. congruence. }
    split; intros He.
    + apply set_has_In. rewrite <- Hsame by eauto. now apply set_has_In.
    + apply set_has_In. rewrite Hsame by eauto. now apply set_has_In.
Qed.

(** C10. A module that the traversal of [assignEntryToStaticDependencies]
    visits has an entry set in [assignedEntriesByModule] when the traversal
    ends, whether or not the module was found already loaded. In
    [getChunkAssignments], a module that some traversal visits and that every
    traversal that visits it finds already loaded has the empty entry set; it
    is in the signature group of the signature made of ['_'] only and in no
    other group, and for every integer [minChunkSize] it is in exactly one
    of the automatic chunks that [createChunks] returns. *)
Theorem unattributed_module_is_kept (G : Graph) (entries : list nat)
    (manualChunkAliasByEntry : list (nat * string)) (asg : Assignment)
    (minChunkSize : Z) (module : nat) :
  assignModules G entries manualChunkAliasByEntry = Ok asg ->
  let a := analysis asg in
  let inManual := modulesInManualChunks asg in
  let staticEntries := set_of_list entries in
  let assigned := assignedEntriesByModule asg in
  let groups := getChunkModulesBySignature assigned (allEntries a) in
  (exists entry, reaches G a inManual staticEntries entry module) ->
  (forall entry, reaches G a inManual staticEntries entry module ->
                 alreadyLoadedFor a staticEntries entry module = Ok true) ->
  (forall entry assigned0 st,
      assignEntryToStaticDependencies_run G entry a assigned0 inManual staticEntries = Ok st ->
      forall visited, In visited (asg_modulesToHandle st) ->
                      In visited (map fst (asg_assignedEntriesByModule st)))
  /\ map_get module assigned = Some []
  /\ (exists modules,
        obj_get (independentSignature (length (allEntries a))) groups = Some modules
        /\ In module modules)
  /\ (forall signature modules,
        In (signature, modules) groups -> In module modules ->
        signature = independentSignature (length (allEntries a)))
  /\ exists chunks,
       createChunks G (allEntries a) assigned minChunkSize = Ok chunks
       /\ exists i chunk,
            nth_error chunks i = Some chunk
            /\ alias chunk = None
            /\ In module (modules chunk) /\ NoDup (modules chunk)
            /\ forall j chunk',
                 nth_error chunks j = Some chunk' -> In module (modules chunk') -> j = i.
Proof.
  intros Hasg a inManual staticEntries assigned groups Hreach Hloaded.
  destruct (assignModules_inv _ _ _ Hasg) as [_ [_ Hassign]].
  destruct (assignEntries_spec _ _ _ _ Hassign) as [Hkeys [Hdom Hspec]].
  fold a inManual staticEntries assigned in Hkeys, Hdom, Hspec.
  assert (Hget : map_get module assigned = Some []).
  { apply Hdom in Hreach.
    destruct (map_get module assigned) as [[|e s]|] eqn:Hget;
      [reflexivity| |apply map_get_None in Hget; contradiction].
    exfalso. assert (Hto : assigned_to assigned module e).
    { exists (e :: s). split; [assumption|now left]. }
    apply Hspec in Hto as [Hr Hfalse]. rewrite (Hloaded e Hr) in Hfalse. discriminate. }
  destruct (@group_position (allEntries a) assigned Hkeys _ _ Hget)
    as [i [mods [Hi [Hin [Hnd Huniq]]]]].
  rewrite independentSignature_spec in Hi.
  split; [|split; [assumption|split; [|split]]].
  - intros entry assigned0 st Hrun visited Hv. eapply assign_run_keys; eauto.
  - exists mods. split; [|assumption].
    apply In_obj_get; [apply getChunkModulesBySignature_NoDup|].
    eapply nth_error_In; eauto.
  - intros signature modules' Hin' Hm'. apply In_nth_error in Hin' as [j Hj].
    assert (j = i) by (eapply Huniq; eauto). subst j. unfold groups in Hj.
    rewrite Hi in Hj. now inversion Hj.
  - destruct (@createChunks_cover G (allEntries a) assigned Hkeys minChunkSize)
      as [chunks [Hc Hcover]].
    exists chunks. split; [assumption|]. apply Hcover.
    now apply map_get_Some_key in Hget.
Qed.

Lemma signature_groups_without_merge_witness :
  let assigned := assignedEntriesByModule Examples.elisionAssignment in
  let all := allEntries (analysis Examples.elisionAssignment) in
  let groups := getChunkModulesBySignature assigned all in
  getChunkAssignments Examples.elisionGraph [0] [] 0
  = Ok (manualChunkDefinitions (manualChunkModulesByAlias Examples.elisionAssignment)
        ++ map automaticChunk (map snd groups))
  /\ NoDup (map fst groups)
  /\ (forall module assignedEntries,
        map_get module assigned = Some assignedEntries ->
        exists i modules,
          nth_error groups i = Some (chunkSignature assignedEntries all, modules)
          /\ In module modules
          /\ forall j signature modules',
               nth_error groups j = Some (signature, modules') ->
               In module modules' -> j = i)
  /\ (forall signature modules,
        In (signature, modules) groups ->
        modules <> [] /\ NoDup modules
        /\ modules = group_of all signature assigned
        /\ forall module,
             In module modules
             <-> exists assignedEntries,
                   map_get module assigned = Some assignedEntries
                   /\ chunkSignature assignedEntries all = signature)
  /\ (forall modules m1 m2 entries1 entries2,
        In modules (map snd groups) -> In m1 modules -> In m2 modules ->
        map_get m1 assigned = Some entries1 -> map_get m2 assigned = Some entries2 ->
        forall entry, In entry entries1 <-> In entry entries2).
Proof.
  apply (@signature_groups_without_merge Examples.elisionGraph [0] []
           Examples.elisionAssignment).
  reflexivity.
Defined.

Lemma unattributed_module_is_kept_witness :
  map_get 1 (assignedEntriesByModule Examples.orphanAssignment) = Some []
  /\ exists chunks,
       createChunks Examples.orphanGraph [0; 1]
         (assignedEntriesByModule Examples.orphanAssignment) 100 = Ok chunks
       /\ exists i chunk,
            nth_error chunks i = Some chunk
            /\ alias chunk = None
            /\ In 1 (modules chunk) /\ NoDup (modules chunk)
            /\ forall j chunk',
                 nth_error chunks j = Some chunk' -> In 1 (modules chunk') -> j = i.
Proof.
  destruct (@unattributed_module_is_kept Examples.orphanGraph [0] []
              Examples.orphanAssignment 100 1) as [_ [H1 [_ [_ H2]]]].
  - reflexivity.
  - exists 1. split; [simpl; auto|]. split; [intros []|].
    exists [1]. split; [reflexivity|now left].
  - intros entry [Hentry [_ [visited [Hv Hin]]]].
    destruct Hentry as [<-|[<-|[]]].
    + vm_compute in Hv. inversion Hv. subst visited. destruct Hin as [H|[]]. discriminate.
    + reflexivity.
  - split; [exact H1|exact H2].
Defined.

Lemma traversal_continues_unless_skipped_witness :
  continues_unless_skipped Examples.elisionGraph 1 Examples.elisionAnalysis [] [0] [1; 2].
Proof.
  apply (@traversal_continues_unless_skipped Examples.elisionGraph 1
           Examples.elisionAnalysis [] [0] [(0, [0]); (2, [0]); (3, [0])]
           {| asg_assignedEntriesByModule := [(0, [0]); (2, [0]); (3, [0]); (1, [1])];
              asg_modulesToHandle := [1; 2] |}).
  reflexivity.
Defined.

(** The traversal from the dynamic entry 1 of [elisionGraph] visits module 2,
    finds it already loaded, and does not go on to its dependency 3. *)
Lemma traversal_stops_at_skipped_module :
  analyzeModuleGraph Examples.elisionGraph [0] = Ok Examples.elisionAnalysis
  /\ assignEntryToStaticDependencies_run Examples.elisionGraph 1 Examples.elisionAnalysis
       [(0, [0]); (2, [0]); (3, [0])] [] [0]
     = Ok {| asg_assignedEntriesByModule := [(0, [0]); (2, [0]); (3, [0]); (1, [1])];
             asg_modulesToHandle := [1; 2] |}
  /\ ~ continues_regardless Examples.elisionGraph [] [1; 2].
Proof.
  split; [reflexivity|]. split; [reflexivity|].
  intros H. specialize (H 2 3). simpl in H.
  destruct H as [H|[H|[]]]; try discriminate; auto.
Qed.

(** ** Manual chunks *)

Lemma firstn_snoc {A : Type} (l : list A) i x :
  nth_error l i = Some x -> firstn (S i) l = firstn i l ++ [x].
Proof.
  revert i. induction l as [|y l IH]; intros [|i] H; simpl in *; try discriminate.
  - now inversion H.
  - f_equal. now apply IH.
Qed.

Lemma firstn_prefix {A : Type} (l l' : list A) i :
  i <= length l -> firstn i (l ++ l') = firstn i l.
Proof.
  intros H. rewrite firstn_app. replace (i - length l) with 0 by lia.
  simpl. now rewrite app_nil_r.
Qed.

Lemma In_firstn {A : Type} (l : list A) i x : In x (firstn i l) -> In x l.
Proof.
  intros H. rewrite <- (firstn_skipn i l). apply in_or_app. now left.
Qed.

Section ManualTraversal.
Variables (G : Graph) (entry : nat) (bucket0 inManual0 : list nat).

Local Abbreviation body := (addStaticDependenciesToManualChunk_module G).

Lemma manual_module_inv module st st' :
  body module st = Ok st' ->
  mt_modulesInManualChunks st' = set_add module (mt_modulesInManualChunks st)
  /\ mt_manualChunkModules st' = mt_manualChunkModules st ++ [module]
  /\ mt_modulesToHandle st'
     = enqueue (set_add module (mt_modulesInManualChunks st))
         (dependencies (getModule G module)) (mt_modulesToHandle st).
Proof.
  unfold addStaticDependenciesToManualChunk_module. intros H. inversion H. subst.
  simpl. auto.
Qed.

(** The invariant of the traversal when the iterator is at slot [i]. *)
Let P (i : nat) (st : ManualTraversal) : Prop :=
  let l := mt_modulesToHandle st in
  mt_manualChunkModules st = bucket0 ++ firstn i l
  /\ (forall x, In x (mt_modulesInManualChunks st) <-> In x inManual0 \/ In x (firstn i l))
  /\ NoDup l
  /\ nth_error l 0 = Some entry
  /\ i <= length l
  /\ (forall m, In m l ->
                m = entry \/ (~ In m inManual0 /\ traversal_reaches G (firstn i l) m))
  /\ (forall m, traversal_reaches G (firstn i l) m -> In m inManual0 \/ In m l).

Lemma manual_P_step i x st st' :
  P i st -> nth_error (mt_modulesToHandle st) i = Some x -> body x st = Ok st' ->
  P (S i) st'.
Proof.
  intros [Hchunk [HinM [Hnd [Hhd [Hle [Horigin Hclosed]]]]]] Hnth Hbody.
  apply manual_module_inv in Hbody as [HinM' [Hchunk' Hmth']].
  destruct (enqueue_prefix (set_add x (mt_modulesInManualChunks st))
              (dependencies (getModule G x)) (mt_modulesToHandle st)) as [l Hl].
  rewrite <- Hmth' in Hl.
  assert (Hi : i < length (mt_modulesToHandle st)) by (apply nth_error_Some; congruence).
  assert (Hfirst : firstn (S i) (mt_modulesToHandle st')
                   = firstn i (mt_modulesToHandle st) ++ [x]).
  { rewrite Hl, firstn_prefix by lia. now apply firstn_snoc. }
  unfold P. rewrite Hfirst. split; [|split; [|split; [|split; [|split; [|split]]]]].
  - now rewrite Hchunk', Hchunk, <- app_assoc.
  - intros y. rewrite HinM', set_add_In, HinM, in_app_iff. simpl.
    split; [intros [->|[H|H]]|intros [H|[H|[->|[]]]]]; auto.
  - rewrite Hmth'. now apply enqueue_NoDup.
  - rewrite Hl. now apply prefix_nth_error.
  - rewrite Hl, length_app. lia.
  - intros m Hm. rewrite Hmth' in Hm. apply enqueue_In in Hm as [Hm|[Hdep Hnot]].
    + destruct (Horigin m Hm) as [->|[Hn [y [Hy Hd]]]]; [now left|]. right.
      split; [assumption|]. exists y. split; [apply in_or_app; now left|assumption].
    + right. split.
      * intros Hin. apply Hnot. apply set_add_In. right. apply HinM. now left.
      * exists x. split; [apply in_or_app; right; now left|assumption].
  - intros m [y [Hy Hd]]. apply in_app_iff in Hy as [Hy|[<-|[]]].
    + destruct (Hclosed m) as [H|H]; [now exists y|now left|].
      right. rewrite Hl. apply in_or_app. now left.
    + destruct (in_dec Nat.eq_dec m (set_add x (mt_modulesInManualChunks st))) as [Hin|Hnin].
      * apply set_add_In in Hin as [->|Hin].
        -- right. rewrite Hl. apply in_or_app. left. eapply nth_error_In; eauto.
        -- apply HinM in Hin as [Hin|Hin]; [now left|]. right.
           rewrite Hl. apply in_or_app. left. eapply In_firstn; eauto.
      * right. rewrite Hmth'. apply enqueue_In. now right.
Qed.

(** What a traversal leaves: the bucket extended with its work list, the
    modules of the work list marked, and a work list that starts with the
    entry, holds no module twice and no module marked before, and is made of
    the entry and of dependencies of its modules; every dependency of a
    module handled is marked afterwards. *)
Lemma manual_run_spec st :
  addStaticDependenciesToManualChunk_run G entry bucket0 inManual0 = Ok st ->
  let l := mt_modulesToHandle st in
  mt_manualChunkModules st = bucket0 ++ l
  /\ (forall x, In x (mt_modulesInManualChunks st) <-> In x inManual0 \/ In x l)
  /\ NoDup l
  /\ (exists rest, l = entry :: rest)
  /\ (forall m, In m l -> m = entry \/ (~ In m inManual0 /\ traversal_reaches G l m))
  /\ (forall m, traversal_reaches G l m -> In m inManual0 \/ In m l).
Proof.
  unfold addStaticDependenciesToManualChunk_run. intros Hrun.
  eapply forOf_invariant with (P := P) in Hrun
    as [j [[Hchunk [HinM [Hnd [Hhd [Hle [Horigin Hclosed]]]]]] Hj]].
  - rewrite firstn_all2 in * by assumption. simpl.
    split; [assumption|]. split; [assumption|]. split; [assumption|]. split.
    + destruct (mt_modulesToHandle st) as [|y rest]; [discriminate|].
      simpl in Hhd. inversion Hhd. subst. now exists rest.
    + split; assumption.
  - exact manual_P_step.
  - unfold P. simpl. split; [now rewrite app_nil_r|]. split; [intros x; tauto|].
    split; [repeat constructor; intros []|]. split; [reflexivity|]. split; [lia|]. split.
    + intros m [<-|[]]. now left.
    + intros m [y [[] _]].
Qed.

(** The work list does not depend on the bucket the traversal pushes onto. *)
Lemma manual_run_worklist fuel : forall i st1 st2 st1',
  mt_modulesToHandle st1 = mt_modulesToHandle st2 ->
  mt_modulesInManualChunks st1 = mt_modulesInManualChunks st2 ->
  forOf mt_modulesToHandle body fuel i st1 = Ok st1' ->
  exists st2',
    forOf mt_modulesToHandle body fuel i st2 = Ok st2'
    /\ mt_modulesToHandle st1' = mt_modulesToHandle st2'
    /\ mt_modulesInManualChunks st1' = mt_modulesInManualChunks st2'.
Proof.
  induction fuel as [|fuel IH]; intros i st1 st2 st1' Hl HinM Hrun; simpl in *;
    [discriminate|].
  rewrite <- Hl. destruct (nth_error (mt_modulesToHandle st1) i) as [x|] eqn:Hnth.
  - simpl in Hrun. simpl. eapply IH; [| |exact Hrun]; simpl;
      rewrite ?Hl, ?HinM; reflexivity.
  - inversion Hrun. subst. exists st2. auto.
Qed.
End ManualTraversal.

Lemma manual_run_bucket G entry bucket inManual st :
  addStaticDependenciesToManualChunk_run G entry bucket inManual = Ok st ->
  exists st0,
    addStaticDependenciesToManualChunk_run G entry [] inManual = Ok st0
    /\ mt_manualChunkModules st = bucket ++ mt_manualChunkModules st0
    /\ mt_modulesInManualChunks st = mt_modulesInManualChunks st0.
Proof.
  intros Hrun. pose proof Hrun as Hspec. apply manual_run_spec in Hspec as [Hchunk _].
  unfold addStaticDependenciesToManualChunk_run in Hrun.
  eapply manual_run_worklist
    with (st2 := {| mt_modulesToHandle := [entry]; mt_manualChunkModules := [];
                    mt_modulesInManualChunks := inManual |})
    in Hrun as [st0 [Hrun0 [Hl HinM]]]; [|reflexivity|reflexivity].
  exists st0. split; [exact Hrun0|]. split; [|assumption].
  apply manual_run_spec in Hrun0 as [Hchunk0 _]. simpl in Hchunk0.
  now rewrite Hchunk, Hchunk0, Hl.
Qed.

Lemma pushed_for_cons alias alias' aliases l pushed :
  pushed_for alias (alias' :: aliases) (l :: pushed)
  = (if String.eqb alias alias' then l else []) ++ pushed_for alias aliases pushed.
Proof.
  unfold pushed_for. simpl. now destruct (String.eqb alias alias').
Qed.

(** The buckets are the pushes of the traversals, grouped by alias in
    iteration order. *)
Lemma manualChunks_fold G manual : forall byAlias0 inManual0 byAlias inManual,
  forEach (manualChunks_entry G) manual (byAlias0, inManual0) = Ok (byAlias, inManual) ->
  exists pushed,
    manualTraversals G manual inManual0 = Ok pushed
    /\ forall alias,
         obj_get alias byAlias
         = match obj_get alias byAlias0 with
           | Some bucket => Some (bucket ++ pushed_for alias (map snd manual) pushed)
           | None =>
               if existsb (String.eqb alias) (map snd manual)
               then Some (pushed_for alias (map snd manual) pushed)
               else None
           end.
Proof.
  induction manual as [|[entry alias0] manual IH];
    intros byAlias0 inManual0 byAlias inManual Hrun; simpl in Hrun.
  - inversion Hrun. subst. exists []. split; [reflexivity|]. intros alias.
    unfold pushed_for. simpl. destruct (obj_get alias byAlias); [now rewrite app_nil_r|auto].
  - apply bind_Ok_inv in Hrun as [[byAlias1 inManual1] [Hentry Hrest]].
    simpl in Hentry.
    destruct (obj_get alias0 byAlias0) as [bucket|] eqn:Hget.
    + apply bind_Ok_inv in Hentry as [[chunk inM] [Hadd Hres]].
      unfold addStaticDependenciesToManualChunk in Hadd.
      apply bind_Ok_inv in Hadd as [st [Hst Hpair]]. inversion Hpair. subst chunk inM.
      simpl in Hres. inversion Hres. subst byAlias1 inManual1.
      destruct (manual_run_bucket _ _ _ _ Hst) as [st0 [Hst0 [Hchunk HinM]]].
      destruct (IH _ _ _ _ Hrest) as [pushed [Hpushed Hbuckets]].
      exists (mt_manualChunkModules st0 :: pushed). split.
      * simpl. rewrite Hst0. simpl. rewrite <- HinM, Hpushed. reflexivity.
      * intros alias. rewrite Hbuckets. simpl. rewrite pushed_for_cons.
        destruct (String.eqb_spec alias alias0) as [->|Hne].
        -- rewrite obj_get_set_same, Hget, Hchunk. now rewrite <- app_assoc.
        -- rewrite obj_get_set_other by assumption. simpl.
           destruct (obj_get alias byAlias0); reflexivity.
    + apply bind_Ok_inv in Hentry as [[chunk inM] [Hadd Hres]].
      unfold addStaticDependenciesToManualChunk in Hadd.
      apply bind_Ok_inv in Hadd as [st [Hst Hpair]]. inversion Hpair. subst chunk inM.
      simpl in Hres. inversion Hres. subst byAlias1 inManual1.
      destruct (IH _ _ _ _ Hrest) as [pushed [Hpushed Hbuckets]].
      exists (mt_manualChunkModules st :: pushed). split.
      * simpl. rewrite Hst. simpl. rewrite Hpushed. reflexivity.
      * intros alias. rewrite Hbuckets. simpl. rewrite pushed_for_cons.
        destruct (String.eqb_spec alias alias0) as [->|Hne].
        -- rewrite obj_get_set_same, Hget. simpl. reflexivity.
        -- rewrite !obj_get_set_other by assumption. simpl.
           destruct (obj_get alias byAlias0); reflexivity.
Qed.

(** The pushes of the traversals, when every entry of the alias map is
    marked from the start. *)
Lemma manualTraversals_spec G manual : forall inManual0 pushed,
  NoDup (map fst manual) ->
  (forall entry, In entry (map fst manual) -> In entry inManual0) ->
  manualTraversals G manual inManual0 = Ok pushed ->
  length pushed = length manual
  /\ (forall i entry alias l,
        nth_error manual i = Some (entry, alias) -> nth_error pushed i = Some l ->
        (exists rest, l = entry :: rest)
        /\ forall m, In m l -> m = entry \/ (~ In m inManual0 /\ traversal_reaches G l m))
  /\ NoDup (concat pushed)
  /\ (forall i l m,
        nth_error pushed i = Some l -> traversal_reaches G l m ->
        In m inManual0
        \/ exists k lk, k <= i /\ nth_error pushed k = Some lk /\ In m lk).
Proof.
  induction manual as [|[entry alias0] manual IH]; intros inManual0 pushed Hnd Hkeys Hrun;
    simpl in Hrun.
  - inversion Hrun. subst. split; [reflexivity|]. split; [intros [|i]; discriminate|].
    split; [constructor|]. intros [|i]; discriminate.
  - apply bind_Ok_inv in Hrun as [st [Hst Hrun]].
    apply bind_Ok_inv in Hrun as [more [Hmore Hres]]. inversion Hres. subst pushed.
    destruct (manual_run_spec _ _ _ _ Hst)
      as [Hchunk [HinM [Hndl [[rest Hrest] [Horigin Hclosed]]]]].
    simpl in Hchunk. rewrite <- Hchunk in *. clear Hchunk.
    set (l := mt_manualChunkModules st) in *.
    simpl in Hnd. inversion Hnd as [|? ? Hentry Hnd']. subst.
    assert (Hkeys' : forall e, In e (map fst manual) -> In e (mt_modulesInManualChunks st)).
    { intros e He. apply HinM. left. apply Hkeys. now right. }
    destruct (IH _ _ Hnd' Hkeys' Hmore) as [Hlen [Hseed [Hndm Hreach]]].
    split; [simpl; now rewrite Hlen|]. split; [|split].
    + intros [|i] e al li Hi Hli; simpl in Hi, Hli.
      * inversion Hi. inversion Hli. subst e al li. split; [now exists rest|assumption].
      * destruct (Hseed _ _ _ _ Hi Hli) as [Hr Ho]. split; [assumption|].
        intros m Hm. destruct (Ho m Hm) as [->|[Hn Ht]]; [now left|]. right.
        split; [|assumption]. intros Hin. apply Hn. apply HinM. now left.
    + simpl. apply NoDup_app; [assumption|assumption|].
      intros m Hl Hm. apply in_concat in Hm as [lk [Hlk Hmk]].
      apply In_nth_error in Hlk as [k Hk].
      assert (Hk' : k < length manual).
      { rewrite <- Hlen. apply nth_error_Some. congruence. }
      destruct (nth_error manual k) as [[ek ak]|] eqn:Hek;
        [|apply nth_error_None in Hek; lia].
      destruct (Hseed _ _ _ _ Hek Hk) as [_ Ho].
      destruct (Ho m Hmk) as [->|[Hn _]].
      * assert (Hekin : In ek (map fst manual)).
        { apply nth_error_In in Hek. now apply (in_map fst) in Hek. }
        destruct (Horigin ek Hl) as [->|[Hn _]]; [contradiction|].
        apply Hn. apply Hkeys. now right.
      * apply Hn. apply HinM. now right.
    + intros [|i] li m Hli Ht; simpl in Hli.
      * inversion Hli. subst li. destruct (Hclosed m Ht) as [H|H]; [now left|].
        right. exists 0, l. split; [lia|]. split; [reflexivity|assumption].
      * destruct (Hreach _ _ _ Hli Ht) as [H|[k [lk [Hk [Hlk Hin]]]]].
        -- apply HinM in H as [H|H]; [now left|].
           right. exists 0, l. split; [lia|]. split; [reflexivity|assumption].
        -- right. exists (S k), lk. split; [lia|]. split; assumption.
Qed.

Lemma NoDup_app_disjoint (A : Type) (l l' : list A) (a : A) :
  NoDup (l ++ l') -> In a l -> In a l' -> False.
Proof.
  induction l as [|x l IH]; simpl; intros Hnd Hl Hl'; [contradiction|].
  inversion Hnd as [|? ? Hx Hnd']. subst. destruct Hl as [->|Hl].
  - apply Hx. apply in_or_app. now right.
  - now apply IH.
Qed.

Lemma NoDup_concat_distinct (A : Type) (ls : list (list A)) :
  NoDup (concat ls) ->
  forall k j lk lj a, k <> j -> nth_error ls k = Some lk -> nth_error ls j = Some lj ->
    In a lk -> In a lj -> False.
Proof.
  induction ls as [|l ls IH]; intros Hnd k j lk lj a Hkj Hk Hj Hink Hinj;
    [destruct k; discriminate|].
  simpl in Hnd. pose proof (NoDup_app_remove_l _ _ Hnd) as Hnd'.
  destruct k as [|k], j as [|j]; simpl in Hk, Hj; try congruence.
  - injection Hk as ->. apply (@NoDup_app_disjoint _ _ _ a Hnd Hink).
    apply in_concat. exists lj. split; [eapply nth_error_In; eauto|assumption].
  - injection Hj as ->. apply (@NoDup_app_disjoint _ _ _ a Hnd Hinj).
    apply in_concat. exists lk. split; [eapply nth_error_In; eauto|assumption].
  - eapply (IH Hnd' k j); eauto.
Qed.

(** C6, as the code has it. The bucket of an alias is the concatenation, in
    iteration order, of what the traversals of the entries mapped to that
    alias push, each traversal starting with its entry, and no module is
    pushed twice. A module that is not itself an entry of the alias map is
    pushed by the first traversal that comes across it: a later traversal
    that comes across it does not push it. (An entry of the alias map is
    pushed by its own traversal, whichever traversals come across it.) *)
Theorem manual_chunks_first_traversal_wins (G : Graph)
    (manualChunkAliasByEntry : list (nat * string))
    (byAlias : list (string * list nat)) (inManual : list nat) :
  NoDup (map fst manualChunkAliasByEntry) ->
  manualChunks G manualChunkAliasByEntry = Ok (byAlias, inManual) ->
  exists pushed,
    manualTraversals G manualChunkAliasByEntry
      (set_of_list (map fst manualChunkAliasByEntry)) = Ok pushed
    /\ (forall alias,
          obj_get alias byAlias
          = if existsb (String.eqb alias) (map snd manualChunkAliasByEntry)
            then Some (pushed_for alias (map snd manualChunkAliasByEntry) pushed)
            else None)
    /\ NoDup (concat pushed)
    /\ (forall i entry alias handled,
          nth_error manualChunkAliasByEntry i = Some (entry, alias) ->
          nth_error pushed i = Some handled ->
          exists rest, handled = entry :: rest)
    /\ (forall i j handledI handledJ module,
          i < j ->
          nth_error pushed i = Some handledI -> nth_error pushed j = Some handledJ ->
          traversal_reaches G handledI module ->
          ~ In module (map fst manualChunkAliasByEntry) ->
          ~ In module handledJ
          /\ exists k handledK,
               k <= i /\ nth_error pushed k = Some handledK /\ In module handledK)
    /\ (forall i handled module,
          nth_error pushed i = Some handled -> In module handled ->
          ~ In module (map fst manualChunkAliasByEntry) ->
          traversal_reaches G handled module).
Proof.
  intros Hnd Hrun. unfold manualChunks in Hrun.
  destruct (@manualChunks_fold G _ _ _ _ _ Hrun) as [pushed [Hpushed Hbuckets]].
  assert (Hkeys : forall entry, In entry (map fst manualChunkAliasByEntry) ->
                                In entry (set_of_list (map fst manualChunkAliasByEntry)))
    by (intros entry; apply set_of_list_In).
  destruct (@manualTraversals_spec G _ _ _ Hnd Hkeys Hpushed) as [Hlen [Hseed [Hndp Hreach]]].
  assert (Hfirst : forall i handled module,
    nth_error pushed i = Some handled -> traversal_reaches G handled module ->
    ~ In module (map fst manualChunkAliasByEntry) ->
    exists k handledK, k <= i /\ nth_error pushed k = Some handledK /\ In module handledK).
  { intros i handled module Hi Ht Hkey.
    destruct (Hreach _ _ _ Hi Ht) as [H|H]; [|exact H].
    rewrite set_of_list_In in H. contradiction. }
  exists pushed. split; [assumption|]. split; [|split; [assumption|split; [|split]]].
  - intros alias. now rewrite Hbuckets.
  - intros i entry alias handled Hi Hh. now destruct (Hseed _ _ _ _ Hi Hh).
  - intros i j handledI handledJ module Hij Hi Hj Ht Hkey.
    destruct (Hfirst _ _ _ Hi Ht Hkey) as [k [handledK [Hk [HK Hin]]]].
    split; [|eauto]. intros HinJ.
    assert (Hkj : k <> j) by lia.
    eapply (@NoDup_concat_distinct _ pushed Hndp k j); eauto.
  - intros i handled module Hi Hin Hkey.
    assert (Hlt : i < length manualChunkAliasByEntry).
    { rewrite <- Hlen. apply nth_error_Some. congruence. }
    destruct (nth_error manualChunkAliasByEntry i) as [[entry alias]|] eqn:He;
      [|apply nth_error_None in He; lia].
    destruct (Hseed _ _ _ _ He Hi) as [_ Ho].
    destruct (Ho module Hin) as [->|[_ Ht]]; [|assumption].
    exfalso. apply Hkey. apply nth_error_In in He. now apply (in_map fst) in He.
Qed.

Lemma manual_chunks_first_traversal_wins_witness :
  exists pushed,
    manualTraversals Examples.manualGraph Examples.manualAliases
      (set_of_list (map fst Examples.manualAliases)) = Ok pushed
    /\ (forall alias,
          obj_get alias [("a", [0; 2]); ("b", [3]); ("c", [1])]%string
          = if existsb (String.eqb alias) (map snd Examples.manualAliases)
            then Some (pushed_for alias (map snd Examples.manualAliases) pushed)
            else None)
    /\ NoDup (concat pushed)
    /\ (forall i entry alias handled,
          nth_error Examples.manualAliases i = Some (entry, alias) ->
          nth_error pushed i = Some handled ->
          exists rest, handled = entry :: rest)
    /\ (forall i j handledI handledJ module,
          i < j ->
          nth_error pushed i = Some handledI -> nth_error pushed j = Some handledJ ->
          traversal_reaches Examples.manualGraph handledI module ->
          ~ In module (map fst Examples.manualAliases) ->
          ~ In module handledJ
          /\ exists k handledK,
               k <= i /\ nth_error pushed k = Some handledK /\ In module handledK)
    /\ (forall i handled module,
          nth_error pushed i = Some handled -> In module handled ->
          ~ In module (map fst Examples.manualAliases) ->
          traversal_reaches Examples.manualGraph handled module).
Proof.
  apply (@manual_chunks_first_traversal_wins Examples.manualGraph Examples.manualAliases
           [("a", [0; 2]); ("b", [3]); ("c", [1])]%string [0; 3; 1; 2]).
  - repeat constructor; simpl; intuition discriminate.
  - reflexivity.
Defined.

(** In [manualGraph] the traversals of the aliases ["a"] and ["b"] both come
    across module 1, a dependency of their entries; module 1 is itself mapped
    to ["c"], and it is in the bucket of ["c"], not in that of ["a"]. *)
Lemma manual_entry_keeps_its_alias :
  manualChunks Examples.manualGraph Examples.manualAliases
  = Ok ([("a", [0; 2]); ("b", [3]); ("c", [1])]%string, [0; 3; 1; 2])
  /\ manualTraversals Examples.manualGraph Examples.manualAliases
       (set_of_list (map fst Examples.manualAliases)) = Ok [[0; 2]; [3]; [1]]
  /\ ~ first_alias_wins Examples.manualGraph Examples.manualAliases
         [[0; 2]; [3]; [1]] [("a", [0; 2]); ("b", [3]); ("c", [1])]%string.
Proof.
  split; [reflexivity|]. split; [reflexivity|]. intros H.
  destruct (H 0 1 0 "a"%string 3 "b"%string [0; 2] [3] 1) as [bucket [Hb Hin]];
    try reflexivity; try lia; try discriminate.
  - exists 0. split; [now left|]. simpl. now left.
  - exists 3. split; [now left|]. simpl. now left.
  - simpl in Hb. inversion Hb. subst bucket. simpl in Hin.
    destruct Hin as [Hin|[Hin|[]]]; discriminate.
Qed.

(** ** The loops have enough fuel *)

Lemma forOf_worklist_fuel {St : Type} (iterated : St -> list nat)
    (body : nat -> St -> result St) (G : Graph) (seed : nat) (st : St) :
  (forall x s s', worklist_ok G seed (iterated s) -> In x (iterated s) ->
                  body x s = Ok s' -> worklist_ok G seed (iterated s')) ->
  (forall x s, worklist_ok G seed (iterated s) -> In x (iterated s) ->
               body x s <> OutOfFuel) ->
  worklist_ok G seed (iterated st) ->
  forOf iterated body (traversal_fuel G) 0 st <> OutOfFuel.
Proof.
  intros Hstep Hbody H0.
  apply (@forOf_fuel St iterated body (fun s => worklist_ok G seed (iterated s))
           (length (graph_universe G) + 1)); unfold traversal_fuel; try lia; auto.
  intros s Hs. eapply worklist_ok_length; eauto.
Qed.

Lemma addStaticDependenciesToManualChunk_total G entry bucket inManual :
  addStaticDependenciesToManualChunk G entry bucket inManual <> OutOfFuel.
Proof.
  unfold addStaticDependenciesToManualChunk. apply bind_fuel; [|discriminate].
  unfold addStaticDependenciesToManualChunk_run.
  apply forOf_worklist_fuel with (seed := entry).
  - intros x s s' Hok _ Hb. unfold addStaticDependenciesToManualChunk_module in Hb.
    injection Hb as <-. simpl.
    apply (@worklist_ok_enqueue G entry (set_add x (mt_modulesInManualChunks s)));
      [|assumption].
    intros d. apply dependencies_in_universe.
  - intros x s _ _. discriminate.
  - apply worklist_ok_seed.
Qed.

Lemma manualChunks_total G manualChunkAliasByEntry :
  manualChunks G manualChunkAliasByEntry <> OutOfFuel.
Proof.
  unfold manualChunks. apply (@forEach_fuel _ _ _ (fun _ => True)); auto.
  intros [entry alias] [byAlias inManual] _. unfold manualChunks_entry.
  destruct (match obj_get alias byAlias with
            | Some bucket => (bucket, byAlias)
            | None => ([], obj_set alias [] byAlias)
            end) as [bucket byAlias'].
  apply bind_fuel; [apply addStaticDependenciesToManualChunk_total|discriminate].
Qed.

(** What the traversals of [analyzeModuleGraph] keep of [allEntries]: it has
    no duplicates and holds given entries and addresses of the graph. *)
Lemma fold_entries_inv {A : Type} (f : list nat * list nat -> A -> list nat * list nat)
    (Q : list nat -> Prop) (xs : list A) :
  (forall acc x, In x xs -> Q (snd acc) -> Q (snd (f acc x))) ->
  forall acc, Q (snd acc) -> Q (snd (fold_left f xs acc)).
Proof.
  induction xs as [|x xs IH]; intros Hf acc Hacc; simpl; [assumption|].
  apply IH.
  - intros acc' y Hy. apply Hf. now right.
  - apply Hf; [now left|assumption].
Qed.

Lemma entries_ok_add G (entries : list nat) r l :
  In r (graph_universe G) ->
  NoDup l /\ incl l (entries ++ graph_universe G) ->
  NoDup (set_add r l) /\ incl (set_add r l) (entries ++ graph_universe G).
Proof.
  intros Hr [Hnd Hincl]. split; [now apply set_add_NoDup|].
  intros y Hy. apply set_add_In in Hy as [->|Hy]; [|now apply Hincl].
  apply in_or_app. now right.
Qed.

Lemma analyzeModuleGraph_module_entries G entries currentEntry module st st' :
  analyzeModuleGraph_module G currentEntry module st = Ok st' ->
  NoDup (as_allEntries (at_state st))
  /\ incl (as_allEntries (at_state st)) (entries ++ graph_universe G) ->
  NoDup (as_allEntries (at_state st'))
  /\ incl (as_allEntries (at_state st')) (entries ++ graph_universe G).
Proof.
  unfold analyzeModuleGraph_module.
  destruct (getOrCreate (as_dependentEntriesByModule (at_state st)) module [])
    as [dependentEntries byModule].
  intros H. injection H as <-. simpl. intros H0.
  apply (@fold_entries_inv _ _
           (fun l => NoDup l /\ incl l (entries ++ graph_universe G))).
  - intros [dynamicEntries all] d Hd Hacc. simpl in Hacc.
    destruct (negb (set_has d all)); [|exact Hacc]. simpl.
    apply entries_ok_add; [|assumption].
    apply (@getModule_refs G module). unfold module_refs. rewrite !in_app_iff. tauto.
  - apply (@fold_entries_inv _ _
             (fun l => NoDup l /\ incl l (entries ++ graph_universe G)));
      [|exact H0].
    intros [dynamicEntries all] [r|x|] Hd Hacc; simpl in Hacc; try exact Hacc.
    destruct ((0 <? length (includedDynamicImporters (getModule G r)))
              && negb (set_has r all)); [|exact Hacc]. simpl.
    apply entries_ok_add; [|assumption].
    apply (@getModule_refs G module). unfold module_refs. rewrite !in_app_iff.
    right. right. left. apply in_flat_map. exists (ResModule r). split; [assumption|now left].
Qed.

Lemma analyzeModuleGraph_module_worklist G currentEntry module st st' :
  analyzeModuleGraph_module G currentEntry module st = Ok st' ->
  at_modulesToHandle st'
  = enqueue [] (getDependenciesToBeIncluded (getModule G module)) (at_modulesToHandle st).
Proof.
  unfold analyzeModuleGraph_module.
  destruct (getOrCreate (as_dependentEntriesByModule (at_state st)) module [])
    as [dependentEntries byModule].
  intros H. injection H as <-. reflexivity.
Qed.

Lemma analyzeModuleGraph_module_returns G currentEntry module st :
  analyzeModuleGraph_module G currentEntry module st <> OutOfFuel.
Proof.
  unfold analyzeModuleGraph_module.
  destruct (getOrCreate (as_dependentEntriesByModule (at_state st)) module [])
    as [dependentEntries byModule]. discriminate.
Qed.

Lemma analyzeModuleGraph_entry_total G currentEntry a :
  analyzeModuleGraph_entry G currentEntry a <> OutOfFuel.
Proof.
  unfold analyzeModuleGraph_entry. apply bind_fuel; [|discriminate].
  apply forOf_worklist_fuel with (seed := currentEntry).
  - intros x s s' Hok _ Hb. rewrite (analyzeModuleGraph_module_worklist _ _ _ _ Hb).
    apply worklist_ok_enqueue; [|assumption]. intros d. apply included_in_universe.
  - intros x s _ _. apply analyzeModuleGraph_module_returns.
  - apply worklist_ok_seed.
Qed.

Lemma analyzeModuleGraph_entry_entries G entries currentEntry a a' :
  analyzeModuleGraph_entry G currentEntry a = Ok a' ->
  NoDup (as_allEntries a) /\ incl (as_allEntries a) (entries ++ graph_universe G) ->
  NoDup (as_allEntries a') /\ incl (as_allEntries a') (entries ++ graph_universe G).
Proof.
  unfold analyzeModuleGraph_entry. intros H H0.
  apply bind_Ok_inv in H as [st [Hrun H]]. injection H as <-.
  apply (@forOf_preserves _ at_modulesToHandle (analyzeModuleGraph_module G currentEntry)
           (fun s => NoDup (as_allEntries (at_state s))
                     /\ incl (as_allEntries (at_state s)) (entries ++ graph_universe G)))
    with (2 := H0) (3 := Hrun).
  intros x s s' Hs _ Hb. eapply analyzeModuleGraph_module_entries; eauto.
Qed.

Lemma getDynamicallyDependentEntriesByDynamicEntry_total G byModule dynamicEntries :
  getDynamicallyDependentEntriesByDynamicEntry G byModule dynamicEntries <> OutOfFuel.
Proof.
  unfold getDynamicallyDependentEntriesByDynamicEntry.
  apply (@forEach_fuel _ _ _ (fun _ => True)); auto.
  intros dynamicEntry byDynamicEntry _.
  destruct (getOrCreate byDynamicEntry dynamicEntry []) as [dependent byDynamicEntry'].
  apply bind_fuel; [|discriminate].
  apply (@forEach_fuel _ _ _ (fun _ => True)); auto.
  intros importer dependent' _. destruct (map_get importer byModule); discriminate.
Qed.

Lemma analyzeModuleGraph_total G entries : analyzeModuleGraph G entries <> OutOfFuel.
Proof.
  unfold analyzeModuleGraph. apply bind_fuel.
  - apply (@forOf_fuel _ as_allEntries (analyzeModuleGraph_entry G)
             (fun a => NoDup (as_allEntries a)
                       /\ incl (as_allEntries a) (entries ++ graph_universe G))
             (length entries + length (graph_universe G))).
    + intros x a a' Ha _ Hb. eapply analyzeModuleGraph_entry_entries; eauto.
    + intros x a _ _. apply analyzeModuleGraph_entry_total.
    + intros a [Hnd Hincl]. rewrite <- length_app. now apply NoDup_incl_le.
    + simpl. split; [apply set_of_list_NoDup|].
      intros y Hy. rewrite set_of_list_In in Hy. apply in_or_app. now left.
    + unfold traversal_fuel. lia.
    + unfold traversal_fuel. lia.
  - intros a _. apply bind_fuel; [|discriminate].
    apply getDynamicallyDependentEntriesByDynamicEntry_total.
Qed.

Lemma areEntriesContainedOrDynamicallyDependent_loop_total
    (entries : list nat) containedIn staticEntries
    (byDynamicEntry : list (nat * list nat)) :
  forall fuel index entriesToCheck,
    NoDup entriesToCheck ->
    incl entriesToCheck (entries ++ flat_map snd byDynamicEntry) ->
    0 < fuel ->
    length entries + length (flat_map snd byDynamicEntry) < fuel + index ->
    areEntriesContainedOrDynamicallyDependent_loop fuel index entriesToCheck
      containedIn staticEntries byDynamicEntry <> OutOfFuel.
Proof.
  induction fuel as [|fuel IH]; intros index entriesToCheck Hnd Hincl Hpos Hlt; [lia|].
  simpl. destruct (nth_error entriesToCheck index) as [entry|] eqn:Hnth; [|discriminate].
  assert (Hi : index < length entriesToCheck) by (apply nth_error_Some; congruence).
  assert (Hlen : length entriesToCheck
                 <= length entries + length (flat_map snd byDynamicEntry))
    by (rewrite <- length_app; now apply NoDup_incl_le).
  destruct containedIn as [contained|]; [|discriminate].
  destruct (set_has entry contained).
  - apply IH; auto; lia.
  - destruct (set_has entry staticEntries); [discriminate|].
    destruct (map_get entry byDynamicEntry) as [dependent|] eqn:Hget; [|discriminate].
    destruct (MAX_ENTRIES_TO_CHECK_FOR_SHARED_DEPENDENCIES <? length dependent);
      [discriminate|].
    assert (Hnd' : NoDup (set_add_all dependent entriesToCheck))
      by now apply set_add_all_NoDup.
    assert (Hincl' : incl (set_add_all dependent entriesToCheck)
                       (entries ++ flat_map snd byDynamicEntry)).
    { intros y Hy. apply set_add_all_In in Hy as [Hy|Hy]; [|now apply Hincl].
      apply in_or_app. right. apply in_flat_map. exists (entry, dependent).
      split; [now apply map_get_In|assumption]. }
    assert (Hlen' : length (set_add_all dependent entriesToCheck)
                    <= length entries + length (flat_map snd byDynamicEntry))
      by (rewrite <- length_app; now apply NoDup_incl_le).
    destruct (set_add_all_prefix dependent entriesToCheck) as [l Hl].
    assert (length entriesToCheck <= length (set_add_all dependent entriesToCheck))
      by (rewrite Hl, length_app; lia).
    apply IH; auto; lia.
Qed.

Lemma isAlreadyLoaded_total a staticEntries dynamicDependentEntries module :
  isAlreadyLoaded a staticEntries dynamicDependentEntries module <> OutOfFuel.
Proof.
  unfold isAlreadyLoaded. destruct dynamicDependentEntries as [entries|]; [|discriminate].
  unfold areEntriesContainedOrDynamicallyDependent.
  destruct (MAX_ENTRIES_TO_CHECK_FOR_SHARED_DEPENDENCIES <? length entries);
    [discriminate|].
  apply areEntriesContainedOrDynamicallyDependent_loop_total with (entries := entries);
    try lia.
  - apply set_of_list_NoDup.
  - intros y Hy. rewrite set_of_list_In in Hy. apply in_or_app. now left.
Qed.

Lemma assignEntryToStaticDependencies_total G entry a assigned inManual staticEntries :
  assignEntryToStaticDependencies G entry a assigned inManual staticEntries <> OutOfFuel.
Proof.
  unfold assignEntryToStaticDependencies. apply bind_fuel; [|discriminate].
  unfold assignEntryToStaticDependencies_run.
  apply forOf_worklist_fuel with (seed := entry).
  - intros x s s' Hok _ Hb.
    apply (@assign_module_inv G entry a inManual staticEntries) in Hb
      as [alreadyLoaded [_ [-> _]]].
    destruct alreadyLoaded; [assumption|].
    apply worklist_ok_enqueue; [|assumption]. intros d. apply included_in_universe.
  - intros x s _ _. unfold assignEntryToStaticDependencies_module.
    destruct (getOrCreate (asg_assignedEntriesByModule s) x []) as [assignedEntries m].
    apply bind_fuel; [apply isAlreadyLoaded_total|].
    intros [|] _; discriminate.
  - apply worklist_ok_seed.
Qed.

Lemma assignEntries_total G a inManual staticEntries :
  assignEntries G a inManual staticEntries <> OutOfFuel.
Proof.
  unfold assignEntries. apply (@forEach_fuel _ _ _ (fun _ => True)); auto.
  intros entry assigned _. destruct (set_has entry inManual); [discriminate|].
  apply assignEntryToStaticDependencies_total.
Qed.

(** The assignment of the modules returns or throws: the fuel of its loops
    is enough. *)
Lemma assignModules_total G entries manualChunkAliasByEntry :
  assignModules G entries manualChunkAliasByEntry <> OutOfFuel.
Proof.
  unfold assignModules. apply bind_fuel; [apply manualChunks_total|].
  intros manual _. apply bind_fuel; [apply analyzeModuleGraph_total|].
  intros a _. apply bind_fuel; [apply assignEntries_total|discriminate].
Qed.

(** So does [getChunkAssignments] for an integer [minChunkSize]; and when the
    assignment of the modules returns, it returns a chunk list. *)
Lemma getChunkAssignments_total G entries manualChunkAliasByEntry (minChunkSize : Z) :
  getChunkAssignments G entries manualChunkAliasByEntry minChunkSize <> OutOfFuel
  /\ forall asg, assignModules G entries manualChunkAliasByEntry = Ok asg ->
       exists chunks,
         getChunkAssignments G entries manualChunkAliasByEntry minChunkSize = Ok chunks.
Proof.
  assert (H : forall asg, assignModules G entries manualChunkAliasByEntry = Ok asg ->
       exists chunks,
         getChunkAssignments G entries manualChunkAliasByEntry minChunkSize = Ok chunks).
  { intros asg Hasg. unfold getChunkAssignments. rewrite Hasg. simpl.
    apply assignModules_inv in Hasg as [_ [_ Hassigned]].
    apply assignEntries_spec in Hassigned as [Hkeys _].
    destruct (@createChunks_cover G (allEntries (analysis asg))
                (assignedEntriesByModule asg) Hkeys minChunkSize) as [chunks [-> _]].
    simpl. eauto. }
  split; [|exact H].
  destruct (assignModules G entries manualChunkAliasByEntry) as [asg| |] eqn:Hasg.
  - destruct (H asg eq_refl) as [chunks Hc].
    unfold getChunkAssignments in *. rewrite Hasg in *. rewrite Hc. discriminate.
  - unfold getChunkAssignments. rewrite Hasg. discriminate.
  - now apply assignModules_total in Hasg.
Qed.

(** ** Structurally equal inputs *)

Lemma map_result_bind {A B A' B' : Type} (f : A -> A') (g : B -> B')
    (res : result A) (k : A -> result B) (k' : A' -> result B') :
  (forall a, res = Ok a -> k' (f a) = map_result g (k a)) ->
  bind (map_result f res) k' = map_result g (bind res k).
Proof. destruct res; simpl; intros H; auto. Qed.

Lemma fold_left_map {A A' B B' : Type} (f : B -> A -> B) (f' : B' -> A' -> B')
    (g : A -> A') (h : B -> B') :
  (forall acc a, f' (h acc) (g a) = h (f acc a)) ->
  forall xs acc, fold_left f' (map g xs) (h acc) = h (fold_left f xs acc).
Proof.
  intros Hf. induction xs as [|a xs IH]; intros acc; simpl; [reflexivity|].
  now rewrite Hf, IH.
Qed.

Lemma forEach_map {A A' St St' : Type} (body : A -> St -> result St)
    (body' : A' -> St' -> result St') (g : A -> A') (ren : St -> St') :
  (forall a st, body' (g a) (ren st) = map_result ren (body a st)) ->
  forall xs st, forEach body' (map g xs) (ren st) = map_result ren (forEach body xs st).
Proof.
  intros Hb. induction xs as [|a xs IH]; intros st; simpl; [reflexivity|].
  rewrite Hb. apply map_result_bind. intros st1 _. apply IH.
Qed.

Lemma forOf_map {St St' : Type} (iterated : St -> list nat) (iterated' : St' -> list nat)
    (body : nat -> St -> result St) (body' : nat -> St' -> result St')
    (r : nat -> nat) (ren : St -> St') :
  (forall st, iterated' (ren st) = map r (iterated st)) ->
  (forall a st, body' (r a) (ren st) = map_result ren (body a st)) ->
  forall fuel i st,
    forOf iterated' body' fuel i (ren st) = map_result ren (forOf iterated body fuel i st).
Proof.
  intros Hit Hb. induction fuel as [|fuel IH]; intros i st; simpl; [reflexivity|].
  rewrite Hit, nth_error_map. destruct (nth_error (iterated st) i) as [a|]; simpl;
    [|reflexivity].
  rewrite Hb. apply map_result_bind. intros st1 _. apply IH.
Qed.

Lemma obj_get_map_values {V W : Type} (f : V -> W) k (o : list (string * V)) :
  obj_get k (map_values f o) = option_map f (obj_get k o).
Proof.
  induction o as [|[k' v] o IH]; simpl; [reflexivity|].
  destruct (String.eqb k k'); [reflexivity|exact IH].
Qed.

Lemma obj_set_map_values {V W : Type} (f : V -> W) k v (o : list (string * V)) :
  obj_set k (f v) (map_values f o) = map_values f (obj_set k v o).
Proof.
  induction o as [|[k' v'] o IH]; simpl; [reflexivity|].
  destruct (String.eqb k k'); simpl; [reflexivity|]. now rewrite IH.
Qed.

Lemma insert_by_index_map_values {V W : Type} (f : V -> W) n k v
    (l : list (N * (string * V))) :
  insert_by_index n (k, f v) (map_values (fun e => (fst e, f (snd e))) l)
  = map_values (fun e => (fst e, f (snd e))) (insert_by_index n (k, v) l).
Proof.
  induction l as [|[n' e'] l IH]; simpl; [reflexivity|].
  destruct (n <=? n')%N; simpl; [reflexivity|]. now rewrite IH.
Qed.

Lemma index_entries_map_values {V W : Type} (f : V -> W) (o : list (string * V)) :
  index_entries (map_values f o)
  = map_values (fun e => (fst e, f (snd e))) (index_entries o).
Proof.
  induction o as [|[k v] o IH]; simpl; [reflexivity|].
  destruct (arrayIndex k); [|exact IH]. now rewrite IH, insert_by_index_map_values.
Qed.

Lemma filter_map_values {V W : Type} (f : V -> W) (p : string -> bool)
    (o : list (string * V)) :
  filter (fun e => p (fst e)) (map_values f o)
  = map_values f (filter (fun e => p (fst e)) o).
Proof.
  induction o as [|[k v] o IH]; simpl; [reflexivity|].
  destruct (p k); simpl; now rewrite IH.
Qed.

Lemma Object_entries_map_values {V W : Type} (f : V -> W) (o : list (string * V)) :
  Object_entries (map_values f o) = map_values f (Object_entries o).
Proof.
  unfold Object_entries. rewrite index_entries_map_values.
  pose proof (filter_map_values f
                (fun k => negb match arrayIndex k with Some _ => true | None => false end) o)
    as Hfilter.
  unfold is_index_key. rewrite Hfilter.
  unfold map_values. rewrite map_app, !map_map. reflexivity.
Qed.

Section RenameFacts.
Variables (r x : nat -> nat).
Hypothesis r_injective : forall a b, r a = r b -> a = b.

Lemma eqb_rename a b : (r a =? r b) = (a =? b).
Proof.
  destruct (Nat.eqb_spec a b) as [->|Hne]; [apply Nat.eqb_refl|].
  apply Nat.eqb_neq. intros H. now apply r_injective in H.
Qed.

Lemma set_has_rename a s : set_has (r a) (map r s) = set_has a s.
Proof.
  unfold set_has. induction s as [|b s IH]; simpl; [reflexivity|].
  now rewrite eqb_rename, IH.
Qed.

Lemma set_add_rename a s : set_add (r a) (map r s) = map r (set_add a s).
Proof.
  unfold set_add. rewrite set_has_rename. destruct (set_has a s); [reflexivity|].
  now rewrite map_app.
Qed.

Lemma set_add_all_rename xs s :
  set_add_all (map r xs) (map r s) = map r (set_add_all xs s).
Proof.
  unfold set_add_all. apply fold_left_map. intros acc a. apply set_add_rename.
Qed.

Lemma set_of_list_rename xs : set_of_list (map r xs) = map r (set_of_list xs).
Proof. apply (set_add_all_rename xs []). Qed.

Lemma map_get_rename {V W : Type} (f : V -> W) k (m : list (nat * V)) :
  map_get (r k) (rename_keys r f m) = option_map f (map_get k m).
Proof.
  induction m as [|[k' v] m IH]; simpl; [reflexivity|].
  rewrite eqb_rename. destruct (k =? k'); [reflexivity|exact IH].
Qed.

Lemma map_set_rename {V W : Type} (f : V -> W) k v (m : list (nat * V)) :
  map_set (r k) (f v) (rename_keys r f m) = rename_keys r f (map_set k v m).
Proof.
  induction m as [|[k' v'] m IH]; simpl; [reflexivity|].
  rewrite eqb_rename. destruct (k =? k'); simpl; [reflexivity|].
  f_equal. exact IH.
Qed.

Lemma getOrCreate_rename {V W : Type} (f : V -> W) k init (m : list (nat * V)) :
  getOrCreate (rename_keys r f m) (r k) (f init)
  = (f (fst (getOrCreate m k init)), rename_keys r f (snd (getOrCreate m k init))).
Proof.
  unfold getOrCreate. rewrite map_get_rename. destruct (map_get k m); simpl;
    [reflexivity|].
  now rewrite map_set_rename.
Qed.

Lemma getModule_rename G m :
  getModule (rename_graph r x G) (r m) = rename_module r x (getModule G m).
Proof.
  unfold getModule, rename_graph. rewrite map_get_rename.
  destruct (map_get m G); reflexivity.
Qed.

Lemma graph_universe_rename G :
  graph_universe (rename_graph r x G) = map r (graph_universe G).
Proof.
  unfold graph_universe, rename_graph, rename_keys.
  induction G as [|[a module] G IH]; simpl; [reflexivity|].
  rewrite IH, map_app. f_equal. f_equal. unfold module_refs. simpl.
  rewrite !map_app. repeat f_equal.
  - induction (dependencies module) as [|[d|e] l IHl]; simpl; congruence.
  - induction (getDependenciesToBeIncluded module) as [|[d|e] l IHl]; simpl; congruence.
  - induction (dynamicImports module) as [|[d|e|] l IHl]; simpl; congruence.
Qed.

Lemma traversal_fuel_rename G : traversal_fuel (rename_graph r x G) = traversal_fuel G.
Proof. unfold traversal_fuel. now rewrite graph_universe_rename, length_map. Qed.

Lemma getOrCreate_entries_rename m k :
  getOrCreate (rename_entries r m) (r k) []
  = (map r (fst (getOrCreate m k [])), rename_entries r (snd (getOrCreate m k []))).
Proof. exact (getOrCreate_rename (map r) k [] m). Qed.

Lemma map_get_entries_rename m k :
  map_get (r k) (rename_entries r m) = option_map (map r) (map_get k m).
Proof. exact (map_get_rename (map r) k m). Qed.

Lemma map_set_entries_rename m k v :
  map_set (r k) (map r v) (rename_entries r m) = rename_entries r (map_set k v m).
Proof. exact (map_set_rename (map r) k v m). Qed.

Lemma enqueue_rename excluded deps acc :
  enqueue (map r excluded) (map (rename_dependency r x) deps) (map r acc)
  = map r (enqueue excluded deps acc).
Proof.
  unfold enqueue. apply fold_left_map. intros a [d|e]; simpl; [|reflexivity].
  rewrite set_has_rename. destruct (set_has d excluded); [reflexivity|].
  apply set_add_rename.
Qed.

(** *** Manual chunks *)

Lemma addStaticDependenciesToManualChunk_module_rename G module st :
  addStaticDependenciesToManualChunk_module (rename_graph r x G) (r module)
    (rename_manual_traversal r st)
  = map_result (rename_manual_traversal r)
      (addStaticDependenciesToManualChunk_module G module st).
Proof.
  unfold addStaticDependenciesToManualChunk_module, rename_manual_traversal. simpl.
  rewrite getModule_rename, set_add_rename. simpl. f_equal. f_equal.
  - apply (enqueue_rename (set_add module (mt_modulesInManualChunks st))
             (dependencies (getModule G module)) (mt_modulesToHandle st)).
  - now rewrite map_app.
Qed.

Lemma addStaticDependenciesToManualChunk_rename G entry bucket inManual :
  addStaticDependenciesToManualChunk (rename_graph r x G) (r entry) (map r bucket)
    (map r inManual)
  = map_result (fun res => (map r (fst res), map r (snd res)))
      (addStaticDependenciesToManualChunk G entry bucket inManual).
Proof.
  unfold addStaticDependenciesToManualChunk, addStaticDependenciesToManualChunk_run.
  rewrite traversal_fuel_rename.
  pose proof (@forOf_map _ _ mt_modulesToHandle mt_modulesToHandle
                (addStaticDependenciesToManualChunk_module G)
                (addStaticDependenciesToManualChunk_module (rename_graph r x G))
                r (rename_manual_traversal r)) as Hloop.
  specialize (Hloop (fun st => eq_refl)
                (addStaticDependenciesToManualChunk_module_rename G)
                (traversal_fuel G) 0
                {| mt_modulesToHandle := [entry];
                   mt_manualChunkModules := bucket;
                   mt_modulesInManualChunks := inManual |}).
  unfold rename_manual_traversal at 1 in Hloop. simpl in Hloop. rewrite Hloop.
  apply map_result_bind. intros st _. reflexivity.
Qed.

Lemma manualChunks_entry_rename G (entryAlias : nat * string) st :
  manualChunks_entry (rename_graph r x G) (r (fst entryAlias), snd entryAlias)
    (rename_manual_chunks r st)
  = map_result (rename_manual_chunks r) (manualChunks_entry G entryAlias st).
Proof.
  destruct entryAlias as [entry alias], st as [byAlias inManual]. unfold manualChunks_entry, rename_manual_chunks.
  simpl. rewrite obj_get_map_values.
  destruct (obj_get alias byAlias) as [bucket|]; simpl.
  - rewrite addStaticDependenciesToManualChunk_rename.
    apply map_result_bind. intros res _. simpl. now rewrite obj_set_map_values.
  - pose proof (addStaticDependenciesToManualChunk_rename G entry [] inManual) as Hrun.
    change (map r []) with (@nil nat) in Hrun. rewrite Hrun.
    apply map_result_bind. intros res _. simpl.
    rewrite <- obj_set_map_values.
    pose proof (obj_set_map_values (map r) alias [] byAlias) as Hset.
    change (map r []) with (@nil nat) in Hset. now rewrite Hset.
Qed.

Lemma manualChunks_rename G manualChunkAliasByEntry :
  manualChunks (rename_graph r x G) (rename_aliases r manualChunkAliasByEntry)
  = map_result (rename_manual_chunks r) (manualChunks G manualChunkAliasByEntry).
Proof.
  unfold manualChunks.
  assert (Hkeys : map fst (rename_aliases r manualChunkAliasByEntry)
                  = map r (map fst manualChunkAliasByEntry))
    by (unfold rename_aliases, rename_keys; now rewrite !map_map).
  rewrite Hkeys, set_of_list_rename.
  apply (@forEach_map _ _ _ _ (manualChunks_entry G)
           (manualChunks_entry (rename_graph r x G))
           (fun ea : nat * string => (r (fst ea), snd ea)) (rename_manual_chunks r)
           (manualChunks_entry_rename G)
           manualChunkAliasByEntry ([], set_of_list (map fst manualChunkAliasByEntry))).
Qed.

(** *** Graph analysis *)

Lemma dynamicImports_rename G resolutions (acc : list nat * list nat) :
  fold_left
    (fun (acc : list nat * list nat) resolution =>
       let '(dynamicEntries, allEntries) := acc in
       match resolution with
       | ResModule m =>
           if (0 <? length (includedDynamicImporters (getModule (rename_graph r x G) m)))
              && negb (set_has m allEntries)
           then (set_add m dynamicEntries, set_add m allEntries)
           else acc
       | _ => acc
       end)
    (map (rename_resolution r x) resolutions) (map r (fst acc), map r (snd acc))
  = (fun p : list nat * list nat => (map r (fst p), map r (snd p)))
      (fold_left
         (fun (acc : list nat * list nat) resolution =>
            let '(dynamicEntries, allEntries) := acc in
            match resolution with
            | ResModule m =>
                if (0 <? length (includedDynamicImporters (getModule G m)))
                   && negb (set_has m allEntries)
                then (set_add m dynamicEntries, set_add m allEntries)
                else acc
            | _ => acc
            end)
         resolutions acc).
Proof.
  apply (fold_left_map _ _ (rename_resolution r x)
           (fun p : list nat * list nat => (map r (fst p), map r (snd p)))).
  intros [dynamicEntries all] [m|e|]; simpl; try reflexivity.
  rewrite getModule_rename. simpl. rewrite length_map, set_has_rename.
  destruct ((0 <? length (includedDynamicImporters (getModule G m)))
            && negb (set_has m all)); simpl; [|reflexivity].
  now rewrite !set_add_rename.
Qed.

Lemma implicitlyLoadedBefore_rename dependencies (acc : list nat * list nat) :
  fold_left
    (fun (acc : list nat * list nat) dependency =>
       let '(dynamicEntries, allEntries) := acc in
       if negb (set_has dependency allEntries)
       then (set_add dependency dynamicEntries, set_add dependency allEntries)
       else acc)
    (map r dependencies) (map r (fst acc), map r (snd acc))
  = (fun p : list nat * list nat => (map r (fst p), map r (snd p)))
      (fold_left
         (fun (acc : list nat * list nat) dependency =>
            let '(dynamicEntries, allEntries) := acc in
            if negb (set_has dependency allEntries)
            then (set_add dependency dynamicEntries, set_add dependency allEntries)
            else acc)
         dependencies acc).
Proof.
  apply (fold_left_map _ _ r
           (fun p : list nat * list nat => (map r (fst p), map r (snd p)))).
  intros [dynamicEntries all] d; simpl. rewrite set_has_rename.
  destruct (negb (set_has d all)); simpl; [|reflexivity].
  now rewrite !set_add_rename.
Qed.

Lemma analyzeModuleGraph_module_rename G currentEntry module st :
  analyzeModuleGraph_module (rename_graph r x G) (r currentEntry) (r module)
    (rename_analysis_traversal r st)
  = map_result (rename_analysis_traversal r)
      (analyzeModuleGraph_module G currentEntry module st).
Proof.
  unfold analyzeModuleGraph_module.
  change (as_dependentEntriesByModule (at_state (rename_analysis_traversal r st)))
    with (rename_entries r (as_dependentEntriesByModule (at_state st))).
  rewrite getOrCreate_entries_rename, !getModule_rename.
  destruct (getOrCreate (as_dependentEntriesByModule (at_state st)) module [])
    as [dependentEntries byModule].
  cbn [fst snd map_result rename_module dependencies getDependenciesToBeIncluded
       dynamicImports includedDynamicImporters implicitlyLoadedBefore
       implicitlyLoadedAfter].
  change (as_dynamicEntries (at_state (rename_analysis_traversal r st)))
    with (map r (as_dynamicEntries (at_state st))).
  change (as_allEntries (at_state (rename_analysis_traversal r st)))
    with (map r (as_allEntries (at_state st))).
  change (at_modulesToHandle (rename_analysis_traversal r st))
    with (map r (at_modulesToHandle st)).
  pose proof (dynamicImports_rename G (dynamicImports (getModule G module))
                (as_dynamicEntries (at_state st), as_allEntries (at_state st)))
    as Himports.
  cbn [fst snd] in Himports. rewrite Himports, implicitlyLoadedBefore_rename.
  unfold rename_analysis_traversal, rename_analysis_state.
  cbn [fst snd at_state at_modulesToHandle as_dynamicEntries
       as_dependentEntriesByModule as_allEntries].
  rewrite set_add_rename, map_set_entries_rename.
  f_equal. f_equal.
  apply (enqueue_rename [] (getDependenciesToBeIncluded (getModule G module))
           (at_modulesToHandle st)).
Qed.

Lemma analyzeModuleGraph_entry_rename G currentEntry a :
  analyzeModuleGraph_entry (rename_graph r x G) (r currentEntry)
    (rename_analysis_state r a)
  = map_result (rename_analysis_state r) (analyzeModuleGraph_entry G currentEntry a).
Proof.
  unfold analyzeModuleGraph_entry. rewrite traversal_fuel_rename.
  pose proof (@forOf_map _ _ at_modulesToHandle at_modulesToHandle
                (analyzeModuleGraph_module G currentEntry)
                (analyzeModuleGraph_module (rename_graph r x G) (r currentEntry))
                r (rename_analysis_traversal r) (fun st => eq_refl)
                (analyzeModuleGraph_module_rename G currentEntry)
                (traversal_fuel G) 0
                {| at_state := a; at_modulesToHandle := [currentEntry] |}) as Hloop.
  unfold rename_analysis_traversal at 1 in Hloop. simpl in Hloop. rewrite Hloop.
  apply map_result_bind. intros st _. reflexivity.
Qed.

Lemma importers_rename byModule importers dependent :
  forEach
    (fun importer dynamicDependentEntries =>
       match map_get importer (rename_entries r byModule) with
       | None => TypeError
       | Some entries => Ok (set_add_all entries dynamicDependentEntries)
       end)
    (map r importers) (map r dependent)
  = map_result (map r)
      (forEach
         (fun importer dynamicDependentEntries =>
            match map_get importer byModule with
            | None => TypeError
            | Some entries => Ok (set_add_all entries dynamicDependentEntries)
            end)
         importers dependent).
Proof.
  apply (forEach_map _ _ r (map r)). intros importer acc.
  rewrite map_get_entries_rename. destruct (map_get importer byModule); simpl;
    [|reflexivity].
  now rewrite set_add_all_rename.
Qed.

Lemma getDynamicallyDependentEntriesByDynamicEntry_rename G byModule dynamicEntries :
  getDynamicallyDependentEntriesByDynamicEntry (rename_graph r x G)
    (rename_entries r byModule) (map r dynamicEntries)
  = map_result (rename_entries r)
      (getDynamicallyDependentEntriesByDynamicEntry G byModule dynamicEntries).
Proof.
  unfold getDynamicallyDependentEntriesByDynamicEntry.
  refine (forEach_map _ _ r (rename_entries r) _ dynamicEntries []).
  intros dynamicEntry byDynamicEntry.
  rewrite getOrCreate_entries_rename, getModule_rename.
  destruct (getOrCreate byDynamicEntry dynamicEntry []) as [dependent byDynamicEntry'].
  cbn [fst snd rename_module includedDynamicImporters implicitlyLoadedAfter].
  rewrite <- map_app, importers_rename.
  apply map_result_bind. intros added _. simpl. now rewrite map_set_entries_rename.
Qed.

Lemma analyzeModuleGraph_rename G entries :
  analyzeModuleGraph (rename_graph r x G) (map r entries)
  = map_result (rename_analysis r) (analyzeModuleGraph G entries).
Proof.
  unfold analyzeModuleGraph.
  rewrite traversal_fuel_rename, length_map, set_of_list_rename.
  pose proof (@forOf_map _ _ as_allEntries as_allEntries
                (analyzeModuleGraph_entry G)
                (analyzeModuleGraph_entry (rename_graph r x G))
                r (rename_analysis_state r) (fun st => eq_refl)
                (analyzeModuleGraph_entry_rename G)
                (traversal_fuel G + length entries) 0
                {| as_dynamicEntries := [];
                   as_dependentEntriesByModule := [];
                   as_allEntries := set_of_list entries |}) as Hloop.
  unfold rename_analysis_state at 1 in Hloop. simpl in Hloop. rewrite Hloop.
  apply map_result_bind. intros a _. simpl.
  rewrite getDynamicallyDependentEntriesByDynamicEntry_rename.
  apply map_result_bind. intros byDynamicEntry _. reflexivity.
Qed.

(** *** Entry assignment *)

Lemma flat_map_snd_rename_length m :
  length (flat_map snd (rename_entries r m)) = length (flat_map snd m).
Proof.
  induction m as [|[k v] m IH]; simpl; [reflexivity|].
  now rewrite !length_app, length_map, IH.
Qed.

Lemma areEntriesContainedOrDynamicallyDependent_loop_rename containedIn staticEntries
    byDynamicEntry :
  forall fuel index entriesToCheck,
    areEntriesContainedOrDynamicallyDependent_loop fuel index (map r entriesToCheck)
      (option_map (map r) containedIn) (map r staticEntries)
      (rename_entries r byDynamicEntry)
    = areEntriesContainedOrDynamicallyDependent_loop fuel index entriesToCheck
        containedIn staticEntries byDynamicEntry.
Proof.
  induction fuel as [|fuel IH]; intros index entriesToCheck; simpl; [reflexivity|].
  rewrite nth_error_map.
  destruct (nth_error entriesToCheck index) as [entry|]; simpl; [|reflexivity].
  destruct containedIn as [contained|]; simpl; [|reflexivity].
  rewrite !set_has_rename. destruct (set_has entry contained); [apply IH|].
  destruct (set_has entry staticEntries); [reflexivity|].
  rewrite map_get_entries_rename.
  destruct (map_get entry byDynamicEntry) as [dependent|]; simpl; [|reflexivity].
  rewrite length_map.
  destruct (MAX_ENTRIES_TO_CHECK_FOR_SHARED_DEPENDENCIES <? length dependent);
    [reflexivity|].
  rewrite set_add_all_rename. apply IH.
Qed.

Lemma isAlreadyLoaded_rename a staticEntries dynamicDependentEntries module :
  isAlreadyLoaded (rename_analysis r a) (map r staticEntries)
    (option_map (map r) dynamicDependentEntries) (r module)
  = isAlreadyLoaded a staticEntries dynamicDependentEntries module.
Proof.
  unfold isAlreadyLoaded. destruct dynamicDependentEntries as [entries|]; simpl;
    [|reflexivity].
  rewrite map_get_entries_rename. unfold areEntriesContainedOrDynamicallyDependent.
  rewrite length_map, flat_map_snd_rename_length, set_of_list_rename.
  destruct (MAX_ENTRIES_TO_CHECK_FOR_SHARED_DEPENDENCIES <? length entries);
    [reflexivity|].
  apply areEntriesContainedOrDynamicallyDependent_loop_rename.
Qed.

Lemma assignEntryToStaticDependencies_module_rename G entry a inManual staticEntries
    dynamicDependentEntries module st :
  assignEntryToStaticDependencies_module (rename_graph r x G) (r entry)
    (rename_analysis r a) (map r inManual) (map r staticEntries)
    (option_map (map r) dynamicDependentEntries) (r module)
    (rename_assign_traversal r st)
  = map_result (rename_assign_traversal r)
      (assignEntryToStaticDependencies_module G entry a inManual staticEntries
         dynamicDependentEntries module st).
Proof.
  unfold assignEntryToStaticDependencies_module.
  change (asg_assignedEntriesByModule (rename_assign_traversal r st))
    with (rename_entries r (asg_assignedEntriesByModule st)).
  change (asg_modulesToHandle (rename_assign_traversal r st))
    with (map r (asg_modulesToHandle st)).
  rewrite getOrCreate_entries_rename, isAlreadyLoaded_rename, getModule_rename.
  destruct (getOrCreate (asg_assignedEntriesByModule st) module [])
    as [assignedEntries assigned].
  cbn [fst snd rename_module getDependenciesToBeIncluded].
  destruct (isAlreadyLoaded a staticEntries dynamicDependentEntries module)
    as [[|]| |]; simpl; try reflexivity.
  unfold rename_assign_traversal. simpl.
  rewrite set_add_rename, map_set_entries_rename. f_equal. f_equal.
  apply (enqueue_rename inManual (getDependenciesToBeIncluded (getModule G module))
           (asg_modulesToHandle st)).
Qed.

Lemma assignEntryToStaticDependencies_rename G entry a assigned inManual staticEntries :
  assignEntryToStaticDependencies (rename_graph r x G) (r entry) (rename_analysis r a)
    (rename_entries r assigned) (map r inManual) (map r staticEntries)
  = map_result (rename_entries r)
      (assignEntryToStaticDependencies G entry a assigned inManual staticEntries).
Proof.
  unfold assignEntryToStaticDependencies, assignEntryToStaticDependencies_run.
  rewrite traversal_fuel_rename.
  change (dynamicallyDependentEntriesByDynamicEntry (rename_analysis r a))
    with (rename_entries r (dynamicallyDependentEntriesByDynamicEntry a)).
  rewrite map_get_entries_rename.
  pose proof (@forOf_map _ _ asg_modulesToHandle asg_modulesToHandle
                (assignEntryToStaticDependencies_module G entry a inManual staticEntries
                   (map_get entry (dynamicallyDependentEntriesByDynamicEntry a)))
                (assignEntryToStaticDependencies_module (rename_graph r x G) (r entry)
                   (rename_analysis r a) (map r inManual) (map r staticEntries)
                   (option_map (map r)
                      (map_get entry (dynamicallyDependentEntriesByDynamicEntry a))))
                r (rename_assign_traversal r) (fun st => eq_refl)
                (assignEntryToStaticDependencies_module_rename G entry a inManual
                   staticEntries
                   (map_get entry (dynamicallyDependentEntriesByDynamicEntry a)))
                (traversal_fuel G) 0
                {| asg_assignedEntriesByModule := assigned;
                   asg_modulesToHandle := [entry] |}) as Hloop.
  unfold rename_assign_traversal at 1 in Hloop. simpl in Hloop. rewrite Hloop.
  apply map_result_bind. intros st _. reflexivity.
Qed.

Lemma assignEntries_rename G a inManual staticEntries :
  assignEntries (rename_graph r x G) (rename_analysis r a) (map r inManual)
    (map r staticEntries)
  = map_result (rename_entries r) (assignEntries G a inManual staticEntries).
Proof.
  unfold assignEntries.
  refine (forEach_map _ _ r (rename_entries r) _ (allEntries a) []).
  intros entry assigned. rewrite set_has_rename.
  destruct (set_has entry inManual); [reflexivity|].
  apply assignEntryToStaticDependencies_rename.
Qed.

Lemma assignModules_rename G entries manualChunkAliasByEntry :
  assignModules (rename_graph r x G) (map r entries)
    (rename_aliases r manualChunkAliasByEntry)
  = map_result (rename_assignment r) (assignModules G entries manualChunkAliasByEntry).
Proof.
  unfold assignModules. rewrite manualChunks_rename.
  apply map_result_bind. intros manual _. rewrite analyzeModuleGraph_rename.
  apply map_result_bind. intros a _. simpl.
  rewrite set_of_list_rename, assignEntries_rename.
  apply map_result_bind. intros assigned _. reflexivity.
Qed.

(** *** Grouping by signature *)

Lemma chunkSignature_rename assignedEntries allEntries :
  chunkSignature (map r assignedEntries) (map r allEntries)
  = chunkSignature assignedEntries allEntries.
Proof.
  unfold chunkSignature.
  refine (fold_left_map _ _ r (fun s : string => s) _ allEntries EmptyString).
  intros acc entry. now rewrite set_has_rename.
Qed.

Lemma getChunkModulesBySignature_rename assigned allEntries :
  getChunkModulesBySignature (rename_entries r assigned) (map r allEntries)
  = map_values (map r) (getChunkModulesBySignature assigned allEntries).
Proof.
  unfold getChunkModulesBySignature.
  refine (fold_left_map _ _ (fun kv : nat * list nat => (r (fst kv), map r (snd kv)))
            (map_values (map r)) _ assigned []).
  intros acc [module assignedEntries]. simpl.
  rewrite chunkSignature_rename, obj_get_map_values.
  destruct (obj_get (chunkSignature assignedEntries allEntries) acc) as [chunk|]; simpl.
  - rewrite <- obj_set_map_values, map_app. reflexivity.
  - exact (obj_set_map_values (map r) _ [module] acc).
Qed.

(** *** Chunk descriptions *)

Lemma describeChunk_rename G (signatureModules : string * list nat) :
  describeChunk (rename_graph r x G) (fst signatureModules, map r (snd signatureModules))
  = rename_description r (describeChunk G signatureModules).
Proof.
  destruct signatureModules as [signature modules]. unfold describeChunk. simpl.
  assert (Hfold : forall acc,
    fold_left
      (fun (acc : nat * bool) module =>
         let '(size, pure) := acc in
         (size + magicString_length (getModule (rename_graph r x G) module),
          pure && negb (hasEffects (getModule (rename_graph r x G) module))))
      (map r modules) acc
    = fold_left
        (fun (acc : nat * bool) module =>
           let '(size, pure) := acc in
           (size + magicString_length (getModule G module),
            pure && negb (hasEffects (getModule G module))))
        modules acc).
  { intros acc.
    refine (fold_left_map _ _ r (fun p : nat * bool => p) _ modules acc).
    intros [size pure] module. now rewrite getModule_rename. }
  rewrite Hfold.
  destruct (fold_left _ modules (0, true)) as [size pure]. reflexivity.
Qed.

Lemma deref_rename h ref :
  deref (map (rename_description r) h) ref = rename_description r (deref h ref).
Proof. exact (map_nth (rename_description r) h noChunk ref). Qed.

Lemma heap_update_rename h : forall ref chunk,
  heap_update ref (rename_description r chunk) (map (rename_description r) h)
  = map (rename_description r) (heap_update ref chunk h).
Proof.
  induction h as [|c h IH]; intros [|ref] chunk; simpl; try reflexivity.
  now rewrite IH.
Qed.

Lemma getChunksInPartition_rename chunk minChunkSize :
  getChunksInPartition (rename_description r chunk) minChunkSize
  = getChunksInPartition chunk minChunkSize.
Proof. reflexivity. Qed.

Lemma sort_insert_rename h ref sorted :
  sort_insert (map (rename_description r) h) ref sorted = sort_insert h ref sorted.
Proof.
  induction sorted as [|ref' sorted IH]; simpl; [reflexivity|].
  rewrite !deref_rename, IH. reflexivity.
Qed.

Lemma sortChunks_rename h refs :
  sortChunks (map (rename_description r) h) refs = sortChunks h refs.
Proof.
  unfold sortChunks. induction refs as [|ref refs IH]; simpl; [reflexivity|].
  now rewrite IH, sort_insert_rename.
Qed.

Lemma partitionedSet_rename h minChunkSize b :
  partitionedSet (map (rename_description r) h) minChunkSize b
  = partitionedSet h minChunkSize b.
Proof.
  unfold partitionedSet. rewrite length_map, sortChunks_rename. f_equal. f_equal.
  apply filter_ext. intros ref. now rewrite deref_rename.
Qed.

Lemma getPartitionedChunks_rename G chunkModulesBySignature minChunkSize :
  getPartitionedChunks (rename_graph r x G)
    (map_values (map r) chunkModulesBySignature) minChunkSize
  = rename_merge_state r (getPartitionedChunks G chunkModulesBySignature minChunkSize).
Proof.
  unfold getPartitionedChunks, rename_merge_state. simpl.
  rewrite Object_entries_map_values.
  assert (Hheap : map (describeChunk (rename_graph r x G))
                    (map_values (map r) (Object_entries chunkModulesBySignature))
                  = map (rename_description r)
                      (map (describeChunk G) (Object_entries chunkModulesBySignature))).
  { unfold map_values. rewrite !map_map. apply map_ext. intros signatureModules.
    apply describeChunk_rename. }
  rewrite Hheap, !partitionedSet_rename. reflexivity.
Qed.

(** *** Merging *)

Lemma findClosestChunk_rename h mergedChunk targets : forall closestChunk distance,
  findClosestChunk (map (rename_description r) h) mergedChunk targets closestChunk distance
  = findClosestChunk h mergedChunk targets closestChunk distance.
Proof.
  induction targets as [|targetChunk targets IH]; intros closestChunk distance; simpl;
    [reflexivity|].
  rewrite !deref_rename, !IH.
  change (mergeDistance (rename_description r (deref h mergedChunk))
            (rename_description r (deref h targetChunk)))
    with (mergeDistance (deref h mergedChunk) (deref h targetChunk)).
  reflexivity.
Qed.

Lemma closestChunkOf_rename targetChunks mergedChunk st :
  closestChunkOf targetChunks mergedChunk (rename_merge_state r st)
  = closestChunkOf targetChunks mergedChunk st.
Proof. unfold closestChunkOf. simpl. apply findClosestChunk_rename. Qed.

Lemma absorb_rename closest merged :
  absorb (rename_description r closest) (rename_description r merged)
  = rename_description r (absorb closest merged).
Proof. unfold absorb, rename_description. simpl. now rewrite map_app. Qed.

Lemma mergeInto_rename chunksToBeMerged minChunkSize mergedChunk closestChunk st :
  mergeInto chunksToBeMerged minChunkSize mergedChunk closestChunk
    (rename_merge_state r st)
  = rename_merge_state r
      (mergeInto chunksToBeMerged minChunkSize mergedChunk closestChunk st).
Proof.
  unfold mergeInto, rename_merge_state. simpl.
  rewrite !deref_rename, absorb_rename, !getChunksInPartition_rename,
    heap_update_rename.
  reflexivity.
Qed.

Lemma mergeChunks_step_rename chunksToBeMerged targetChunks minChunkSize index st :
  mergeChunks_step chunksToBeMerged targetChunks minChunkSize index
    (rename_merge_state r st)
  = option_map (rename_merge_state r)
      (mergeChunks_step chunksToBeMerged targetChunks minChunkSize index st).
Proof.
  unfold mergeChunks_step. simpl.
  destruct (nth_error (bucket chunksToBeMerged (chunkPartition st)) index)
    as [[mergedChunk|]|]; simpl; try reflexivity.
  unfold mergeChunks_chunk. rewrite closestChunkOf_rename.
  destruct (closestChunkOf targetChunks mergedChunk st) as [closestChunk|];
    [|reflexivity].
  now rewrite mergeInto_rename.
Qed.

Lemma mergeChunks_loop_rename chunksToBeMerged targetChunks minChunkSize :
  forall fuel index st,
    mergeChunks_loop fuel chunksToBeMerged targetChunks minChunkSize index
      (rename_merge_state r st)
    = map_result (rename_merge_state r)
        (mergeChunks_loop fuel chunksToBeMerged targetChunks minChunkSize index st).
Proof.
  induction fuel as [|fuel IH]; intros index st; simpl; [reflexivity|].
  rewrite mergeChunks_step_rename.
  destruct (mergeChunks_step chunksToBeMerged targetChunks minChunkSize index st)
    as [st'|]; simpl; [apply IH|reflexivity].
Qed.

Lemma mergeChunks_rename chunksToBeMerged targetChunks minChunkSize st :
  mergeChunks chunksToBeMerged targetChunks minChunkSize (rename_merge_state r st)
  = map_result (rename_merge_state r)
      (mergeChunks chunksToBeMerged targetChunks minChunkSize st).
Proof. unfold mergeChunks. simpl. apply mergeChunks_loop_rename. Qed.

Lemma getOptimizedChunks_rename G chunkModulesBySignature minChunkSize :
  getOptimizedChunks (rename_graph r x G)
    (map_values (map r) chunkModulesBySignature) minChunkSize
  = map_result (map (rename_description r))
      (getOptimizedChunks G chunkModulesBySignature minChunkSize).
Proof.
  unfold getOptimizedChunks. rewrite getPartitionedChunks_rename.
  destruct (prettyBytes minChunkSize) as [logged| |]; simpl; [|reflexivity|reflexivity].
  rewrite mergeChunks_rename.
  apply map_result_bind. intros st1 _. rewrite mergeChunks_rename.
  apply map_result_bind. intros st2 _. simpl. f_equal.
  rewrite map_map. apply map_ext. intros ref. apply deref_rename.
Qed.

Lemma createChunks_rename G allEntries assigned minChunkSize :
  createChunks (rename_graph r x G) (map r allEntries) (rename_entries r assigned)
    minChunkSize
  = map_result (map (rename_chunk r)) (createChunks G allEntries assigned minChunkSize).
Proof.
  unfold createChunks. rewrite getChunkModulesBySignature_rename.
  destruct (is_zero minChunkSize).
  - simpl. f_equal. unfold Object_values. rewrite Object_entries_map_values.
    unfold map_values. rewrite !map_map. reflexivity.
  - rewrite getOptimizedChunks_rename. apply map_result_bind. intros chunks _.
    simpl. f_equal. rewrite !map_map. reflexivity.
Qed.

(** The chunk assignment of a renamed input is the renamed chunk assignment
    of the input. *)
Lemma getChunkAssignments_rename G entries manualChunkAliasByEntry minChunkSize :
  getChunkAssignments (rename_graph r x G) (map r entries)
    (rename_aliases r manualChunkAliasByEntry) minChunkSize
  = map_result (map (rename_chunk r))
      (getChunkAssignments G entries manualChunkAliasByEntry minChunkSize).
Proof.
  unfold getChunkAssignments. rewrite assignModules_rename.
  apply map_result_bind. intros asg _. simpl. rewrite createChunks_rename.
  apply map_result_bind. intros automatic _. simpl. f_equal.
  rewrite Object_entries_map_values, map_app. f_equal.
  unfold map_values. rewrite !map_map. reflexivity.
Qed.
End RenameFacts.

(** C5. Determinism. Take two invocations of [getChunkAssignments] on
    structurally equal inputs: the module objects of the second are those of
    the first at other addresses, and the entry order, the iteration order of
    the alias map and [minChunkSize] are the same. They end the same way:
    both return or both throw, and neither runs out of fuel. When they
    return, the two chunk lists have the same length, and the chunk at each
    position of the second has the alias of the chunk at that position of the
    first and its modules in the same order. *)
Theorem getChunkAssignments_deterministic (r x : nat -> nat) (G : Graph)
    (entries : list nat) (manualChunkAliasByEntry : list (nat * string))
    (minChunkSize : Z) :
  (forall a b, r a = r b -> a = b) ->
  let first := getChunkAssignments G entries manualChunkAliasByEntry minChunkSize in
  let second :=
    getChunkAssignments (rename_graph r x G) (map r entries)
      (rename_aliases r manualChunkAliasByEntry) minChunkSize in
  second = map_result (map (rename_chunk r)) first
  /\ first <> OutOfFuel /\ second <> OutOfFuel
  /\ forall chunks,
       first = Ok chunks ->
       exists chunks',
         second = Ok chunks' /\ length chunks' = length chunks
         /\ forall i chunk,
              nth_error chunks i = Some chunk ->
              exists chunk',
                nth_error chunks' i = Some chunk'
                /\ alias chunk' = alias chunk
                /\ modules chunk' = map r (modules chunk).
Proof.
  intros Hinj first second.
  assert (Heq : second = map_result (map (rename_chunk r)) first)
    by (subst first second; apply getChunkAssignments_rename; exact Hinj).
  assert (Hfirst : first <> OutOfFuel)
    by (subst first; apply getChunkAssignments_total).
  split; [exact Heq|]. split; [exact Hfirst|]. split.
  - rewrite Heq. destruct first; simpl; congruence.
  - intros chunks Hchunks. rewrite Heq, Hchunks. simpl. eexists.
    split; [reflexivity|]. split; [apply length_map|].
    intros i chunk Hi. exists (rename_chunk r chunk).
    rewrite nth_error_map, Hi. simpl. auto.
Qed.

Lemma getChunkAssignments_deterministic_witness :
  let first := getChunkAssignments Examples.manualGraph [0; 3] [(1, "c"%string)] 15 in
  let second :=
    getChunkAssignments (rename_graph (Nat.add 10) (fun e => e) Examples.manualGraph)
      (map (Nat.add 10) [0; 3]) (rename_aliases (Nat.add 10) [(1, "c"%string)]) 15 in
  second = map_result (map (rename_chunk (Nat.add 10))) first
  /\ first <> OutOfFuel /\ second <> OutOfFuel
  /\ forall chunks,
       first = Ok chunks ->
       exists chunks',
         second = Ok chunks' /\ length chunks' = length chunks
         /\ forall i chunk,
              nth_error chunks i = Some chunk ->
              exists chunk',
                nth_error chunks' i = Some chunk'
                /\ alias chunk' = alias chunk
                /\ modules chunk' = map (Nat.add 10) (modules chunk).
Proof.
  apply (@getChunkAssignments_deterministic (Nat.add 10) (fun e => e)
           Examples.manualGraph [0; 3] [(1, "c"%string)] 15).
  intros a b H. lia.
Defined.

(** * Further properties of the code *)

(** ** Signatures: distance and merge *)

Import Signature.

Lemma differing_sym s : forall t, differing s t = differing t s.
Proof.
  induction s as [|c s IH]; intros [|d t]; simpl; try reflexivity.
  rewrite IH. destruct (Ascii.eqb_spec c d) as [->|Hne].
  - now rewrite Ascii.eqb_refl.
  - destruct (Ascii.eqb_spec d c) as [->|_]; [contradiction|reflexivity].
Qed.

Lemma differing_le_length s : forall t, differing s t <= String.length s.
Proof.
  induction s as [|c s IH]; intros [|d t]; simpl; try lia.
  specialize (IH t). destruct (Ascii.eqb c d); lia.
Qed.

Lemma differing_triangle s : forall t u,
  String.length s = String.length t -> String.length t = String.length u ->
  differing s t <= differing s u + differing u t.
Proof.
  induction s as [|c s IH]; intros [|d t] [|e u] Hst Htu; simpl in *; try discriminate;
    try lia.
  specialize (IH t u ltac:(lia) ltac:(lia)).
  destruct (Ascii.eqb_spec c d) as [->|Hcd]; [lia|].
  destruct (Ascii.eqb_spec c e) as [->|Hce], (Ascii.eqb_spec e d) as [->|Hed];
    try contradiction; lia.
Qed.

(** Without the subset condition, [getSignatureDistance] on signatures of one
    length is a metric: it is finite and at most the length, it does not
    depend on the order of its arguments, it is 0 between equal signatures
    only, and it obeys the triangle inequality. *)
Theorem getSignatureDistance_metric (s t u : string) :
  String.length s = String.length t -> String.length t = String.length u ->
  exists d d1 d2,
    getSignatureDistance s t false = Finite d
    /\ getSignatureDistance t s false = Finite d
    /\ getSignatureDistance s u false = Finite d1
    /\ getSignatureDistance u t false = Finite d2
    /\ d <= String.length s
    /\ (d = 0 <-> s = t)
    /\ d <= d1 + d2.
Proof.
  intros Hst Htu. exists (differing s t), (differing s u), (differing u t).
  rewrite !getSignatureDistance_spec by congruence. simpl.
  split; [reflexivity|]. split; [now rewrite differing_sym|].
  split; [reflexivity|]. split; [reflexivity|].
  split; [apply differing_le_length|]. split.
  - split; [now apply differing_zero|]. intros ->. apply differing_refl.
  - now apply differing_triangle.
Qed.

Lemma getSignatureDistance_metric_witness :
  exists d d1 d2,
    getSignatureDistance "X_X" "XX_" false = Finite d
    /\ getSignatureDistance "XX_" "X_X" false = Finite d
    /\ getSignatureDistance "X_X" "___" false = Finite d1
    /\ getSignatureDistance "___" "XX_" false = Finite d2
    /\ d <= String.length "X_X"
    /\ (d = 0 <-> "X_X"%string = "XX_"%string)
    /\ d <= d1 + d2.
Proof.
  apply (@getSignatureDistance_metric "X_X" "XX_" "___"); reflexivity.
Defined.

(** With the subset condition, the distance from [s] to [t] is finite
    exactly when merging [s] into [t] leaves [t] as it is; and the distance
    from [s] to the merge of [s] and [t] is always finite. *)
Theorem enforced_distance_and_merge (s t : string) :
  String.length s = String.length t ->
  wf_signature s = true -> wf_signature t = true ->
  (getSignatureDistance s t true <> Infinity <-> mergeSignatures s t = t)
  /\ getSignatureDistance s (mergeSignatures s t) true
     = Finite (differing s (mergeSignatures s t))
  /\ differing s (mergeSignatures s t) <= differing s t.
Proof.
  intros Hlen Hs Ht. rewrite mergeSignatures_pointwise by assumption.
  assert (Hlen' : String.length s = String.length (merge_pointwise s t))
    by (now rewrite merge_pointwise_length).
  split; [|split].
  - split.
    + intros H. apply getSignatureDistance_finite in H; [|assumption].
      now apply merge_pointwise_subset_r.
    + intros H. rewrite getSignatureDistance_spec by assumption.
      rewrite <- H at 1. rewrite subset_merge_pointwise by assumption. discriminate.
  - rewrite getSignatureDistance_spec by assumption.
    now rewrite subset_merge_pointwise.
  - now apply differing_merge_pointwise.
Qed.

Lemma enforced_distance_and_merge_witness :
  (getSignatureDistance "X__" "XX_" true <> Infinity <-> mergeSignatures "X__" "XX_" = "XX_"%string)
  /\ getSignatureDistance "X__" (mergeSignatures "X__" "XX_") true
     = Finite (differing "X__" (mergeSignatures "X__" "XX_"))
  /\ differing "X__" (mergeSignatures "X__" "XX_") <= differing "X__" "XX_".
Proof.
  apply (@enforced_distance_and_merge "X__" "XX_"); reflexivity.
Defined.

Lemma string_length_app (a b : string) :
  String.length (a ++ b) = String.length a + String.length b.
Proof. induction a as [|c a IH]; simpl; [reflexivity|]. now rewrite IH. Qed.

Lemma wf_signature_app (a b : string) :
  wf_signature a = true -> wf_signature b = true -> wf_signature (a ++ b) = true.
Proof.
  induction a as [|c a IH]; simpl; intros Ha Hb; [assumption|].
  apply andb_true_iff in Ha as [Hc Ha]. rewrite Hc. simpl. now apply IH.
Qed.

Lemma mergeSignatures_loop_length n : forall i acc s t,
  String.length (mergeSignatures_loop n i acc s t) = String.length acc + n.
Proof.
  induction n as [|n IH]; intros i acc s t; simpl; [lia|].
  rewrite IH, string_length_app. simpl. lia.
Qed.

Lemma mergeSignatures_loop_wf n : forall i acc s t,
  wf_signature acc = true -> wf_signature (mergeSignatures_loop n i acc s t) = true.
Proof.
  induction n as [|n IH]; intros i acc s t Hacc; simpl; [assumption|].
  apply IH. apply wf_signature_app; [assumption|].
  destruct (code_is (charCodeAt s i) CHAR_CODE_DEPENDENT
            || code_is (charCodeAt t i) CHAR_CODE_DEPENDENT); reflexivity.
Qed.

(** The loop of [mergeSignatures] reads the target only through the test
    for ['X']. *)
Lemma mergeSignatures_loop_ext n s t t' : forall i acc,
  (forall j, code_is (charCodeAt t j) CHAR_CODE_DEPENDENT
             = code_is (charCodeAt t' j) CHAR_CODE_DEPENDENT) ->
  mergeSignatures_loop n i acc s t = mergeSignatures_loop n i acc s t'.
Proof.
  induction n as [|n IH]; intros i acc H; simpl; [reflexivity|].
  rewrite (H i). now apply IH.
Qed.

Lemma code_is_get (s : string) (i : nat) :
  code_is (charCodeAt s i) CHAR_CODE_DEPENDENT = true
  <-> String.get i s = Some CHAR_DEPENDENT.
Proof.
  unfold charCodeAt. destruct (String.get i s) as [c|]; simpl.
  - change (nat_of_ascii c =? CHAR_CODE_DEPENDENT)
      with (code_is (Some (nat_of_ascii c)) CHAR_CODE_DEPENDENT).
    rewrite code_is_dependent. unfold bit_of. rewrite Ascii.eqb_eq.
    split; [now intros ->|congruence].
  - split; discriminate.
Qed.

Lemma code_is_padded (t : string) (k j : nat) :
  code_is (charCodeAt (t ++ independentSignature k) j) CHAR_CODE_DEPENDENT
  = code_is (charCodeAt t j) CHAR_CODE_DEPENDENT.
Proof.
  revert j. induction t as [|c t IH]; intros j.
  - simpl. assert (H : code_is (charCodeAt (independentSignature k) j)
                           CHAR_CODE_DEPENDENT = false).
    { revert j. unfold independentSignature.
      induction k as [|k IHk]; intros [|j]; simpl; try reflexivity.
      rewrite charCodeAt_cons. apply IHk. }
    rewrite H. now destruct j.
  - destruct j as [|j]; [reflexivity|]. simpl. rewrite !charCodeAt_cons. apply IH.
Qed.

Lemma mergeSignatures_loop_acc n : forall i acc s t,
  mergeSignatures_loop n i acc s t
  = (acc ++ mergeSignatures_loop n i EmptyString s t)%string.
Proof.
  induction n as [|n IH]; intros i acc s t; simpl; [now rewrite string_app_nil_r|].
  rewrite IH, (IH _ (String _ EmptyString)), string_app_assoc. reflexivity.
Qed.

(** Position [j] of the merge is ['X'] when the source or the target has
    an ['X'] there. *)
Lemma mergeSignatures_loop_get n : forall i j s t,
  j < n ->
  String.get j (mergeSignatures_loop n i EmptyString s t)
  = Some (char_of (code_is (charCodeAt s (i + j)) CHAR_CODE_DEPENDENT
                   || code_is (charCodeAt t (i + j)) CHAR_CODE_DEPENDENT)).
Proof.
  induction n as [|n IH]; intros i j s t Hj; [lia|].
  simpl. rewrite mergeSignatures_loop_acc. destruct j as [|j]; simpl.
  - rewrite Nat.add_0_r. reflexivity.
  - rewrite IH by lia. now rewrite Nat.add_succ_r.
Qed.

Lemma charCodeAt_tail (t : string) (i : nat) :
  charCodeAt t (S i) = charCodeAt (string_tail t) i.
Proof. destruct t; [now destruct i|reflexivity]. Qed.

Lemma getSignatureDistance_loop_tail n c s t e : forall i d,
  getSignatureDistance_loop n (S i) d (String c s) t e
  = getSignatureDistance_loop n i d s (string_tail t) e.
Proof.
  induction n as [|n IH]; intros i d; simpl; [reflexivity|].
  rewrite charCodeAt_cons, charCodeAt_tail, !IH. reflexivity.
Qed.

Lemma get_head_dependent (c : ascii) (t : string) :
  code_neq (Some (nat_of_ascii c)) (charCodeAt t 0) = true ->
  bit_of c = true -> String.get 0 t <> Some CHAR_DEPENDENT.
Proof.
  intros Hneq Hc Ht. unfold charCodeAt in Hneq. rewrite Ht in Hneq. simpl in Hneq.
  apply Ascii.eqb_eq in Hc. subst c. now rewrite Nat.eqb_refl in Hneq.
Qed.

Lemma differing_head (c : ascii) (s t : string) :
  differing (String c s) t + (String.length (String c s) - String.length t)
  = (if code_neq (Some (nat_of_ascii c)) (charCodeAt t 0) then 1 else 0)
    + (differing s (string_tail t) + (String.length s - String.length (string_tail t))).
Proof.
  destruct t as [|c' t].
  - assert (H : differing s EmptyString = 0) by now destruct s. simpl. rewrite H. lia.
  - rewrite charCodeAt_head. cbn [code_neq differing string_tail String.length].
    rewrite nat_of_ascii_eqb. destruct (Ascii.eqb c c'); simpl; lia.
Qed.

(** The distance when nothing makes it infinite: the positions at which the
    two signatures differ and the positions of the source past the end of
    the target. *)
Lemma getSignatureDistance_loop_finite s : forall t d e,
  (e = true -> forall i, String.get i s = Some CHAR_DEPENDENT ->
                         String.get i t = Some CHAR_DEPENDENT) ->
  getSignatureDistance_loop (String.length s) 0 d s t e
  = Finite (d + (differing s t + (String.length s - String.length t))).
Proof.
  induction s as [|c s IH]; intros t d e H.
  - simpl. f_equal. destruct t; simpl; lia.
  - rewrite differing_head. cbn [String.length getSignatureDistance_loop].
    rewrite charCodeAt_head, code_is_dependent.
    assert (Htail : e = true -> forall i, String.get i s = Some CHAR_DEPENDENT ->
                      String.get i (string_tail t) = Some CHAR_DEPENDENT).
    { intros He i Hi. specialize (H He (S i) Hi). now destruct t. }
    destruct (code_neq (Some (nat_of_ascii c)) (charCodeAt t 0)) eqn:Hneq.
    + destruct (e && bit_of c) eqn:Hinf.
      * apply andb_true_iff in Hinf as [He Hc]. exfalso.
        apply (get_head_dependent _ _ Hneq Hc). apply (H He 0). simpl.
        apply Ascii.eqb_eq in Hc. now subst c.
      * rewrite getSignatureDistance_loop_tail, (IH _ _ _ Htail). f_equal. lia.
    + rewrite getSignatureDistance_loop_tail, (IH _ _ _ Htail). f_equal.
Qed.

(** The distance with [enforceSubset] when the source has an ['X'] that
    the target lacks, be it past the end of the target. *)
Lemma getSignatureDistance_loop_infinite s : forall t d,
  (exists i, String.get i s = Some CHAR_DEPENDENT
             /\ String.get i t <> Some CHAR_DEPENDENT) ->
  getSignatureDistance_loop (String.length s) 0 d s t true = Infinity.
Proof.
  induction s as [|c s IH]; intros t d [i [Hs Ht]]; [now destruct i|].
  cbn [String.length getSignatureDistance_loop].
  rewrite charCodeAt_head, code_is_dependent.
  assert (Hrest : bit_of c = false
                  \/ code_neq (Some (nat_of_ascii c)) (charCodeAt t 0) = false ->
                  exists j, String.get j s = Some CHAR_DEPENDENT
                            /\ String.get j (string_tail t) <> Some CHAR_DEPENDENT).
  { intros Hhead. destruct i as [|i].
    - exfalso. simpl in Hs. injection Hs as Hc. destruct Hhead as [Hb|Hneq].
      + subst c. discriminate.
      + destruct t as [|c' t]; [discriminate|].
        rewrite charCodeAt_head in Hneq. cbn [code_neq] in Hneq.
        apply negb_false_iff in Hneq. rewrite nat_of_ascii_eqb in Hneq.
        apply Ascii.eqb_eq in Hneq. simpl in Ht. congruence.
    - exists i. split; [exact Hs|]. now destruct t. }
  destruct (code_neq (Some (nat_of_ascii c)) (charCodeAt t 0)) eqn:Hneq.
  - destruct (bit_of c) eqn:Hc; [reflexivity|]. cbn [andb].
    rewrite getSignatureDistance_loop_tail. apply IH. auto.
  - rewrite getSignatureDistance_loop_tail. apply IH. auto.
Qed.

(** Signatures of different lengths: the length of the source governs.
    [mergeSignatures] returns a signature over ['X'] and ['_'] that has the
    length of its source, whatever the target is, with an ['X'] at the
    positions where the source or the target has one: a target that is too
    short counts as ['_'] past its end, and what is appended to a target
    makes no difference when it is made of ['_']. For the distance every
    position past the end of the target differs: without [enforceSubset]
    the distance is the number of positions at which the two differ plus the
    number of positions of the source past the end of the target; with
    [enforceSubset] it is infinite when the source has an ['X'] that the
    target lacks, past its end or before, and the same number otherwise. An
    empty source merges to the empty string and is at distance 0 from every
    target. *)
Theorem signatures_of_different_lengths (s t : string) (enforceSubset : bool) :
  String.length (mergeSignatures s t) = String.length s
  /\ wf_signature (mergeSignatures s t) = true
  /\ (forall i, i < String.length s ->
        (String.get i (mergeSignatures s t) = Some CHAR_DEPENDENT
         <-> String.get i s = Some CHAR_DEPENDENT
             \/ String.get i t = Some CHAR_DEPENDENT))
  /\ (forall k, mergeSignatures s (t ++ independentSignature k) = mergeSignatures s t)
  /\ getSignatureDistance s t false
     = Finite (differing s t + (String.length s - String.length t))
  /\ ((exists i, String.get i s = Some CHAR_DEPENDENT
                 /\ String.get i t <> Some CHAR_DEPENDENT) ->
      getSignatureDistance s t true = Infinity)
  /\ ((forall i, String.get i s = Some CHAR_DEPENDENT ->
                 String.get i t = Some CHAR_DEPENDENT) ->
      getSignatureDistance s t true
      = Finite (differing s t + (String.length s - String.length t)))
  /\ mergeSignatures EmptyString t = EmptyString
  /\ getSignatureDistance EmptyString t enforceSubset = Finite 0.
Proof.
  unfold mergeSignatures, getSignatureDistance.
  split; [apply mergeSignatures_loop_length|].
  split; [now apply mergeSignatures_loop_wf|].
  split; [|split; [|split; [|split; [|split; [|split; reflexivity]]]]].
  - intros i Hi. rewrite mergeSignatures_loop_get by exact Hi. simpl.
    rewrite <- !code_is_get.
    destruct (code_is (charCodeAt s i) CHAR_CODE_DEPENDENT),
             (code_is (charCodeAt t i) CHAR_CODE_DEPENDENT); simpl;
      intuition discriminate.
  - intros k. apply mergeSignatures_loop_ext. intros j. apply code_is_padded.
  - rewrite getSignatureDistance_loop_finite; [reflexivity|discriminate].
  - apply getSignatureDistance_loop_infinite.
  - intros H. rewrite getSignatureDistance_loop_finite; [reflexivity|auto].
Qed.

(** ** Graph analysis *)

Lemma set_add_all_app xs ys s :
  set_add_all (xs ++ ys) s = set_add_all ys (set_add_all xs s).
Proof. unfold set_add_all. apply fold_left_app. Qed.

Lemma set_add_present x s : In x s -> set_add x s = s.
Proof. intros H. unfold set_add. apply set_has_In in H. now rewrite H. Qed.

Lemma set_add_all_present xs : forall s, (forall x, In x xs -> In x s) -> set_add_all xs s = s.
Proof.
  induction xs as [|x xs IH]; intros s H; [reflexivity|].
  change (set_add_all (x :: xs) s) with (set_add_all xs (set_add x s)).
  rewrite set_add_present by (apply H; now left).
  apply IH. intros y Hy. apply H. now right.
Qed.

Section DynamicallyDependent.
Variables (G : Graph) (dependentEntriesByModule : list (nat * list nat)).

(** The inner loop over the importers of one dynamic entry. *)
Local Abbreviation addImporters :=
  (forEach
     (fun importer dynamicDependentEntries =>
        match map_get importer dependentEntriesByModule with
        | None => TypeError
        | Some entries => Ok (set_add_all entries dynamicDependentEntries)
        end)).

Lemma addImporters_Ok importers : forall dependent added,
  addImporters importers dependent = Ok added ->
  NoDup dependent ->
  NoDup added
  /\ (forall importer, In importer importers ->
        map_get importer dependentEntriesByModule <> None)
  /\ forall e, In e added
       <-> In e dependent
           \/ exists importer entries,
                In importer importers
                /\ map_get importer dependentEntriesByModule = Some entries
                /\ In e entries.
Proof.
  induction importers as [|importer importers IH]; intros dependent added Hrun Hnd;
    simpl in Hrun.
  - injection Hrun as <-. split; [assumption|]. split; [intros ? []|].
    intros e. split; [auto|]. intros [H|[i [es [[] _]]]]. exact H.
  - destruct (map_get importer dependentEntriesByModule) as [entries|] eqn:Hget;
      [|discriminate].
    simpl in Hrun. apply IH in Hrun as [Hnd' [Hall Hin]];
      [|now apply set_add_all_NoDup].
    split; [assumption|]. split.
    + intros i [<-|Hi]; [congruence|now apply Hall].
    + intros e. rewrite Hin, set_add_all_In. split.
      * intros [[H|H]|[i [es [Hi [Hes He]]]]].
        -- right. exists importer, entries. split; [now left|auto].
        -- now left.
        -- right. exists i, es. split; [now right|auto].
      * intros [H|[i [es [[<-|Hi] [Hes He]]]]]; auto.
        -- rewrite Hget in Hes. injection Hes as <-. auto.
        -- right. exists i, es. auto.
Qed.

Lemma addImporters_TypeError importers : forall dependent,
  addImporters importers dependent = TypeError ->
  exists importer, In importer importers
                   /\ map_get importer dependentEntriesByModule = None.
Proof.
  induction importers as [|importer importers IH]; intros dependent Hrun; simpl in Hrun;
    [discriminate|].
  destruct (map_get importer dependentEntriesByModule) as [entries|] eqn:Hget.
  - simpl in Hrun. apply IH in Hrun as [i [Hi Hnone]]. exists i. split; [now right|auto].
  - exists importer. split; [now left|auto].
Qed.
End DynamicallyDependent.

Section DynamicallyDependentEntries.
Variables (G : Graph) (dependentEntriesByModule : list (nat * list nat)).

(** The values of a map are sets. *)
Local Abbreviation sets_in m := (forall k v, map_get k m = Some v -> NoDup v).

(** [entry] is among the entries of an importer of [dynamicEntry]. *)
Local Abbreviation imported_by dynamicEntry entry :=
  (exists importer entries,
     In importer (importersOf G dynamicEntry)
     /\ map_get importer dependentEntriesByModule = Some entries
     /\ In entry entries).

Local Abbreviation body :=
  (fun dynamicEntry dynamicallyDependentEntriesByDynamicEntry =>
     let '(dynamicDependentEntries, byDynamicEntry) :=
       getOrCreate dynamicallyDependentEntriesByDynamicEntry dynamicEntry [] in
     added <- forEach
                (fun importer dynamicDependentEntries =>
                   match map_get importer dependentEntriesByModule with
                   | None => TypeError
                   | Some entries => Ok (set_add_all entries dynamicDependentEntries)
                   end)
                (includedDynamicImporters (getModule G dynamicEntry)
                 ++ implicitlyLoadedAfter (getModule G dynamicEntry))
                dynamicDependentEntries ;;
     Ok (map_set dynamicEntry added byDynamicEntry)).

Lemma dynamicEntry_step d acc res :
  body d acc = Ok res -> sets_in acc ->
  map fst res = set_add d (map fst acc)
  /\ sets_in res
  /\ (forall importer, In importer (importersOf G d) ->
        map_get importer dependentEntriesByModule <> None)
  /\ forall k e, assigned_to res k e
       <-> assigned_to acc k e \/ (k = d /\ imported_by d e).
Proof.
  intros Hrun Hsets. simpl in Hrun.
  pose proof (getOrCreate_fst_In acc d) as Hfst.
  pose proof (assigned_to_getOrCreate acc d) as Hsnd.
  pose proof (getOrCreate_keys acc d (@nil nat)) as Hkeys.
  assert (Hnd0 : NoDup (fst (getOrCreate acc d []))).
  { unfold getOrCreate. destruct (map_get d acc) as [v|] eqn:E; simpl;
      [eapply Hsets; eauto|constructor]. }
  pose proof (fun k' => @getOrCreate_other _ acc d k' (@nil nat)) as Hother.
  destruct (getOrCreate acc d []) as [dependent acc'].
  simpl in Hfst, Hsnd, Hkeys, Hnd0, Hother.
  apply bind_Ok_inv in Hrun as [added [Hadd Hres]]. injection Hres as <-.
  apply addImporters_Ok in Hadd as [Hnd [Hall Hin]]; [|assumption].
  split; [|split; [|split; [exact Hall|]]].
  - rewrite map_set_keys_set_add, Hkeys. apply set_add_present.
    apply set_add_In. now left.
  - intros k v Hk. destruct (Nat.eq_dec k d) as [->|Hne].
    + rewrite map_get_set_same in Hk. now injection Hk as <-.
    + rewrite map_get_set_other in Hk by assumption.
      rewrite Hother in Hk by assumption. eapply Hsets; eauto.
  - intros k e. destruct (Nat.eq_dec k d) as [->|Hne].
    + rewrite assigned_to_set_same, Hin, Hfst. split.
      * intros [H|H]; auto.
      * intros [H|[_ H]]; auto.
    + rewrite assigned_to_set_other, Hsnd by assumption. split; [auto|].
      intros [H|[H _]]; [assumption|contradiction].
Qed.

Lemma dynamicEntries_Ok ds : forall acc res,
  forEach body ds acc = Ok res -> sets_in acc ->
  map fst res = set_add_all ds (map fst acc)
  /\ sets_in res
  /\ (forall d importer, In d ds -> In importer (importersOf G d) ->
        map_get importer dependentEntriesByModule <> None)
  /\ forall k e, assigned_to res k e
       <-> assigned_to acc k e \/ (In k ds /\ imported_by k e).
Proof.
  induction ds as [|d ds IH]; intros acc res Hrun Hsets.
  - simpl in Hrun. injection Hrun as <-. split; [reflexivity|]. split; [assumption|].
    split; [intros ? ? []|]. intros k e. split; [auto|]. intros [H|[[] _]]. exact H.
  - cbn [forEach] in Hrun. apply bind_Ok_inv in Hrun as [acc1 [Hstep Hrest]].
    apply dynamicEntry_step in Hstep as [Hk1 [Hs1 [Hall1 Hin1]]]; [|assumption].
    apply IH in Hrest as [Hk [Hs [Hall Hin]]]; [|assumption].
    split; [|split; [assumption|split]].
    + rewrite Hk, Hk1. reflexivity.
    + intros d' importer [<-|Hd']; [apply Hall1|now apply Hall].
    + intros k e. rewrite Hin, Hin1. split.
      * intros [[H|[-> H]]|[Hk' H]]; auto.
        -- right. split; [now left|assumption].
        -- right. split; [now right|assumption].
      * intros [H|[[<-|Hk'] H]]; auto.
Qed.

Lemma dynamicEntries_TypeError ds : forall acc,
  forEach body ds acc = TypeError ->
  exists d importer,
    In d ds /\ In importer (importersOf G d)
    /\ map_get importer dependentEntriesByModule = None.
Proof.
  induction ds as [|d ds IH]; intros acc Hrun; [discriminate|].
  cbn [forEach] in Hrun. destruct (body d acc) as [acc1| |] eqn:Hstep.
  - simpl in Hrun. apply IH in Hrun as [d' [i [Hd [Hi Hnone]]]].
    exists d', i. split; [now right|auto].
  - clear Hrun. simpl in Hstep. destruct (getOrCreate acc d []) as [dependent acc'].
    destruct (forEach _ _ dependent) as [added| |] eqn:Hadd; try discriminate.
    apply addImporters_TypeError in Hadd as [i [Hi Hnone]].
    exists d, i. split; [now left|auto].
  - discriminate.
Qed.
End DynamicallyDependentEntries.

(** [getDynamicallyDependentEntriesByDynamicEntry] throws exactly when some
    importer of some dynamic entry has no entry set in
    [dependentEntriesByModule]. When it returns, its keys are the dynamic
    entries in iteration order, every value is a set, and the entries of a
    dynamic entry are the entries of its importers, which may be none. *)
Theorem getDynamicallyDependentEntriesByDynamicEntry_spec (G : Graph)
    (dependentEntriesByModule : list (nat * list nat)) (dynamicEntries : list nat) :
  let outcome :=
    getDynamicallyDependentEntriesByDynamicEntry G dependentEntriesByModule
      dynamicEntries in
  (outcome = TypeError
   <-> exists dynamicEntry importer,
         In dynamicEntry dynamicEntries /\ In importer (importersOf G dynamicEntry)
         /\ map_get importer dependentEntriesByModule = None)
  /\ forall byDynamicEntry,
       outcome = Ok byDynamicEntry ->
       map fst byDynamicEntry = set_of_list dynamicEntries
       /\ (forall dynamicEntry entries,
             map_get dynamicEntry byDynamicEntry = Some entries -> NoDup entries)
       /\ forall dynamicEntry entry,
            assigned_to byDynamicEntry dynamicEntry entry
            <-> In dynamicEntry dynamicEntries
                /\ exists importer entries,
                     In importer (importersOf G dynamicEntry)
                     /\ map_get importer dependentEntriesByModule = Some entries
                     /\ In entry entries.
Proof.
  intros outcome.
  assert (Hok : forall byDynamicEntry,
    outcome = Ok byDynamicEntry ->
    map fst byDynamicEntry = set_of_list dynamicEntries
    /\ (forall dynamicEntry entries,
          map_get dynamicEntry byDynamicEntry = Some entries -> NoDup entries)
    /\ (forall d importer, In d dynamicEntries -> In importer (importersOf G d) ->
          map_get importer dependentEntriesByModule <> None)
    /\ forall dynamicEntry entry,
         assigned_to byDynamicEntry dynamicEntry entry
         <-> In dynamicEntry dynamicEntries
             /\ exists importer entries,
                  In importer (importersOf G dynamicEntry)
                  /\ map_get importer dependentEntriesByModule = Some entries
                  /\ In entry entries).
  { intros byDynamicEntry Hrun. subst outcome.
    unfold getDynamicallyDependentEntriesByDynamicEntry in Hrun.
    apply dynamicEntries_Ok in Hrun as [Hkeys [Hsets [Hall Hin]]]; [|discriminate].
    split; [exact Hkeys|]. split; [exact Hsets|]. split; [exact Hall|].
    intros d e. rewrite Hin. split; [|auto].
    intros [[v [Hv _]]|H]; [discriminate|exact H]. }
  split.
  - split.
    + intros Hrun. subst outcome. now apply dynamicEntries_TypeError in Hrun.
    + intros [d [importer [Hd [Hi Hnone]]]].
      destruct outcome as [byDynamicEntry| |] eqn:Hrun; [|reflexivity|].
      * destruct (Hok byDynamicEntry eq_refl) as [_ [_ [Hall _]]].
        destruct (Hall d importer Hd Hi Hnone).
      * subst outcome.
        now apply getDynamicallyDependentEntriesByDynamicEntry_total in Hrun.
  - intros byDynamicEntry Hrun.
    destruct (Hok byDynamicEntry Hrun) as [H1 [H2 [_ H3]]]. auto.
Qed.

(** *** The traversals of [analyzeModuleGraph] *)

Lemma analyzeModuleGraph_module_inv G currentEntry module st st' :
  analyzeModuleGraph_module G currentEntry module st = Ok st' ->
  let a := at_state st in
  let created := getOrCreate (as_dependentEntriesByModule a) module [] in
  at_modulesToHandle st'
  = enqueue [] (getDependenciesToBeIncluded (getModule G module)) (at_modulesToHandle st)
  /\ as_dependentEntriesByModule (at_state st')
     = map_set module (set_add currentEntry (fst created)) (snd created)
  /\ (as_dynamicEntries (at_state st'), as_allEntries (at_state st'))
     = addImplicitlyLoadedBefore (implicitlyLoadedBefore (getModule G module))
         (addDynamicImports G (dynamicImports (getModule G module))
            (as_dynamicEntries a, as_allEntries a)).
Proof.
  intros H. cbv zeta. unfold analyzeModuleGraph_module in H.
  destruct (getOrCreate (as_dependentEntriesByModule (at_state st)) module [])
    as [dependentEntries byModule].
  injection H as <-. simpl. split; [reflexivity|]. split; [reflexivity|].
  unfold addImplicitlyLoadedBefore, addDynamicImports.
  now destruct (fold_left _ (implicitlyLoadedBefore (getModule G module)) _).
Qed.

Lemma entries_split_add base dynamicEntries allEntries r :
  entries_split base (dynamicEntries, allEntries) -> ~ In r allEntries ->
  entries_split base (set_add r dynamicEntries, set_add r allEntries)
  /\ set_add r allEntries = allEntries ++ [r].
Proof.
  unfold entries_split. simpl. intros [Heq Hnd] Hr.
  assert (Hd : ~ In r dynamicEntries)
    by (intros H; apply Hr; rewrite Heq; apply in_or_app; now right).
  unfold set_add. apply set_has_false in Hr as Hr'. apply set_has_false in Hd as Hd'.
  rewrite Hr', Hd'. split; [|reflexivity]. split.
  - now rewrite Heq, app_assoc.
  - apply NoDup_app; [assumption|repeat constructor; intros []|].
    intros y Hy [<-|[]]. contradiction.
Qed.

Lemma addDynamicImports_spec G base resolutions : forall sets,
  entries_split base sets ->
  let sets' := addDynamicImports G resolutions sets in
  entries_split base sets'
  /\ (exists new, snd sets' = snd sets ++ new)
  /\ forall d, In d (snd sets')
       <-> In d (snd sets)
           \/ (In (ResModule d) resolutions
               /\ includedDynamicImporters (getModule G d) <> []).
Proof.
  unfold addDynamicImports.
  induction resolutions as [|resolution resolutions IH]; intros [dyn all] Hsplit; simpl.
  - split; [assumption|]. split; [exists []; now rewrite app_nil_r|].
    intros d. split; [auto|]. intros [H|[[] _]]. exact H.
  - assert (Hskip : forall r,
      resolution = ResModule r ->
      (0 <? length (includedDynamicImporters (getModule G r))) && negb (set_has r all)
      = false ->
      In r all \/ includedDynamicImporters (getModule G r) = []).
    { intros r _ H. apply andb_false_iff in H as [H|H].
      - right. apply Nat.ltb_ge in H.
        destruct (includedDynamicImporters (getModule G r)); [reflexivity|simpl in H; lia].
      - left. apply negb_false_iff in H. now apply set_has_In. }
    destruct resolution as [r|e|].
    + destruct ((0 <? length (includedDynamicImporters (getModule G r)))
                && negb (set_has r all)) eqn:E.
      * apply andb_true_iff in E as [Hlen Hnot].
        apply negb_true_iff in Hnot. apply set_has_false in Hnot.
        destruct (entries_split_add r Hsplit Hnot) as [Hsplit' Hadd].
        destruct (IH _ Hsplit') as [H1 [[new H2] H3]]. simpl in H2, H3.
        split; [exact H1|]. split.
        -- exists (r :: new). rewrite H2, Hadd, <- app_assoc. reflexivity.
        -- intros d. rewrite H3, Hadd, in_app_iff. simpl. split.
           ++ intros [[H|[<-|[]]]|[H Hne]]; auto. right. split; [now left|].
              apply Nat.ltb_lt in Hlen. intros H0. rewrite H0 in Hlen. simpl in Hlen. lia.
           ++ intros [H|[[H|H] Hne]]; auto. injection H as <-. auto.
      * destruct (IH _ Hsplit) as [H1 [H2 H3]]. simpl in H2, H3.
        split; [exact H1|]. split; [exact H2|].
        intros d. rewrite H3. split.
        -- intros [H|[H Hne]]; auto.
        -- intros [H|[[H|H] Hne]]; auto. injection H as <-.
           destruct (Hskip r eq_refl E) as [H|H]; [auto|contradiction].
    + destruct (IH _ Hsplit) as [H1 [H2 H3]]. simpl in H2, H3.
      split; [exact H1|]. split; [exact H2|]. intros d. rewrite H3. split.
      * intros [H|[H Hne]]; auto.
      * intros [H|[[H|H] Hne]]; auto. discriminate.
    + destruct (IH _ Hsplit) as [H1 [H2 H3]]. simpl in H2, H3.
      split; [exact H1|]. split; [exact H2|]. intros d. rewrite H3. split.
      * intros [H|[H Hne]]; auto.
      * intros [H|[[H|H] Hne]]; auto. discriminate.
Qed.

Lemma addImplicitlyLoadedBefore_spec base dependencies : forall sets,
  entries_split base sets ->
  let sets' := addImplicitlyLoadedBefore dependencies sets in
  entries_split base sets'
  /\ (exists new, snd sets' = snd sets ++ new)
  /\ forall d, In d (snd sets') <-> In d (snd sets) \/ In d dependencies.
Proof.
  unfold addImplicitlyLoadedBefore.
  induction dependencies as [|dependency dependencies IH]; intros [dyn all] Hsplit; simpl.
  - split; [assumption|]. split; [exists []; now rewrite app_nil_r|].
    intros d. split; [auto|]. intros [H|[]]. exact H.
  - destruct (set_has dependency all) eqn:E; simpl.
    + apply set_has_In in E. destruct (IH _ Hsplit) as [H1 [H2 H3]]. simpl in H2, H3.
      split; [exact H1|]. split; [exact H2|]. intros d. rewrite H3. split.
      * intros [H|H]; auto.
      * intros [H|[<-|H]]; auto.
    + apply set_has_false in E.
      destruct (entries_split_add dependency Hsplit E) as [Hsplit' Hadd].
      destruct (IH _ Hsplit') as [H1 [[new H2] H3]]. simpl in H2, H3.
      split; [exact H1|]. split.
      * exists (dependency :: new). rewrite H2, Hadd, <- app_assoc. reflexivity.
      * intros d. rewrite H3, Hadd, in_app_iff. simpl. split.
        -- intros [[H|[<-|[]]]|H]; auto.
        -- intros [H|[<-|H]]; auto.
Qed.

Section AnalysisTraversal.
Variables (G : Graph) (currentEntry : nat) (a0 : AnalysisState) (base : list nat).
Hypothesis Hsplit0 : entries_split base (as_dynamicEntries a0, as_allEntries a0).

Local Abbreviation included m := (getDependenciesToBeIncluded (getModule G m)).

(** The invariant of the traversal from [currentEntry] when the iterator is
    at slot [i] of the work list. *)
Let P (i : nat) (st : AnalysisTraversal) : Prop :=
  let l := at_modulesToHandle st in
  let a := at_state st in
  (NoDup l /\ nth_error l 0 = Some currentEntry /\ i <= length l)
  /\ (forall m, In m l -> included_path G currentEntry m)
  /\ (forall m d, In m (firstn i l) -> In (DepModule d) (included m) -> In d l)
  /\ (forall m e, assigned_to (as_dependentEntriesByModule a) m e
        <-> assigned_to (as_dependentEntriesByModule a0) m e
            \/ (e = currentEntry /\ In m (firstn i l)))
  /\ (forall m, In m (map fst (as_dependentEntriesByModule a))
        <-> In m (map fst (as_dependentEntriesByModule a0)) \/ In m (firstn i l))
  /\ entries_split base (as_dynamicEntries a, as_allEntries a)
  /\ (exists new, as_allEntries a = as_allEntries a0 ++ new)
  /\ (forall d, In d (as_allEntries a)
        <-> In d (as_allEntries a0) \/ exists m, In m (firstn i l) /\ discovers G m d).

Lemma analysis_P_step i x st st' :
  P i st -> nth_error (at_modulesToHandle st) i = Some x ->
  analyzeModuleGraph_module G currentEntry x st = Ok st' -> P (S i) st'.
Proof.
  intros [[Hnd [Hhd Hle]] [Hpath [Hclosed [Hdep [Hkeys [Hsplit [[new Hnew] Hall]]]]]]]
    Hnth Hbody.
  apply analyzeModuleGraph_module_inv in Hbody as [Hl' [Hby Hsets]].
  destruct (enqueue_prefix [] (included x) (at_modulesToHandle st)) as [l Hl].
  rewrite <- Hl' in Hl.
  assert (Hi : i < length (at_modulesToHandle st)) by (apply nth_error_Some; congruence).
  assert (Hx : In x (at_modulesToHandle st)) by (eapply nth_error_In; eauto).
  assert (Hfirst : firstn (S i) (at_modulesToHandle st')
                   = firstn i (at_modulesToHandle st) ++ [x]).
  { rewrite Hl, firstn_prefix by lia. now apply firstn_snoc. }
  destruct (@addDynamicImports_spec G base (dynamicImports (getModule G x)) _ Hsplit)
    as [Hsplit1 [[new1 Hnew1] Hin1]].
  destruct (@addImplicitlyLoadedBefore_spec base (implicitlyLoadedBefore (getModule G x))
              _ Hsplit1) as [Hsplit2 [[new2 Hnew2] Hin2]].
  rewrite <- Hsets in Hsplit2, Hnew2, Hin2. simpl in Hnew1, Hin1, Hnew2, Hin2.
  unfold P. rewrite Hfirst. repeat split.
  - rewrite Hl'. now apply enqueue_NoDup.
  - rewrite Hl. now apply prefix_nth_error.
  - rewrite Hl, length_app. lia.
  - intros m Hm. rewrite Hl' in Hm. apply enqueue_In in Hm as [Hm|[Hm _]];
      [now apply Hpath|].
    eapply included_step; [apply Hpath; exact Hx|exact Hm].
  - intros m d Hm Hd. apply in_app_iff in Hm as [Hm|[<-|[]]].
    + rewrite Hl. apply in_or_app. left. eapply Hclosed; eauto.
    + rewrite Hl'. apply enqueue_In. right. split; [assumption|intros []].
  - rewrite Hby. intros H. destruct (Nat.eq_dec m x) as [->|Hne].
    + apply assigned_to_set_same, set_add_In in H as [->|H].
      * right. split; [reflexivity|]. apply in_or_app. right. now left.
      * apply getOrCreate_fst_In, Hdep in H as [H|[-> H]]; [now left|].
        right. split; [reflexivity|]. apply in_or_app. now left.
    + apply assigned_to_set_other in H; [|assumption].
      apply assigned_to_getOrCreate, Hdep in H as [H|[-> H]]; [now left|].
      right. split; [reflexivity|]. apply in_or_app. now left.
  - rewrite Hby. intros H. destruct (Nat.eq_dec m x) as [->|Hne].
    + apply assigned_to_set_same, set_add_In.
      destruct H as [H|[-> H]].
      * right. apply getOrCreate_fst_In, Hdep. now left.
      * apply in_app_iff in H as [H|_]; [|now left].
        right. apply getOrCreate_fst_In, Hdep. right. auto.
    + apply assigned_to_set_other; [assumption|].
      apply assigned_to_getOrCreate, Hdep.
      destruct H as [H|[-> H]]; [now left|].
      apply in_app_iff in H as [H|[H|[]]]; [right; auto|]. now subst.
  - rewrite Hby, map_set_keys_set_add, getOrCreate_keys. intros H.
    apply set_add_In in H as [->|H]; [right; apply in_or_app; right; now left|].
    apply set_add_In in H as [->|H]; [right; apply in_or_app; right; now left|].
    apply Hkeys in H as [H|H]; [now left|]. right. apply in_or_app. now left.
  - rewrite Hby, map_set_keys_set_add, getOrCreate_keys. intros H.
    rewrite !set_add_In, Hkeys. destruct H as [H|H]; [auto|].
    apply in_app_iff in H as [H|[H|[]]]; auto.
  - apply Hsplit2.
  - apply Hsplit2.
  - exists (new ++ new1 ++ new2). rewrite Hnew2, Hnew1, Hnew, <- !app_assoc. reflexivity.
  - intros H. apply Hin2 in H as [H|H].
    + apply Hin1 in H as [H|H].
      * apply Hall in H as [H|[m [Hm Hd]]]; [now left|].
        right. exists m. split; [apply in_or_app; now left|assumption].
      * right. exists x. split; [apply in_or_app; right; now left|]. now left.
    + right. exists x. split; [apply in_or_app; right; now left|]. now right.
  - intros H. apply Hin2. destruct H as [H|[m [Hm Hd]]].
    + left. apply Hin1. left. apply Hall. now left.
    + apply in_app_iff in Hm as [Hm|[<-|[]]].
      * left. apply Hin1. left. apply Hall. right. eauto.
      * destruct Hd as [Hd|Hd]; [|now right]. left. apply Hin1. now right.
Qed.

Lemma included_path_worklist l :
  In currentEntry l ->
  (forall m d, In m l -> In (DepModule d) (included m) -> In d l) ->
  forall m, included_path G currentEntry m -> In m l.
Proof.
  intros Hentry Hclosed m Hm. induction Hm as [|m d _ IH Hd]; [assumption|].
  eapply Hclosed; eauto.
Qed.

(** What one traversal of [analyzeModuleGraph] does to the analysis state. *)
Lemma analyzeModuleGraph_entry_spec a :
  analyzeModuleGraph_entry G currentEntry a0 = Ok a ->
  entries_split base (as_dynamicEntries a, as_allEntries a)
  /\ (exists new, as_allEntries a = as_allEntries a0 ++ new)
  /\ (forall m e, assigned_to (as_dependentEntriesByModule a) m e
        <-> assigned_to (as_dependentEntriesByModule a0) m e
            \/ (e = currentEntry /\ included_path G currentEntry m))
  /\ (forall m, In m (map fst (as_dependentEntriesByModule a))
        <-> In m (map fst (as_dependentEntriesByModule a0))
            \/ included_path G currentEntry m)
  /\ (forall d, In d (as_allEntries a)
        <-> In d (as_allEntries a0)
            \/ exists m, included_path G currentEntry m /\ discovers G m d).
Proof.
  unfold analyzeModuleGraph_entry. intros Hrun.
  apply bind_Ok_inv in Hrun as [st [Hrun Hst]]. injection Hst as <-.
  eapply forOf_invariant with (P := P) in Hrun
    as [j [[[Hnd [Hhd Hle]] [Hpath [Hclosed [Hdep [Hkeys [Hsplit [Hnew Hall]]]]]]] Hj]].
  - rewrite firstn_all2 in * by assumption.
    assert (Hreach : forall m, In m (at_modulesToHandle st)
                               <-> included_path G currentEntry m).
    { intros m. split; [apply Hpath|]. apply included_path_worklist; [|assumption].
      eapply nth_error_In; eauto. }
    split; [assumption|]. split; [assumption|]. split; [|split].
    + intros m e. rewrite Hdep, Hreach. reflexivity.
    + intros m. rewrite Hkeys, Hreach. reflexivity.
    + intros d. rewrite Hall. split.
      * intros [H|[m [Hm Hd]]]; [now left|]. right. exists m. split; [now apply Hreach|auto].
      * intros [H|[m [Hm Hd]]]; [now left|]. right. exists m. split; [now apply Hreach|auto].
  - exact analysis_P_step.
  - unfold P. simpl. repeat split; try tauto.
    + repeat constructor. intros [].
    + lia.
    + intros m [<-|[]]. constructor.
    + apply Hsplit0.
    + apply Hsplit0.
    + exists []. now rewrite app_nil_r.
    + intros [H|[m [[] _]]]. exact H.
Qed.
End AnalysisTraversal.

Lemma set_of_list_NoDup_id l : NoDup l -> set_of_list l = l.
Proof.
  unfold set_of_list. intros H.
  assert (Hgen : forall s, NoDup (s ++ l) -> set_add_all l s = s ++ l).
  { clear H. induction l as [|x l IH]; intros s Hnd; [now rewrite app_nil_r|].
    change (set_add_all (x :: l) s) with (set_add_all l (set_add x s)).
    assert (Hx : ~ In x s).
    { intros Hin. apply (NoDup_app_disjoint _ _ x Hnd Hin). now left. }
    unfold set_add. apply set_has_false in Hx. rewrite Hx.
    rewrite IH; rewrite <- app_assoc; [reflexivity|exact Hnd]. }
  apply (Hgen []). exact H.
Qed.

Section AnalysisEntries.
Variables (G : Graph) (entries : list nat).

Local Abbreviation base := (set_of_list entries).

(** The invariant of the loop over [allEntries] when the iterator is at
    slot [k]. *)
Let Q (k : nat) (a : AnalysisState) : Prop :=
  let all := as_allEntries a in
  (entries_split base (as_dynamicEntries a, all) /\ k <= length all)
  /\ (forall m e, assigned_to (as_dependentEntriesByModule a) m e
        <-> In e (firstn k all) /\ included_path G e m)
  /\ (forall m, In m (map fst (as_dependentEntriesByModule a))
        <-> exists e, In e (firstn k all) /\ included_path G e m)
  /\ (forall e m d, In e (firstn k all) -> included_path G e m -> discovers G m d ->
                    In d all)
  /\ (forall p d, nth_error all p = Some d -> length base <= p ->
        exists q e m, q < p /\ q < k /\ nth_error all q = Some e
                      /\ included_path G e m /\ discovers G m d).

Lemma analysis_Q_step k e a a' :
  Q k a -> nth_error (as_allEntries a) k = Some e ->
  analyzeModuleGraph_entry G e a = Ok a' -> Q (S k) a'.
Proof.
  intros [[Hsplit Hle] [Hdep [Hkeys [Hclosed Hjust]]]] Hnth Hrun.
  apply (@analyzeModuleGraph_entry_spec G e a base Hsplit) in Hrun
    as [Hsplit' [[new Hnew] [Hdep' [Hkeys' Hall']]]].
  assert (Hk : k < length (as_allEntries a)) by (apply nth_error_Some; congruence).
  assert (Hfirst : firstn (S k) (as_allEntries a') = firstn k (as_allEntries a) ++ [e]).
  { rewrite Hnew, firstn_prefix by lia. now apply firstn_snoc. }
  unfold Q. rewrite Hfirst. repeat split.
  - apply Hsplit'.
  - apply Hsplit'.
  - rewrite Hnew, length_app. lia.
  - apply Hdep' in H as [H|[-> H]].
    + apply Hdep in H as [H _]. apply in_or_app. now left.
    + apply in_or_app. right. now left.
  - apply Hdep' in H as [H|[-> H]]; [|assumption]. now apply Hdep in H.
  - intros [Hin Hpath]. apply Hdep'. apply in_app_iff in Hin as [Hin|[<-|[]]].
    + left. apply Hdep. auto.
    + right. auto.
  - intros H. apply Hkeys' in H as [H|H].
    + apply Hkeys in H as [e' [He' Hp]]. exists e'. split; [apply in_or_app; now left|auto].
    + exists e. split; [apply in_or_app; right; now left|auto].
  - intros [e' [He' Hp]]. apply Hkeys'. apply in_app_iff in He' as [He'|[<-|[]]].
    + left. apply Hkeys. eauto.
    + now right.
  - intros e' m d He' Hp Hd. apply Hall'. apply in_app_iff in He' as [He'|[<-|[]]].
    + left. eapply Hclosed; eauto.
    + right. eauto.
  - intros p d Hp Hbase.
    destruct (Nat.lt_ge_cases p (length (as_allEntries a))) as [Hlt|Hge].
    + rewrite Hnew, nth_error_app1 in Hp by assumption.
      destruct (Hjust p d Hp Hbase) as [q [e' [m [Hq [Hqk [Hnq [Hpath Hd]]]]]]].
      exists q, e', m. rewrite Hnew. repeat split; auto; try lia.
      now apply prefix_nth_error.
    + assert (Hd : In d (as_allEntries a')) by (eapply nth_error_In; eauto).
      assert (Hnot : ~ In d (as_allEntries a)).
      { intros Hin. destruct Hsplit' as [_ Hnd']. simpl in Hnd'. rewrite Hnew in Hnd', Hp.
        rewrite nth_error_app2 in Hp by assumption. apply nth_error_In in Hp.
        exact (NoDup_app_disjoint _ _ d Hnd' Hin Hp). }
      apply Hall' in Hd as [Hd|[m [Hpath Hd]]]; [contradiction|].
      exists k, e, m. rewrite Hnew. repeat split; auto; try lia.
      now apply prefix_nth_error.
Qed.

(** The state in which the loop over [allEntries] ends. *)
Lemma analysis_loop_spec a :
  forOf as_allEntries (analyzeModuleGraph_entry G) (traversal_fuel G + length entries) 0
    {| as_dynamicEntries := []; as_dependentEntriesByModule := [];
       as_allEntries := set_of_list entries |} = Ok a ->
  let all := as_allEntries a in
  all = base ++ as_dynamicEntries a /\ NoDup all
  /\ (forall m e, assigned_to (as_dependentEntriesByModule a) m e
        <-> In e all /\ included_path G e m)
  /\ (forall m, In m (map fst (as_dependentEntriesByModule a))
        <-> exists e, In e all /\ included_path G e m)
  /\ (forall d, In d all <-> is_entry G entries d).
Proof.
  intros Hrun.
  eapply forOf_invariant with (P := Q) in Hrun
    as [j [[[Hsplit Hle] [Hdep [Hkeys [Hclosed Hjust]]]] Hj]].
  - rewrite firstn_all2 in * by assumption. destruct Hsplit as [Heq Hnd]. simpl in *.
    split; [assumption|]. split; [assumption|]. split; [assumption|].
    split; [assumption|].
    assert (Hpos : forall p d, nth_error (as_allEntries a) p = Some d ->
                               is_entry G entries d).
    { intros p. induction p as [p IH] using lt_wf_ind. intros d Hp.
      destruct (Nat.lt_ge_cases p (length base)) as [Hlt|Hge].
      - rewrite Heq, nth_error_app1 in Hp by assumption. apply nth_error_In in Hp.
        apply entry_static. now apply set_of_list_In.
      - destruct (Hjust p d Hp Hge) as [q [e [m [Hq [_ [Hnq [Hpath Hd]]]]]]].
        eapply entry_dynamic; eauto. }
    intros d. split.
    + intros Hd. apply In_nth_error in Hd as [p Hp]. eauto.
    + intros Hd. induction Hd as [e He|e m d _ IH Hpath Hd].
      * rewrite Heq. apply in_or_app. left. now apply set_of_list_In.
      * eapply Hclosed; eauto.
  - exact analysis_Q_step.
  - unfold Q. simpl.
    split; [split; [split; [now rewrite app_nil_r|apply set_of_list_NoDup]|lia]|].
    split; [|split; [|split]].
    + intros m e. split; [intros [v [Hv _]]; discriminate|intros [[] _]].
    + intros m. split; [intros []|intros [e [[] _]]].
    + intros e m d [].
    + intros p d Hp Hge. exfalso.
      assert (p < length base) by (apply nth_error_Some; congruence). lia.
Qed.
End AnalysisEntries.

Lemma forOf_no_throw {St : Type} (iterated : St -> list nat)
    (body : nat -> St -> result St) :
  (forall x st, body x st <> TypeError) ->
  forall fuel i st, forOf iterated body fuel i st <> TypeError.
Proof.
  intros Hbody. induction fuel as [|fuel IH]; intros i st; simpl; [discriminate|].
  destruct (nth_error (iterated st) i) as [x|]; [|discriminate].
  specialize (Hbody x st). destruct (body x st) as [st'| |]; simpl;
    [apply IH|contradiction|discriminate].
Qed.

Lemma analyzeModuleGraph_entry_no_throw G currentEntry a :
  analyzeModuleGraph_entry G currentEntry a <> TypeError.
Proof.
  unfold analyzeModuleGraph_entry.
  assert (Hbody : forall x st, analyzeModuleGraph_module G currentEntry x st <> TypeError).
  { intros x st. unfold analyzeModuleGraph_module.
    destruct (getOrCreate (as_dependentEntriesByModule (at_state st)) x []). discriminate. }
  pose proof (forOf_no_throw at_modulesToHandle _ Hbody (traversal_fuel G) 0
                {| at_state := a; at_modulesToHandle := [currentEntry] |}) as Hloop.
  destruct (forOf _ _ _ _ _) as [st| |]; simpl; [discriminate|contradiction|discriminate].
Qed.

(** The loop over [allEntries] of [analyzeModuleGraph] ends, in a state
    [analysis_loop_spec] describes. *)
Lemma analysis_loop_returns G entries :
  exists a,
    forOf as_allEntries (analyzeModuleGraph_entry G) (traversal_fuel G + length entries) 0
      {| as_dynamicEntries := []; as_dependentEntriesByModule := [];
         as_allEntries := set_of_list entries |} = Ok a.
Proof.
  destruct (forOf _ _ _ _ _) as [a| |] eqn:Hrun; [eauto| |].
  - exfalso. revert Hrun. apply forOf_no_throw. apply analyzeModuleGraph_entry_no_throw.
  - exfalso. revert Hrun.
    apply (@forOf_fuel _ as_allEntries (analyzeModuleGraph_entry G)
             (fun a => NoDup (as_allEntries a)
                       /\ incl (as_allEntries a) (entries ++ graph_universe G))
             (length entries + length (graph_universe G))).
    + intros x a a' Ha _ Hb. eapply analyzeModuleGraph_entry_entries; eauto.
    + intros x a _ _. apply analyzeModuleGraph_entry_total.
    + intros a [Hnd Hincl]. rewrite <- length_app. now apply NoDup_incl_le.
    + simpl. split; [apply set_of_list_NoDup|].
      intros y Hy. rewrite set_of_list_In in Hy. apply in_or_app. now left.
    + unfold traversal_fuel. lia.
    + unfold traversal_fuel. lia.
Qed.

(** The dynamic entries of a final state are the entries that are not
    given. *)
Lemma dynamicEntries_In (base dynamicEntries all : list nat) d :
  all = base ++ dynamicEntries -> NoDup all ->
  (In d dynamicEntries <-> In d all /\ ~ In d base).
Proof.
  intros -> Hnd. split.
  - intros Hd. split; [apply in_or_app; now right|].
    intros Hb. exact (NoDup_app_disjoint _ _ d Hnd Hb Hd).
  - intros [Hd Hb]. apply in_app_iff in Hd as [Hd|Hd]; [contradiction|assumption].
Qed.

(** [allEntries] as [analyzeModuleGraph] returns it: the given entries
    without repetition, in the order given, followed by the dynamic entries,
    which are the keys of [dynamicallyDependentEntriesByDynamicEntry] in the
    same order. No module is in it twice, and a module is in it exactly when
    it is an entry: given, or imported dynamically with an included import,
    or named in [implicitlyLoadedBefore], by a module that an entry reaches
    through dependencies to be included. *)
Theorem analyzeModuleGraph_allEntries (G : Graph) (entries : list nat) (a : Analysis) :
  analyzeModuleGraph G entries = Ok a ->
  allEntries a
  = set_of_list entries ++ map fst (dynamicallyDependentEntriesByDynamicEntry a)
  /\ NoDup (allEntries a)
  /\ (forall entry, In entry (map fst (dynamicallyDependentEntriesByDynamicEntry a)) ->
                    ~ In entry entries)
  /\ forall entry, In entry (allEntries a) <-> is_entry G entries entry.
Proof.
  unfold analyzeModuleGraph. intros Hrun.
  apply bind_Ok_inv in Hrun as [a0 [Hloop Hrun]].
  apply bind_Ok_inv in Hrun as [byDynamicEntry [Hdyn Hrun]]. injection Hrun as <-.
  apply analysis_loop_spec in Hloop as [Heq [Hnd [_ [_ Hentries]]]]. simpl.
  unfold getDynamicallyDependentEntriesByDynamicEntry in Hdyn.
  apply dynamicEntries_Ok in Hdyn as [Hkeys _]; [|discriminate].
  assert (Hnd' : NoDup (as_dynamicEntries a0))
    by (rewrite Heq in Hnd; now apply NoDup_app_remove_l in Hnd).
  change (set_add_all (as_dynamicEntries a0) (map fst []))
    with (set_of_list (as_dynamicEntries a0)) in Hkeys.
  rewrite set_of_list_NoDup_id in Hkeys by assumption. rewrite Hkeys.
  split; [assumption|]. split; [assumption|]. split; [|assumption].
  intros entry Hd He. apply (@dynamicEntries_In _ _ _ entry Heq Hnd) in Hd as [_ Hd].
  apply Hd. now apply set_of_list_In.
Qed.

Lemma analyzeModuleGraph_allEntries_witness :
  allEntries Examples.elisionAnalysis
  = set_of_list [0]
    ++ map fst (dynamicallyDependentEntriesByDynamicEntry Examples.elisionAnalysis)
  /\ NoDup (allEntries Examples.elisionAnalysis)
  /\ (forall entry,
        In entry (map fst (dynamicallyDependentEntriesByDynamicEntry
                             Examples.elisionAnalysis)) ->
        ~ In entry [0])
  /\ forall entry, In entry (allEntries Examples.elisionAnalysis)
                   <-> is_entry Examples.elisionGraph [0] entry.
Proof.
  apply (@analyzeModuleGraph_allEntries Examples.elisionGraph [0] Examples.elisionAnalysis).
  reflexivity.
Defined.

(** The two maps [analyzeModuleGraph] returns. An entry is in the entry set
    of a module in [dependentEntriesByModule] exactly when it reaches the
    module through dependencies to be included; the modules with an entry set
    are the modules some entry reaches. An entry is in the entry set of a
    dynamic entry in [dynamicallyDependentEntriesByDynamicEntry] exactly when
    it reaches one of the importers of the dynamic entry. *)
Theorem analyzeModuleGraph_dependentEntries (G : Graph) (entries : list nat)
    (a : Analysis) :
  analyzeModuleGraph G entries = Ok a ->
  (forall module entry,
      assigned_to (dependentEntriesByModule a) module entry
      <-> is_entry G entries entry /\ included_path G entry module)
  /\ (forall module,
        In module (map fst (dependentEntriesByModule a))
        <-> exists entry, is_entry G entries entry /\ included_path G entry module)
  /\ forall dynamicEntry entry,
       assigned_to (dynamicallyDependentEntriesByDynamicEntry a) dynamicEntry entry
       <-> (is_entry G entries dynamicEntry /\ ~ In dynamicEntry entries)
           /\ exists importer,
                In importer (importersOf G dynamicEntry)
                /\ is_entry G entries entry /\ included_path G entry importer.
Proof.
  unfold analyzeModuleGraph. intros Hrun.
  apply bind_Ok_inv in Hrun as [a0 [Hloop Hrun]].
  apply bind_Ok_inv in Hrun as [byDynamicEntry [Hdyn Hrun]]. injection Hrun as <-.
  apply analysis_loop_spec in Hloop as [Heq [Hnd [Hdep [Hkeys Hentries]]]]. simpl.
  unfold getDynamicallyDependentEntriesByDynamicEntry in Hdyn.
  apply dynamicEntries_Ok in Hdyn as [_ [_ [_ Hin]]]; [|discriminate].
  split; [|split].
  - intros module entry. rewrite Hdep, Hentries. reflexivity.
  - intros module. rewrite Hkeys. split; intros [e [He Hp]]; exists e;
      (split; [now apply Hentries|assumption]).
  - intros d e. rewrite Hin, (@dynamicEntries_In _ _ _ d Heq Hnd), Hentries, set_of_list_In.
    split.
    + intros [[v [Hv _]]|[Hd [importer [es [Hi [Hes He]]]]]]; [discriminate|].
      split; [assumption|]. exists importer. split; [assumption|].
      rewrite <- Hentries. apply Hdep. exists es. auto.
    + intros [Hd [importer [Hi He]]]. right. split; [assumption|].
      rewrite <- Hentries in He. apply Hdep in He as [es [Hes He]].
      exists importer, es. auto.
Qed.

Lemma analyzeModuleGraph_dependentEntries_witness :
  (forall module entry,
      assigned_to (dependentEntriesByModule Examples.elisionAnalysis) module entry
      <-> is_entry Examples.elisionGraph [0] entry
          /\ included_path Examples.elisionGraph entry module)
  /\ (forall module,
        In module (map fst (dependentEntriesByModule Examples.elisionAnalysis))
        <-> exists entry, is_entry Examples.elisionGraph [0] entry
                          /\ included_path Examples.elisionGraph entry module)
  /\ forall dynamicEntry entry,
       assigned_to (dynamicallyDependentEntriesByDynamicEntry Examples.elisionAnalysis)
         dynamicEntry entry
       <-> (is_entry Examples.elisionGraph [0] dynamicEntry /\ ~ In dynamicEntry [0])
           /\ exists importer,
                In importer (importersOf Examples.elisionGraph dynamicEntry)
                /\ is_entry Examples.elisionGraph [0] entry
                /\ included_path Examples.elisionGraph entry importer.
Proof.
  apply (@analyzeModuleGraph_dependentEntries Examples.elisionGraph [0]
           Examples.elisionAnalysis).
  reflexivity.
Defined.

(** [analyzeModuleGraph] throws exactly when a dynamic entry has an importer,
    in [includedDynamicImporters] or [implicitlyLoadedAfter], that no entry
    reaches through dependencies to be included; otherwise it returns. *)
Theorem analyzeModuleGraph_throws (G : Graph) (entries : list nat) :
  (analyzeModuleGraph G entries = TypeError
   <-> exists dynamicEntry importer,
         is_entry G entries dynamicEntry /\ ~ In dynamicEntry entries
         /\ In importer (importersOf G dynamicEntry)
         /\ forall entry, is_entry G entries entry -> ~ included_path G entry importer)
  /\ (analyzeModuleGraph G entries <> TypeError
      -> exists a, analyzeModuleGraph G entries = Ok a).
Proof.
  assert (Hcases : forall outcome : result Analysis,
            outcome <> OutOfFuel -> outcome <> TypeError -> exists a, outcome = Ok a).
  { intros [a| |] H1 H2; [eauto|contradiction|contradiction]. }
  split; [|apply Hcases, analyzeModuleGraph_total].
  unfold analyzeModuleGraph.
  destruct (analysis_loop_returns G entries) as [a0 Hloop]. rewrite Hloop. simpl.
  apply analysis_loop_spec in Hloop as [Heq [Hnd [_ [Hkeys Hentries]]]].
  assert (Hnone : forall importer,
    map_get importer (as_dependentEntriesByModule a0) = None
    <-> forall entry, is_entry G entries entry -> ~ included_path G entry importer).
  { intros importer. rewrite map_get_None, Hkeys. split.
    - intros H e He Hp. apply H. exists e. split; [now apply Hentries|assumption].
    - intros H [e [He Hp]]. apply (H e); [now apply Hentries|assumption]. }
  unfold getDynamicallyDependentEntriesByDynamicEntry.
  destruct (forEach _ (as_dynamicEntries a0) []) as [byDynamicEntry| |] eqn:Hdyn; simpl.
  - split; [discriminate|]. intros [d [importer [Hd [Hnot [Hi Hreach]]]]]. exfalso.
    apply dynamicEntries_Ok in Hdyn as [_ [_ [Hall _]]]; [|discriminate].
    apply (Hall d importer); [|assumption|now apply Hnone].
    apply (@dynamicEntries_In _ _ _ d Heq Hnd). split; [now apply Hentries|].
    now rewrite set_of_list_In.
  - split; [|reflexivity]. intros _.
    apply dynamicEntries_TypeError in Hdyn as [d [importer [Hd [Hi Hn]]]].
    apply (@dynamicEntries_In _ _ _ d Heq Hnd) in Hd as [Hd Hb].
    exists d, importer. split; [now apply Hentries|]. split.
    + now rewrite set_of_list_In in Hb.
    + split; [assumption|now apply Hnone].
  - exfalso. revert Hdyn.
    apply (getDynamicallyDependentEntriesByDynamicEntry_total G
             (as_dependentEntriesByModule a0) (as_dynamicEntries a0)).
Qed.

(** ** Entry assignment on the result of the analysis *)

(** What entry assignment uses of the result of [analyzeModuleGraph]. *)
Lemma analyzeModuleGraph_facts G entries a :
  analyzeModuleGraph G entries = Ok a ->
  NoDup (allEntries a)
  /\ (forall e, In e (allEntries a) ->
                In e entries
                \/ In e (map fst (dynamicallyDependentEntriesByDynamicEntry a)))
  /\ (forall d, In d (map fst (dynamicallyDependentEntriesByDynamicEntry a)) ->
                In d (allEntries a) /\ ~ In d entries)
  /\ (forall d v e, map_get d (dynamicallyDependentEntriesByDynamicEntry a) = Some v ->
                    In e v -> In e (allEntries a))
  /\ (forall e, In e entries -> In e (allEntries a))
  /\ (forall e m, In e (allEntries a) -> included_path G e m ->
                  In m (map fst (dependentEntriesByModule a))).
Proof.
  unfold analyzeModuleGraph. intros Hrun.
  apply bind_Ok_inv in Hrun as [a0 [Hloop Hrun]].
  apply bind_Ok_inv in Hrun as [byDynamicEntry [Hdyn Hrun]]. injection Hrun as <-.
  apply analysis_loop_spec in Hloop as [Heq [Hnd [Hdep [Hkeys Hentries]]]]. simpl.
  unfold getDynamicallyDependentEntriesByDynamicEntry in Hdyn.
  apply dynamicEntries_Ok in Hdyn as [Hk [_ [_ Hin]]]; [|discriminate].
  assert (Hnd' : NoDup (as_dynamicEntries a0))
    by (rewrite Heq in Hnd; now apply NoDup_app_remove_l in Hnd).
  change (set_add_all (as_dynamicEntries a0) (map fst []))
    with (set_of_list (as_dynamicEntries a0)) in Hk.
  rewrite set_of_list_NoDup_id in Hk by assumption. rewrite Hk.
  split; [assumption|]. split; [|split; [|split; [|split]]].
  - intros e He. rewrite Heq in He. apply in_app_iff in He as [He|He]; [|now right].
    left. now apply set_of_list_In.
  - intros d Hd. apply (@dynamicEntries_In _ _ _ d Heq Hnd) in Hd as [H1 H2].
    split; [assumption|]. now rewrite set_of_list_In in H2.
  - intros d v e Hv He.
    assert (Hto : assigned_to byDynamicEntry d e) by (exists v; auto).
    apply Hin in Hto as [[v' [Hv' _]]|[_ [importer [es [_ [Hes Hees]]]]]]; [discriminate|].
    assert (Hto : assigned_to (as_dependentEntriesByModule a0) importer e)
      by (exists es; auto).
    now apply Hdep in Hto.
  - intros e He. rewrite Heq. apply in_or_app. left. now apply set_of_list_In.
  - intros e m He Hp. apply Hkeys. eauto.
Qed.

Section AssignPath.
Variables (G : Graph) (a : Analysis) (inManual staticEntries : list nat) (entry : nat).

Local Abbreviation dde := (map_get entry (dynamicallyDependentEntriesByDynamicEntry a)).
Local Abbreviation body :=
  (assignEntryToStaticDependencies_module G entry a inManual staticEntries dde).
Local Abbreviation path := (assign_path G a inManual staticEntries entry).

Let R (i : nat) (st : AssignTraversal) : Prop :=
  let l := asg_modulesToHandle st in
  (NoDup l /\ nth_error l 0 = Some entry /\ i <= length l)
  /\ (forall m, In m l -> path m)
  /\ (forall m d, In m (firstn i l) ->
        alreadyLoadedFor a staticEntries entry m = Ok false ->
        In (DepModule d) (getDependenciesToBeIncluded (getModule G m)) ->
        ~ In d inManual -> In d l).

Lemma assign_R_step i x st st' :
  R i st -> nth_error (asg_modulesToHandle st) i = Some x -> body x st = Ok st' ->
  R (S i) st'.
Proof.
  intros [[Hnd [Hhd Hle]] [Hpath Hclosed]] Hnth Hbody.
  destruct (@assign_module_prefix G entry a inManual staticEntries _ _ _ Hbody) as [l Hl].
  destruct (@assign_module_inv G entry a inManual staticEntries _ _ _ Hbody)
    as [r [Hr [Hmth _]]].
  assert (Hi : i < length (asg_modulesToHandle st)) by (apply nth_error_Some; congruence).
  assert (Hx : In x (asg_modulesToHandle st)) by (eapply nth_error_In; eauto).
  assert (Hfirst : firstn (S i) (asg_modulesToHandle st')
                   = firstn i (asg_modulesToHandle st) ++ [x]).
  { rewrite Hl, firstn_prefix by lia. now apply firstn_snoc. }
  unfold R. rewrite Hfirst. split; [split; [|split]|split].
  - rewrite Hmth. destruct r; [assumption|now apply enqueue_NoDup].
  - rewrite Hl. now apply prefix_nth_error.
  - rewrite Hl, length_app. lia.
  - intros m Hm. rewrite Hmth in Hm. destruct r; [now apply Hpath|].
    apply enqueue_In in Hm as [Hm|[Hdep Hman]]; [now apply Hpath|].
    eapply assign_step; eauto.
  - intros m d Hm Hload Hdep Hman. apply in_app_iff in Hm as [Hm|[<-|[]]].
    + rewrite Hl. apply in_or_app. left. eapply Hclosed; eauto.
    + unfold alreadyLoadedFor in Hload. rewrite Hload in Hr. injection Hr as <-.
      rewrite Hmth. apply enqueue_In. now right.
Qed.

(** The modules visited from [entry] are those [assign_path] gives. *)
Lemma visitedFrom_path visited :
  visitedFrom G a inManual staticEntries entry = Ok visited ->
  NoDup visited /\ (exists rest, visited = entry :: rest)
  /\ forall m, In m visited <-> path m.
Proof.
  unfold visitedFrom, assignEntryToStaticDependencies_run. intros Hrun.
  apply bind_Ok_inv in Hrun as [st [Hrun Hst]]. injection Hst as <-.
  eapply forOf_invariant with (P := R) in Hrun
    as [j [[[Hnd [Hhd Hle]] [Hpath Hclosed]] Hj]].
  - rewrite firstn_all2 in Hclosed by assumption. split; [assumption|]. split.
    + destruct (asg_modulesToHandle st) as [|y rest]; [discriminate|].
      simpl in Hhd. injection Hhd as ->. now exists rest.
    + intros m. split; [apply Hpath|]. intros Hm.
      induction Hm as [|m d _ IH Hload Hdep Hman]; [eapply nth_error_In; eauto|].
      eapply Hclosed; eauto.
  - exact assign_R_step.
  - unfold R. simpl. split; [split; [repeat constructor; intros []|split; [reflexivity|lia]]|].
    split; [intros m [<-|[]]; constructor|intros m d []].
Qed.
End AssignPath.

(** *** What can throw *)

Lemma forEach_no_throw {A St : Type} (body : A -> St -> result St) (xs : list A) :
  (forall x st, In x xs -> body x st <> TypeError) ->
  forall st, forEach body xs st <> TypeError.
Proof.
  induction xs as [|x xs IH]; intros Hbody st; simpl; [discriminate|].
  pose proof (Hbody x st (or_introl eq_refl)) as Hx.
  destruct (body x st) as [st'| |]; simpl; [|contradiction|discriminate].
  apply IH. intros y s Hy. apply Hbody. now right.
Qed.

Lemma forOf_no_throw_inv {St : Type} (iterated : St -> list nat)
    (body : nat -> St -> result St) (P : St -> Prop) :
  (forall x st st', P st -> In x (iterated st) -> body x st = Ok st' -> P st') ->
  (forall x st, P st -> In x (iterated st) -> body x st <> TypeError) ->
  forall fuel i st, P st -> forOf iterated body fuel i st <> TypeError.
Proof.
  intros Hstep Hbody. induction fuel as [|fuel IH]; intros i st HP; simpl; [discriminate|].
  destruct (nth_error (iterated st) i) as [x|] eqn:Hnth; [|discriminate].
  apply nth_error_In in Hnth.
  pose proof (Hbody x st HP Hnth) as Hx. pose proof (Hstep x st) as Hs.
  destruct (body x st) as [st'| |]; simpl; [|contradiction|discriminate].
  apply IH. eapply Hs; eauto.
Qed.

Lemma manualChunks_no_throw G manualChunkAliasByEntry :
  manualChunks G manualChunkAliasByEntry <> TypeError.
Proof.
  unfold manualChunks. apply forEach_no_throw.
  intros [entry alias] [byAlias inManual] _. unfold manualChunks_entry.
  destruct (match obj_get alias byAlias with
            | Some bucket => (bucket, byAlias)
            | None => ([], obj_set alias [] byAlias)
            end) as [bucket byAlias'].
  unfold addStaticDependenciesToManualChunk, addStaticDependenciesToManualChunk_run.
  pose proof (@forOf_no_throw _ mt_modulesToHandle
                (addStaticDependenciesToManualChunk_module G)
                ltac:(intros x st; discriminate) (traversal_fuel G) 0
                {| mt_modulesToHandle := [entry]; mt_manualChunkModules := bucket;
                   mt_modulesInManualChunks := inManual |}) as Hloop.
  destruct (forOf _ _ _ _ _) as [st| |]; simpl; [discriminate|contradiction|discriminate].
Qed.

Section AssignNoThrow.
Variables (G : Graph) (entries : list nat) (a : Analysis) (inManual : list nat).
Hypothesis Ha : analyzeModuleGraph G entries = Ok a.

Local Abbreviation staticEntries := (set_of_list entries).
Local Abbreviation byDynamicEntry := (dynamicallyDependentEntriesByDynamicEntry a).

Lemma areEntriesContainedOrDynamicallyDependent_loop_no_throw contained :
  forall fuel index entriesToCheck,
    (forall x, In x entriesToCheck -> In x (allEntries a)) ->
    areEntriesContainedOrDynamicallyDependent_loop fuel index entriesToCheck
      (Some contained) staticEntries byDynamicEntry <> TypeError.
Proof.
  destruct (analyzeModuleGraph_facts _ _ Ha) as [_ [F1 [_ [F3 _]]]].
  induction fuel as [|fuel IH]; intros index entriesToCheck Hall; simpl; [discriminate|].
  destruct (nth_error entriesToCheck index) as [entry|] eqn:Hnth; [|discriminate].
  apply nth_error_In in Hnth.
  destruct (set_has entry contained); [now apply IH|].
  destruct (set_has entry staticEntries) eqn:Hstatic; [discriminate|].
  apply set_has_false in Hstatic. rewrite set_of_list_In in Hstatic.
  destruct (map_get entry byDynamicEntry) as [dependent|] eqn:Hget.
  - destruct (MAX_ENTRIES_TO_CHECK_FOR_SHARED_DEPENDENCIES <? length dependent);
      [discriminate|].
    apply IH. intros x Hx. apply set_add_all_In in Hx as [Hx|Hx]; [|now apply Hall].
    eapply F3; eauto.
  - exfalso. apply map_get_None in Hget.
    destruct (F1 entry (Hall entry Hnth)); contradiction.
Qed.

Lemma isAlreadyLoaded_no_throw entry module :
  In module (map fst (dependentEntriesByModule a)) ->
  isAlreadyLoaded a staticEntries (map_get entry byDynamicEntry) module <> TypeError.
Proof.
  destruct (analyzeModuleGraph_facts _ _ Ha) as [_ [_ [_ [F3 _]]]].
  intros Hkey. unfold isAlreadyLoaded.
  destruct (map_get entry byDynamicEntry) as [dependent|] eqn:Hget; [|discriminate].
  unfold areEntriesContainedOrDynamicallyDependent.
  destruct (MAX_ENTRIES_TO_CHECK_FOR_SHARED_DEPENDENCIES <? length dependent);
    [discriminate|].
  destruct (map_get module (dependentEntriesByModule a)) as [contained|] eqn:Hc;
    [|apply map_get_None in Hc; contradiction].
  apply areEntriesContainedOrDynamicallyDependent_loop_no_throw.
  intros x Hx. rewrite set_of_list_In in Hx. eapply F3; eauto.
Qed.

Lemma assignEntryToStaticDependencies_no_throw entry assigned :
  In entry (allEntries a) ->
  assignEntryToStaticDependencies G entry a assigned inManual staticEntries <> TypeError.
Proof.
  destruct (analyzeModuleGraph_facts _ _ Ha) as [_ [_ [_ [_ [_ F4]]]]].
  intros Hentry. unfold assignEntryToStaticDependencies, assignEntryToStaticDependencies_run.
  pose proof (@forOf_no_throw_inv _ asg_modulesToHandle
                (assignEntryToStaticDependencies_module G entry a inManual staticEntries
                   (map_get entry byDynamicEntry))
                (fun st => forall m, In m (asg_modulesToHandle st) ->
                                     included_path G entry m)) as Hloop.
  specialize (fun H1 H2 => Hloop H1 H2 (traversal_fuel G) 0
                {| asg_assignedEntriesByModule := assigned;
                   asg_modulesToHandle := [entry] |}).
  destruct (forOf _ _ _ _ _) as [st| |]; simpl; [discriminate| |discriminate].
  exfalso. apply Hloop; [| | |reflexivity].
  - intros x st st' HP Hx Hbody m Hm.
    apply (@assign_module_inv G entry a inManual staticEntries) in Hbody
      as [r [_ [Hmth _]]].
    rewrite Hmth in Hm. destruct r; [now apply HP|].
    apply enqueue_In in Hm as [Hm|[Hdep _]]; [now apply HP|].
    eapply included_step; [apply HP; exact Hx|exact Hdep].
  - intros x st HP Hx. unfold assignEntryToStaticDependencies_module.
    destruct (getOrCreate (asg_assignedEntriesByModule st) x []) as [assignedEntries m].
    assert (Hload : isAlreadyLoaded a staticEntries (map_get entry byDynamicEntry) x
                    <> TypeError)
      by (apply isAlreadyLoaded_no_throw; eapply F4; eauto).
    destruct (isAlreadyLoaded a staticEntries (map_get entry byDynamicEntry) x)
      as [[|]| |]; simpl; try discriminate. contradiction.
  - simpl. intros m [<-|[]]. constructor.
Qed.

Lemma assignEntries_no_throw :
  assignEntries G a inManual staticEntries <> TypeError.
Proof.
  unfold assignEntries. apply forEach_no_throw. intros entry assigned Hentry.
  destruct (set_has entry inManual); [discriminate|].
  now apply assignEntryToStaticDependencies_no_throw.
Qed.
End AssignNoThrow.

Lemma visitedFrom_returns G entries a inManual entry :
  analyzeModuleGraph G entries = Ok a -> In entry (allEntries a) ->
  exists visited, visitedFrom G a inManual (set_of_list entries) entry = Ok visited.
Proof.
  intros Ha Hentry.
  pose proof (@assignEntryToStaticDependencies_no_throw G entries a inManual Ha entry []
                Hentry) as Hthrow.
  pose proof (assignEntryToStaticDependencies_total G entry a [] inManual
                (set_of_list entries)) as Hfuel.
  unfold visitedFrom. unfold assignEntryToStaticDependencies in Hthrow, Hfuel.
  destruct (assignEntryToStaticDependencies_run G entry a [] inManual (set_of_list entries))
    as [st| |]; simpl in *; [eauto|contradiction|contradiction].
Qed.

Lemma assign_path_not_manual G a inManual staticEntries entry module :
  ~ In entry inManual -> assign_path G a inManual staticEntries entry module ->
  ~ In module inManual.
Proof. intros He Hp. destruct Hp; assumption. Qed.

(** The entry sets that [getChunkAssignments] computes. An entry is in the
    entry set of a module exactly when it is in no manual chunk, its
    traversal comes to the module, and the module is not found already loaded
    for it. The modules that have an entry set, which are the modules of the
    automatic chunks, are those some such traversal comes to, and none of
    them is in a manual chunk. *)
Theorem assigned_entries_are_paths (G : Graph) (entries : list nat)
    (manualChunkAliasByEntry : list (nat * string)) (asg : Assignment) :
  assignModules G entries manualChunkAliasByEntry = Ok asg ->
  let a := analysis asg in
  let inManual := modulesInManualChunks asg in
  let staticEntries := set_of_list entries in
  let assigned := assignedEntriesByModule asg in
  (forall module entry,
      assigned_to assigned module entry
      <-> In entry (allEntries a) /\ ~ In entry inManual
          /\ assign_path G a inManual staticEntries entry module
          /\ alreadyLoadedFor a staticEntries entry module = Ok false)
  /\ (forall module,
        In module (map fst assigned)
        <-> exists entry,
              In entry (allEntries a) /\ ~ In entry inManual
              /\ assign_path G a inManual staticEntries entry module)
  /\ (forall module, In module (map fst assigned) -> ~ In module inManual).
Proof.
  intros Hasg a inManual staticEntries assigned.
  apply assignModules_inv in Hasg as [_ [Ha Hassigned]].
  fold a inManual staticEntries assigned in Ha, Hassigned.
  apply assignEntries_spec in Hassigned as [_ [Hkeys Hto]].
  assert (Hreach : forall entry module,
    reaches G a inManual staticEntries entry module
    <-> In entry (allEntries a) /\ ~ In entry inManual
        /\ assign_path G a inManual staticEntries entry module).
  { intros entry module. unfold reaches, visits. split.
    - intros [He [Hman [visited [Hv Hin]]]]. split; [assumption|]. split; [assumption|].
      apply visitedFrom_path in Hv as [_ [_ Hv]]. now apply Hv.
    - intros [He [Hman Hp]]. split; [assumption|]. split; [assumption|].
      destruct (@visitedFrom_returns G entries a inManual entry Ha He) as [visited Hv].
      exists visited. split; [assumption|].
      apply visitedFrom_path in Hv as [_ [_ Hv]]. now apply Hv. }
  assert (Hmodules : forall module,
    In module (map fst assigned)
    <-> exists entry,
          In entry (allEntries a) /\ ~ In entry inManual
          /\ assign_path G a inManual staticEntries entry module).
  { intros module. rewrite Hkeys. split; intros [e He]; exists e; now apply Hreach. }
  split; [|split; [exact Hmodules|]].
  - intros module entry. rewrite Hto, Hreach. tauto.
  - intros module Hm. apply Hmodules in Hm as [e [_ [Hman Hp]]].
    eapply assign_path_not_manual; eauto.
Qed.

Lemma assigned_entries_are_paths_witness :
  let a := analysis Examples.elisionAssignment in
  let inManual := modulesInManualChunks Examples.elisionAssignment in
  let staticEntries := set_of_list [0] in
  let assigned := assignedEntriesByModule Examples.elisionAssignment in
  (forall module entry,
      assigned_to assigned module entry
      <-> In entry (allEntries a) /\ ~ In entry inManual
          /\ assign_path Examples.elisionGraph a inManual staticEntries entry module
          /\ alreadyLoadedFor a staticEntries entry module = Ok false)
  /\ (forall module,
        In module (map fst assigned)
        <-> exists entry,
              In entry (allEntries a) /\ ~ In entry inManual
              /\ assign_path Examples.elisionGraph a inManual staticEntries entry module)
  /\ (forall module, In module (map fst assigned) -> ~ In module inManual).
Proof.
  apply (@assigned_entries_are_paths Examples.elisionGraph [0] []
           Examples.elisionAssignment).
  reflexivity.
Defined.

(** A given entry is never found already loaded: when it is in no manual
    chunk, it is in the entry set of exactly the modules it reaches through
    dependencies to be included that are in no manual chunk. *)
Theorem static_entry_is_never_elided (G : Graph) (entries : list nat)
    (manualChunkAliasByEntry : list (nat * string)) (asg : Assignment) (entry : nat) :
  assignModules G entries manualChunkAliasByEntry = Ok asg ->
  In entry entries -> ~ In entry (modulesInManualChunks asg) ->
  (forall module,
      alreadyLoadedFor (analysis asg) (set_of_list entries) entry module = Ok false)
  /\ forall module,
       assigned_to (assignedEntriesByModule asg) module entry
       <-> manual_free_path G (modulesInManualChunks asg) entry module.
Proof.
  intros Hasg Hentry Hman.
  apply assignModules_inv in Hasg as [_ [Ha Hassigned]].
  apply assignEntries_spec in Hassigned as [_ [_ Hto]].
  destruct (analyzeModuleGraph_facts _ _ Ha) as [_ [_ [F2 [_ [F5 _]]]]].
  assert (Hload : forall module,
    alreadyLoadedFor (analysis asg) (set_of_list entries) entry module = Ok false).
  { intros module. unfold alreadyLoadedFor.
    destruct (map_get entry (dynamicallyDependentEntriesByDynamicEntry (analysis asg)))
      as [v|] eqn:Hget; [|reflexivity].
    apply map_get_Some_key, F2 in Hget as [_ Hget]. contradiction. }
  split; [exact Hload|]. intros module. rewrite Hto. split.
  - intros [[_ [_ [visited [Hv Hin]]]] _].
    apply visitedFrom_path in Hv as [_ [_ Hv]]. apply Hv in Hin.
    induction Hin as [|m d _ IH _ Hdep Hd]; [constructor|].
    eapply manual_free_step; eauto.
  - intros Hp. split; [|apply Hload]. split; [now apply F5|]. split; [assumption|].
    destruct (@visitedFrom_returns G entries (analysis asg) (modulesInManualChunks asg)
                entry Ha (F5 entry Hentry)) as [visited Hv].
    exists visited. split; [assumption|].
    apply visitedFrom_path in Hv as [_ [_ Hv]]. apply Hv.
    induction Hp as [|m d _ IH Hdep Hd]; [constructor|].
    eapply assign_step; eauto.
Qed.

Lemma static_entry_is_never_elided_witness :
  (forall module,
      alreadyLoadedFor (analysis Examples.elisionAssignment) (set_of_list [0]) 0 module
      = Ok false)
  /\ forall module,
       assigned_to (assignedEntriesByModule Examples.elisionAssignment) module 0
       <-> manual_free_path Examples.elisionGraph
             (modulesInManualChunks Examples.elisionAssignment) 0 module.
Proof.
  apply (@static_entry_is_never_elided Examples.elisionGraph [0] []
           Examples.elisionAssignment 0).
  - reflexivity.
  - now left.
  - intros [].
Defined.

(** The assignment of the modules throws when [analyzeModuleGraph] does,
    and returns otherwise. *)
Lemma assignModules_cases (G : Graph) (entries : list nat)
    (manualChunkAliasByEntry : list (nat * string)) :
  (analyzeModuleGraph G entries = TypeError
   /\ assignModules G entries manualChunkAliasByEntry = TypeError)
  \/ exists a asg,
       analyzeModuleGraph G entries = Ok a
       /\ assignModules G entries manualChunkAliasByEntry = Ok asg.
Proof.
  assert (Hmanual : exists manual, manualChunks G manualChunkAliasByEntry = Ok manual).
  { pose proof (manualChunks_no_throw G manualChunkAliasByEntry) as H1.
    pose proof (manualChunks_total G manualChunkAliasByEntry) as H2.
    destruct (manualChunks G manualChunkAliasByEntry) as [manual| |];
      [eauto|contradiction|contradiction]. }
  destruct Hmanual as [manual Hmanual].
  destruct (analyzeModuleGraph G entries) as [a| |] eqn:Ha.
  - right. exists a. unfold assignModules. rewrite Hmanual, Ha. simpl.
    pose proof (@assignEntries_no_throw G entries a (snd manual) Ha) as H1.
    pose proof (assignEntries_total G a (snd manual) (set_of_list entries)) as H2.
    destruct (assignEntries G a (snd manual) (set_of_list entries)) as [assigned| |];
      simpl; [eauto|contradiction|contradiction].
  - left. split; [reflexivity|]. unfold assignModules. now rewrite Hmanual, Ha.
  - now apply analyzeModuleGraph_total in Ha.
Qed.

(** [getChunkAssignments] throws a [TypeError] exactly when
    [analyzeModuleGraph] does or [minChunkSize] is not a finite number. The
    manual chunks, the entry assignment and the grouping never throw; what
    else throws is [prettyBytes], called for the log messages of
    [getOptimizedChunks], when [minChunkSize] is [Infinity], [-Infinity] or
    [NaN]. When [analyzeModuleGraph] returns and [minChunkSize] is an
    integer, [getChunkAssignments] returns a chunk list. The fuel of the
    loops is never exhausted. *)
Theorem getChunkAssignments_throws (G : Graph) (entries : list nat)
    (manualChunkAliasByEntry : list (nat * string)) (minChunkSize : Number.t) :
  (getChunkAssignments G entries manualChunkAliasByEntry minChunkSize = TypeError
   <-> analyzeModuleGraph G entries = TypeError
       \/ Number.isFinite minChunkSize = false)
  /\ (forall a, analyzeModuleGraph G entries = Ok a ->
        Number.isFinite minChunkSize = true ->
        exists chunks,
          getChunkAssignments G entries manualChunkAliasByEntry minChunkSize = Ok chunks)
  /\ getChunkAssignments G entries manualChunkAliasByEntry minChunkSize <> OutOfFuel.
Proof.
  assert (Hreturns : forall a, analyzeModuleGraph G entries = Ok a ->
            Number.isFinite minChunkSize = true ->
            exists chunks,
              getChunkAssignments G entries manualChunkAliasByEntry minChunkSize
              = Ok chunks).
  { intros a Ha Hfinite.
    destruct (assignModules_cases G entries manualChunkAliasByEntry)
      as [[Hthrow _]|[a' [asg [_ Hasg]]]]; [congruence|].
    destruct minChunkSize as [z| | |]; try discriminate.
    eapply (proj2 (getChunkAssignments_total G entries manualChunkAliasByEntry z)); eauto. }
  assert (Hthrows : analyzeModuleGraph G entries = TypeError
                    \/ Number.isFinite minChunkSize = false ->
                    getChunkAssignments G entries manualChunkAliasByEntry minChunkSize
                    = TypeError).
  { intros Hcase.
    destruct (assignModules_cases G entries manualChunkAliasByEntry)
      as [[_ Hthrow]|[a [asg [Ha Hasg]]]].
    - unfold getChunkAssignments. now rewrite Hthrow.
    - destruct Hcase as [Hthrow|Hfinite]; [congruence|].
      unfold getChunkAssignments. rewrite Hasg. cbn [bind].
      now rewrite createChunks_not_finite. }
  split; [|split; [exact Hreturns|]].
  - split; [|exact Hthrows].
    intros Hthrow. destruct (analyzeModuleGraph G entries) as [a| |] eqn:Ha;
      [|now left|now apply analyzeModuleGraph_total in Ha].
    right. destruct (Number.isFinite minChunkSize) eqn:Hfinite; [|reflexivity].
    destruct (Hreturns a eq_refl eq_refl) as [chunks Hchunks]. congruence.
  - destruct (analyzeModuleGraph G entries) as [a| |] eqn:Ha.
    + destruct (Number.isFinite minChunkSize) eqn:Hfinite.
      * destruct (Hreturns a eq_refl eq_refl) as [chunks Hchunks]. congruence.
      * rewrite Hthrows by now right. discriminate.
    + rewrite Hthrows by now left. discriminate.
    + now apply analyzeModuleGraph_total in Ha.
Qed.

(** ** The already-loaded check *)

Section EntriesContained.
Variables (contained staticEntries : list nat) (byDynamicEntry : list (nat * list nat)).

Local Abbreviation loop fuel index entriesToCheck :=
  (areEntriesContainedOrDynamicallyDependent_loop fuel index entriesToCheck
     (Some contained) staticEntries byDynamicEntry).
Local Abbreviation accepted := (entry_accepted contained staticEntries byDynamicEntry).

Lemma entry_accepted_mono checked checked' x :
  incl checked checked' -> accepted checked x -> accepted checked' x.
Proof.
  intros Hincl [H|[Hs [v [Hv [Hlen Hin]]]]]; [now left|]. right.
  split; [assumption|]. exists v. split; [assumption|]. split; [assumption|].
  intros y Hy. auto.
Qed.

(** When the loop returns [true], the entries it has checked from slot
    [index] on are accepted. *)
Lemma loop_true fuel : forall index entriesToCheck,
  loop fuel index entriesToCheck = Ok true ->
  exists more,
    forall k x, index <= k -> nth_error (entriesToCheck ++ more) k = Some x ->
                accepted (entriesToCheck ++ more) x.
Proof.
  induction fuel as [|fuel IH]; intros index T Hrun; simpl in Hrun; [discriminate|].
  destruct (nth_error T index) as [entry|] eqn:Hnth.
  - assert (Hmore : forall T' more',
      (exists l, T' = T ++ l) ->
      accepted T' entry ->
      (forall k x, S index <= k -> nth_error (T' ++ more') k = Some x ->
                   accepted (T' ++ more') x) ->
      exists more,
        forall k x, index <= k -> nth_error (T ++ more) k = Some x ->
                    accepted (T ++ more) x).
    { intros T' more' [l ->] Hentry Hrest. exists (l ++ more'). rewrite app_assoc.
      intros k x Hk Hx. assert (Hcase : k = index \/ S index <= k) by lia.
      destruct Hcase as [->|Hk']; [|now apply (Hrest k)].
      rewrite <- app_assoc in Hx. rewrite (prefix_nth_error _ _ _ Hnth) in Hx.
      injection Hx as <-. eapply entry_accepted_mono; [|exact Hentry].
      intros y Hy. apply in_or_app. now left. }
    destruct (set_has entry contained) eqn:Hc.
    + apply set_has_In in Hc. apply IH in Hrun as [more Hrest].
      apply (Hmore T more); [exists []; now rewrite app_nil_r|now left|assumption].
    + destruct (set_has entry staticEntries) eqn:Hs; [discriminate|].
      apply set_has_false in Hs.
      destruct (map_get entry byDynamicEntry) as [dependent|] eqn:Hget; [|discriminate].
      destruct (MAX_ENTRIES_TO_CHECK_FOR_SHARED_DEPENDENCIES <? length dependent) eqn:Hmax;
        [discriminate|].
      apply Nat.ltb_ge in Hmax. apply IH in Hrun as [more Hrest].
      apply (Hmore (set_add_all dependent T) more);
        [apply set_add_all_prefix| |assumption].
      right. split; [assumption|]. exists dependent. split; [assumption|].
      split; [assumption|]. intros y Hy. apply set_add_all_In. now left.
  - exists []. intros k x Hk Hx. rewrite app_nil_r in Hx.
    apply nth_error_None in Hnth.
    assert (k < length T) by (apply nth_error_Some; congruence). lia.
Qed.

(** Inside a set of accepted entries the loop does not return [false] and
    does not throw. *)
Lemma loop_accepted checked fuel : forall index entriesToCheck,
  (forall x, In x checked -> accepted checked x) ->
  incl entriesToCheck checked ->
  loop fuel index entriesToCheck = Ok true \/ loop fuel index entriesToCheck = OutOfFuel.
Proof.
  induction fuel as [|fuel IH]; intros index T Hall Hincl; simpl; [now right|].
  destruct (nth_error T index) as [entry|] eqn:Hnth; [|now left].
  apply nth_error_In, Hincl, Hall in Hnth.
  destruct (set_has entry contained) eqn:Hc; [now apply IH|].
  apply set_has_false in Hc.
  destruct Hnth as [H|[Hs [v [Hv [Hlen Hin]]]]]; [contradiction|].
  apply set_has_false in Hs. rewrite Hs, Hv.
  apply Nat.ltb_ge in Hlen. rewrite Hlen. apply IH; [assumption|].
  intros y Hy. apply set_add_all_In in Hy as [Hy|Hy]; auto.
Qed.
End EntriesContained.

(** [areEntriesContainedOrDynamicallyDependent] returns [true] exactly when
    there are at most [MAX_ENTRIES_TO_CHECK_FOR_SHARED_DEPENDENCIES] entries
    and they lie in a set of entries each of which is contained or is not a
    static entry and has at most that many dynamically dependent entries,
    all in the set; dynamic entries none of which is contained are accepted
    when they depend on one another in a cycle. *)
Theorem areEntriesContainedOrDynamicallyDependent_true (entries contained : list nat)
    (staticEntries : list nat) (byDynamicEntry : list (nat * list nat)) :
  areEntriesContainedOrDynamicallyDependent entries (Some contained) staticEntries
    byDynamicEntry = Ok true
  <-> length entries <= MAX_ENTRIES_TO_CHECK_FOR_SHARED_DEPENDENCIES
      /\ exists checked,
           incl entries checked
           /\ forall x, In x checked ->
                        entry_accepted contained staticEntries byDynamicEntry checked x.
Proof.
  unfold areEntriesContainedOrDynamicallyDependent.
  destruct (MAX_ENTRIES_TO_CHECK_FOR_SHARED_DEPENDENCIES <? length entries) eqn:Hmax.
  - apply Nat.ltb_lt in Hmax. split; [discriminate|]. intros [Hlen _]. lia.
  - apply Nat.ltb_ge in Hmax. split.
    + intros Hrun. split; [assumption|]. apply loop_true in Hrun as [more Hrun].
      exists (set_of_list entries ++ more). split.
      * intros x Hx. apply in_or_app. left. now apply set_of_list_In.
      * intros x Hx. apply In_nth_error in Hx as [k Hk]. apply (Hrun k); [lia|assumption].
    + intros [_ [checked [Hincl Hall]]].
      destruct (@loop_accepted contained staticEntries byDynamicEntry checked
                  (length entries + length (flat_map snd byDynamicEntry) + 1) 0
                  (set_of_list entries) Hall) as [H|H]; [|exact H|].
      * intros x Hx. rewrite set_of_list_In in Hx. now apply Hincl.
      * exfalso. revert H.
        apply areEntriesContainedOrDynamicallyDependent_loop_total with (entries := entries);
          try lia.
        -- apply set_of_list_NoDup.
        -- intros y Hy. rewrite set_of_list_In in Hy. apply in_or_app. now left.
Qed.

(** ** Chunk descriptions during the merge *)

Lemma modules_size_app G l1 l2 :
  modules_size G (l1 ++ l2) = modules_size G l1 + modules_size G l2.
Proof. unfold modules_size. now rewrite map_app, list_sum_app. Qed.

Lemma described_noChunk G : described G noChunk.
Proof. split; reflexivity. Qed.

Lemma described_deref G h r : Forall (consistent G) h -> described G (deref h r).
Proof.
  intros Hall. unfold deref. destruct (nth_in_or_default r h noChunk) as [Hin| ->].
  - rewrite Forall_forall in Hall. now apply Hall.
  - apply described_noChunk.
Qed.

Lemma described_absorb G closest merged :
  described G closest -> described G merged -> described G (absorb closest merged).
Proof.
  intros [Hs1 Hp1] [Hs2 Hp2]. unfold absorb, described. simpl.
  now rewrite modules_size_app, forallb_app, Hs1, Hs2, Hp1, Hp2.
Qed.

Lemma heap_update_Forall (P : ChunkDescription.t -> Prop) h : forall r c,
  Forall P h -> (r < length h -> P c) -> Forall P (heap_update r c h).
Proof.
  induction h as [|c0 h IH]; intros [|r] c Hall Hc; simpl; try assumption.
  - inversion Hall; subst. constructor; [apply Hc; simpl; lia|assumption].
  - inversion Hall; subst. constructor; [assumption|]. apply IH; [assumption|].
    intros Hr. apply Hc. simpl. lia.
Qed.

Lemma mergeInto_consistent G source minChunkSize mergedChunk closestChunk st :
  Forall (consistent G) (heap st) ->
  Forall (consistent G) (heap (mergeInto source minChunkSize mergedChunk closestChunk st)).
Proof.
  intros Hall. unfold mergeInto. simpl. apply heap_update_Forall; [assumption|].
  intros Hr. split.
  - unfold absorb. simpl. intros Happ. apply app_eq_nil in Happ as [Happ _].
    assert (Hin : In (deref (heap st) closestChunk) (heap st))
      by (unfold deref; now apply nth_In).
    rewrite Forall_forall in Hall. now destruct (Hall _ Hin) as [Hne _].
  - apply described_absorb; now apply described_deref.
Qed.

Lemma loop_reaches_consistent G source targets minChunkSize i st j st' :
  loop_reaches source targets minChunkSize i st j st' ->
  Forall (consistent G) (heap st) -> Forall (consistent G) (heap st').
Proof.
  induction 1 as [|i st st1 j st2 Hstep _ IH]; [auto|]. intros Hall. apply IH.
  unfold mergeChunks_step in Hstep.
  destruct (nth_error (bucket source (chunkPartition st)) i) as [[mergedChunk|]|];
    [|now injection Hstep as <-|discriminate].
  injection Hstep as <-. unfold mergeChunks_chunk.
  destruct (closestChunkOf targets mergedChunk st) as [closestChunk|]; [|assumption].
  now apply mergeInto_consistent.
Qed.

Lemma initial_consistent G assigned allEntries minChunkSize :
  Forall (consistent G)
    (heap (getPartitionedChunks G (getChunkModulesBySignature assigned allEntries)
             minChunkSize)).
Proof.
  unfold getPartitionedChunks. simpl. rewrite getChunkModulesBySignature_entries.
  apply Forall_forall. intros c Hc. apply in_map_iff in Hc as [[k modules] [<- Hin]].
  apply getChunkModulesBySignature_group in Hin as [_ Hne].
  rewrite describeChunk_spec. split; [exact Hne|]. split; reflexivity.
Qed.

Lemma pass_reaches_consistent G assigned allEntries minChunkSize pass i st :
  pass_reaches G (getChunkModulesBySignature assigned allEntries) minChunkSize pass i st ->
  Forall (consistent G) (heap st).
Proof.
  pose proof (initial_consistent G assigned allEntries minChunkSize) as H0.
  destruct pass; simpl.
  - intros H. eapply loop_reaches_consistent; eauto.
  - intros [st1 [H1 H2]]. eapply loop_reaches_consistent; [exact H2|].
    unfold mergeChunks in H1.
    apply (@mergeChunks_loop_reaches minChunkSize Pass1) in H1 as [j [H1 _]].
    eapply loop_reaches_consistent; eauto.
Qed.

Lemma NoDup_concat_intro {A : Type} (ls : list (list A)) :
  (forall l, In l ls -> NoDup l) ->
  (forall i j li lj x, i <> j -> nth_error ls i = Some li -> nth_error ls j = Some lj ->
                       In x li -> In x lj -> False) ->
  NoDup (concat ls).
Proof.
  induction ls as [|l ls IH]; intros Hnd Hdisj; simpl; [constructor|].
  apply NoDup_app.
  - apply Hnd. now left.
  - apply IH.
    + intros l' Hl'. apply Hnd. now right.
    + intros i j li lj x Hij Hi Hj. apply (Hdisj (S i) (S j)); auto.
  - intros x Hx Hin. apply in_concat in Hin as [l' [Hl' Hx']].
    apply In_nth_error in Hl' as [j Hj].
    apply (Hdisj 0 (S j) l l' x); auto.
Qed.

(** Lists that hold every element of [M] at one position exactly, and
    nothing else, are a partition of [M]. *)
Lemma partition_Permutation (ls : list (list nat)) (M : list nat) :
  NoDup M ->
  (forall m, In m M ->
     exists i l, nth_error ls i = Some l /\ In m l /\ NoDup l
                 /\ forall j l', nth_error ls j = Some l' -> In m l' -> j = i) ->
  (forall l m, In l ls -> In m l -> In m M) ->
  Permutation (concat ls) M.
Proof.
  intros HM Hcover Honly. apply NoDup_Permutation; [|assumption|].
  - apply NoDup_concat_intro.
    + intros l Hl. destruct l as [|m l']; [constructor|].
      destruct (Hcover m (Honly _ m Hl (or_introl eq_refl))) as [i [li [Hi [_ [Hnd Huniq]]]]].
      apply In_nth_error in Hl as [j Hj].
      assert (j = i) by (apply (Huniq j _ Hj); now left). subst j.
      rewrite Hi in Hj. now injection Hj as <-.
    + intros i j li lj x Hij Hi Hj Hxi Hxj.
      assert (Hx : In x M) by (eapply Honly; [eapply nth_error_In; eauto|assumption]).
      destruct (Hcover x Hx) as [k [_ [_ [_ [_ Huniq]]]]].
      apply Hij. rewrite (Huniq i li Hi Hxi), (Huniq j lj Hj Hxj). reflexivity.
  - intros m. split.
    + intros Hm. apply in_concat in Hm as [l [Hl Hm]]. eauto.
    + intros Hm. destruct (Hcover m Hm) as [i [l [Hi [Hin _]]]].
      apply in_concat. exists l. split; [eapply nth_error_In; eauto|assumption].
Qed.

Section CreateChunksPartition.
Variables (G : Graph) (allEntries : list nat) (assigned : list (nat * list nat)).
Hypothesis Hkeys : NoDup (map fst assigned).

Local Abbreviation sigs := (getChunkModulesBySignature assigned allEntries).

(** The chunk descriptions [getOptimizedChunks] returns. *)
Lemma getOptimizedChunks_chunks (minChunkSize : Z) :
  exists chunks,
    getOptimizedChunks G sigs minChunkSize = Ok chunks
    /\ (forall chunk, In chunk chunks -> consistent G chunk)
    /\ forall chunk m, In chunk chunks -> In m (ChunkDescription.modules chunk) ->
                       In m (map fst assigned).
Proof.
  destruct (@getOptimizedChunks_returns G minChunkSize assigned allEntries Hkeys)
    as [i [st2 [Hreach Hres]]].
  eexists. split; [exact Hres|].
  pose proof (@pass_reaches_inv G minChunkSize assigned allEntries Hkeys _ _ _ Hreach)
    as Hinv.
  pose proof (@pass_reaches_consistent _ _ _ _ _ _ _ Hreach) as Hall.
  split.
  - intros chunk Hc. apply in_map_iff in Hc as [r [<- Hr]].
    apply live_chunks_In in Hr. apply (inv_heap Hinv) in Hr.
    rewrite Forall_forall in Hall. apply Hall. unfold chunk_at, deref. now apply nth_In.
  - intros chunk m Hc Hm. apply in_map_iff in Hc as [r [<- Hr]].
    apply live_chunks_In in Hr. apply (inv_modules_all Hinv). eauto.
Qed.
End CreateChunksPartition.

(** The chunk descriptions that the merge returns describe their modules.
    When [minChunkSize] is an integer, [getOptimizedChunks] returns, and in
    each chunk it returns there is a module, [size] is the total length of
    the code of the modules, and [pure] says that none of them has side
    effects. When [minChunkSize] is [Infinity], [-Infinity] or [NaN], it
    throws a [TypeError], that of [prettyBytes]. *)
Theorem optimized_chunks_describe_their_modules (G : Graph)
    (assigned : list (nat * list nat)) (allEntries : list nat)
    (minChunkSize : Number.t) :
  NoDup (map fst assigned) ->
  (Number.isFinite minChunkSize = true ->
   exists chunks,
     getOptimizedChunks G (getChunkModulesBySignature assigned allEntries) minChunkSize
     = Ok chunks
     /\ forall chunk,
          In chunk chunks ->
          ChunkDescription.modules chunk <> []
          /\ ChunkDescription.size chunk
             = list_sum (map (fun module => magicString_length (getModule G module))
                           (ChunkDescription.modules chunk))
          /\ (ChunkDescription.pure chunk = true
              <-> forall module, In module (ChunkDescription.modules chunk) ->
                                 hasEffects (getModule G module) = false))
  /\ (Number.isFinite minChunkSize = false ->
      getOptimizedChunks G (getChunkModulesBySignature assigned allEntries) minChunkSize
      = TypeError).
Proof.
  intros Hkeys. split; [|apply getOptimizedChunks_not_finite].
  intros Hfinite. destruct minChunkSize as [z| | |]; try discriminate.
  destruct (@getOptimizedChunks_chunks G allEntries assigned Hkeys z)
    as [chunks [Hres [Hcons _]]].
  exists chunks. split; [exact Hres|]. intros chunk Hc.
  destruct (Hcons chunk Hc) as [Hne [Hsize Hpure]].
  split; [exact Hne|]. split; [exact Hsize|].
  rewrite Hpure, forallb_forall. unfold is_pure_module.
  split; intros H m Hm; specialize (H m Hm).
  - now apply negb_true_iff in H.
  - now apply negb_true_iff.
Qed.

Lemma optimized_chunks_describe_their_modules_witness :
  (Number.isFinite 15 = true ->
   exists chunks,
     getOptimizedChunks Examples.effectGraph
       (getChunkModulesBySignature Examples.effectAssigned [0; 1]) 15
     = Ok chunks
     /\ forall chunk,
          In chunk chunks ->
          ChunkDescription.modules chunk <> []
          /\ ChunkDescription.size chunk
             = list_sum (map (fun module =>
                                magicString_length (getModule Examples.effectGraph module))
                           (ChunkDescription.modules chunk))
          /\ (ChunkDescription.pure chunk = true
              <-> forall module, In module (ChunkDescription.modules chunk) ->
                                 hasEffects (getModule Examples.effectGraph module) = false))
  /\ (Number.isFinite 15 = false ->
      getOptimizedChunks Examples.effectGraph
        (getChunkModulesBySignature Examples.effectAssigned [0; 1]) 15
      = TypeError).
Proof.
  apply (@optimized_chunks_describe_their_modules Examples.effectGraph
           Examples.effectAssigned [0; 1] 15).
  repeat constructor; simpl; intuition discriminate.
Defined.

(** The chunks [createChunks] returns have no alias, are not empty, and
    hold modules of [assignedEntriesByModule] only. *)
Lemma createChunks_modules (G : Graph) (allEntries : list nat)
    (assigned : list (nat * list nat)) (minChunkSize : Z) chunks :
  NoDup (map fst assigned) ->
  createChunks G allEntries assigned minChunkSize = Ok chunks ->
  forall chunk, In chunk chunks ->
    alias chunk = None /\ modules chunk <> []
    /\ forall m, In m (modules chunk) -> In m (map fst assigned).
Proof.
  intros Hkeys Hres. unfold createChunks, is_zero in Hres.
  destruct (minChunkSize =? 0)%Z.
  - injection Hres as <-. intros chunk Hc.
    apply in_map_iff in Hc as [mods [<- Hmods]]. simpl.
    unfold Object_values in Hmods. rewrite getChunkModulesBySignature_entries in Hmods.
    apply in_map_iff in Hmods as [[k mods'] [<- Hin]]. simpl.
    apply getChunkModulesBySignature_group in Hin as [-> Hne].
    split; [reflexivity|]. split; [exact Hne|].
    intros m Hm. apply group_of_In in Hm as [s [Hs _]].
    now apply (in_map fst) in Hs.
  - destruct (@getOptimizedChunks_chunks G allEntries assigned Hkeys minChunkSize)
      as [descriptions [Hd [Hcons Hmods]]].
    rewrite Hd in Hres. simpl in Hres. injection Hres as <-. intros chunk Hc.
    apply in_map_iff in Hc as [d [<- Hin]]. simpl.
    split; [reflexivity|]. split; [apply (Hcons d Hin)|].
    intros m. now apply Hmods.
Qed.

(** Chunks that hold every module of [M] at one position, once, and no other
    module, are a partition of [M]. *)
Lemma chunks_Permutation (chunks : list Chunk) (M : list nat) :
  NoDup M ->
  (forall module, In module M ->
     exists i chunk,
       nth_error chunks i = Some chunk /\ alias chunk = None
       /\ In module (modules chunk) /\ NoDup (modules chunk)
       /\ forall j chunk', nth_error chunks j = Some chunk' ->
                           In module (modules chunk') -> j = i) ->
  (forall chunk m, In chunk chunks -> In m (modules chunk) -> In m M) ->
  Permutation (flat_map modules chunks) M.
Proof.
  intros HM Hcover Honly.
  rewrite flat_map_concat_map. apply partition_Permutation; [assumption| |].
  - intros m Hm. destruct (Hcover m Hm) as [i [chunk [Hi [_ [Hin [Hnd Huniq]]]]]].
    exists i, (modules chunk). split; [now rewrite nth_error_map, Hi|].
    split; [assumption|]. split; [assumption|].
    intros j l' Hj Hl'. apply nth_error_map_Some in Hj as [chunk' [Hj <-]]. eauto.
  - intros l m Hl Hm. apply in_map_iff in Hl as [chunk [<- Hc]]. eauto.
Qed.

(** The automatic chunks are a partition of the modules that have an entry
    set. When [minChunkSize] is an integer, [createChunks] returns chunks
    without alias, none of them empty, that together hold every module of
    [assignedEntriesByModule] once and no other module. When [minChunkSize]
    is [Infinity], [-Infinity] or [NaN], it throws a [TypeError], that of
    [prettyBytes] in [getOptimizedChunks]. *)
Theorem createChunks_partition (G : Graph) (allEntries : list nat)
    (assigned : list (nat * list nat)) (minChunkSize : Number.t) :
  NoDup (map fst assigned) ->
  (Number.isFinite minChunkSize = true ->
   exists chunks,
     createChunks G allEntries assigned minChunkSize = Ok chunks
     /\ Permutation (flat_map modules chunks) (map fst assigned)
     /\ forall chunk, In chunk chunks -> alias chunk = None /\ modules chunk <> [])
  /\ (Number.isFinite minChunkSize = false ->
      createChunks G allEntries assigned minChunkSize = TypeError).
Proof.
  intros Hkeys. split; [|apply createChunks_not_finite].
  intros Hfinite. destruct minChunkSize as [z| | |]; try discriminate.
  destruct (@createChunks_cover G allEntries assigned Hkeys z)
    as [chunks [Hres Hcover]].
  exists chunks. split; [exact Hres|].
  pose proof (@createChunks_modules _ _ _ z _ Hkeys Hres) as Hshape.
  split.
  - apply chunks_Permutation; [assumption|exact Hcover|].
    intros chunk m Hc. now apply (Hshape chunk Hc).
  - intros chunk Hc. destruct (Hshape chunk Hc) as [H1 [H2 _]]. auto.
Qed.

Lemma createChunks_partition_witness :
  (Number.isFinite 15 = true ->
   exists chunks,
     createChunks Examples.effectGraph [0; 1] Examples.effectAssigned 15 = Ok chunks
     /\ Permutation (flat_map modules chunks) (map fst Examples.effectAssigned)
     /\ forall chunk, In chunk chunks -> alias chunk = None /\ modules chunk <> [])
  /\ (Number.isFinite 15 = false ->
      createChunks Examples.effectGraph [0; 1] Examples.effectAssigned 15 = TypeError).
Proof.
  apply (@createChunks_partition Examples.effectGraph [0; 1] Examples.effectAssigned 15).
  repeat constructor; simpl; intuition discriminate.
Defined.

(** ** What the second pass leaves *)

Lemma getSignatureDistance_loop_unenforced n : forall i d s t,
  getSignatureDistance_loop n i d s t false <> Infinity.
Proof.
  induction n as [|n IH]; intros i d s t; simpl; [discriminate|].
  destruct (code_neq (charCodeAt s i) (charCodeAt t i)); apply IH.
Qed.

Lemma mergeDistance_pure_finite merged target :
  ChunkDescription.pure merged = true -> ChunkDescription.pure target = true ->
  mergeDistance merged target <> Infinity.
Proof.
  intros Hm Ht. unfold mergeDistance. rewrite Hm, Ht. simpl.
  apply getSignatureDistance_loop_unenforced.
Qed.

(** No target is chosen only when every candidate is infinitely far. *)
Lemma findClosestChunk_None h mergedChunk targets : forall closest d,
  findClosestChunk h mergedChunk targets closest d = None ->
  closest = None
  /\ (d = Infinity ->
      forall x, In x targets -> x <> mergedChunk ->
                distance_from h mergedChunk x = Infinity).
Proof.
  induction targets as [|t targets IH]; intros closest d Hrun; simpl in Hrun.
  - split; [assumption|]. intros _ x [].
  - destruct (mergedChunk =? t) eqn:Heq.
    + apply Nat.eqb_eq in Heq. subst t. apply IH in Hrun as [Hc Hall].
      split; [assumption|]. intros Hd x [<-|Hx] Hne; [contradiction|auto].
    + fold (distance_from h mergedChunk t) in Hrun.
      destruct (number_eqb (distance_from h mergedChunk t) (Finite 1)); [discriminate|].
      destruct (number_ltb (distance_from h mergedChunk t) d) eqn:Hlt.
      * apply IH in Hrun as [Hc _]. discriminate.
      * apply IH in Hrun as [Hc Hall]. split; [assumption|].
        intros Hd x [<-|Hx] Hne; [|auto]. subst d.
        now apply number_ltb_Infinity_false.
Qed.

Lemma closestChunkOf_None targets mergedChunk st x :
  closestChunkOf targets mergedChunk st = None ->
  In x (concatLazy targets (chunkPartition st)) -> x <> mergedChunk ->
  distance_from (heap st) mergedChunk x = Infinity.
Proof.
  unfold closestChunkOf. intros Hrun. apply findClosestChunk_None in Hrun as [_ Hall].
  now apply Hall.
Qed.

(** *** The slots of the sets of the partition *)

Lemma cset_delete_slot x s j r :
  nth_error (cset_delete x s) j = Some (Some r) ->
  nth_error s j = Some (Some r) /\ r <> x.
Proof.
  unfold cset_delete. rewrite nth_error_map.
  destruct (nth_error s j) as [[y|]|]; simpl; try discriminate.
  destruct (x =? y) eqn:E; [discriminate|]. intros H. injection H as <-.
  apply Nat.eqb_neq in E. split; [reflexivity|congruence].
Qed.

Lemma cset_add_slot x s j r :
  nth_error (cset_add x s) j = Some (Some r) -> j < length s ->
  nth_error s j = Some (Some r).
Proof.
  unfold cset_add. destruct (cset_has x s); [auto|].
  intros H Hj. now rewrite nth_error_app1 in H.
Qed.

Lemma cset_slot_NoDup s : forall i j x,
  NoDup (cset_elements s) ->
  nth_error s i = Some (Some x) -> nth_error s j = Some (Some x) -> i = j.
Proof.
  induction s as [|slot s IH]; intros [|i] [|j] x Hnd Hi Hj; simpl in *;
    try discriminate; try reflexivity.
  - injection Hi as ->. simpl in Hnd. inversion Hnd; subst.
    apply cset_slot_In in Hj. contradiction.
  - injection Hj as ->. simpl in Hnd. inversion Hnd; subst.
    apply cset_slot_In in Hi. contradiction.
  - f_equal. apply (IH i j x); [|assumption|assumption].
    destruct slot; simpl in Hnd; [now inversion Hnd|assumption].
Qed.

Lemma cset_In_slot s x : In x (cset_elements s) -> exists i, nth_error s i = Some (Some x).
Proof.
  unfold cset_elements. intros H. apply in_flat_map in H as [[y|] [Hin Hx]]; [|destruct Hx].
  destruct Hx as [<-|[]]. now apply In_nth_error in Hin.
Qed.

Lemma bucket_delete_slot b b0 x p j r :
  nth_error (bucket b (bucket_update b0 (cset_delete x) p)) j = Some (Some r) ->
  nth_error (bucket b p) j = Some (Some r) /\ (b = b0 -> r <> x).
Proof.
  destruct (Bucket_eq_dec b b0) as [->|Hne].
  - rewrite bucket_update_same. intros H. apply cset_delete_slot in H as [H1 H2]. auto.
  - rewrite bucket_update_other by congruence. intros H. split; [assumption|].
    intros Hb. contradiction.
Qed.

Lemma bucket_delete_length b b0 x p :
  length (bucket b (bucket_update b0 (cset_delete x) p)) = length (bucket b p).
Proof.
  destruct (Bucket_eq_dec b b0) as [->|Hne].
  - now rewrite bucket_update_same, cset_delete_length.
  - rewrite bucket_update_other by congruence. reflexivity.
Qed.

Lemma bucket_add_slot b b0 x p j r :
  nth_error (bucket b (bucket_update b0 (cset_add x) p)) j = Some (Some r) ->
  j < length (bucket b p) ->
  nth_error (bucket b p) j = Some (Some r).
Proof.
  destruct (Bucket_eq_dec b b0) as [->|Hne].
  - rewrite bucket_update_same. apply cset_add_slot.
  - rewrite bucket_update_other by congruence. auto.
Qed.

(** A merge leaves no slot of the old range occupied that was not, and
    empties the slot of the merged chunk. *)
Lemma mergeInto_slot source minChunkSize mergedChunk closestChunk st b j r :
  nth_error (bucket b (chunkPartition
                         (mergeInto source minChunkSize mergedChunk closestChunk st))) j
  = Some (Some r) ->
  j < length (bucket b (chunkPartition st)) ->
  nth_error (bucket b (chunkPartition st)) j = Some (Some r)
  /\ (b = source -> r <> mergedChunk).
Proof.
  unfold mergeInto. simpl. intros H Hj.
  apply bucket_add_slot in H; [|now rewrite !bucket_delete_length].
  apply bucket_delete_slot in H as [H _].
  now apply bucket_delete_slot in H.
Qed.

Section SecondPass.
Variables (G : Graph) (minChunkSize : Z) (n : nat) (osig : nat -> string) (M : list nat).

Local Abbreviation Inv := (merge_inv G minChunkSize n osig M Pass2).

(** The chunks in the slots before [i] of [small.pure] have no target. *)
Let settled (i : nat) (st : MergeState) : Prop :=
  forall j r, j < i -> nth_error (bucket SmallPure (chunkPartition st)) j = Some (Some r) ->
              closestChunkOf pass2_targets r st = None.

Lemma bucket_pure st b r :
  Inv st -> in_bucket st b r -> (b = SmallPure \/ b = BigPure) ->
  ChunkDescription.pure (chunk_at st r) = true.
Proof.
  intros Hinv Hb Hpure. apply (inv_class Hinv) in Hb.
  rewrite (getChunksInPartition_pure _ minChunkSize), Hb. now destruct Hpure as [-> | ->].
Qed.

Lemma settled_step i st st' :
  Inv st -> settled i st ->
  mergeChunks_step SmallPure pass2_targets minChunkSize i st = Some st' ->
  settled (S i) st'.
Proof.
  intros Hinv Hsettled. unfold mergeChunks_step.
  destruct (nth_error (bucket SmallPure (chunkPartition st)) i) as [[m|]|] eqn:Hnth;
    intros Hstep; [| |discriminate].
  - injection Hstep as <-. unfold mergeChunks_chunk.
    destruct (closestChunkOf pass2_targets m st) as [c|] eqn:Hc.
    + intros j r Hj Hslot. exfalso.
      assert (Hi : i < length (bucket SmallPure (chunkPartition st)))
        by (apply nth_error_Some; congruence).
      apply mergeInto_slot in Hslot as [Hslot Hne]; [|lia].
      specialize (Hne eq_refl).
      assert (Hlt : j < i).
      { assert (Hcase : j < i \/ j = i) by lia. destruct Hcase as [H| ->]; [assumption|].
        rewrite Hnth in Hslot. injection Hslot as ->. contradiction. }
      pose proof (Hsettled j r Hlt Hslot) as Hnone.
      assert (Hm : in_bucket st SmallPure m) by (eapply cset_slot_In; eauto).
      assert (Hr : in_bucket st SmallPure r) by (eapply cset_slot_In; eauto).
      apply (@closestChunkOf_None _ _ _ m) in Hnone; [|apply concatLazy_In|congruence].
      * revert Hnone. apply mergeDistance_pure_finite;
          eapply bucket_pure; eauto.
      * exists SmallPure. split; [now left|exact Hm].
    + intros j r Hj Hslot. assert (Hcase : j < i \/ j = i) by lia.
      destruct Hcase as [H| ->]; [now apply (Hsettled j)|].
      rewrite Hnth in Hslot. now injection Hslot as <-.
  - injection Hstep as <-. intros j r Hj Hslot. assert (Hcase : j < i \/ j = i) by lia.
    destruct Hcase as [H| ->]; [now apply (Hsettled j)|].
    rewrite Hnth in Hslot. discriminate.
Qed.

Lemma settled_reaches i st j st' :
  loop_reaches SmallPure pass2_targets minChunkSize i st j st' ->
  Inv st -> settled i st -> settled j st'.
Proof.
  induction 1 as [|i st st1 j st2 Hstep _ IH]; [auto|]. intros Hinv Hsettled.
  apply IH.
  - eapply (@mergeChunks_step_preserves G minChunkSize n osig M Pass2); eauto.
  - eapply settled_step; eauto.
Qed.

(** When the second pass ends, a chunk left in [small.pure] is the only pure
    chunk, and no chunk of [big.sideEffect] loads all the entries it
    needs. *)
Lemma second_pass_end st1 st2 r :
  Inv st1 -> mergeChunks SmallPure pass2_targets minChunkSize st1 = Ok st2 ->
  in_bucket st2 SmallPure r ->
  (forall b r', in_bucket st2 b r' -> b = SmallPure \/ b = BigPure -> r' = r)
  /\ forall r', in_bucket st2 BigSideEffect r' ->
                distance_from (heap st2) r r' = Infinity.
Proof.
  intros Hinv Hrun Hr. unfold mergeChunks in Hrun.
  apply (@mergeChunks_loop_reaches minChunkSize Pass2) in Hrun as [j [Hreach Hend]].
  assert (Hinv2 : Inv st2)
    by (eapply (@loop_reaches_preserves G minChunkSize n osig M Pass2); eauto).
  assert (Hsettled : settled j st2).
  { eapply settled_reaches; eauto. intros k x Hk. lia. }
  assert (Hnone : closestChunkOf pass2_targets r st2 = None).
  { apply cset_In_slot in Hr as [k Hk]. apply (Hsettled k r); [|assumption].
    unfold mergeChunks_step in Hend. change (pass_source Pass2) with SmallPure in Hend.
    destruct (nth_error (bucket SmallPure (chunkPartition st2)) j) as [[x|]|] eqn:Hj;
      try discriminate Hend.
    apply nth_error_None in Hj.
    assert (k < length (bucket SmallPure (chunkPartition st2)))
      by (apply nth_error_Some; congruence).
    lia. }
  split.
  - intros b r' Hr' Hb. destruct (Nat.eq_dec r' r) as [->|Hne]; [reflexivity|]. exfalso.
    apply (@closestChunkOf_None _ _ _ r') in Hnone; [| |assumption].
    + revert Hnone. apply mergeDistance_pure_finite.
      * eapply bucket_pure; eauto.
      * eapply bucket_pure; eauto.
    + apply concatLazy_In. exists b. split; [|exact Hr'].
      destruct Hb as [-> | ->]; simpl; auto.
  - intros r' Hr'. apply (@closestChunkOf_None pass2_targets r st2 r' Hnone).
    + apply concatLazy_In. exists BigSideEffect. split; [simpl; auto|exact Hr'].
    + intros ->. apply (inv_class Hinv2) in Hr. apply (inv_class Hinv2) in Hr'.
      congruence.
Qed.
End SecondPass.

(** What the merge leaves below [minChunkSize] among the pure chunks. When
    [getOptimizedChunks] returns a pure chunk that is smaller than
    [minChunkSize], that chunk is the only pure chunk it returns, and every
    chunk with side effects of at least [minChunkSize] that it returns lacks
    an entry the pure chunk needs: the distance from the pure chunk to it,
    with the subset condition, is [Infinity]. *)
Theorem small_pure_chunk_is_alone (G : Graph) (assigned : list (nat * list nat))
    (allEntries : list nat) (minChunkSize : Z) :
  NoDup (map fst assigned) ->
  exists chunks,
    getOptimizedChunks G (getChunkModulesBySignature assigned allEntries) minChunkSize
    = Ok chunks
    /\ forall i chunk,
         nth_error chunks i = Some chunk ->
         ChunkDescription.pure chunk = true ->
         is_small (ChunkDescription.size chunk) minChunkSize = true ->
         (forall j chunk', nth_error chunks j = Some chunk' ->
                           ChunkDescription.pure chunk' = true -> j = i)
         /\ forall chunk',
              In chunk' chunks ->
              ChunkDescription.pure chunk' = false ->
              is_small (ChunkDescription.size chunk') minChunkSize = false ->
              getSignatureDistance (ChunkDescription.signature chunk)
                (ChunkDescription.signature chunk') true = Infinity.
Proof.
  intros Hkeys.
  pose proof (@initial_inv G minChunkSize assigned allEntries Hkeys) as H0.
  destruct (@mergeChunks_returns _ _ _ _ _ Pass1 _ H0) as [st1 [Hst1 Hinv1]].
  apply merge_inv_next_pass in Hinv1.
  destruct (@mergeChunks_returns _ _ _ _ _ Pass2 _ Hinv1) as [st2 [Hst2 Hinv2]].
  simpl in Hst1, Hst2.
  exists (map (chunk_at st2) (live_chunks (chunkPartition st2))). split.
  { unfold getOptimizedChunks. rewrite Hst1. simpl. rewrite Hst2. reflexivity. }
  assert (Hbucket : forall r, In r (live_chunks (chunkPartition st2)) ->
            in_bucket st2 (getChunksInPartition (chunk_at st2 r) minChunkSize) r).
  { intros r Hr. apply live_chunks_In in Hr as [b Hb].
    now rewrite (inv_class Hinv2 _ _ Hb). }
  intros i chunk Hi Hpure Hsmall.
  apply nth_error_map_Some in Hi as [r [Hi <-]].
  assert (Hr : in_bucket st2 SmallPure r).
  { pose proof (Hbucket r (nth_error_In _ _ Hi)) as Hb.
    unfold getChunksInPartition in Hb. now rewrite Hsmall, Hpure in Hb. }
  destruct (@second_pass_end G minChunkSize _ _ _ st1 st2 r Hinv1 Hst2 Hr)
    as [Halone Hfar].
  split.
  - intros j chunk' Hj Hpure'. apply nth_error_map_Some in Hj as [r' [Hj <-]].
    pose proof (Hbucket r' (nth_error_In _ _ Hj)) as Hb.
    assert (Hr' : r' = r).
    { apply (Halone _ r' Hb). unfold getChunksInPartition. rewrite Hpure'.
      destruct (is_small (ChunkDescription.size (chunk_at st2 r')) minChunkSize); auto. }
    subst r'. pose proof (live_chunks_NoDup Hinv2) as Hnd.
    rewrite NoDup_nth_error in Hnd. apply Hnd; [apply nth_error_Some|]; congruence.
  - intros chunk' Hin Himpure Hbig. apply in_map_iff in Hin as [r' [<- Hr']].
    pose proof (Hbucket r' Hr') as Hb. unfold getChunksInPartition in Hb.
    rewrite Hbig, Himpure in Hb. apply Hfar in Hb.
    unfold distance_from, mergeDistance in Hb. fold (chunk_at st2 r) in Hb.
    fold (chunk_at st2 r') in Hb. now rewrite Hpure, Himpure in Hb.
Qed.

Lemma small_pure_chunk_is_alone_witness :
  exists chunks,
    getOptimizedChunks Examples.elisionGraph
      (getChunkModulesBySignature
         (assignedEntriesByModule Examples.elisionAssignment) [0; 1]) 100
    = Ok chunks
    /\ forall i chunk,
         nth_error chunks i = Some chunk ->
         ChunkDescription.pure chunk = true ->
         is_small (ChunkDescription.size chunk) 100 = true ->
         (forall j chunk', nth_error chunks j = Some chunk' ->
                           ChunkDescription.pure chunk' = true -> j = i)
         /\ forall chunk',
              In chunk' chunks ->
              ChunkDescription.pure chunk' = false ->
              is_small (ChunkDescription.size chunk') 100 = false ->
              getSignatureDistance (ChunkDescription.signature chunk)
                (ChunkDescription.signature chunk') true = Infinity.
Proof.
  apply (@small_pure_chunk_is_alone Examples.elisionGraph
           (assignedEntriesByModule Examples.elisionAssignment) [0; 1] 100).
  repeat constructor; simpl; intuition discriminate.
Defined.

(** ** The chunks of [getChunkAssignments] *)

Lemma insert_by_index_perm {V : Type} n (e : string * V) l :
  Permutation (insert_by_index n e l) ((n, e) :: l).
Proof.
  induction l as [|[n' e'] l IH]; simpl; [reflexivity|].
  destruct (n <=? n')%N; [reflexivity|].
  rewrite IH. apply perm_swap.
Qed.

Lemma index_entries_perm {V : Type} (o : list (string * V)) :
  Permutation (map snd (index_entries o)) (filter is_index_key o).
Proof.
  induction o as [|[k v] o IH]; simpl; [reflexivity|].
  unfold is_index_key at 1. simpl. destruct (arrayIndex k) as [n|]; [|exact IH].
  rewrite insert_by_index_perm. simpl. now rewrite IH.
Qed.

Lemma filter_partition_perm {A : Type} (p : A -> bool) l :
  Permutation (filter p l ++ filter (fun x => negb (p x)) l) l.
Proof.
  induction l as [|x l IH]; simpl; [reflexivity|].
  destruct (p x); simpl.
  - now rewrite IH.
  - rewrite <- Permutation_middle. now rewrite IH.
Qed.

(** [Object.entries] lists every entry of the object once. *)
Lemma Object_entries_perm {V : Type} (o : list (string * V)) :
  Permutation (Object_entries o) o.
Proof.
  unfold Object_entries. rewrite index_entries_perm. apply filter_partition_perm.
Qed.

Lemma flat_map_perm {A B : Type} (f : A -> list B) l l' :
  Permutation l l' -> Permutation (flat_map f l) (flat_map f l').
Proof.
  induction 1 as [|x l l' _ IH|x y l|l l' l'' _ IH1 _ IH2]; simpl.
  - reflexivity.
  - now rewrite IH.
  - rewrite !app_assoc. apply Permutation_app_tail, Permutation_app_comm.
  - now rewrite IH1.
Qed.

(** What [o[k] = v] does to the list of the entries. *)
Lemma obj_set_present {V : Type} k (v v0 : V) o :
  obj_get k o = Some v0 ->
  exists o1 o2, o = o1 ++ (k, v0) :: o2 /\ obj_set k v o = o1 ++ (k, v) :: o2.
Proof.
  induction o as [|[k' v'] o IH]; simpl; [discriminate|].
  destruct (String.eqb k k') eqn:E.
  - apply String.eqb_eq in E. subst k'. intros H. injection H as ->.
    exists [], o. split; reflexivity.
  - intros H. destruct (IH H) as [o1 [o2 [-> Hset]]].
    exists ((k', v') :: o1), o2. simpl. now rewrite Hset.
Qed.

Lemma obj_set_absent {V : Type} k (v : V) o :
  obj_get k o = None -> obj_set k v o = o ++ [(k, v)].
Proof.
  induction o as [|[k' v'] o IH]; simpl; [reflexivity|].
  destruct (String.eqb k k'); [discriminate|]. intros H. now rewrite IH.
Qed.

Lemma obj_set_twice {V : Type} k (v v0 : V) o :
  obj_set k v (obj_set k v0 o) = obj_set k v o.
Proof.
  induction o as [|[k' v'] o IH]; simpl.
  - now rewrite String.eqb_refl.
  - destruct (String.eqb k k') eqn:E; simpl; [now rewrite String.eqb_refl|].
    now rewrite E, IH.
Qed.

(** Pushing [l] onto the bucket of [k], creating the bucket when there is
    none. *)
Lemma obj_push_perm k (l : list nat) (o : list (string * list nat)) :
  let bucket := match obj_get k o with Some b => b | None => [] end in
  Permutation (flat_map snd (obj_set k (bucket ++ l) o)) (flat_map snd o ++ l)
  /\ forall k' b, In (k', b) (obj_set k (bucket ++ l) o) ->
                  b = bucket ++ l \/ In (k', b) o.
Proof.
  destruct (obj_get k o) as [b0|] eqn:Hget; simpl.
  - destruct (@obj_set_present _ k (b0 ++ l) b0 o Hget) as [o1 [o2 [-> ->]]]. split.
    + rewrite !flat_map_app. simpl. rewrite <- !app_assoc.
      apply Permutation_app_head, Permutation_app_head, Permutation_app_comm.
    + intros k' b Hin. apply in_app_iff in Hin as [Hin|[Hin|Hin]].
      * right. apply in_or_app. now left.
      * left. now injection Hin as _ <-.
      * right. apply in_or_app. right. now right.
  - rewrite obj_set_absent by assumption. split.
    + rewrite flat_map_app. simpl. now rewrite app_nil_r.
    + intros k' b Hin. apply in_app_iff in Hin as [Hin|[Hin|[]]]; [now right|].
      left. now injection Hin as _ <-.
Qed.

Lemma manualChunks_entry_spec G entry alias byAlias inManual res :
  manualChunks_entry G (entry, alias) (byAlias, inManual) = Ok res ->
  exists l,
    NoDup l /\ (exists rest, l = entry :: rest)
    /\ (forall m, In m l -> m = entry \/ ~ In m inManual)
    /\ fst res
       = obj_set alias
           ((match obj_get alias byAlias with Some b => b | None => [] end) ++ l) byAlias
    /\ forall x, In x (snd res) <-> In x inManual \/ In x l.
Proof.
  unfold manualChunks_entry, addStaticDependenciesToManualChunk. intros Hrun.
  assert (Hgen : forall bucket byAlias',
    (st <- (st <- addStaticDependenciesToManualChunk_run G entry bucket inManual ;;
            Ok (mt_manualChunkModules st, mt_modulesInManualChunks st)) ;;
     Ok (obj_set alias (fst st) byAlias', snd st)) = Ok res ->
    exists l,
      NoDup l /\ (exists rest, l = entry :: rest)
      /\ (forall m, In m l -> m = entry \/ ~ In m inManual)
      /\ fst res = obj_set alias (bucket ++ l) byAlias'
      /\ forall x, In x (snd res) <-> In x inManual \/ In x l).
  { intros bucket byAlias' H. apply bind_Ok_inv in H as [r [H Hres]].
    apply bind_Ok_inv in H as [st [Hst Hr]]. injection Hr as <-. injection Hres as <-.
    apply manual_run_spec in Hst as [Hb [HinM [Hnd [Hhd [Horigin _]]]]]. simpl.
    exists (mt_modulesToHandle st). split; [assumption|]. split; [assumption|].
    split; [|split; [now rewrite Hb|assumption]].
    intros m Hm. destruct (Horigin m Hm) as [->|[Hn _]]; auto. }
  destruct (obj_get alias byAlias) as [bucket|] eqn:Hget.
  - now apply Hgen.
  - apply Hgen in Hrun as [l [H1 [H2 [H3 [H4 H5]]]]]. exists l.
    rewrite obj_set_twice in H4. auto.
Qed.

(** The buckets of the manual chunks when the loop over
    [manualChunkAliasByEntry] ends: no bucket is empty, no module is in them
    twice, and their modules are those of [modulesInManualChunks]. *)
Lemma manualChunks_buckets G : forall rest byAlias inManual res,
  forEach (manualChunks_entry G) rest (byAlias, inManual) = Ok res ->
  NoDup (map fst rest) -> NoDup (map fst byAlias) -> NoDup (flat_map snd byAlias) ->
  (forall m, In m inManual <-> In m (flat_map snd byAlias) \/ In m (map fst rest)) ->
  (forall e, In e (map fst rest) -> ~ In e (flat_map snd byAlias)) ->
  (forall k b, In (k, b) byAlias -> b <> []) ->
  NoDup (map fst (fst res)) /\ NoDup (flat_map snd (fst res))
  /\ (forall m, In m (snd res) <-> In m (flat_map snd (fst res)))
  /\ (forall k b, In (k, b) (fst res) -> b <> []).
Proof.
  induction rest as [|[entry alias] rest IH];
    intros byAlias inManual res Hrun Hrest Hkeys Hflat HinM Hfresh Hne.
  - simpl in Hrun. injection Hrun as <-. simpl. split; [assumption|].
    split; [assumption|]. split; [|assumption].
    intros m. rewrite HinM. simpl. tauto.
  - cbn [forEach] in Hrun. apply bind_Ok_inv in Hrun as [[byAlias' inManual'] [Hstep Hrun]].
    apply manualChunks_entry_spec in Hstep
      as [l [Hnd [[tl Hl] [Horigin [Hset HinM']]]]]. simpl in Hset, HinM'.
    destruct (obj_push_perm alias l byAlias) as [Hperm Hin]. simpl in Hperm, Hin.
    rewrite <- Hset in Hperm, Hin.
    simpl in Hrest. apply NoDup_cons_iff in Hrest as [Hentry Hrest']. subst l.
    assert (Hmem : forall m, In m (flat_map snd byAlias')
                             <-> In m (flat_map snd byAlias) \/ In m (entry :: tl)).
    { intros m. rewrite <- in_app_iff. split; apply Permutation_in;
        [exact Hperm|now apply Permutation_sym]. }
    apply (IH _ _ _ Hrun); try assumption.
    + rewrite Hset. now apply obj_set_NoDup.
    + apply (Permutation_NoDup (Permutation_sym Hperm)). apply NoDup_app; try assumption.
      intros x Hx Hxl. destruct (Horigin x Hxl) as [->|Hn].
      * apply (Hfresh entry); [now left|assumption].
      * apply Hn, HinM. now left.
    + intros m. rewrite HinM', HinM, Hmem. simpl. tauto.
    + intros e He Hflat'. apply Hmem in Hflat' as [H|H].
      * apply (Hfresh e); [now right|assumption].
      * destruct (Horigin e H) as [->|Hn]; [contradiction|].
        apply Hn, HinM. right. now right.
    + intros k b Hb. destruct (Hin k b Hb) as [->|Hold]; [|eauto].
      intros Happ. apply app_eq_nil in Happ as [_ Happ]. discriminate.
Qed.

Lemma manualChunks_partition G manualChunkAliasByEntry byAlias inManual :
  manualChunks G manualChunkAliasByEntry = Ok (byAlias, inManual) ->
  NoDup (map fst manualChunkAliasByEntry) ->
  NoDup (map fst byAlias) /\ NoDup (flat_map snd byAlias)
  /\ (forall m, In m inManual <-> In m (flat_map snd byAlias))
  /\ (forall k b, In (k, b) byAlias -> b <> []).
Proof.
  unfold manualChunks. intros Hrun Hnd.
  apply manualChunks_buckets in Hrun; simpl; auto.
  - constructor.
  - constructor.
  - intros m. rewrite set_of_list_In. tauto.
Qed.

Lemma assigned_keys_not_manual G a inManual staticEntries assigned module :
  assignEntries G a inManual staticEntries = Ok assigned ->
  In module (map fst assigned) -> ~ In module inManual.
Proof.
  intros Hassigned Hm. apply assignEntries_spec in Hassigned as [_ [Hkeys _]].
  apply Hkeys in Hm as [entry [_ [Hman [visited [Hv Hin]]]]].
  apply visitedFrom_path in Hv as [_ [_ Hv]]. apply Hv in Hin.
  eapply assign_path_not_manual; eauto.
Qed.

Lemma flat_map_modules_manual (o : list (string * list nat)) :
  flat_map modules
    (map (fun aliasModules : string * list nat =>
            {| alias := Some (fst aliasModules); modules := snd aliasModules |}) o)
  = flat_map snd o.
Proof. induction o as [|[k b] o IH]; simpl; [reflexivity|]. now rewrite IH. Qed.

(** The chunks of [getChunkAssignments] are a partition of the modules it
    places. When the keys of [manualChunkAliasByEntry] are distinct and the
    assignment of the modules returns, [getChunkAssignments] returns chunks
    none of which is empty and that together hold no module twice; the
    modules they hold are those of [modulesInManualChunks] and those that
    have an entry set, and a chunk has an alias exactly when its modules are
    of the first kind. *)
Theorem every_module_in_one_chunk (G : Graph) (entries : list nat)
    (manualChunkAliasByEntry : list (nat * string)) (minChunkSize : Z) (asg : Assignment) :
  assignModules G entries manualChunkAliasByEntry = Ok asg ->
  NoDup (map fst manualChunkAliasByEntry) ->
  exists chunks,
    getChunkAssignments G entries manualChunkAliasByEntry minChunkSize = Ok chunks
    /\ NoDup (flat_map modules chunks)
    /\ (forall m, In m (flat_map modules chunks)
          <-> In m (modulesInManualChunks asg)
              \/ In m (map fst (assignedEntriesByModule asg)))
    /\ forall chunk,
         In chunk chunks ->
         modules chunk <> []
         /\ forall m, In m (modules chunk) ->
                      (In m (modulesInManualChunks asg) <-> alias chunk <> None).
Proof.
  intros Hasg Hnd. unfold getChunkAssignments. rewrite Hasg. simpl.
  apply assignModules_inv in Hasg as [Hmanual [_ Hassigned]].
  pose proof (fun module => @assigned_keys_not_manual _ _ _ _ _ module Hassigned) as Hauto.
  apply assignEntries_spec in Hassigned as [Hkeys _].
  apply manualChunks_partition in Hmanual as [_ [Hflat [HinM Hne]]]; [|assumption].
  destruct (@createChunks_cover G (allEntries (analysis asg))
              (assignedEntriesByModule asg) Hkeys minChunkSize) as [automatic [Hres Hcover]].
  pose proof (createChunks_modules _ _ _ _ Hkeys Hres) as Hshape.
  assert (Hperm : Permutation (flat_map modules automatic)
                    (map fst (assignedEntriesByModule asg))).
  { apply chunks_Permutation; [assumption|exact Hcover|].
    intros chunk m Hc. now apply (Hshape chunk Hc). }
  assert (Hmanual : forall m,
    In m (flat_map snd (Object_entries (manualChunkModulesByAlias asg)))
    <-> In m (modulesInManualChunks asg)).
  { intros m. rewrite HinM. split; apply Permutation_in; apply flat_map_perm;
      [apply Object_entries_perm|apply Permutation_sym, Object_entries_perm]. }
  rewrite Hres. simpl. eexists. split; [reflexivity|].
  rewrite flat_map_app, flat_map_modules_manual. split; [|split].
  - apply NoDup_app.
    + apply (Permutation_NoDup (l := flat_map snd (manualChunkModulesByAlias asg)));
        [|assumption].
      apply flat_map_perm, Permutation_sym, Object_entries_perm.
    + apply (Permutation_NoDup (Permutation_sym Hperm)). assumption.
    + intros m Hm Ha. apply Hmanual in Hm. apply (Hauto m); [|assumption].
      eapply Permutation_in; eauto.
  - intros m. rewrite in_app_iff, Hmanual. split.
    + intros [H|H]; [now left|]. right. eapply Permutation_in; eauto.
    + intros [H|H]; [now left|]. right.
      eapply Permutation_in; [apply Permutation_sym|]; eauto.
  - intros chunk Hc. apply in_app_iff in Hc as [Hc|Hc].
    + apply in_map_iff in Hc as [[k b] [<- Hin]]. simpl.
      assert (Hb : In (k, b) (manualChunkModulesByAlias asg))
        by (eapply Permutation_in; [apply Object_entries_perm|exact Hin]).
      split; [eapply Hne; eauto|].
      intros m Hm. split; [discriminate|]. intros _. apply HinM.
      apply in_flat_map. exists (k, b). auto.
    + destruct (Hshape chunk Hc) as [Halias [Hmods Hin]].
      split; [assumption|]. intros m Hm. rewrite Halias. split.
      * intros Hman. exfalso. apply (Hauto m); auto.
      * intros H. now contradiction H.
Qed.

Lemma every_module_in_one_chunk_witness :
  exists chunks,
    getChunkAssignments Examples.elisionGraph [0] [] 0 = Ok chunks
    /\ NoDup (flat_map modules chunks)
    /\ (forall m, In m (flat_map modules chunks)
          <-> In m (modulesInManualChunks Examples.elisionAssignment)
              \/ In m (map fst (assignedEntriesByModule Examples.elisionAssignment)))
    /\ forall chunk,
         In chunk chunks ->
         modules chunk <> []
         /\ forall m, In m (modules chunk) ->
                      (In m (modulesInManualChunks Examples.elisionAssignment)
                       <-> alias chunk <> None).
Proof.
  apply (@every_module_in_one_chunk Examples.elisionGraph [0] [] 0
           Examples.elisionAssignment).
  - reflexivity.
  - constructor.
Defined.

(** ** The modules of the manual chunks *)

Lemma manual_run_paths G entry bucket inManual st :
  addStaticDependenciesToManualChunk_run G entry bucket inManual = Ok st ->
  forall m, In m (mt_modulesToHandle st) -> dependency_path G entry m.
Proof.
  unfold addStaticDependenciesToManualChunk_run. intros Hrun.
  apply (@forOf_preserves _ mt_modulesToHandle (addStaticDependenciesToManualChunk_module G)
           (fun st => forall m, In m (mt_modulesToHandle st) -> dependency_path G entry m))
    with (3 := Hrun).
  - intros x s s' Hs Hx Hb. apply manual_module_inv in Hb as [_ [_ Hl]].
    intros m Hm. rewrite Hl in Hm. apply enqueue_In in Hm as [Hm|[Hm _]]; [now apply Hs|].
    eapply dependency_step; [apply Hs; exact Hx|exact Hm].
  - simpl. intros m [<-|[]]. constructor.
Qed.

(** The loop over [manualChunkAliasByEntry]: every module marked is an entry
    still to come or has its dependencies marked, and is reached from an
    entry. *)
Lemma manualChunks_closure G (keys : list nat) manual : forall byAlias0 inManual0 byAlias inManual,
  forEach (manualChunks_entry G) manual (byAlias0, inManual0) = Ok (byAlias, inManual) ->
  (forall m, In m inManual0 ->
     In m (map fst manual)
     \/ forall d, In (DepModule d) (dependencies (getModule G m)) -> In d inManual0) ->
  (forall m, In m inManual0 -> exists entry, In entry keys /\ dependency_path G entry m) ->
  incl (map fst manual) keys ->
  incl inManual0 inManual
  /\ (forall m d, In m inManual ->
        In (DepModule d) (dependencies (getModule G m)) -> In d inManual)
  /\ (forall m, In m inManual -> exists entry, In entry keys /\ dependency_path G entry m).
Proof.
  induction manual as [|[entry alias] manual IH];
    intros byAlias0 inManual0 byAlias inManual Hrun Hclosed Hsound Hkeys; simpl in Hrun.
  - injection Hrun as <- <-. split; [intros m Hm; exact Hm|]. split; [|assumption].
    intros m d Hm Hd. destruct (Hclosed m Hm) as [[]|H]. now apply H.
  - apply bind_Ok_inv in Hrun as [[byAlias1 inManual1] [Hentry Hrest]].
    unfold manualChunks_entry in Hentry.
    destruct (match obj_get alias byAlias0 with
              | Some bucket => (bucket, byAlias0)
              | None => ([], obj_set alias [] byAlias0)
              end) as [bucket byAlias'].
    apply bind_Ok_inv in Hentry as [r [Hadd Hentry]]. injection Hentry as _ <-.
    unfold addStaticDependenciesToManualChunk in Hadd.
    apply bind_Ok_inv in Hadd as [st [Hrun Hadd]]. injection Hadd as <-. simpl in *.
    pose proof (manual_run_paths _ _ _ _ Hrun) as Hpaths.
    apply manual_run_spec in Hrun as [_ [HinM [_ [[rest Hl] [_ Hreach]]]]].
    cbv zeta in *.
    destruct (IH _ _ _ _ Hrest) as [Hincl [Hc Hs]].
    + intros m Hm. apply HinM in Hm as [Hm|Hm].
      * destruct (Hclosed m Hm) as [[Heq|Hk]|Hdeps].
        -- subst m. right. intros d Hd. apply HinM.
           destruct (Hreach d) as [H|H]; [|now left|now right].
           exists entry. split; [rewrite Hl; now left|assumption].
        -- now left.
        -- right. intros d Hd. apply HinM. left. now apply Hdeps.
      * right. intros d Hd. apply HinM.
        destruct (Hreach d) as [H|H]; [|now left|now right].
        exists m. auto.
    + intros m Hm. apply HinM in Hm as [Hm|Hm]; [now apply Hsound|].
      exists entry. split; [apply Hkeys; now left|now apply Hpaths].
    + intros k Hk. apply Hkeys. now right.
    + split; [|split; assumption].
      intros m Hm. apply Hincl, HinM. now left.
Qed.

(** The modules of the manual chunks are the static dependencies of the
    manual entries. When [getChunkAssignments] has made the manual chunks,
    a module is in [modulesInManualChunks], and so in one of the buckets of
    [manualChunkModulesByAlias] when no entry is given twice, exactly when it
    is reached from an entry of [manualChunkAliasByEntry] through static
    dependencies that are modules, to be included or not. *)
Theorem manual_chunks_hold_the_dependencies (G : Graph)
    (manualChunkAliasByEntry : list (nat * string))
    (manualChunkModulesByAlias : list (string * list nat))
    (modulesInManualChunks : list nat) :
  manualChunks G manualChunkAliasByEntry
  = Ok (manualChunkModulesByAlias, modulesInManualChunks) ->
  (forall module,
      In module modulesInManualChunks
      <-> exists entry, In entry (map fst manualChunkAliasByEntry)
                        /\ dependency_path G entry module)
  /\ (NoDup (map fst manualChunkAliasByEntry) ->
      forall module,
        In module modulesInManualChunks
        <-> exists alias bucket,
              In (alias, bucket) manualChunkModulesByAlias /\ In module bucket).
Proof.
  intros Hrun. split.
  - pose proof Hrun as Hrun'. unfold manualChunks in Hrun'.
    apply (@manualChunks_closure G (map fst manualChunkAliasByEntry)) in Hrun'
      as [Hincl [Hclosed Hsound]].
    + intros module. split; [apply Hsound|].
      intros [entry [Hentry Hpath]].
      induction Hpath as [|m d _ IH Hd].
      * apply Hincl. now apply set_of_list_In.
      * eapply Hclosed; eauto.
    + intros m Hm. left. now apply set_of_list_In.
    + intros m Hm. exists m. split; [now apply set_of_list_In|constructor].
    + intros k Hk. exact Hk.
  - intros Hnd module.
    apply manualChunks_partition in Hrun as [_ [_ [Hin _]]]; [|assumption].
    rewrite Hin, in_flat_map. split.
    + intros [[alias bucket] [H1 H2]]. exists alias, bucket. auto.
    + intros [alias [bucket [H1 H2]]]. exists (alias, bucket). auto.
Qed.

Lemma manual_chunks_hold_the_dependencies_witness :
  (forall module,
      In module [0; 3; 1; 2]
      <-> exists entry, In entry (map fst Examples.manualAliases)
                        /\ dependency_path Examples.manualGraph entry module)
  /\ (NoDup (map fst Examples.manualAliases) ->
      forall module,
        In module [0; 3; 1; 2]
        <-> exists alias bucket,
              In (alias, bucket)
                [("a"%string, [0; 2]); ("b"%string, [3]); ("c"%string, [1])]
              /\ In module bucket).
Proof.
  apply (@manual_chunks_hold_the_dependencies Examples.manualGraph Examples.manualAliases).
  reflexivity.
Defined.

(** * The already loaded modules of [src/utils/chunkAssignment.ts] *)

(** A loop whose body returns under an invariant that bounds the iterated
    set returns. *)
Lemma forOf_returns {St : Type} (iterated : St -> list nat)
    (body : nat -> St -> result St) (P : St -> Prop) (bound : nat) :
  (forall x st, P st -> In x (iterated st) -> exists st', body x st = Ok st' /\ P st') ->
  (forall st, P st -> length (iterated st) <= bound) ->
  forall fuel i st,
    P st -> bound < fuel + i -> 0 < fuel ->
    exists st', forOf iterated body fuel i st = Ok st' /\ P st'.
Proof.
  intros Hbody Hbound. induction fuel as [|fuel IH]; intros i st HP Hlt Hpos; [lia|].
  simpl. destruct (nth_error (iterated st) i) as [x|] eqn:Hnth; [|eauto].
  assert (Hi : i < length (iterated st)) by (apply nth_error_Some; congruence).
  pose proof (Hbound st HP) as Hle.
  destruct (Hbody x st HP (nth_error_In _ _ Hnth)) as [st1 [Hb H1]].
  rewrite Hb. simpl. apply IH; [assumption|lia|lia].
Qed.

Lemma forEach_returns {A St : Type} (body : A -> St -> result St) (P : St -> Prop)
    (xs : list A) :
  (forall x st, In x xs -> P st -> exists st', body x st = Ok st' /\ P st') ->
  forall st, P st -> exists st', forEach body xs st = Ok st' /\ P st'.
Proof.
  induction xs as [|x xs IH]; intros Hbody st HP; simpl; [eauto|].
  destruct (Hbody x st (or_introl eq_refl) HP) as [st1 [Hb H1]].
  rewrite Hb. simpl. apply IH; [|assumption].
  intros y s Hy. apply Hbody. now right.
Qed.

Lemma assigned_to_addTo M key value key' value' :
  assigned_to (AlreadyLoaded.addTo M key value) key' value'
  <-> assigned_to M key' value' \/ (key' = key /\ value' = value).
Proof.
  unfold AlreadyLoaded.addTo.
  pose proof (@getOrCreate_fst_In M key) as Hfst.
  pose proof (@assigned_to_getOrCreate M key) as Hsnd.
  destruct (getOrCreate M key []) as [set M'] eqn:E. simpl in Hfst, Hsnd.
  destruct (Nat.eq_dec key' key) as [->|Hne].
  - rewrite assigned_to_set_same, set_add_In, Hfst. split.
    + intros [->|H]; auto.
    + intros [H|[_ ->]]; auto.
  - rewrite assigned_to_set_other, Hsnd by assumption. split; [auto|].
    intros [H|[H _]]; [assumption|contradiction].
Qed.

Lemma addTo_keys M key value :
  map fst (AlreadyLoaded.addTo M key value) = set_add key (map fst M).
Proof.
  unfold AlreadyLoaded.addTo.
  pose proof (@getOrCreate_keys _ M key (@nil nat)) as Hkeys.
  destruct (getOrCreate M key []) as [set M'] eqn:E. simpl in Hkeys.
  rewrite map_set_keys_set_add, Hkeys.
  unfold set_add at 1. replace (set_has key (set_add key (map fst M))) with true;
    [reflexivity|].
  symmetry. apply set_has_In, set_add_In. now left.
Qed.

Lemma dynamicTargets_In G resolutions d :
  In d (AlreadyLoaded.dynamicTargets G resolutions)
  <-> In (ResModule d) resolutions /\ includedDynamicImporters (getModule G d) <> [].
Proof.
  unfold AlreadyLoaded.dynamicTargets. rewrite in_flat_map. split.
  - intros [[r|x|] [Hin Hd]]; try destruct Hd.
    destruct (includedDynamicImporters (getModule G r)) eqn:E; simpl in Hd; [destruct Hd|].
    destruct Hd as [<-|[]]. split; [assumption|]. rewrite E. discriminate.
  - intros [Hin Hne]. exists (ResModule d). split; [assumption|].
    destruct (includedDynamicImporters (getModule G d)); [contradiction|now left].
Qed.

Lemma discovered_In G module d :
  In d (AlreadyLoaded.discovered G module) <-> discovers G module d.
Proof.
  unfold AlreadyLoaded.discovered, discovers. now rewrite in_app_iff, dynamicTargets_In.
Qed.

Lemma discovers_in_universe G module d : discovers G module d -> In d (graph_universe G).
Proof.
  intros [[H _]|H]; apply (@getModule_refs G module); unfold module_refs;
    rewrite !in_app_iff.
  - right. right. left. apply in_flat_map. exists (ResModule d). split; [assumption|now left].
  - tauto.
Qed.

(** *** The loops of one module *)

Lemma loaded_addDependencies_spec deps : forall tr,
  let tr' := AlreadyLoaded.addDependencies deps tr in
  let st := AlreadyLoaded.tr_state tr in
  let st' := AlreadyLoaded.tr_state tr' in
  AlreadyLoaded.tr_modulesToHandle tr' = enqueue [] deps (AlreadyLoaded.tr_modulesToHandle tr)
  /\ AlreadyLoaded.tr_dynamicImports tr' = AlreadyLoaded.tr_dynamicImports tr
  /\ AlreadyLoaded.st_dependentEntryPointsByModule st'
     = AlreadyLoaded.st_dependentEntryPointsByModule st
  /\ AlreadyLoaded.st_dynamicImportsByEntry st' = AlreadyLoaded.st_dynamicImportsByEntry st
  /\ AlreadyLoaded.st_dynamicallyDependentEntryPointsByDynamicEntry st'
     = AlreadyLoaded.st_dynamicallyDependentEntryPointsByDynamicEntry st
  /\ AlreadyLoaded.st_entriesToHandle st' = AlreadyLoaded.st_entriesToHandle st
  /\ forall m, In m (AlreadyLoaded.st_allModules st')
       <-> In m (AlreadyLoaded.st_allModules st) \/ In (DepModule m) deps.
Proof.
  unfold AlreadyLoaded.addDependencies, enqueue.
  induction deps as [|[d|x] deps IH]; intros tr; cbv zeta; simpl.
  - repeat split; try reflexivity; [auto|]. intros [H|[]]. exact H.
  - destruct (IH (AlreadyLoaded.addDependency d tr)) as [H1 [H2 [H3 [H4 [H5 [H6 H7]]]]]].
    cbv zeta in *. simpl in *. rewrite H1, H2, H3, H4, H5, H6.
    repeat split; try reflexivity.
    + intros H. apply H7 in H as [H|H]; [|auto].
      apply set_add_In in H as [->|H]; auto.
    + intros H. apply H7. rewrite set_add_In. destruct H as [H|[H|H]]; auto.
      injection H as ->. auto.
  - destruct (IH tr) as [H1 [H2 [H3 [H4 [H5 [H6 H7]]]]]].
    cbv zeta in *. rewrite H1, H2, H3, H4, H5, H6.
    repeat split; try reflexivity.
    + intros H. apply H7 in H as [H|H]; auto.
    + intros H. apply H7. destruct H as [H|[H|H]]; auto. discriminate.
Qed.

Lemma loaded_addDynamicImports_targets G currentEntry resolutions : forall tr,
  AlreadyLoaded.addDynamicImports G currentEntry resolutions tr
  = AlreadyLoaded.addImplicitlyLoadedBefore currentEntry
      (AlreadyLoaded.dynamicTargets G resolutions) tr.
Proof.
  unfold AlreadyLoaded.addDynamicImports, AlreadyLoaded.addImplicitlyLoadedBefore,
    AlreadyLoaded.dynamicTargets.
  induction resolutions as [|[r|x|] resolutions IH]; intros tr; simpl; try apply IH;
    [reflexivity|].
  rewrite fold_left_app.
  destruct (0 <? length (includedDynamicImporters (getModule G r))); simpl; apply IH.
Qed.

Lemma loaded_addImplicitlyLoadedBefore_app currentEntry ds1 ds2 tr :
  AlreadyLoaded.addImplicitlyLoadedBefore currentEntry ds2
    (AlreadyLoaded.addImplicitlyLoadedBefore currentEntry ds1 tr)
  = AlreadyLoaded.addImplicitlyLoadedBefore currentEntry (ds1 ++ ds2) tr.
Proof. unfold AlreadyLoaded.addImplicitlyLoadedBefore. now rewrite fold_left_app. Qed.

Lemma loaded_addImplicitlyLoadedBefore_spec currentEntry ds : forall tr,
  map_get currentEntry (AlreadyLoaded.st_dynamicImportsByEntry (AlreadyLoaded.tr_state tr))
  = Some (AlreadyLoaded.tr_dynamicImports tr) ->
  let tr' := AlreadyLoaded.addImplicitlyLoadedBefore currentEntry ds tr in
  let st := AlreadyLoaded.tr_state tr in
  let st' := AlreadyLoaded.tr_state tr' in
  AlreadyLoaded.tr_modulesToHandle tr' = AlreadyLoaded.tr_modulesToHandle tr
  /\ AlreadyLoaded.st_dependentEntryPointsByModule st'
     = AlreadyLoaded.st_dependentEntryPointsByModule st
  /\ map_get currentEntry (AlreadyLoaded.st_dynamicImportsByEntry st')
     = Some (AlreadyLoaded.tr_dynamicImports tr')
  /\ (forall e, e <> currentEntry ->
        map_get e (AlreadyLoaded.st_dynamicImportsByEntry st')
        = map_get e (AlreadyLoaded.st_dynamicImportsByEntry st))
  /\ (forall d, In d (AlreadyLoaded.tr_dynamicImports tr')
        <-> In d (AlreadyLoaded.tr_dynamicImports tr) \/ In d ds)
  /\ (forall d e,
        assigned_to (AlreadyLoaded.st_dynamicallyDependentEntryPointsByDynamicEntry st') d e
        <-> assigned_to (AlreadyLoaded.st_dynamicallyDependentEntryPointsByDynamicEntry st)
              d e
            \/ (e = currentEntry /\ In d ds))
  /\ AlreadyLoaded.st_entriesToHandle st'
     = set_add_all ds (AlreadyLoaded.st_entriesToHandle st)
  /\ AlreadyLoaded.st_allModules st' = set_add_all ds (AlreadyLoaded.st_allModules st).
Proof.
  unfold AlreadyLoaded.addImplicitlyLoadedBefore, set_add_all.
  induction ds as [|x ds IH]; intros tr Hsync; cbv zeta; simpl.
  - repeat split; try reflexivity; try assumption; [auto|tauto|auto|tauto].
  - destruct (IH (AlreadyLoaded.addDynamicEntry currentEntry x tr))
      as [H1 [H2 [H3 [H4 [H5 [H6 [H7 H8]]]]]]].
    { simpl. apply map_get_set_same. }
    cbv zeta in *. simpl in *. rewrite H1, H2, H7, H8.
    repeat split; try reflexivity; try assumption.
    + intros e He. rewrite H4 by assumption. now apply map_get_set_other.
    + intros H. apply H5 in H as [H|H]; [|auto].
      apply set_add_In in H as [->|H]; auto.
    + intros H. apply H5. rewrite set_add_In. destruct H as [H|[->|H]]; auto.
    + intros H. apply H6 in H as [H|[-> H]]; [|auto].
      apply assigned_to_addTo in H as [H|[-> ->]]; auto.
    + intros H. apply H6. rewrite assigned_to_addTo.
      destruct H as [H|[-> [->|H]]]; auto.
Qed.

Lemma loaded_module_inv G currentEntry module tr tr' :
  AlreadyLoaded.getAlreadyLoadedModulesByDynamicEntry_module G currentEntry module tr
  = Ok tr' ->
  map_get currentEntry (AlreadyLoaded.st_dynamicImportsByEntry (AlreadyLoaded.tr_state tr))
  = Some (AlreadyLoaded.tr_dynamicImports tr) ->
  let st := AlreadyLoaded.tr_state tr in
  let st' := AlreadyLoaded.tr_state tr' in
  AlreadyLoaded.tr_modulesToHandle tr'
  = enqueue [] (getDependenciesToBeIncluded (getModule G module))
      (AlreadyLoaded.tr_modulesToHandle tr)
  /\ (forall m e, assigned_to (AlreadyLoaded.st_dependentEntryPointsByModule st') m e
        <-> assigned_to (AlreadyLoaded.st_dependentEntryPointsByModule st) m e
            \/ (m = module /\ e = currentEntry))
  /\ map_get currentEntry (AlreadyLoaded.st_dynamicImportsByEntry st')
     = Some (AlreadyLoaded.tr_dynamicImports tr')
  /\ (forall e, e <> currentEntry ->
        map_get e (AlreadyLoaded.st_dynamicImportsByEntry st')
        = map_get e (AlreadyLoaded.st_dynamicImportsByEntry st))
  /\ (forall d, In d (AlreadyLoaded.tr_dynamicImports tr')
        <-> In d (AlreadyLoaded.tr_dynamicImports tr) \/ discovers G module d)
  /\ (forall d e,
        assigned_to (AlreadyLoaded.st_dynamicallyDependentEntryPointsByDynamicEntry st') d e
        <-> assigned_to (AlreadyLoaded.st_dynamicallyDependentEntryPointsByDynamicEntry st)
              d e
            \/ (e = currentEntry /\ discovers G module d))
  /\ AlreadyLoaded.st_entriesToHandle st'
     = set_add_all (AlreadyLoaded.discovered G module) (AlreadyLoaded.st_entriesToHandle st)
  /\ (forall m, In m (AlreadyLoaded.st_allModules st')
        <-> In m (AlreadyLoaded.st_allModules st)
            \/ In (DepModule m) (getDependenciesToBeIncluded (getModule G module))
            \/ discovers G module m).
Proof.
  unfold AlreadyLoaded.getAlreadyLoadedModulesByDynamicEntry_module.
  intros H Hsync. injection H as <-. cbv zeta.
  rewrite loaded_addDynamicImports_targets, loaded_addImplicitlyLoadedBefore_app.
  fold (AlreadyLoaded.discovered G module).
  set (tr1 := AlreadyLoaded.addDependentEntryPoint currentEntry module tr).
  destruct (loaded_addDependencies_spec
              (getDependenciesToBeIncluded (getModule G module)) tr1)
    as [D1 [D2 [D3 [D4 [D5 [D6 D7]]]]]]. cbv zeta in *.
  set (tr2 := AlreadyLoaded.addDependencies
                (getDependenciesToBeIncluded (getModule G module)) tr1) in *.
  destruct (@loaded_addImplicitlyLoadedBefore_spec currentEntry
              (AlreadyLoaded.discovered G module) tr2)
    as [H1 [H2 [H3 [H4 [H5 [H6 [H7 H8]]]]]]].
  { rewrite D4, D2. exact Hsync. }
  cbv zeta in *. rewrite H1, H2, H7, D1, D3, D6. simpl.
  split; [reflexivity|]. split.
  { intros m e. apply assigned_to_addTo. }
  split; [assumption|]. split.
  { intros e He. now rewrite H4, D4. }
  split.
  { intros d. now rewrite H5, D2, discovered_In. }
  split.
  { intros d e. now rewrite H6, D5, discovered_In. }
  split; [reflexivity|].
  intros m. rewrite H8, set_add_all_In, D7, discovered_In. simpl. tauto.
Qed.

Section LoadedTraversal.
Variables (G : Graph) (currentEntry : nat) (st0 : AlreadyLoaded.State).
Hypothesis Hnd0 : NoDup (AlreadyLoaded.st_entriesToHandle st0).

Local Abbreviation included m := (getDependenciesToBeIncluded (getModule G m)).

(** The invariant of the traversal from [currentEntry] when the iterator is
    at slot [i] of the work list. *)
Let P (i : nat) (tr : AlreadyLoaded.Traversal) : Prop :=
  let l := AlreadyLoaded.tr_modulesToHandle tr in
  let st := AlreadyLoaded.tr_state tr in
  (NoDup l /\ nth_error l 0 = Some currentEntry /\ i <= length l)
  /\ (forall m, In m l -> included_path G currentEntry m)
  /\ (forall m d, In m (firstn i l) -> In (DepModule d) (included m) -> In d l)
  /\ (forall m e, assigned_to (AlreadyLoaded.st_dependentEntryPointsByModule st) m e
        <-> assigned_to (AlreadyLoaded.st_dependentEntryPointsByModule st0) m e
            \/ (e = currentEntry /\ In m (firstn i l)))
  /\ map_get currentEntry (AlreadyLoaded.st_dynamicImportsByEntry st)
     = Some (AlreadyLoaded.tr_dynamicImports tr)
  /\ (forall e, e <> currentEntry ->
        map_get e (AlreadyLoaded.st_dynamicImportsByEntry st)
        = map_get e (AlreadyLoaded.st_dynamicImportsByEntry st0))
  /\ (forall d, In d (AlreadyLoaded.tr_dynamicImports tr)
        <-> exists m, In m (firstn i l) /\ discovers G m d)
  /\ (forall d e,
        assigned_to (AlreadyLoaded.st_dynamicallyDependentEntryPointsByDynamicEntry st) d e
        <-> assigned_to (AlreadyLoaded.st_dynamicallyDependentEntryPointsByDynamicEntry st0)
              d e
            \/ (e = currentEntry /\ exists m, In m (firstn i l) /\ discovers G m d))
  /\ (NoDup (AlreadyLoaded.st_entriesToHandle st)
      /\ exists new, AlreadyLoaded.st_entriesToHandle st
                     = AlreadyLoaded.st_entriesToHandle st0 ++ new)
  /\ (forall d, In d (AlreadyLoaded.st_entriesToHandle st)
        <-> In d (AlreadyLoaded.st_entriesToHandle st0)
            \/ exists m, In m (firstn i l) /\ discovers G m d)
  /\ (forall m, In m (AlreadyLoaded.st_allModules st) ->
        In m (AlreadyLoaded.st_allModules st0) \/ In m l
        \/ exists x, In x (firstn i l) /\ discovers G x m).

Lemma loaded_P_step i x tr tr' :
  P i tr -> nth_error (AlreadyLoaded.tr_modulesToHandle tr) i = Some x ->
  AlreadyLoaded.getAlreadyLoadedModulesByDynamicEntry_module G currentEntry x tr = Ok tr' ->
  P (S i) tr'.
Proof.
  intros [[Hnd [Hhd Hle]] [Hpath [Hclosed [Hdep [Hsync [Hother [Himp [Hdyn
    [[HndE [new Hnew]] [HE Hall]]]]]]]]]] Hnth Hbody.
  apply loaded_module_inv in Hbody as [Hl' [Hdep' [Hsync' [Hother' [Himp' [Hdyn'
    [HE' Hall']]]]]]]; [|assumption]. cbv zeta in *.
  destruct (enqueue_prefix [] (included x) (AlreadyLoaded.tr_modulesToHandle tr))
    as [l Hl].
  rewrite <- Hl' in Hl.
  assert (Hi : i < length (AlreadyLoaded.tr_modulesToHandle tr))
    by (apply nth_error_Some; congruence).
  assert (Hx : In x (AlreadyLoaded.tr_modulesToHandle tr))
    by (eapply nth_error_In; eauto).
  assert (Hfirst : firstn (S i) (AlreadyLoaded.tr_modulesToHandle tr')
                   = firstn i (AlreadyLoaded.tr_modulesToHandle tr) ++ [x]).
  { rewrite Hl, firstn_prefix by lia. now apply firstn_snoc. }
  assert (Hdisc : forall d,
    (exists m, In m (firstn i (AlreadyLoaded.tr_modulesToHandle tr) ++ [x])
               /\ discovers G m d)
    <-> (exists m, In m (firstn i (AlreadyLoaded.tr_modulesToHandle tr))
                   /\ discovers G m d)
        \/ discovers G x d).
  { intros d. split.
    - intros [m [Hm Hd]]. apply in_app_iff in Hm as [Hm|[<-|[]]]; eauto.
    - intros [[m [Hm Hd]]|Hd].
      + exists m. split; [apply in_or_app; now left|assumption].
      + exists x. split; [apply in_or_app; right; now left|assumption]. }
  unfold P. rewrite Hfirst.
  split; [split; [|split]|].
  { rewrite Hl'. now apply enqueue_NoDup. }
  { rewrite Hl. now apply prefix_nth_error. }
  { rewrite Hl, length_app. lia. }
  split.
  { intros m Hm. rewrite Hl' in Hm. apply enqueue_In in Hm as [Hm|[Hm _]];
      [now apply Hpath|].
    eapply included_step; [apply Hpath; exact Hx|exact Hm]. }
  split.
  { intros m d Hm Hd. apply in_app_iff in Hm as [Hm|[<-|[]]].
    - rewrite Hl. apply in_or_app. left. eapply Hclosed; eauto.
    - rewrite Hl'. apply enqueue_In. right. split; [assumption|intros []]. }
  split.
  { intros m e. rewrite Hdep', Hdep, in_app_iff. simpl. split.
    - intros [[H|[-> H]]|[-> ->]]; auto.
    - intros [H|[-> [H|[<-|[]]]]]; auto. }
  split; [assumption|]. split.
  { intros e He. rewrite Hother' by assumption. now apply Hother. }
  split.
  { intros d. now rewrite Himp', Himp, Hdisc. }
  split.
  { intros d e. rewrite Hdyn', Hdyn, Hdisc. tauto. }
  split.
  { rewrite HE'. split; [now apply set_add_all_NoDup|].
    destruct (set_add_all_prefix (AlreadyLoaded.discovered G x)
                (AlreadyLoaded.st_entriesToHandle (AlreadyLoaded.tr_state tr)))
      as [new' Hnew'].
    exists (new ++ new'). now rewrite Hnew', Hnew, app_assoc. }
  split.
  { intros d. rewrite HE', set_add_all_In, HE, Hdisc, discovered_In. tauto. }
  intros m Hm. apply Hall' in Hm as [Hm|[Hm|Hm]].
  - apply Hall in Hm as [Hm|[Hm|Hm]]; [now left| |].
    + right. left. rewrite Hl. apply in_or_app. now left.
    + right. right. apply Hdisc. now left.
  - right. left. rewrite Hl'. apply enqueue_In. right. split; [assumption|intros []].
  - right. right. apply Hdisc. now right.
Qed.

(** What the traversal from [currentEntry] does to the collections. *)
Lemma loaded_entry_spec st :
  AlreadyLoaded.getAlreadyLoadedModulesByDynamicEntry_entry G currentEntry st0 = Ok st ->
  (forall m e, assigned_to (AlreadyLoaded.st_dependentEntryPointsByModule st) m e
     <-> assigned_to (AlreadyLoaded.st_dependentEntryPointsByModule st0) m e
         \/ (e = currentEntry /\ included_path G currentEntry m))
  /\ (exists imports,
        map_get currentEntry (AlreadyLoaded.st_dynamicImportsByEntry st) = Some imports
        /\ forall d, In d imports
             <-> AlreadyLoaded.imports_dynamically G currentEntry d)
  /\ (forall e, e <> currentEntry ->
        map_get e (AlreadyLoaded.st_dynamicImportsByEntry st)
        = map_get e (AlreadyLoaded.st_dynamicImportsByEntry st0))
  /\ (forall d e,
        assigned_to (AlreadyLoaded.st_dynamicallyDependentEntryPointsByDynamicEntry st) d e
        <-> assigned_to (AlreadyLoaded.st_dynamicallyDependentEntryPointsByDynamicEntry st0)
              d e
            \/ (e = currentEntry /\ AlreadyLoaded.imports_dynamically G currentEntry d))
  /\ (NoDup (AlreadyLoaded.st_entriesToHandle st)
      /\ exists new, AlreadyLoaded.st_entriesToHandle st
                     = AlreadyLoaded.st_entriesToHandle st0 ++ new)
  /\ (forall d, In d (AlreadyLoaded.st_entriesToHandle st)
        <-> In d (AlreadyLoaded.st_entriesToHandle st0)
            \/ AlreadyLoaded.imports_dynamically G currentEntry d)
  /\ (forall m, In m (AlreadyLoaded.st_allModules st) ->
        In m (AlreadyLoaded.st_allModules st0) \/ included_path G currentEntry m
        \/ AlreadyLoaded.imports_dynamically G currentEntry m).
Proof.
  unfold AlreadyLoaded.getAlreadyLoadedModulesByDynamicEntry_entry. intros Hrun.
  apply bind_Ok_inv in Hrun as [tr [Hrun Hst]]. injection Hst as <-.
  eapply forOf_invariant with (P := P) in Hrun
    as [j [[[Hnd [Hhd Hle]] [Hpath [Hclosed [Hdep [Hsync [Hother [Himp [Hdyn
         [HndE [HE Hall]]]]]]]]]] Hj]].
  - rewrite firstn_all2 in * by assumption.
    assert (Hreach : forall m, In m (AlreadyLoaded.tr_modulesToHandle tr)
                               <-> included_path G currentEntry m).
    { intros m. split; [apply Hpath|]. apply included_path_worklist; [|assumption].
      eapply nth_error_In; eauto. }
    assert (Hdisc : forall d,
      (exists m, In m (AlreadyLoaded.tr_modulesToHandle tr) /\ discovers G m d)
      <-> AlreadyLoaded.imports_dynamically G currentEntry d).
    { intros d. unfold AlreadyLoaded.imports_dynamically.
      split; intros [m [Hm Hd]]; exists m; (split; [now apply Hreach|assumption]). }
    split.
    { intros m e. now rewrite Hdep, Hreach. }
    split.
    { eexists. split; [exact Hsync|]. intros d. now rewrite Himp, Hdisc. }
    split; [assumption|]. split.
    { intros d e. now rewrite Hdyn, Hdisc. }
    split; [assumption|]. split.
    { intros d. now rewrite HE, Hdisc. }
    intros m Hm. apply Hall in Hm as [Hm|[Hm|Hm]]; [now left| |].
    + right. left. now apply Hreach.
    + right. right. now apply Hdisc.
  - exact loaded_P_step.
  - unfold P. simpl.
    split; [split; [|split]|].
    { repeat constructor. intros []. }
    { reflexivity. }
    { lia. }
    split; [intros m [<-|[]]; constructor|].
    split; [intros m d []|].
    split; [intros m e; split; [now left|intros [H|[_ []]]; exact H]|].
    split; [apply map_get_set_same|].
    split; [intros e He; now apply map_get_set_other|].
    split; [intros d; split; [intros []|intros [m [[] _]]]|].
    split; [intros d e; split; [now left|intros [H|[_ [m [[] _]]]]; exact H]|].
    split; [split; [assumption|exists []; now rewrite app_nil_r]|].
    split; [intros d; split; [now left|intros [H|[m [[] _]]]; exact H]|].
    intros m Hm. now left.
Qed.
End LoadedTraversal.

Lemma loaded_module_worklist G currentEntry module tr tr' :
  AlreadyLoaded.getAlreadyLoadedModulesByDynamicEntry_module G currentEntry module tr
  = Ok tr' ->
  AlreadyLoaded.tr_modulesToHandle tr'
  = enqueue [] (getDependenciesToBeIncluded (getModule G module))
      (AlreadyLoaded.tr_modulesToHandle tr).
Proof.
  unfold AlreadyLoaded.getAlreadyLoadedModulesByDynamicEntry_module.
  intros H. injection H as <-.
  rewrite loaded_addDynamicImports_targets, loaded_addImplicitlyLoadedBefore_app.
  assert (Hkeep : forall ds t,
    AlreadyLoaded.tr_modulesToHandle (AlreadyLoaded.addImplicitlyLoadedBefore currentEntry ds t)
    = AlreadyLoaded.tr_modulesToHandle t).
  { unfold AlreadyLoaded.addImplicitlyLoadedBefore.
    induction ds as [|d ds IH]; intros t; simpl; [reflexivity|]. now rewrite IH. }
  rewrite Hkeep.
  now destruct (loaded_addDependencies_spec
                  (getDependenciesToBeIncluded (getModule G module))
                  (AlreadyLoaded.addDependentEntryPoint currentEntry module tr))
    as [-> _].
Qed.

Lemma loaded_entry_returns G currentEntry st :
  exists st',
    AlreadyLoaded.getAlreadyLoadedModulesByDynamicEntry_entry G currentEntry st = Ok st'.
Proof.
  unfold AlreadyLoaded.getAlreadyLoadedModulesByDynamicEntry_entry.
  match goal with
  | |- exists st', bind ?run _ = _ =>
      assert (Hrun : exists tr,
                run = Ok tr
                /\ worklist_ok G currentEntry (AlreadyLoaded.tr_modulesToHandle tr))
  end.
  { apply forOf_returns with (bound := length (graph_universe G) + 1).
    - intros x tr Hok _. eexists. split; [reflexivity|].
      erewrite loaded_module_worklist by reflexivity.
      apply worklist_ok_enqueue; [|assumption]. intros d. apply included_in_universe.
    - intros tr Hok. eapply worklist_ok_length; eauto.
    - simpl. apply worklist_ok_seed.
    - unfold traversal_fuel. lia.
    - unfold traversal_fuel. lia. }
  destruct Hrun as [tr [Hrun _]]. rewrite Hrun. simpl. eauto.
Qed.

Section LoadedEntries.
Variables (G : Graph) (entries : list nat).

(** The invariant of the loop over [entriesToHandle] when the iterator is at
    slot [j]. *)
Let Q (j : nat) (st : AlreadyLoaded.State) : Prop :=
  let E := AlreadyLoaded.st_entriesToHandle st in
  (NoDup E /\ j <= length E)
  /\ (forall e, In e E -> is_entry G entries e)
  /\ (forall e, In e entries -> In e E)
  /\ (forall e d, In e (firstn j E) -> AlreadyLoaded.imports_dynamically G e d -> In d E)
  /\ (forall m e, assigned_to (AlreadyLoaded.st_dependentEntryPointsByModule st) m e
        <-> In e (firstn j E) /\ included_path G e m)
  /\ (forall e, map_get e (AlreadyLoaded.st_dynamicImportsByEntry st) <> None
        <-> In e (firstn j E))
  /\ (forall e d, assigned_to (AlreadyLoaded.st_dynamicImportsByEntry st) e d
        <-> In e (firstn j E) /\ AlreadyLoaded.imports_dynamically G e d)
  /\ (forall d e,
        assigned_to (AlreadyLoaded.st_dynamicallyDependentEntryPointsByDynamicEntry st) d e
        <-> In e (firstn j E) /\ AlreadyLoaded.imports_dynamically G e d)
  /\ (forall m, In m (AlreadyLoaded.st_allModules st) ->
        In m E \/ exists e, In e (firstn j E) /\ included_path G e m).

Lemma loaded_Q_step j x st st' :
  Q j st -> nth_error (AlreadyLoaded.st_entriesToHandle st) j = Some x ->
  AlreadyLoaded.getAlreadyLoadedModulesByDynamicEntry_entry G x st = Ok st' ->
  Q (S j) st'.
Proof.
  intros [[Hnd Hle] [Hentry [Hstatic [Hclosed [Hdep [Hkeys [Himp [Hdyn Hall]]]]]]]]
    Hnth Hbody.
  apply loaded_entry_spec in Hbody
    as [Hdep' [[imports [Hget Himports]] [Hother [Hdyn' [[HndE [new Hnew]] [HE Hall']]]]]];
    [|assumption].
  assert (Hj : j < length (AlreadyLoaded.st_entriesToHandle st))
    by (apply nth_error_Some; congruence).
  assert (Hx : In x (AlreadyLoaded.st_entriesToHandle st))
    by (eapply nth_error_In; eauto).
  assert (Hfirst : firstn (S j) (AlreadyLoaded.st_entriesToHandle st')
                   = firstn j (AlreadyLoaded.st_entriesToHandle st) ++ [x]).
  { rewrite Hnew, firstn_prefix by lia. now apply firstn_snoc. }
  unfold Q. rewrite Hfirst.
  split; [split; [assumption|rewrite Hnew, length_app; lia]|].
  split.
  { intros e He. apply HE in He as [He|[m [Hm Hd]]]; [now apply Hentry|].
    eapply entry_dynamic; [apply Hentry; exact Hx|exact Hm|exact Hd]. }
  split.
  { intros e He. apply HE. left. now apply Hstatic. }
  split.
  { intros e d He Hd. apply HE. apply in_app_iff in He as [He|[<-|[]]].
    - left. eapply Hclosed; eauto.
    - now right. }
  split.
  { intros m e. rewrite Hdep', Hdep, in_app_iff. simpl. split.
    - intros [[H1 H2]|[-> H]]; auto.
    - intros [[H|[<-|[]]] H2]; auto. }
  split.
  { intros e. rewrite in_app_iff. simpl. destruct (Nat.eq_dec e x) as [->|Hne].
    - rewrite Hget. split; [auto|discriminate].
    - rewrite Hother, Hkeys by assumption. split; [auto|].
      intros [H|[H|[]]]; [assumption|congruence]. }
  split.
  { intros e d. rewrite in_app_iff. simpl. destruct (Nat.eq_dec e x) as [->|Hne].
    - unfold assigned_to. rewrite Hget. split.
      + intros [s [Hs Hd]]. injection Hs as <-. split; [auto|]. now apply Himports.
      + intros [_ Hd]. exists imports. split; [reflexivity|]. now apply Himports.
    - unfold assigned_to. rewrite Hother by assumption.
      fold (assigned_to (AlreadyLoaded.st_dynamicImportsByEntry st) e d).
      rewrite Himp. split.
      + intros [H1 H2]. auto.
      + intros [[H|[H|[]]] H2]; [auto|congruence]. }
  split.
  { intros d e. rewrite Hdyn', Hdyn, in_app_iff. simpl. split.
    - intros [[H1 H2]|[-> H]]; auto.
    - intros [[H|[<-|[]]] H2]; auto. }
  intros m Hm. apply Hall' in Hm as [Hm|[Hm|Hm]].
  - apply Hall in Hm as [Hm|[e [He Hp]]].
    + left. apply HE. now left.
    + right. exists e. split; [apply in_or_app; now left|assumption].
  - right. exists x. split; [apply in_or_app; right; now left|assumption].
  - left. apply HE. now right.
Qed.

(** The collections of [getAlreadyLoadedModulesByDynamicEntry] when it calls
    [buildAlreadyLoadedModulesByDynamicEntry], in terms of the graph. *)
Lemma collect_spec st :
  AlreadyLoaded.collect G entries = Ok st ->
  (forall e, In e (AlreadyLoaded.st_entriesToHandle st) <-> is_entry G entries e)
  /\ (forall m e, assigned_to (AlreadyLoaded.st_dependentEntryPointsByModule st) m e
        <-> is_entry G entries e /\ included_path G e m)
  /\ (forall e, map_get e (AlreadyLoaded.st_dynamicImportsByEntry st) <> None
        <-> is_entry G entries e)
  /\ (forall e d, assigned_to (AlreadyLoaded.st_dynamicImportsByEntry st) e d
        <-> is_entry G entries e /\ AlreadyLoaded.imports_dynamically G e d)
  /\ (forall d e,
        assigned_to (AlreadyLoaded.st_dynamicallyDependentEntryPointsByDynamicEntry st) d e
        <-> is_entry G entries e /\ AlreadyLoaded.imports_dynamically G e d)
  /\ (forall m, In m (AlreadyLoaded.st_allModules st) ->
        exists e, is_entry G entries e /\ included_path G e m).
Proof.
  unfold AlreadyLoaded.collect. intros Hrun.
  eapply forOf_invariant with (P := Q) in Hrun
    as [j [[[Hnd Hle] [Hentry [Hstatic [Hclosed [Hdep [Hkeys [Himp [Hdyn Hall]]]]]]]] Hj]].
  - rewrite firstn_all2 in * by assumption.
    assert (HE : forall e, In e (AlreadyLoaded.st_entriesToHandle st)
                           <-> is_entry G entries e).
    { intros e. split; [apply Hentry|].
      intros He. induction He as [e He|e m target _ IH Hm Hd]; [now apply Hstatic|].
      eapply Hclosed; [exact IH|]. exists m. auto. }
    split; [exact HE|]. split.
    { intros m e. now rewrite Hdep, HE. }
    split.
    { intros e. now rewrite Hkeys, HE. }
    split.
    { intros e d. now rewrite Himp, HE. }
    split.
    { intros d e. now rewrite Hdyn, HE. }
    intros m Hm. apply Hall in Hm as [Hm|[e [He Hp]]].
    + exists m. split; [now apply HE|constructor].
    + exists e. split; [now apply HE|assumption].
  - exact loaded_Q_step.
  - unfold Q. simpl.
    split; [split; [apply set_of_list_NoDup|lia]|].
    split; [intros e He; apply entry_static; now apply set_of_list_In|].
    split; [intros e He; now apply set_of_list_In|].
    split; [intros e d []|].
    split; [intros m e; split; [intros [s [H _]]; discriminate|intros [[] _]]|].
    split; [intros e; split; [intros H; now contradiction H|intros []]|].
    split; [intros e d; split; [intros [s [H _]]; discriminate|intros [[] _]]|].
    split; [intros d e; split; [intros [s [H _]]; discriminate|intros [[] _]]|].
    intros m Hm. now left.
Qed.

Lemma collect_returns : exists st, AlreadyLoaded.collect G entries = Ok st.
Proof.
  unfold AlreadyLoaded.collect.
  match goal with
  | |- exists st, ?run = _ =>
      assert (Hrun : exists st,
                run = Ok st
                /\ NoDup (AlreadyLoaded.st_entriesToHandle st)
                /\ incl (AlreadyLoaded.st_entriesToHandle st)
                     (entries ++ graph_universe G))
  end.
  { apply forOf_returns with (bound := length entries + length (graph_universe G))
                             (P := fun st =>
                                     NoDup (AlreadyLoaded.st_entriesToHandle st)
                                     /\ incl (AlreadyLoaded.st_entriesToHandle st)
                                          (entries ++ graph_universe G)).
    - intros x st [Hnd Hincl] _.
      destruct (loaded_entry_returns G x st) as [st' Hb]. exists st'.
      split; [assumption|].
      apply loaded_entry_spec in Hb as [_ [_ [_ [_ [[HndE _] [HE _]]]]]]; [|assumption].
      split; [assumption|]. intros d Hd. apply HE in Hd as [Hd|[m [_ Hd]]].
      + now apply Hincl.
      + apply in_or_app. right. eapply discovers_in_universe; eauto.
    - intros st [Hnd Hincl]. rewrite <- length_app. now apply NoDup_incl_le.
    - simpl. split; [apply set_of_list_NoDup|].
      intros y Hy. rewrite set_of_list_In in Hy. apply in_or_app. now left.
    - unfold traversal_fuel. lia.
    - unfold traversal_fuel. lia. }
  destruct Hrun as [st [Hrun _]]. eauto.
Qed.
End LoadedEntries.

(** *** [buildAlreadyLoadedModulesByDynamicEntry] *)

Lemma map_get_key {V : Type} k (m : list (nat * V)) :
  In k (map fst m) -> exists v, map_get k m = Some v.
Proof.
  intros H. destruct (map_get k m) as [v|] eqn:E; [eauto|].
  apply map_get_None in E. contradiction.
Qed.

Lemma map_set_keys_present {V : Type} k (v : V) m :
  In k (map fst m) -> map fst (map_set k v m) = map fst m.
Proof. intros H. rewrite map_set_keys. apply set_has_In in H. now rewrite H. Qed.

Lemma map_get_length_le k (m : list (nat * list nat)) s :
  map_get k m = Some s -> length s <= length (flat_map snd m).
Proof.
  intros H. apply map_get_In in H. induction m as [|[k' s'] m IH]; [destruct H|].
  simpl. rewrite length_app. destruct H as [H|H].
  - injection H as _ ->. lia.
  - specialize (IH H). lia.
Qed.

Lemma initial_alreadyLoaded_keys (keys : list nat) : forall acc,
  map fst (fold_left (fun (acc : list (nat * list nat)) d => map_set d [] acc) keys acc)
  = set_add_all keys (map fst acc).
Proof.
  unfold set_add_all. induction keys as [|k keys IH]; intros acc; simpl; [reflexivity|].
  now rewrite IH, map_set_keys_set_add.
Qed.

Lemma initial_alreadyLoaded_empty (keys : list nat) d m : forall acc,
  assigned_to
    (fold_left (fun (acc : list (nat * list nat)) d => map_set d [] acc) keys acc) d m ->
  assigned_to acc d m.
Proof.
  induction keys as [|k keys IH]; intros acc H; simpl in H; [assumption|].
  apply IH in H. destruct (Nat.eq_dec d k) as [->|Hne].
  - apply assigned_to_set_same in H. destruct H.
  - now apply assigned_to_set_other in H.
Qed.

Section BuildFacts.
Variables (dep byEntry dyn : list (nat * list nat)) (allModules : list nat).

Local Abbreviation loaded_of pr := (AlreadyLoaded.pr_alreadyLoadedModulesByDynamicEntry pr).

(** What [alreadyLoadedModulesByDynamicEntry] holds is sound. *)
Let sound (loaded : list (nat * list nat)) : Prop :=
  forall d m, assigned_to loaded d m ->
              In m allModules
              /\ exists siblings,
                   map_get d dyn = Some siblings
                   /\ forall sibling, In sibling siblings ->
                                      AlreadyLoaded.loaded_with dep dyn m sibling.

Lemma siblingsHaveLoaded_sound dependentEntryPoints loaded module siblings :
  map_get module dep = Some dependentEntryPoints ->
  sound loaded ->
  AlreadyLoaded.siblingsHaveLoaded dependentEntryPoints loaded module siblings = true ->
  forall sibling, In sibling siblings -> AlreadyLoaded.loaded_with dep dyn module sibling.
Proof.
  intros Hdep Hsound Hall sibling Hin.
  unfold AlreadyLoaded.siblingsHaveLoaded in Hall.
  rewrite forallb_forall in Hall. apply Hall in Hin.
  apply orb_true_iff in Hin as [H|H].
  - apply AlreadyLoaded.loaded_statically. exists dependentEntryPoints.
    split; [assumption|now apply set_has_In].
  - unfold AlreadyLoaded.loadedFor in H.
    destruct (map_get sibling loaded) as [s|] eqn:E; [|discriminate].
    destruct (Hsound sibling module) as [_ [siblings' [Hget Hsib]]].
    { exists s. split; [assumption|now apply set_has_In]. }
    eapply AlreadyLoaded.loaded_dynamically; eauto.
Qed.

Lemma build_dynamicEntry_inv module dependentEntryPoints dynamicEntry pr pr' :
  AlreadyLoaded.build_dynamicEntry byEntry dyn module dependentEntryPoints dynamicEntry pr
  = Ok pr' ->
  pr' = pr
  \/ exists alreadyLoadedModules siblings dynamicImports,
       map_get dynamicEntry (loaded_of pr) = Some alreadyLoadedModules
       /\ ~ In module alreadyLoadedModules
       /\ map_get dynamicEntry dyn = Some siblings
       /\ AlreadyLoaded.siblingsHaveLoaded dependentEntryPoints (loaded_of pr) module
            siblings = true
       /\ map_get dynamicEntry byEntry = Some dynamicImports
       /\ loaded_of pr'
          = map_set dynamicEntry (set_add module alreadyLoadedModules) (loaded_of pr)
       /\ AlreadyLoaded.pr_dynamicEntriesToHandle pr'
          = AlreadyLoaded.pr_dynamicEntriesToHandle pr ++ dynamicImports.
Proof.
  unfold AlreadyLoaded.build_dynamicEntry. intros H.
  destruct (map_get dynamicEntry (loaded_of pr)) as [s|] eqn:Hs; [|discriminate].
  destruct (set_has module s) eqn:Hhas; [injection H as <-; now left|].
  destruct (map_get dynamicEntry dyn) as [siblings|] eqn:Hsib; [|discriminate].
  destruct (AlreadyLoaded.siblingsHaveLoaded _ _ _ _) eqn:Hall;
    [|injection H as <-; now left].
  destruct (map_get dynamicEntry byEntry) as [imports|] eqn:Himp; [|discriminate].
  injection H as <-. right. exists s, siblings, imports. simpl.
  apply set_has_false in Hhas. repeat split; auto.
Qed.

Lemma build_dynamicEntry_sound module dependentEntryPoints dynamicEntry pr pr' :
  map_get module dep = Some dependentEntryPoints -> In module allModules ->
  sound (loaded_of pr) ->
  AlreadyLoaded.build_dynamicEntry byEntry dyn module dependentEntryPoints dynamicEntry pr
  = Ok pr' ->
  sound (loaded_of pr')
  /\ map fst (loaded_of pr') = map fst (loaded_of pr).
Proof.
  intros Hdep Hmod Hsound Hb.
  apply build_dynamicEntry_inv in Hb
    as [->|[s [siblings [imports [Hs [Hnot [Hsib [Hall [Himp [Hl Ha]]]]]]]]]]; [auto|].
  rewrite Hl. split.
  - intros d m H. destruct (Nat.eq_dec d dynamicEntry) as [->|Hne].
    + apply assigned_to_set_same, set_add_In in H as [->|H].
      * split; [assumption|]. exists siblings. split; [exact Hsib|].
        eapply siblingsHaveLoaded_sound; eauto.
      * apply Hsound. exists s. auto.
    + apply assigned_to_set_other in H; [|assumption]. now apply Hsound.
  - apply map_set_keys_present. eapply map_get_Some_key; eauto.
Qed.

Lemma build_entry_sound module dependentEntryPoints entry loaded loaded' :
  map_get module dep = Some dependentEntryPoints -> In module allModules ->
  sound loaded ->
  AlreadyLoaded.build_entry byEntry dyn module dependentEntryPoints entry loaded
  = Ok loaded' ->
  sound loaded' /\ map fst loaded' = map fst loaded.
Proof.
  intros Hdep Hmod Hsound Hb. unfold AlreadyLoaded.build_entry in Hb.
  destruct (map_get entry byEntry) as [imports|]; [|discriminate].
  apply bind_Ok_inv in Hb as [pr [Hrun Hpr]]. injection Hpr as <-.
  apply (@forOf_preserves _ AlreadyLoaded.pr_dynamicEntriesToHandle
           (AlreadyLoaded.build_dynamicEntry byEntry dyn module dependentEntryPoints)
           (fun pr => sound (loaded_of pr) /\ map fst (loaded_of pr) = map fst loaded))
    with (3 := Hrun); [|simpl; auto].
  intros x s s' [Hs Hk] _ Hstep.
  destruct (@build_dynamicEntry_sound module dependentEntryPoints x s s' Hdep Hmod Hs Hstep)
    as [Hs' Hk'].
  split; [assumption|congruence].
Qed.

Lemma build_module_sound module loaded loaded' :
  In module allModules -> sound loaded ->
  AlreadyLoaded.build_module dep byEntry dyn module loaded = Ok loaded' ->
  sound loaded' /\ map fst loaded' = map fst loaded.
Proof.
  intros Hmod Hsound Hb. unfold AlreadyLoaded.build_module in Hb.
  destruct (map_get module dep) as [dependentEntryPoints|] eqn:Hdep; [|discriminate].
  apply (@forEach_preserves _ _
           (AlreadyLoaded.build_entry byEntry dyn module dependentEntryPoints)
           (fun l => sound l /\ map fst l = map fst loaded))
    with (3 := Hb); [|auto].
  intros x s s' [Hs Hk] Hstep.
  destruct (@build_entry_sound module dependentEntryPoints x s s' Hdep Hmod Hs Hstep)
    as [Hs' Hk'].
  split; [assumption|congruence].
Qed.

(** What [buildAlreadyLoadedModulesByDynamicEntry] returns, when it
    returns. *)
Lemma build_sound loaded :
  AlreadyLoaded.buildAlreadyLoadedModulesByDynamicEntry dep byEntry dyn allModules
  = Ok loaded ->
  (forall d, In d (map fst loaded) <-> In d (map fst dyn))
  /\ (forall d m, assigned_to loaded d m ->
                  In m allModules /\ AlreadyLoaded.loaded_with dep dyn m d)
  /\ forall d m, assigned_to loaded d m ->
                 exists siblings,
                   map_get d dyn = Some siblings
                   /\ forall sibling, In sibling siblings ->
                                      AlreadyLoaded.loaded_with dep dyn m sibling.
Proof.
  unfold AlreadyLoaded.buildAlreadyLoadedModulesByDynamicEntry. intros Hb.
  set (initial := fold_left _ (map fst dyn) []) in Hb.
  assert (H : sound loaded /\ map fst loaded = map fst initial).
  { apply (@forEach_preserves_in _ _ (AlreadyLoaded.build_module dep byEntry dyn)
             allModules (fun l => sound l /\ map fst l = map fst initial))
      with (3 := Hb).
    - intros x s s' Hx [Hs Hk] Hstep.
      destruct (@build_module_sound x s s' Hx Hs Hstep) as [Hs' Hk'].
      split; [assumption|congruence].
    - split; [|reflexivity]. intros d m H. exfalso.
      apply initial_alreadyLoaded_empty in H. destruct H as [s [H _]]. discriminate. }
  destruct H as [Hsound Hk]. split; [|split].
  - intros d. rewrite Hk. unfold initial.
    rewrite initial_alreadyLoaded_keys, set_add_all_In. simpl. tauto.
  - intros d m H. destruct (Hsound d m H) as [Hin [siblings [Hget Hsib]]].
    split; [assumption|]. eapply AlreadyLoaded.loaded_dynamically; eauto.
  - intros d m H. now destruct (Hsound d m H) as [_ Hs].
Qed.
End BuildFacts.

Section BuildReturns.
Variables (dep byEntry dyn : list (nat * list nat)) (allModules : list nat).
Hypothesis Hkeys : AlreadyLoaded.keys_present dep byEntry dyn allModules.

Local Abbreviation loaded_of pr := (AlreadyLoaded.pr_alreadyLoadedModulesByDynamicEntry pr).
Local Abbreviation array_of pr := (AlreadyLoaded.pr_dynamicEntriesToHandle pr).

(** Every dynamic entry has its set in [alreadyLoadedModulesByDynamicEntry]. *)
Let keys_ok (loaded : list (nat * list nat)) : Prop :=
  forall d, In d (map fst dyn) -> In d (map fst loaded).

Lemma build_entry_returns module dependentEntryPoints entry loaded :
  In entry (map fst byEntry) -> keys_ok loaded ->
  exists loaded',
    AlreadyLoaded.build_entry byEntry dyn module dependentEntryPoints entry loaded
    = Ok loaded'
    /\ keys_ok loaded'.
Proof.
  intros Hentry Hok. unfold AlreadyLoaded.build_entry.
  destruct (map_get_key _ _ Hentry) as [imports Himports]. rewrite Himports.
  destruct Hkeys as [_ [_ K3]].
  set (total := length (flat_map snd byEntry)).
  pose (P := fun pr : AlreadyLoaded.Propagation =>
    keys_ok (loaded_of pr)
    /\ (forall d, In d (array_of pr) ->
          In d (map fst byEntry) /\ In d (map fst dyn))
    /\ exists done,
         NoDup done /\ incl done (map fst byEntry)
         /\ (forall d, In d done -> assigned_to (loaded_of pr) d module)
         /\ length (array_of pr) <= length imports + length done * total).
  match goal with
  | |- exists loaded', bind ?run _ = _ /\ _ =>
      assert (Hrun : exists pr, run = Ok pr /\ P pr)
  end.
  { apply forOf_returns with (bound := length imports + length byEntry * total).
    - intros x pr [Hk [Harr [done [Hnd [Hincl [Hdone Hlen]]]]]] Hx.
      destruct (Harr x Hx) as [HxE HxD].
      destruct (map_get_key _ _ (Hk x HxD)) as [s Hs].
      destruct (map_get_key _ _ HxD) as [siblings Hsib].
      destruct (map_get_key _ _ HxE) as [ximports Hximp].
      unfold AlreadyLoaded.build_dynamicEntry. rewrite Hs, Hsib, Hximp.
      assert (Hsame : P pr).
      { split; [assumption|]. split; [assumption|]. exists done. auto. }
      destruct (set_has module s) eqn:Hhas; [eauto|].
      destruct (AlreadyLoaded.siblingsHaveLoaded _ _ _ _); [|eauto].
      apply set_has_false in Hhas.
      eexists. split; [reflexivity|]. unfold P. simpl.
      split.
      { intros d Hd. rewrite map_set_keys_present; [now apply Hk|].
        eapply map_get_Some_key; eauto. }
      split.
      { intros d Hd. apply in_app_iff in Hd as [Hd|Hd]; [now apply Harr|].
        apply (K3 x d). exists ximports. auto. }
      exists (x :: done). split; [|split; [|split]].
      + constructor; [|assumption]. intros Hin. apply Hdone in Hin as [s' [Hs' Hm]].
        rewrite Hs in Hs'. injection Hs' as <-. contradiction.
      + intros d [<-|Hd]; [assumption|now apply Hincl].
      + intros d [<-|Hd].
        * apply assigned_to_set_same, set_add_In. now left.
        * destruct (Nat.eq_dec d x) as [->|Hne].
          -- apply assigned_to_set_same, set_add_In. now left.
          -- apply assigned_to_set_other; [assumption|]. now apply Hdone.
      + rewrite length_app. simpl.
        pose proof (map_get_length_le _ _ Hximp) as Hle. fold total in Hle. lia.
    - intros pr [_ [_ [done [Hnd [Hincl [_ Hlen]]]]]].
      apply NoDup_incl_le in Hincl; [|assumption]. rewrite length_map in Hincl.
      assert (length done * total <= length byEntry * total)
        by (apply Nat.mul_le_mono_r; assumption).
      lia.
    - unfold P. simpl. split; [assumption|]. split.
      + intros d Hd. apply (K3 entry d). exists imports. auto.
      + exists []. simpl. repeat split; [constructor|intros d []|intros d []|lia].
    - unfold AlreadyLoaded.propagation_fuel. fold total. lia.
    - unfold AlreadyLoaded.propagation_fuel. lia. }
  destruct Hrun as [pr [Hrun [Hk _]]]. rewrite Hrun. simpl. eauto.
Qed.

Lemma build_module_returns module loaded :
  In module allModules -> keys_ok loaded ->
  exists loaded',
    AlreadyLoaded.build_module dep byEntry dyn module loaded = Ok loaded'
    /\ keys_ok loaded'.
Proof.
  intros Hmod Hok. unfold AlreadyLoaded.build_module.
  destruct Hkeys as [K1 [K2 _]].
  destruct (map_get_key _ _ (K1 module Hmod)) as [dependentEntryPoints Hdep].
  rewrite Hdep. apply forEach_returns with (P := keys_ok); [|assumption].
  intros entry l Hentry Hl. apply build_entry_returns; [|assumption].
  apply (K2 module entry). exists dependentEntryPoints. auto.
Qed.

(** [buildAlreadyLoadedModulesByDynamicEntry] returns when the maps name
    what it reads through them. *)
Lemma build_returns :
  exists loaded,
    AlreadyLoaded.buildAlreadyLoadedModulesByDynamicEntry dep byEntry dyn allModules
    = Ok loaded.
Proof.
  unfold AlreadyLoaded.buildAlreadyLoadedModulesByDynamicEntry.
  edestruct (@forEach_returns _ _ (AlreadyLoaded.build_module dep byEntry dyn)
               keys_ok allModules) as [loaded [H _]]; [| |eauto].
  - intros module l Hmod Hl. now apply build_module_returns.
  - intros d Hd. rewrite initial_alreadyLoaded_keys, set_add_all_In. now left.
Qed.
End BuildReturns.

(** *** The dynamic entries and what is in memory for them *)

Lemma addTo_nonempty M key value :
  AlreadyLoaded.sets_nonempty M -> AlreadyLoaded.sets_nonempty (AlreadyLoaded.addTo M key value).
Proof.
  intros H k Hk. rewrite addTo_keys in Hk. apply set_add_In in Hk as [->|Hk].
  - exists value. apply assigned_to_addTo. now right.
  - destruct (H k Hk) as [v Hv]. exists v. apply assigned_to_addTo. now left.
Qed.

Lemma loaded_module_nonempty G currentEntry module tr tr' :
  AlreadyLoaded.getAlreadyLoadedModulesByDynamicEntry_module G currentEntry module tr
  = Ok tr' ->
  AlreadyLoaded.sets_nonempty
    (AlreadyLoaded.st_dynamicallyDependentEntryPointsByDynamicEntry
       (AlreadyLoaded.tr_state tr)) ->
  AlreadyLoaded.sets_nonempty
    (AlreadyLoaded.st_dynamicallyDependentEntryPointsByDynamicEntry
       (AlreadyLoaded.tr_state tr')).
Proof.
  unfold AlreadyLoaded.getAlreadyLoadedModulesByDynamicEntry_module.
  intros H H0. injection H as <-.
  rewrite loaded_addDynamicImports_targets, loaded_addImplicitlyLoadedBefore_app.
  assert (Hfold : forall ds t,
    AlreadyLoaded.sets_nonempty
      (AlreadyLoaded.st_dynamicallyDependentEntryPointsByDynamicEntry
         (AlreadyLoaded.tr_state t)) ->
    AlreadyLoaded.sets_nonempty
      (AlreadyLoaded.st_dynamicallyDependentEntryPointsByDynamicEntry
         (AlreadyLoaded.tr_state
            (AlreadyLoaded.addImplicitlyLoadedBefore currentEntry ds t)))).
  { unfold AlreadyLoaded.addImplicitlyLoadedBefore.
    induction ds as [|d ds IH]; intros t Ht; simpl; [assumption|].
    apply IH. simpl. now apply addTo_nonempty. }
  apply Hfold.
  destruct (loaded_addDependencies_spec
              (getDependenciesToBeIncluded (getModule G module))
              (AlreadyLoaded.addDependentEntryPoint currentEntry module tr))
    as [_ [_ [_ [_ [-> _]]]]].
  exact H0.
Qed.

Lemma collect_nonempty G entries st :
  AlreadyLoaded.collect G entries = Ok st ->
  AlreadyLoaded.sets_nonempty
    (AlreadyLoaded.st_dynamicallyDependentEntryPointsByDynamicEntry st).
Proof.
  unfold AlreadyLoaded.collect. intros Hrun.
  apply (@forOf_preserves _ AlreadyLoaded.st_entriesToHandle
           (AlreadyLoaded.getAlreadyLoadedModulesByDynamicEntry_entry G)
           (fun st => AlreadyLoaded.sets_nonempty
                        (AlreadyLoaded.st_dynamicallyDependentEntryPointsByDynamicEntry st)))
    with (3 := Hrun); [|intros k []].
  intros x s s' Hs _ Hb.
  unfold AlreadyLoaded.getAlreadyLoadedModulesByDynamicEntry_entry in Hb.
  apply bind_Ok_inv in Hb as [tr [Hb Htr]]. injection Htr as <-.
  apply (@forOf_preserves _ AlreadyLoaded.tr_modulesToHandle
           (AlreadyLoaded.getAlreadyLoadedModulesByDynamicEntry_module G x)
           (fun tr => AlreadyLoaded.sets_nonempty
                        (AlreadyLoaded.st_dynamicallyDependentEntryPointsByDynamicEntry
                           (AlreadyLoaded.tr_state tr))))
    with (3 := Hb); [|exact Hs].
  intros y t t' Ht _ Hm. eapply loaded_module_nonempty; eauto.
Qed.

Lemma collect_keys_present G entries st :
  AlreadyLoaded.collect G entries = Ok st ->
  AlreadyLoaded.keys_present (AlreadyLoaded.st_dependentEntryPointsByModule st)
    (AlreadyLoaded.st_dynamicImportsByEntry st)
    (AlreadyLoaded.st_dynamicallyDependentEntryPointsByDynamicEntry st)
    (AlreadyLoaded.st_allModules st).
Proof.
  intros Hst. apply collect_spec in Hst as [HE [Hdep [Hkeys [Himp [Hdyn Hall]]]]].
  assert (Hentry : forall e, is_entry G entries e ->
                             In e (map fst (AlreadyLoaded.st_dynamicImportsByEntry st))).
  { intros e He. apply Hkeys in He.
    destruct (map_get e (AlreadyLoaded.st_dynamicImportsByEntry st)) eqn:E;
      [|contradiction].
    eapply map_get_Some_key; eauto. }
  split; [|split].
  - intros m Hm. apply Hall in Hm as [e He].
    apply Hdep in He as [s [Hs _]]. eapply map_get_Some_key; eauto.
  - intros m e H. apply Hdep in H as [He _]. now apply Hentry.
  - intros e d H. apply Himp in H as [He [m [Hm Hd]]]. split.
    + apply Hentry. eapply entry_dynamic; eauto.
    + assert (H : assigned_to
                    (AlreadyLoaded.st_dynamicallyDependentEntryPointsByDynamicEntry st) d e)
        by (apply Hdyn; split; [assumption|exists m; auto]).
      destruct H as [s [Hs _]]. eapply map_get_Some_key; eauto.
Qed.

(** What the maps say of a module in memory is so in the graph. *)
Lemma loaded_with_in_memory G entries st m d :
  AlreadyLoaded.collect G entries = Ok st ->
  AlreadyLoaded.loaded_with (AlreadyLoaded.st_dependentEntryPointsByModule st)
    (AlreadyLoaded.st_dynamicallyDependentEntryPointsByDynamicEntry st) m d ->
  AlreadyLoaded.in_memory G entries m d.
Proof.
  intros Hst Hl. pose proof (collect_nonempty _ _ Hst) as Hne.
  apply collect_spec in Hst as [_ [Hdep [_ [_ [Hdyn _]]]]].
  induction Hl as [e He|d siblings Hget _ IH].
  - apply AlreadyLoaded.in_memory_static. now apply Hdep in He.
  - apply AlreadyLoaded.in_memory_dynamic.
    + destruct (Hne d (map_get_Some_key _ _ Hget)) as [e He]. exists e. now apply Hdyn.
    + intros e He Himp. apply IH.
      assert (H : assigned_to
                    (AlreadyLoaded.st_dynamicallyDependentEntryPointsByDynamicEntry st) d e)
        by (apply Hdyn; auto).
      destruct H as [s [Hs Hin]]. rewrite Hget in Hs. now injection Hs as <-.
Qed.

(** What [getAlreadyLoadedModulesByDynamicEntry] returns. *)
Lemma getAlreadyLoadedModulesByDynamicEntry_facts G entries :
  exists loaded,
    AlreadyLoaded.getAlreadyLoadedModulesByDynamicEntry G entries = Ok loaded
    /\ (forall d, In d (map fst loaded)
          <-> exists e, is_entry G entries e /\ AlreadyLoaded.imports_dynamically G e d)
    /\ forall d m, assigned_to loaded d m -> AlreadyLoaded.in_memory G entries m d.
Proof.
  unfold AlreadyLoaded.getAlreadyLoadedModulesByDynamicEntry.
  destruct (collect_returns G entries) as [st Hst]. rewrite Hst. simpl.
  destruct (build_returns (collect_keys_present _ _ Hst)) as [loaded Hb].
  exists loaded. split; [assumption|].
  apply build_sound in Hb as [Hk [Hsound _]].
  pose proof (collect_nonempty _ _ Hst) as Hne.
  pose proof (collect_spec _ _ Hst) as [_ [_ [_ [_ [Hdyn _]]]]].
  split.
  - intros d. rewrite Hk. split.
    + intros Hd. destruct (Hne d Hd) as [e He]. exists e. now apply Hdyn.
    + intros [e He]. apply Hdyn in He as [s [Hs _]]. eapply map_get_Some_key; eauto.
  - intros d m H. apply Hsound in H as [_ H]. eapply loaded_with_in_memory; eauto.
Qed.

(** [buildAlreadyLoadedModulesByDynamicEntry] is sound. When the maps name
    what is read through them, it returns a map with a set for every
    dynamic entry of [dynamicallyDependentEntryPointsByDynamicEntry], and a
    module is in the set of a dynamic entry only if it is in [allModules]
    and is in memory for each of the entries the dynamic entry is
    dynamically dependent on: each of those entries depends on the module,
    or is a dynamic entry for which the same holds in turn. *)
Theorem buildAlreadyLoadedModulesByDynamicEntry_sound
    (dependentEntryPointsByModule dynamicImportsByEntry
     dynamicallyDependentEntryPointsByDynamicEntry : list (nat * list nat))
    (allModules : list nat) :
  AlreadyLoaded.keys_present dependentEntryPointsByModule dynamicImportsByEntry
    dynamicallyDependentEntryPointsByDynamicEntry allModules ->
  exists alreadyLoadedModulesByDynamicEntry,
    AlreadyLoaded.buildAlreadyLoadedModulesByDynamicEntry dependentEntryPointsByModule
      dynamicImportsByEntry dynamicallyDependentEntryPointsByDynamicEntry allModules
    = Ok alreadyLoadedModulesByDynamicEntry
    /\ (forall dynamicEntry,
          In dynamicEntry (map fst alreadyLoadedModulesByDynamicEntry)
          <-> In dynamicEntry (map fst dynamicallyDependentEntryPointsByDynamicEntry))
    /\ forall dynamicEntry module,
         assigned_to alreadyLoadedModulesByDynamicEntry dynamicEntry module ->
         In module allModules
         /\ exists siblings,
              map_get dynamicEntry dynamicallyDependentEntryPointsByDynamicEntry
              = Some siblings
              /\ forall sibling,
                   In sibling siblings ->
                   AlreadyLoaded.loaded_with dependentEntryPointsByModule
                     dynamicallyDependentEntryPointsByDynamicEntry module sibling.
Proof.
  intros Hkeys. destruct (build_returns Hkeys) as [loaded Hb].
  exists loaded. split; [assumption|].
  apply build_sound in Hb as [Hk [Hsound Hprecise]]. split; [assumption|].
  intros dynamicEntry module H. split; [now apply (Hsound dynamicEntry)|].
  now apply Hprecise.
Qed.

(** *** Entry assignment through the already loaded modules *)

Lemma loaded_assign_module_inv G entry alreadyLoadedModules inManual module st st' :
  AlreadyLoaded.assignEntryToStaticDependencies_module G entry alreadyLoadedModules
    inManual module st = Ok st' ->
  let created := getOrCreate (asg_assignedEntriesByModule st) module [] in
  if AlreadyLoaded.isAlreadyLoaded alreadyLoadedModules module
  then asg_modulesToHandle st' = asg_modulesToHandle st
       /\ asg_assignedEntriesByModule st' = snd created
  else asg_modulesToHandle st'
       = enqueue inManual (getDependenciesToBeIncluded (getModule G module))
           (asg_modulesToHandle st)
       /\ asg_assignedEntriesByModule st'
          = map_set module (set_add entry (fst created)) (snd created).
Proof.
  unfold AlreadyLoaded.assignEntryToStaticDependencies_module. cbv zeta.
  destruct (getOrCreate (asg_assignedEntriesByModule st) module [])
    as [assignedEntryPoints assigned].
  destruct (AlreadyLoaded.isAlreadyLoaded alreadyLoadedModules module);
    intros H; injection H as <-; simpl; auto.
Qed.

Section LoadedAssign.
Variables (G : Graph) (entry : nat) (alreadyLoadedModules : option (list nat))
          (inManual : list nat) (assigned0 : list (nat * list nat)).
Hypothesis Hnd0 : NoDup (map fst assigned0).

Local Abbreviation body :=
  (AlreadyLoaded.assignEntryToStaticDependencies_module G entry alreadyLoadedModules
     inManual).
Local Abbreviation path := (AlreadyLoaded.unloaded_path G alreadyLoadedModules inManual entry).
Local Abbreviation skipped m := (AlreadyLoaded.isAlreadyLoaded alreadyLoadedModules m).

Let R (i : nat) (st : AssignTraversal) : Prop :=
  let l := asg_modulesToHandle st in
  let assigned := asg_assignedEntriesByModule st in
  (NoDup l /\ nth_error l 0 = Some entry /\ i <= length l)
  /\ (forall m, In m l -> path m)
  /\ (forall m d, In m (firstn i l) -> skipped m = false ->
        In (DepModule d) (getDependenciesToBeIncluded (getModule G m)) ->
        ~ In d inManual -> In d l)
  /\ NoDup (map fst assigned)
  /\ (forall m, In m (map fst assigned)
        <-> In m (map fst assigned0) \/ In m (firstn i l))
  /\ (forall m e, assigned_to assigned m e
        <-> assigned_to assigned0 m e
            \/ (e = entry /\ In m (firstn i l) /\ skipped m = false)).

Lemma loaded_R_step i x st st' :
  R i st -> nth_error (asg_modulesToHandle st) i = Some x -> body x st = Ok st' ->
  R (S i) st'.
Proof.
  intros [[Hnd [Hhd Hle]] [Hpath [Hclosed [Hkeys [Hin Hto]]]]] Hnth Hbody.
  apply loaded_assign_module_inv in Hbody. cbv zeta in Hbody.
  assert (Hi : i < length (asg_modulesToHandle st)) by (apply nth_error_Some; congruence).
  assert (Hx : In x (asg_modulesToHandle st)) by (eapply nth_error_In; eauto).
  assert (Hl : exists l, asg_modulesToHandle st' = asg_modulesToHandle st ++ l).
  { destruct (skipped x); destruct Hbody as [-> _].
    - exists []. now rewrite app_nil_r.
    - apply enqueue_prefix. }
  destruct Hl as [l Hl].
  assert (Hfirst : firstn (S i) (asg_modulesToHandle st')
                   = firstn i (asg_modulesToHandle st) ++ [x]).
  { rewrite Hl, firstn_prefix by lia. now apply firstn_snoc. }
  assert (Hkeys' : map fst (asg_assignedEntriesByModule st')
                   = set_add x (map fst (asg_assignedEntriesByModule st))).
  { destruct (skipped x); destruct Hbody as [_ ->].
    - apply getOrCreate_keys.
    - rewrite map_set_keys_set_add, getOrCreate_keys.
      unfold set_add at 1.
      replace (set_has x (set_add x (map fst (asg_assignedEntriesByModule st))))
        with true; [reflexivity|].
      symmetry. apply set_has_In, set_add_In. now left. }
  unfold R. rewrite Hfirst.
  split; [split; [|split]|].
  { destruct (skipped x); destruct Hbody as [-> _];
      [assumption|now apply enqueue_NoDup]. }
  { rewrite Hl. now apply prefix_nth_error. }
  { rewrite Hl, length_app. lia. }
  split.
  { intros m Hm. destruct (skipped x) eqn:Hskip; destruct Hbody as [Hw _];
      rewrite Hw in Hm; [now apply Hpath|].
    apply enqueue_In in Hm as [Hm|[Hdep Hman]]; [now apply Hpath|].
    eapply AlreadyLoaded.unloaded_step; eauto. }
  split.
  { intros m d Hm Hskip Hdep Hman. apply in_app_iff in Hm as [Hm|[<-|[]]].
    - rewrite Hl. apply in_or_app. left. eapply Hclosed; eauto.
    - rewrite Hskip in Hbody. destruct Hbody as [-> _]. apply enqueue_In. now right. }
  split.
  { rewrite Hkeys'. now apply set_add_NoDup. }
  split.
  { intros m. rewrite Hkeys', set_add_In, Hin, in_app_iff. simpl. split.
    - intros [->|[H|H]]; auto.
    - intros [H|[H|[<-|[]]]]; auto. }
  intros m e. rewrite in_app_iff. simpl.
  destruct (skipped x) eqn:Hskip; destruct Hbody as [_ ->].
  - rewrite assigned_to_getOrCreate, Hto. split.
    + intros [H|[He [Hm Hs]]]; auto.
    + intros [H|[He [[Hm|[<-|[]]] Hs]]]; auto. congruence.
  - destruct (Nat.eq_dec m x) as [->|Hne].
    + rewrite assigned_to_set_same, set_add_In, getOrCreate_fst_In, Hto. split.
      * intros [->|[H|[He [Hm Hs]]]]; auto. right. auto.
      * intros [H|[He _]]; auto.
    + rewrite assigned_to_set_other, assigned_to_getOrCreate, Hto by assumption. split.
      * intros [H|[He [Hm Hs]]]; auto.
      * intros [H|[He [[Hm|[<-|[]]] Hs]]]; auto. congruence.
Qed.

(** What one traversal of [assignEntryToStaticDependencies] does to
    [assignedEntryPointsByModule]. *)
Lemma loaded_assign_spec assigned :
  AlreadyLoaded.assignEntryToStaticDependencies G entry alreadyLoadedModules assigned0
    inManual = Ok assigned ->
  NoDup (map fst assigned)
  /\ (forall m, In m (map fst assigned) <-> In m (map fst assigned0) \/ path m)
  /\ (forall m e, assigned_to assigned m e
        <-> assigned_to assigned0 m e \/ (e = entry /\ path m /\ skipped m = false)).
Proof.
  unfold AlreadyLoaded.assignEntryToStaticDependencies,
    AlreadyLoaded.assignEntryToStaticDependencies_run. intros Hrun.
  apply bind_Ok_inv in Hrun as [st [Hrun Hst]]. injection Hst as <-.
  eapply forOf_invariant with (P := R) in Hrun
    as [j [[[Hnd [Hhd Hle]] [Hpath [Hclosed [Hkeys [Hin Hto]]]]] Hj]].
  - rewrite firstn_all2 in * by assumption.
    assert (Hreach : forall m, In m (asg_modulesToHandle st) <-> path m).
    { intros m. split; [apply Hpath|]. intros Hm.
      induction Hm as [|m d _ IH Hskip Hdep Hman]; [eapply nth_error_In; eauto|].
      eapply Hclosed; eauto. }
    split; [assumption|]. split.
    + intros m. now rewrite Hin, Hreach.
    + intros m e. now rewrite Hto, Hreach.
  - exact loaded_R_step.
  - unfold R. simpl.
    split; [split; [repeat constructor; intros []|split; [reflexivity|lia]]|].
    split; [intros m [<-|[]]; constructor|].
    split; [intros m d []|].
    split; [assumption|].
    split; [intros m; split; [now left|intros [H|[]]; exact H]|].
    intros m e. split; [now left|intros [H|[_ [[] _]]]; exact H].
Qed.

Lemma loaded_assign_returns :
  exists assigned,
    AlreadyLoaded.assignEntryToStaticDependencies G entry alreadyLoadedModules assigned0
      inManual = Ok assigned.
Proof.
  unfold AlreadyLoaded.assignEntryToStaticDependencies,
    AlreadyLoaded.assignEntryToStaticDependencies_run.
  match goal with
  | |- exists assigned, bind ?run _ = _ =>
      assert (Hrun : exists st, run = Ok st
                                /\ worklist_ok G entry (asg_modulesToHandle st))
  end.
  { apply forOf_returns with (bound := length (graph_universe G) + 1).
    - intros x st Hok _.
      destruct (body x st) as [st'| |] eqn:Hb.
      + exists st'. split; [reflexivity|].
        apply loaded_assign_module_inv in Hb. cbv zeta in Hb.
        destruct (skipped x); destruct Hb as [-> _]; [assumption|].
        apply worklist_ok_enqueue; [|assumption]. intros d. apply included_in_universe.
      + exfalso. revert Hb. unfold AlreadyLoaded.assignEntryToStaticDependencies_module.
        destruct (getOrCreate _ _ _). destruct (skipped x); discriminate.
      + exfalso. revert Hb. unfold AlreadyLoaded.assignEntryToStaticDependencies_module.
        destruct (getOrCreate _ _ _). destruct (skipped x); discriminate.
    - intros st Hok. eapply worklist_ok_length; eauto.
    - simpl. apply worklist_ok_seed.
    - unfold traversal_fuel. lia.
    - unfold traversal_fuel. lia. }
  destruct Hrun as [st [Hrun _]]. rewrite Hrun. simpl. eauto.
Qed.
End LoadedAssign.

Lemma unloaded_path_None G inManual entry m :
  AlreadyLoaded.unloaded_path G None inManual entry m
  <-> manual_free_path G inManual entry m.
Proof.
  split; intros H.
  - induction H as [|m d _ IH _ Hdep Hman]; [constructor|].
    eapply manual_free_step; eauto.
  - induction H as [|m d _ IH Hdep Hman]; [constructor|].
    eapply AlreadyLoaded.unloaded_step; eauto.
Qed.

Lemma unloaded_path_not_manual G loaded inManual entry m :
  ~ In entry inManual -> AlreadyLoaded.unloaded_path G loaded inManual entry m ->
  ~ In m inManual.
Proof. intros He H. now destruct H. Qed.

Section LoadedAssignLoops.
Variables (G : Graph) (inManual : list nat) (loadedOf : nat -> option (list nat)).

Local Abbreviation body :=
  (fun entry assigned =>
     if set_has entry inManual then Ok assigned
     else AlreadyLoaded.assignEntryToStaticDependencies G entry (loadedOf entry) assigned
            inManual).

(** What a loop of traversals does to [assignedEntryPointsByModule]. *)
Lemma loaded_loop_spec xs : forall assigned0 assigned,
  NoDup (map fst assigned0) ->
  forEach body xs assigned0 = Ok assigned ->
  NoDup (map fst assigned)
  /\ (forall m, In m (map fst assigned)
        <-> In m (map fst assigned0)
            \/ exists e, In e xs /\ ~ In e inManual
                         /\ AlreadyLoaded.unloaded_path G (loadedOf e) inManual e m)
  /\ (forall m e, assigned_to assigned m e
        <-> assigned_to assigned0 m e
            \/ (In e xs /\ ~ In e inManual
                /\ AlreadyLoaded.unloaded_path G (loadedOf e) inManual e m
                /\ AlreadyLoaded.isAlreadyLoaded (loadedOf e) m = false)).
Proof.
  induction xs as [|x xs IH]; intros assigned0 assigned Hnd Hrun; simpl in Hrun.
  - injection Hrun as <-. split; [assumption|]. split.
    + intros m. split; [now left|]. intros [H|[e [[] _]]]. exact H.
    + intros m e. split; [now left|]. intros [H|[[] _]]. exact H.
  - apply bind_Ok_inv in Hrun as [assigned1 [Hb Hrest]].
    assert (H1 : NoDup (map fst assigned1)
      /\ (forall m, In m (map fst assigned1)
            <-> In m (map fst assigned0)
                \/ (~ In x inManual
                    /\ AlreadyLoaded.unloaded_path G (loadedOf x) inManual x m))
      /\ (forall m e, assigned_to assigned1 m e
            <-> assigned_to assigned0 m e
                \/ (e = x /\ ~ In x inManual
                    /\ AlreadyLoaded.unloaded_path G (loadedOf x) inManual x m
                    /\ AlreadyLoaded.isAlreadyLoaded (loadedOf x) m = false))).
    { destruct (set_has x inManual) eqn:Hx.
      - injection Hb as <-. apply set_has_In in Hx. split; [assumption|]. split.
        + intros m. split; [now left|]. intros [H|[H _]]; [assumption|contradiction].
        + intros m e. split; [now left|]. intros [H|[_ [H _]]]; [assumption|contradiction].
      - apply set_has_false in Hx.
        apply loaded_assign_spec in Hb as [Hnd1 [Hk1 Ha1]]; [|assumption].
        split; [assumption|]. split.
        + intros m. rewrite Hk1. tauto.
        + intros m e. rewrite Ha1. tauto. }
    destruct H1 as [Hnd1 [Hk1 Ha1]].
    destruct (IH _ _ Hnd1 Hrest) as [Hnd2 [Hk2 Ha2]].
    split; [assumption|]. split.
    + intros m. rewrite Hk2, Hk1. split.
      * intros [[H|[Hx Hp]]|[e [He H]]]; [now left| |].
        -- right. exists x. split; [now left|auto].
        -- right. exists e. split; [now right|auto].
      * intros [H|[e [[<-|He] H]]]; [now left; left|left; now right|].
        right. exists e. auto.
    + intros m e. rewrite Ha2, Ha1. split.
      * intros [[H|[-> H]]|[He H]]; [now left| |].
        -- right. split; [now left|auto].
        -- right. split; [now right|auto].
      * intros [H|[[<-|He] H]]; [now left; left|left; right; auto|].
        right. auto.
Qed.

Lemma loaded_loop_returns xs : forall assigned0,
  exists assigned, forEach body xs assigned0 = Ok assigned.
Proof.
  induction xs as [|x xs IH]; intros assigned0; simpl; [eauto|].
  destruct (set_has x inManual); simpl; [apply IH|].
  destruct (loaded_assign_returns G x (loadedOf x) inManual assigned0) as [assigned1 H1].
  rewrite H1. simpl. apply IH.
Qed.
End LoadedAssignLoops.

Lemma manualChunks_returns G manualChunkAliasByEntry :
  exists manual, manualChunks G manualChunkAliasByEntry = Ok manual.
Proof.
  destruct (manualChunks G manualChunkAliasByEntry) as [manual| |] eqn:E; [eauto| |].
  - exfalso. revert E. apply manualChunks_no_throw.
  - exfalso. revert E. apply manualChunks_total.
Qed.

(** What [getChunkAssignments] of [src/utils/chunkAssignment.ts] computes
    before it creates the automatic chunks. *)
Lemma loaded_assignModules_spec G entries manualChunkAliasByEntry :
  exists asg,
    AlreadyLoaded.assignModules G entries manualChunkAliasByEntry = Ok asg
    /\ manualChunks G manualChunkAliasByEntry
       = Ok (AlreadyLoaded.manualChunkModulesByAlias asg,
             AlreadyLoaded.modulesInManualChunks asg)
    /\ AlreadyLoaded.getAlreadyLoadedModulesByDynamicEntry G entries
       = Ok (AlreadyLoaded.alreadyLoadedModulesByDynamicEntry asg)
    /\ NoDup (map fst (AlreadyLoaded.assignedEntryPointsByModule asg))
    /\ forall m e,
         assigned_to (AlreadyLoaded.assignedEntryPointsByModule asg) m e
         <-> ~ In e (AlreadyLoaded.modulesInManualChunks asg)
             /\ ((In e entries
                  /\ manual_free_path G (AlreadyLoaded.modulesInManualChunks asg) e m)
                 \/ exists alreadyLoadedModules,
                      map_get e (AlreadyLoaded.alreadyLoadedModulesByDynamicEntry asg)
                      = Some alreadyLoadedModules
                      /\ AlreadyLoaded.unloaded_path G (Some alreadyLoadedModules)
                           (AlreadyLoaded.modulesInManualChunks asg) e m
                      /\ ~ In m alreadyLoadedModules).
Proof.
  unfold AlreadyLoaded.assignModules.
  destruct (manualChunks_returns G manualChunkAliasByEntry) as [[byAlias inManual] Hman].
  destruct (getAlreadyLoadedModulesByDynamicEntry_facts G entries) as [loaded [Hloaded _]].
  rewrite Hman, Hloaded. simpl.
  unfold AlreadyLoaded.assignStaticEntries, AlreadyLoaded.assignDynamicEntries.
  destruct (loaded_loop_returns G inManual (fun _ => None) entries []) as [assigned1 H1].
  rewrite H1. simpl.
  destruct (loaded_loop_returns G inManual (fun e => map_get e loaded) (map fst loaded)
              assigned1) as [assigned2 H2].
  rewrite H2. simpl. eexists. split; [reflexivity|]. simpl.
  split; [reflexivity|]. split; [reflexivity|].
  apply loaded_loop_spec in H1 as [Hnd1 [_ Ha1]]; [|constructor].
  apply loaded_loop_spec in H2 as [Hnd2 [_ Ha2]]; [|assumption].
  split; [assumption|].
  intros m e. rewrite Ha2, Ha1. split.
  - intros [[[s [Hs _]]|[He [Hm [Hp _]]]]|[He [Hm [Hp Hskip]]]]; [discriminate| |].
    + split; [assumption|]. left. split; [assumption|]. now apply unloaded_path_None.
    + split; [assumption|]. right.
      destruct (map_get_key _ _ He) as [s Hs]. exists s. rewrite Hs in Hp, Hskip.
      split; [exact Hs|]. split; [assumption|]. now apply set_has_false.
  - intros [Hm [[He Hp]|[s [Hs [Hp Hnot]]]]].
    + left. right. split; [assumption|]. split; [assumption|].
      split; [now apply unloaded_path_None|reflexivity].
    + right. split; [eapply map_get_Some_key; eauto|]. split; [assumption|].
      rewrite Hs. split; [assumption|]. now apply set_has_false.
Qed.

(** Entry assignment in [src/utils/chunkAssignment.ts]. For every input the
    assignment of the modules returns, and a module has [entry] in its entry
    set exactly when [entry] is in no manual chunk and either is one of the
    given entries and reaches the module through dependencies to be included
    that are in no manual chunk, or is a dynamic entry that reaches the
    module in this way without passing an already loaded module, the module
    not being already loaded itself. *)
Theorem assigned_unless_already_loaded (G : Graph) (entries : list nat)
    (manualChunkAliasByEntry : list (nat * string)) :
  exists asg,
    AlreadyLoaded.assignModules G entries manualChunkAliasByEntry = Ok asg
    /\ forall module entry,
         assigned_to (AlreadyLoaded.assignedEntryPointsByModule asg) module entry
         <-> ~ In entry (AlreadyLoaded.modulesInManualChunks asg)
             /\ ((In entry entries
                  /\ manual_free_path G (AlreadyLoaded.modulesInManualChunks asg)
                       entry module)
                 \/ exists alreadyLoadedModules,
                      map_get entry (AlreadyLoaded.alreadyLoadedModulesByDynamicEntry asg)
                      = Some alreadyLoadedModules
                      /\ AlreadyLoaded.unloaded_path G (Some alreadyLoadedModules)
                           (AlreadyLoaded.modulesInManualChunks asg) entry module
                      /\ ~ In module alreadyLoadedModules).
Proof.
  destruct (loaded_assignModules_spec G entries manualChunkAliasByEntry)
    as [asg [Hasg [_ [_ [_ Hto]]]]].
  exists asg. split; [exact Hasg|exact Hto].
Qed.

(** [getChunkAssignments] of [src/utils/chunkAssignment.ts] throws only
    in [prettyBytes]. The assignment of the modules returns for every input.
    When [minChunkSize] is an integer, [getChunkAssignments] returns the
    manual chunks followed by chunks without alias, none of them empty, that
    together hold each module with an entry set once. When [minChunkSize]
    is [Infinity], [-Infinity] or [NaN], it throws a [TypeError], that of
    [prettyBytes] in [getOptimizedChunks]. *)
Theorem getChunkAssignments_throws_in_prettyBytes_only (G : Graph) (entries : list nat)
    (manualChunkAliasByEntry : list (nat * string)) (minChunkSize : Number.t) :
  exists asg,
    AlreadyLoaded.assignModules G entries manualChunkAliasByEntry = Ok asg
    /\ (Number.isFinite minChunkSize = true ->
        exists automatic,
          AlreadyLoaded.getChunkAssignments G entries manualChunkAliasByEntry minChunkSize
          = Ok (map (fun aliasModules : string * list nat =>
                       {| alias := Some (fst aliasModules);
                          modules := snd aliasModules |})
                  (Object_entries (AlreadyLoaded.manualChunkModulesByAlias asg))
                ++ automatic)
          /\ Permutation (flat_map modules automatic)
               (map fst (AlreadyLoaded.assignedEntryPointsByModule asg))
          /\ forall chunk, In chunk automatic ->
                           alias chunk = None /\ modules chunk <> [])
    /\ (Number.isFinite minChunkSize = false ->
        AlreadyLoaded.getChunkAssignments G entries manualChunkAliasByEntry minChunkSize
        = TypeError).
Proof.
  destruct (loaded_assignModules_spec G entries manualChunkAliasByEntry)
    as [asg [Hasg [_ [_ [Hnd _]]]]].
  exists asg. split; [exact Hasg|].
  unfold AlreadyLoaded.getChunkAssignments. rewrite Hasg. cbn [bind]. split.
  - intros Hfinite. destruct minChunkSize as [z| | |]; try discriminate.
    destruct (@createChunks_cover G
                (entries ++ map fst (AlreadyLoaded.alreadyLoadedModulesByDynamicEntry asg))
                (AlreadyLoaded.assignedEntryPointsByModule asg) Hnd z)
      as [automatic [Hres Hcover]].
    pose proof (@createChunks_modules _ _ _ z _ Hnd Hres) as Hshape.
    exists automatic. rewrite Hres. simpl.
    split; [reflexivity|]. split.
    + apply chunks_Permutation; [assumption|exact Hcover|].
      intros chunk m Hc. now apply (Hshape chunk Hc).
    + intros chunk Hc. destruct (Hshape chunk Hc) as [Halias [Hmods _]]. auto.
  - intros Hfinite. now rewrite createChunks_not_finite.
Qed.

Lemma buildAlreadyLoadedModulesByDynamicEntry_sound_witness :
  exists alreadyLoadedModulesByDynamicEntry,
    AlreadyLoaded.buildAlreadyLoadedModulesByDynamicEntry
      LoadedExamples.dependentEntryPointsByModule LoadedExamples.dynamicImportsByEntry
      LoadedExamples.dynamicallyDependentEntryPointsByDynamicEntry
      LoadedExamples.allModules
    = Ok alreadyLoadedModulesByDynamicEntry
    /\ (forall dynamicEntry,
          In dynamicEntry (map fst alreadyLoadedModulesByDynamicEntry)
          <-> In dynamicEntry
                (map fst LoadedExamples.dynamicallyDependentEntryPointsByDynamicEntry))
    /\ forall dynamicEntry module,
         assigned_to alreadyLoadedModulesByDynamicEntry dynamicEntry module ->
         In module LoadedExamples.allModules
         /\ exists siblings,
              map_get dynamicEntry
                LoadedExamples.dynamicallyDependentEntryPointsByDynamicEntry
              = Some siblings
              /\ forall sibling,
                   In sibling siblings ->
                   AlreadyLoaded.loaded_with LoadedExamples.dependentEntryPointsByModule
                     LoadedExamples.dynamicallyDependentEntryPointsByDynamicEntry
                     module sibling.
Proof.
  apply buildAlreadyLoadedModulesByDynamicEntry_sound.
  split; [|split].
  - intros module [<-|[<-|[<-|[<-|[]]]]]; simpl; auto.
  - intros module entry [s [Hs He]].
    destruct module as [|[|[|[|module]]]]; simpl in Hs; try discriminate;
      injection Hs as <-; simpl in He; simpl; tauto.
  - intros entry dynamicEntry [s [Hs He]].
    destruct entry as [|[|entry]]; simpl in Hs; try discriminate;
      injection Hs as <-; simpl in He; simpl; intuition auto.
Defined.

(** *** What is in memory is found already loaded *)

Lemma build_dynamicEntry_cases byEntry dyn module dependentEntryPoints dynamicEntry pr pr' :
  AlreadyLoaded.build_dynamicEntry byEntry dyn module dependentEntryPoints dynamicEntry pr
  = Ok pr' ->
  let loaded := AlreadyLoaded.pr_alreadyLoadedModulesByDynamicEntry pr in
  (pr' = pr
   /\ (assigned_to loaded dynamicEntry module
       \/ exists siblings,
            map_get dynamicEntry dyn = Some siblings
            /\ AlreadyLoaded.siblingsHaveLoaded dependentEntryPoints loaded module siblings
               = false))
  \/ exists alreadyLoadedModules dynamicImports,
       map_get dynamicEntry loaded = Some alreadyLoadedModules
       /\ map_get dynamicEntry byEntry = Some dynamicImports
       /\ AlreadyLoaded.pr_alreadyLoadedModulesByDynamicEntry pr'
          = map_set dynamicEntry (set_add module alreadyLoadedModules) loaded
       /\ AlreadyLoaded.pr_dynamicEntriesToHandle pr'
          = AlreadyLoaded.pr_dynamicEntriesToHandle pr ++ dynamicImports.
Proof.
  unfold AlreadyLoaded.build_dynamicEntry. cbv zeta. intros H.
  destruct (map_get dynamicEntry (AlreadyLoaded.pr_alreadyLoadedModulesByDynamicEntry pr))
    as [s|] eqn:Hs; [|discriminate].
  destruct (set_has module s) eqn:Hhas.
  { injection H as <-. left. split; [reflexivity|]. left.
    exists s. split; [exact Hs|now apply set_has_In]. }
  destruct (map_get dynamicEntry dyn) as [siblings|] eqn:Hsib; [|discriminate].
  destruct (AlreadyLoaded.siblingsHaveLoaded _ _ _ _) eqn:Hall.
  - destruct (map_get dynamicEntry byEntry) as [imports|] eqn:Himp; [|discriminate].
    injection H as <-. right. exists s, imports. simpl. auto.
  - injection H as <-. left. split; [reflexivity|]. right. exists siblings. auto.
Qed.

Section BuildComplete.
Variables (dep byEntry dyn : list (nat * list nat)).
Hypothesis HT : forall s d, assigned_to dyn d s -> assigned_to byEntry s d.

Local Abbreviation loaded_of pr := (AlreadyLoaded.pr_alreadyLoadedModulesByDynamicEntry pr).
Local Abbreviation array_of pr := (AlreadyLoaded.pr_dynamicEntriesToHandle pr).

(** The module [m] is in memory when the entry [s] is loaded, as far as
    [loaded] says. *)
Let ok (loaded : list (nat * list nat)) (m s : nat) : Prop :=
  assigned_to dep m s \/ assigned_to loaded s m.

(** [d] is a dynamic entry, and [m] is in memory for every entry it is
    dynamically dependent on. *)
Let premise (loaded : list (nat * list nat)) (m d : nat) : Prop :=
  exists siblings,
    map_get d dyn = Some siblings /\ siblings <> []
    /\ forall s, In s siblings -> ok loaded m s.

Let closed (loaded : list (nat * list nat)) (m : nat) : Prop :=
  forall d, premise loaded m d -> assigned_to loaded d m.

Lemma siblingsHaveLoaded_ok dependentEntryPoints loaded m siblings :
  map_get m dep = Some dependentEntryPoints ->
  AlreadyLoaded.siblingsHaveLoaded dependentEntryPoints loaded m siblings = true
  <-> forall s, In s siblings -> ok loaded m s.
Proof.
  intros Hdep. unfold AlreadyLoaded.siblingsHaveLoaded. rewrite forallb_forall.
  assert (Hone : forall s,
    set_has s dependentEntryPoints || AlreadyLoaded.loadedFor loaded s m = true
    <-> ok loaded m s).
  { intros s. rewrite orb_true_iff, set_has_In. unfold ok, assigned_to.
    rewrite Hdep. unfold AlreadyLoaded.loadedFor. split.
    - intros [H|H]; [left; eauto|].
      destruct (map_get s loaded) as [l|]; [|discriminate].
      right. exists l. split; [reflexivity|now apply set_has_In].
    - intros [[l [Hl H]]|[l [Hl H]]].
      + left. now injection Hl as <-.
      + right. rewrite Hl. now apply set_has_In. }
  split; intros H s Hs; apply Hone; auto.
Qed.

Section OneModule.
Variables (m : nat) (dependentEntryPoints : list nat).
Hypothesis Hdep : map_get m dep = Some dependentEntryPoints.

(** During the loop over [dynamicEntriesToHandle] at slot [i]: a dynamic
    entry that should hold [m] holds it, or is still to come in the array,
    or is imported by an entry of [rest], still to be handled. *)
Let P (rest : list nat) (i : nat) (pr : AlreadyLoaded.Propagation) : Prop :=
  forall d, premise (loaded_of pr) m d ->
    assigned_to (loaded_of pr) d m
    \/ (exists k, i <= k /\ nth_error (array_of pr) k = Some d)
    \/ (exists s, assigned_to dyn d s /\ In s rest).

Lemma complete_P_step rest i x pr pr' :
  P rest i pr -> nth_error (array_of pr) i = Some x ->
  AlreadyLoaded.build_dynamicEntry byEntry dyn m dependentEntryPoints x pr = Ok pr' ->
  P rest (S i) pr'.
Proof.
  intros HP Hnth Hb d Hprem.
  apply build_dynamicEntry_cases in Hb as [[-> Hwhy]|[sx [imports [Hsx [Himp [Hl Ha]]]]]];
    cbv zeta in *.
  - destruct (HP d Hprem) as [H|[[k [Hk Hd]]|H]]; [now left| |now right; right].
    destruct (Nat.eq_dec k i) as [->|Hne].
    + rewrite Hnth in Hd. injection Hd as ->.
      destruct Hwhy as [H|[siblings [Hsib Hcheck]]]; [now left|].
      exfalso. destruct Hprem as [siblings' [Hsib' [_ Hok]]].
      rewrite Hsib in Hsib'. injection Hsib' as <-.
      apply (@siblingsHaveLoaded_ok dependentEntryPoints (loaded_of pr) m siblings Hdep)
        in Hok. congruence.
    + right. left. exists k. split; [lia|assumption].
  - rewrite Hl in *. destruct (Nat.eq_dec d x) as [->|Hdx].
    { left. apply assigned_to_set_same, set_add_In. now left. }
    destruct Hprem as [siblings [Hsib [Hne Hok]]].
    destruct (in_dec Nat.eq_dec x siblings) as [Hx|Hx].
    + right. left.
      assert (Hd : In d imports).
      { assert (Hxd : assigned_to byEntry x d) by (apply HT; exists siblings; auto).
        destruct Hxd as [l [Hl' Hin]].
        rewrite Himp in Hl'. now injection Hl' as <-. }
      apply In_nth_error in Hd as [k Hk].
      exists (length (array_of pr) + k). split.
      * assert (i < length (array_of pr)) by (apply nth_error_Some; congruence). lia.
      * rewrite Ha, nth_error_app2 by lia.
        replace (length (array_of pr) + k - length (array_of pr)) with k by lia.
        exact Hk.
    + assert (Hprem0 : premise (loaded_of pr) m d).
      { exists siblings. split; [assumption|]. split; [assumption|].
        intros s Hs. destruct (Hok s Hs) as [H|H]; [now left|]. right.
        apply assigned_to_set_other in H; [assumption|]. intros ->. contradiction. }
      destruct (HP d Hprem0) as [H|[[k [Hk Hd]]|H]]; [| |now right; right].
      * left. now apply assigned_to_set_other.
      * right. left. exists k. split.
        -- destruct (Nat.eq_dec k i) as [->|Hki]; [|lia].
           rewrite Hnth in Hd. injection Hd as ->. contradiction.
        -- rewrite Ha. rewrite nth_error_app1; [assumption|].
           apply nth_error_Some. congruence.
Qed.

Lemma build_entry_complete rest e loaded loaded' :
  AlreadyLoaded.build_entry byEntry dyn m dependentEntryPoints e loaded = Ok loaded' ->
  (forall d, premise loaded m d ->
     assigned_to loaded d m \/ exists s, assigned_to dyn d s /\ In s (e :: rest)) ->
  forall d, premise loaded' m d ->
    assigned_to loaded' d m \/ exists s, assigned_to dyn d s /\ In s rest.
Proof.
  unfold AlreadyLoaded.build_entry. intros Hb H0.
  destruct (map_get e byEntry) as [imports|] eqn:Himp; [|discriminate].
  apply bind_Ok_inv in Hb as [pr [Hrun Hpr]]. injection Hpr as <-.
  eapply forOf_invariant with (P := P rest) in Hrun as [j [HP Hj]].
  - intros d Hd. destruct (HP d Hd) as [H|[[k [Hk Hnth]]|H]]; [now left| |now right].
    exfalso. assert (k < length (array_of pr)) by (apply nth_error_Some; congruence). lia.
  - intros i x s s'. apply complete_P_step.
  - intros d Hd. simpl in *. destruct (H0 d Hd) as [H|[s [Hs [<-|Hin]]]];
      [now left| |right; right; eauto].
    right. left. apply HT in Hs. destruct Hs as [l [Hl Hin]].
    rewrite Himp in Hl. injection Hl as <-.
    apply In_nth_error in Hin as [k Hk]. exists k. split; [lia|assumption].
Qed.

Lemma build_entries_complete es : forall loaded loaded',
  forEach (AlreadyLoaded.build_entry byEntry dyn m dependentEntryPoints) es loaded
  = Ok loaded' ->
  (forall d, premise loaded m d ->
     assigned_to loaded d m \/ exists s, assigned_to dyn d s /\ In s es) ->
  closed loaded' m.
Proof.
  induction es as [|e es IH]; intros loaded loaded' Hrun H0; simpl in Hrun.
  - injection Hrun as <-. intros d Hd. destruct (H0 d Hd) as [H|[s [_ []]]]. exact H.
  - apply bind_Ok_inv in Hrun as [loaded1 [Hb Hrest]].
    eapply IH; [exact Hrest|]. eapply build_entry_complete; eauto.
Qed.
End OneModule.

Lemma build_module_complete m loaded loaded' :
  AlreadyLoaded.build_module dep byEntry dyn m loaded = Ok loaded' ->
  closed loaded m \/ (forall d, ~ assigned_to loaded d m) ->
  closed loaded' m.
Proof.
  unfold AlreadyLoaded.build_module. intros Hb H0.
  destruct (map_get m dep) as [dependentEntryPoints|] eqn:Hdep; [|discriminate].
  eapply build_entries_complete; [exact Hdep|exact Hb|].
  intros d Hd. destruct H0 as [H0|H0]; [left; now apply H0|]. right.
  destruct Hd as [siblings [Hsib [Hne Hok]]].
  destruct siblings as [|s siblings]; [contradiction|].
  exists s. split; [exists (s :: siblings); split; [assumption|now left]|].
  destruct (Hok s (or_introl eq_refl)) as [[l [Hl Hin]]|H].
  - rewrite Hdep in Hl. now injection Hl as <-.
  - exfalso. eapply H0; eauto.
Qed.

(** The turn of [m] changes nothing for another module. *)
Lemma build_module_other m loaded loaded' :
  AlreadyLoaded.build_module dep byEntry dyn m loaded = Ok loaded' ->
  forall d m', m' <> m -> assigned_to loaded' d m' <-> assigned_to loaded d m'.
Proof.
  unfold AlreadyLoaded.build_module. intros Hb.
  destruct (map_get m dep) as [dependentEntryPoints|]; [|discriminate].
  apply (@forEach_preserves _ _
           (AlreadyLoaded.build_entry byEntry dyn m dependentEntryPoints)
           (fun l => forall d m', m' <> m -> assigned_to l d m' <-> assigned_to loaded d m'))
    with (3 := Hb); [|reflexivity].
  intros e l l' Hl He. unfold AlreadyLoaded.build_entry in He.
  destruct (map_get e byEntry) as [imports|]; [|discriminate].
  apply bind_Ok_inv in He as [pr [Hrun Hpr]]. injection Hpr as <-.
  apply (@forOf_preserves _ AlreadyLoaded.pr_dynamicEntriesToHandle
           (AlreadyLoaded.build_dynamicEntry byEntry dyn m dependentEntryPoints)
           (fun pr => forall d m', m' <> m ->
                                   assigned_to (loaded_of pr) d m' <-> assigned_to loaded d m'))
    with (3 := Hrun); [|exact Hl].
  intros x s s' Hs _ Hstep d m' Hm'.
  apply build_dynamicEntry_cases in Hstep as [[-> _]|[sx [imp [Hsx [_ [Hl' _]]]]]];
    cbv zeta in *; [now apply Hs|].
  rewrite Hl', <- (Hs d m' Hm'). destruct (Nat.eq_dec d x) as [->|Hdx].
  - rewrite assigned_to_set_same, set_add_In. unfold assigned_to. rewrite Hsx. split.
    + intros [->|H]; [contradiction|eauto].
    + intros [l0 [Hl0 H]]. injection Hl0 as <-. now right.
  - now apply assigned_to_set_other.
Qed.

Lemma build_modules_complete modules : forall done loaded loaded',
  forEach (AlreadyLoaded.build_module dep byEntry dyn) modules loaded = Ok loaded' ->
  (forall m, In m done -> closed loaded m) ->
  (forall m, ~ In m done -> forall d, ~ assigned_to loaded d m) ->
  forall m, In m done \/ In m modules -> closed loaded' m.
Proof.
  induction modules as [|x modules IH]; intros done loaded loaded' Hrun Hdone Hnew;
    simpl in Hrun.
  - injection Hrun as <-. intros m [H|[]]. now apply Hdone.
  - apply bind_Ok_inv in Hrun as [loaded1 [Hb Hrest]].
    pose proof (@build_module_other x loaded loaded1 Hb) as Hother.
    assert (Hx : closed loaded1 x).
    { apply (@build_module_complete x loaded loaded1 Hb).
      destruct (in_dec Nat.eq_dec x done) as [H|H]; [left; now apply Hdone|].
      right. now apply Hnew. }
    intros m Hm. apply (IH (x :: done) loaded1 loaded' Hrest).
    + intros m' [<-|Hm']; [assumption|].
      destruct (Nat.eq_dec m' x) as [->|Hne]; [assumption|].
      intros d [siblings [Hsib [Hnil Hok]]]. apply Hother; [assumption|].
      apply (Hdone m' Hm'). exists siblings. split; [assumption|]. split; [assumption|].
      intros s Hs. destruct (Hok s Hs) as [H|H]; [now left|].
      right. now apply Hother in H.
    + intros m' Hm' d H. apply Hother in H.
      * apply (Hnew m') in H; [assumption|]. intros Hin. apply Hm'. now right.
      * intros ->. apply Hm'. now left.
    + destruct Hm as [Hm|[<-|Hm]]; [left; now right|left; now left|now right].
Qed.

(** [buildAlreadyLoadedModulesByDynamicEntry] leaves nothing out: a module
    of [allModules] is in the set of every dynamic entry for which it is in
    memory. *)
Lemma build_complete allModules loaded :
  AlreadyLoaded.buildAlreadyLoadedModulesByDynamicEntry dep byEntry dyn allModules
  = Ok loaded ->
  forall m d siblings,
    In m allModules -> map_get d dyn = Some siblings -> siblings <> [] ->
    (forall s, In s siblings -> assigned_to dep m s \/ assigned_to loaded s m) ->
    assigned_to loaded d m.
Proof.
  unfold AlreadyLoaded.buildAlreadyLoadedModulesByDynamicEntry.
  intros Hb m d siblings Hm Hsib Hne Hok.
  apply (@build_modules_complete allModules [] _ loaded Hb) with (m := m).
  - intros m' [].
  - intros m' _ d' H. apply initial_alreadyLoaded_empty in H.
    destruct H as [l [Hl _]]. discriminate.
  - now right.
  - exists siblings. auto.
Qed.
End BuildComplete.

Lemma collect_dep_allModules G entries st :
  AlreadyLoaded.collect G entries = Ok st ->
  forall m e, assigned_to (AlreadyLoaded.st_dependentEntryPointsByModule st) m e ->
              In m (AlreadyLoaded.st_allModules st).
Proof.
  unfold AlreadyLoaded.collect. intros Hrun.
  apply (@forOf_preserves _ AlreadyLoaded.st_entriesToHandle
           (AlreadyLoaded.getAlreadyLoadedModulesByDynamicEntry_entry G)
           (fun st =>
              (forall e, In e (AlreadyLoaded.st_entriesToHandle st) ->
                         In e (AlreadyLoaded.st_allModules st))
              /\ forall m e,
                   assigned_to (AlreadyLoaded.st_dependentEntryPointsByModule st) m e ->
                   In m (AlreadyLoaded.st_allModules st)))
    with (3 := Hrun).
  - intros x s s' [HE Hdep] Hx Hb.
    unfold AlreadyLoaded.getAlreadyLoadedModulesByDynamicEntry_entry in Hb.
    apply bind_Ok_inv in Hb as [tr [Hb Htr]]. injection Htr as <-.
    apply (@forOf_preserves _ AlreadyLoaded.tr_modulesToHandle
             (AlreadyLoaded.getAlreadyLoadedModulesByDynamicEntry_module G x)
             (fun tr =>
                let st := AlreadyLoaded.tr_state tr in
                map_get x (AlreadyLoaded.st_dynamicImportsByEntry st)
                = Some (AlreadyLoaded.tr_dynamicImports tr)
                /\ (forall m, In m (AlreadyLoaded.tr_modulesToHandle tr) ->
                              In m (AlreadyLoaded.st_allModules st))
                /\ (forall e, In e (AlreadyLoaded.st_entriesToHandle st) ->
                              In e (AlreadyLoaded.st_allModules st))
                /\ forall m e,
                     assigned_to (AlreadyLoaded.st_dependentEntryPointsByModule st) m e ->
                     In m (AlreadyLoaded.st_allModules st)))
      with (3 := Hb).
    + intros y t t' [Hsync [Hl [HE' Hdep']]] Hy Hm.
      apply loaded_module_inv in Hm
        as [Hl' [Hdep'' [Hsync' [_ [_ [_ [HE'' Hall]]]]]]]; [|assumption].
      cbv zeta in *. split; [assumption|]. split; [|split].
      * intros m Hm. rewrite Hl' in Hm. apply Hall.
        apply enqueue_In in Hm as [Hm|[Hm _]]; [left; now apply Hl|right; now left].
      * intros e He. rewrite HE'', set_add_all_In in He. apply Hall.
        destruct He as [He|He]; [right; right; now apply discovered_In|left; now apply HE'].
      * intros m e H. apply Hdep'' in H as [H|[-> _]]; apply Hall; left;
          [eapply Hdep'; eauto|now apply Hl].
    + cbv zeta. simpl. split; [apply map_get_set_same|]. split; [|split; assumption].
      intros m [<-|[]]. now apply HE.
  - simpl. split; [auto|]. intros m e [l [H _]]. discriminate.
Qed.

(** A module in memory for an entry has the entry in its entry set or is
    found already loaded for it. *)
Lemma in_memory_found G entries st loaded :
  AlreadyLoaded.collect G entries = Ok st ->
  AlreadyLoaded.buildAlreadyLoadedModulesByDynamicEntry
    (AlreadyLoaded.st_dependentEntryPointsByModule st)
    (AlreadyLoaded.st_dynamicImportsByEntry st)
    (AlreadyLoaded.st_dynamicallyDependentEntryPointsByDynamicEntry st)
    (AlreadyLoaded.st_allModules st) = Ok loaded ->
  (forall d m,
     (exists e, is_entry G entries e /\ AlreadyLoaded.imports_dynamically G e d) ->
     (forall e, is_entry G entries e -> AlreadyLoaded.imports_dynamically G e d ->
        assigned_to (AlreadyLoaded.st_dependentEntryPointsByModule st) m e
        \/ assigned_to loaded e m) ->
     assigned_to loaded d m)
  /\ forall m e,
       AlreadyLoaded.in_memory G entries m e -> is_entry G entries e ->
       assigned_to (AlreadyLoaded.st_dependentEntryPointsByModule st) m e
       \/ assigned_to loaded e m.
Proof.
  intros Hst Hb.
  pose proof (collect_dep_allModules _ _ Hst) as Hall.
  pose proof (collect_spec _ _ Hst) as [_ [Hdep [_ [Himp [Hdyn _]]]]].
  pose proof (build_sound _ _ _ _ Hb) as [_ [Hsound _]].
  assert (Hrule : forall d m,
    (exists e, is_entry G entries e /\ AlreadyLoaded.imports_dynamically G e d) ->
    (forall e, is_entry G entries e -> AlreadyLoaded.imports_dynamically G e d ->
       assigned_to (AlreadyLoaded.st_dependentEntryPointsByModule st) m e
       \/ assigned_to loaded e m) ->
    assigned_to loaded d m).
  { intros d m [e0 He0] Hok.
    assert (H0 : assigned_to
                   (AlreadyLoaded.st_dynamicallyDependentEntryPointsByDynamicEntry st) d e0)
      by now apply Hdyn.
    destruct H0 as [siblings [Hsib Hin0]].
    apply (@build_complete (AlreadyLoaded.st_dependentEntryPointsByModule st)
             (AlreadyLoaded.st_dynamicImportsByEntry st)
             (AlreadyLoaded.st_dynamicallyDependentEntryPointsByDynamicEntry st))
      with (allModules := AlreadyLoaded.st_allModules st) (siblings := siblings).
    - intros s d' H. apply Himp. now apply Hdyn.
    - exact Hb.
    - destruct He0 as [He0 Hi0]. destruct (Hok e0 He0 Hi0) as [H|H].
      + eapply Hall; eauto.
      + now apply Hsound in H.
    - exact Hsib.
    - intros ->. destruct Hin0.
    - intros s Hs.
      assert (H : assigned_to
                    (AlreadyLoaded.st_dynamicallyDependentEntryPointsByDynamicEntry st) d s)
        by (exists siblings; auto).
      apply Hdyn in H as [H1 H2]. now apply Hok. }
  split; [exact Hrule|].
  intros m e Hmem. induction Hmem as [e Hpath|d Hex _ IH]; intros He.
  - left. apply Hdep. auto.
  - right. apply Hrule; [assumption|]. intros e He' Hi. now apply IH.
Qed.

(** [getAlreadyLoadedModulesByDynamicEntry] returns for every graph and
    every list of entries: it does not throw. The keys of its result are
    the modules that an entry imports dynamically, and a module is in the
    set of such a dynamic entry exactly when it is in memory for every
    entry that imports the dynamic entry: the entry reaches the module
    through dependencies to be included, or is itself imported dynamically,
    by entries for which this holds in turn. *)
Theorem already_loaded_exactly_when_in_memory (G : Graph) (entries : list nat) :
  exists alreadyLoadedModulesByDynamicEntry,
    AlreadyLoaded.getAlreadyLoadedModulesByDynamicEntry G entries
    = Ok alreadyLoadedModulesByDynamicEntry
    /\ (forall dynamicEntry,
          In dynamicEntry (map fst alreadyLoadedModulesByDynamicEntry)
          <-> exists entry, is_entry G entries entry
                            /\ AlreadyLoaded.imports_dynamically G entry dynamicEntry)
    /\ forall dynamicEntry module,
         assigned_to alreadyLoadedModulesByDynamicEntry dynamicEntry module
         <-> (exists entry, is_entry G entries entry
                            /\ AlreadyLoaded.imports_dynamically G entry dynamicEntry)
             /\ forall entry,
                  is_entry G entries entry ->
                  AlreadyLoaded.imports_dynamically G entry dynamicEntry ->
                  AlreadyLoaded.in_memory G entries module entry.
Proof.
  destruct (getAlreadyLoadedModulesByDynamicEntry_facts G entries)
    as [loaded [Hrun [Hkeys _]]].
  exists loaded. split; [assumption|]. split; [assumption|].
  unfold AlreadyLoaded.getAlreadyLoadedModulesByDynamicEntry in Hrun.
  apply bind_Ok_inv in Hrun as [st [Hst Hb]].
  pose proof (collect_spec _ _ Hst) as [_ [_ [_ [_ [Hdyn _]]]]].
  destruct (in_memory_found _ _ Hst Hb) as [Hrule Hfound].
  intros d m. split.
  - intros H.
    assert (Hd : In d (map fst loaded))
      by (destruct H as [l [Hl _]]; eapply map_get_Some_key; eauto).
    split; [now apply Hkeys|].
    apply build_sound in Hb as [_ [_ Hprecise]].
    destruct (Hprecise d m H) as [siblings [Hsib Hl]].
    intros e He Hi. eapply loaded_with_in_memory; [exact Hst|]. apply Hl.
    assert (Hde : assigned_to
                    (AlreadyLoaded.st_dynamicallyDependentEntryPointsByDynamicEntry st) d e)
      by (apply Hdyn; auto).
    destruct Hde as [l [Hl' Hin]]. rewrite Hsib in Hl'. now injection Hl' as <-.
  - intros [Hex Hmem]. apply Hrule; [assumption|].
    intros e He Hi. apply Hfound; [now apply Hmem|assumption].
Qed.

(** * The merge of [getMergeableChunks] *)

Lemma checkModules_spec G minChunkSize modules : forall size0 size,
  Mergeable.checkModules G minChunkSize modules size0 = Some size
  <-> forallb (is_pure_module G) modules = true
      /\ size = size0 + modules_size G modules
      /\ (modules = [] \/ (Z.of_nat size <= minChunkSize)%Z).
Proof.
  induction modules as [|m modules IH]; intros size0 size; simpl.
  - unfold modules_size. simpl. rewrite Nat.add_0_r. split.
    + intros H. injection H as <-. auto.
    + intros [_ [-> _]]. reflexivity.
  - unfold is_pure_module at 1.
    change (modules_size G (m :: modules))
      with (magicString_length (getModule G m) + modules_size G modules).
    destruct (hasEffects (getModule G m)); simpl.
    + split; [discriminate|]. intros [H _]. discriminate.
    + destruct (minChunkSize <? Z.of_nat (size0 + magicString_length (getModule G m)))%Z
        eqn:E.
      * apply Z.ltb_lt in E. split; [discriminate|].
        intros [_ [-> [H|H]]]; [discriminate|]. lia.
      * apply Z.ltb_ge in E. rewrite IH. split.
        -- intros [Hp [-> [->|H]]]; (split; [assumption|]); (split; [lia|]); right.
           ++ unfold modules_size. simpl. lia.
           ++ assumption.
        -- intros [Hp [-> [H|H]]]; [discriminate|].
           split; [assumption|]. split; [lia|]. now right.
Qed.

Lemma checkModules_mergeable G minChunkSize modules :
  Mergeable.checkModules G minChunkSize modules 0
  = if Mergeable.mergeable G minChunkSize modules
    then Some (modules_size G modules) else None.
Proof.
  destruct (Mergeable.checkModules G minChunkSize modules 0) as [size|] eqn:E.
  - apply checkModules_spec in E as [Hp [-> Hle]]. simpl in *.
    unfold Mergeable.mergeable. rewrite Hp. simpl.
    destruct Hle as [->|Hle]; [reflexivity|].
    apply Z.leb_le in Hle. rewrite Hle. now rewrite orb_true_r.
  - destruct (Mergeable.mergeable G minChunkSize modules) eqn:Hm; [|reflexivity].
    exfalso. unfold Mergeable.mergeable in Hm. apply andb_true_iff in Hm as [Hp Hle].
    assert (H : Mergeable.checkModules G minChunkSize modules 0
                = Some (modules_size G modules)).
    { apply checkModules_spec. split; [assumption|]. split; [reflexivity|].
      apply orb_true_iff in Hle as [Hnil|Hle].
      - left. now destruct modules.
      - right. now apply Z.leb_le. }
    congruence.
Qed.

Lemma mergeable_deref_app h c ref :
  ref < length h -> Mergeable.deref (h ++ [c]) ref = Mergeable.deref h ref.
Proof. intros H. unfold Mergeable.deref. now rewrite app_nth1. Qed.

Lemma mergeable_deref_last h c : Mergeable.deref (h ++ [c]) (length h) = c.
Proof. unfold Mergeable.deref. rewrite app_nth2, Nat.sub_diag by lia. reflexivity. Qed.

Section MergeableChunks.
Variables (G : Graph) (minChunkSize : Z).

(** What [getMergeableChunks] has made of the entries [done]. *)
Let J (done : list (string * list nat)) (st : Mergeable.State) : Prop :=
  let h := Mergeable.heap st in
  map Mergeable.group h = done
  /\ NoDup (Mergeable.live st)
  /\ (forall r, In r (Mergeable.live st) <-> r < length h)
  /\ (forall r, In r (Mergeable.chunksToBeMerged st) ->
        Mergeable.mergeable G minChunkSize (Mergeable.modules_at h r) = true
        /\ Mergeable.size (Mergeable.deref h r)
           = Some (modules_size G (Mergeable.modules_at h r)))
  /\ (forall r, In r (Mergeable.unmergeableChunks st) ->
        Mergeable.mergeable G minChunkSize (Mergeable.modules_at h r) = false
        /\ Mergeable.size (Mergeable.deref h r) = None).

Lemma getMergeableChunks_step done st e :
  J done st -> J (done ++ [e]) (Mergeable.getMergeableChunks_entry G minChunkSize st e).
Proof.
  intros [Hh [Hnd [Hlive [Htbm Hunm]]]]. destruct e as [k mods].
  unfold Mergeable.getMergeableChunks_entry, Mergeable.live in *.
  rewrite checkModules_mergeable.
  assert (Hfresh : ~ In (length (Mergeable.heap st))
                     (Mergeable.chunksToBeMerged st ++ Mergeable.unmergeableChunks st)).
  { intros H. apply Hlive in H. lia. }
  assert (Hold : forall r c, In r (Mergeable.chunksToBeMerged st
                                   ++ Mergeable.unmergeableChunks st) ->
                             Mergeable.deref (Mergeable.heap st ++ [c]) r
                             = Mergeable.deref (Mergeable.heap st) r).
  { intros r c Hr. apply mergeable_deref_app. now apply Hlive. }
  destruct (Mergeable.mergeable G minChunkSize mods) eqn:Hm; unfold J, Mergeable.live;
    simpl.
  - assert (Hadd : set_add (length (Mergeable.heap st)) (Mergeable.chunksToBeMerged st)
                   = Mergeable.chunksToBeMerged st ++ [length (Mergeable.heap st)]).
    { unfold set_add.
      replace (set_has _ _) with false; [reflexivity|].
      symmetry. apply set_has_false. intros H. apply Hfresh, in_or_app. now left. }
    rewrite Hadd. split; [|split; [|split; [|split]]].
    + rewrite map_app, Hh. reflexivity.
    + rewrite <- app_assoc. simpl.
      apply (Permutation_NoDup (Permutation_middle _ _ _)). constructor; assumption.
    + intros r. rewrite length_app, <- app_assoc, in_app_iff. simpl.
      specialize (Hlive r). rewrite in_app_iff in Hlive. split.
      * intros [H|[<-|H]]; [| lia |]; assert (r < length (Mergeable.heap st))
          by (apply Hlive; auto); lia.
      * intros H. destruct (Nat.eq_dec r (length (Mergeable.heap st))) as [->|Hne];
          [auto|].
        assert (Hr : r < length (Mergeable.heap st)) by lia.
        apply Hlive in Hr as [Hr|Hr]; auto.
    + intros r Hr. unfold Mergeable.modules_at. apply in_app_iff in Hr as [Hr|[<-|[]]].
      * rewrite Hold by (apply in_or_app; now left). now apply Htbm.
      * rewrite mergeable_deref_last. simpl. auto.
    + intros r Hr. unfold Mergeable.modules_at.
      rewrite Hold by (apply in_or_app; now right). now apply Hunm.
  - split; [|split; [|split; [|split]]].
    + rewrite map_app, Hh. reflexivity.
    + rewrite app_assoc.
      apply (Permutation_NoDup (Permutation_cons_append _ _)). constructor; assumption.
    + intros r. rewrite length_app, app_assoc, in_app_iff. simpl.
      specialize (Hlive r). split.
      * intros [H|[<-|[]]]; [apply Hlive in H|]; lia.
      * intros H. destruct (Nat.eq_dec r (length (Mergeable.heap st))) as [->|Hne];
          [auto|].
        left. apply Hlive. lia.
    + intros r Hr. unfold Mergeable.modules_at.
      rewrite Hold by (apply in_or_app; now left). now apply Htbm.
    + intros r Hr. unfold Mergeable.modules_at. apply in_app_iff in Hr as [Hr|[<-|[]]].
      * rewrite Hold by (apply in_or_app; now right). now apply Hunm.
      * rewrite mergeable_deref_last. simpl. auto.
Qed.

Lemma getMergeableChunks_fold rest : forall done st,
  J done st ->
  J (done ++ rest) (fold_left (Mergeable.getMergeableChunks_entry G minChunkSize) rest st).
Proof.
  induction rest as [|e rest IH]; intros done st HJ; simpl.
  - now rewrite app_nil_r.
  - replace (done ++ e :: rest) with ((done ++ [e]) ++ rest)
      by (now rewrite <- app_assoc).
    apply IH. now apply getMergeableChunks_step.
Qed.

(** The chunk descriptions of [getMergeableChunks]. *)
Lemma getMergeableChunks_facts chunkModulesBySignature :
  let st := Mergeable.getMergeableChunks G chunkModulesBySignature minChunkSize in
  let h := Mergeable.heap st in
  map Mergeable.group h = Object_entries chunkModulesBySignature
  /\ NoDup (Mergeable.live st)
  /\ (forall r, In r (Mergeable.live st) <-> r < length h)
  /\ (forall r, In r (Mergeable.chunksToBeMerged st) ->
        Mergeable.mergeable G minChunkSize (Mergeable.modules_at h r) = true
        /\ Mergeable.size (Mergeable.deref h r)
           = Some (modules_size G (Mergeable.modules_at h r)))
  /\ (forall r, In r (Mergeable.unmergeableChunks st) ->
        Mergeable.mergeable G minChunkSize (Mergeable.modules_at h r) = false
        /\ Mergeable.size (Mergeable.deref h r) = None).
Proof.
  cbv zeta. unfold Mergeable.getMergeableChunks.
  apply (@getMergeableChunks_fold (Object_entries chunkModulesBySignature) []).
  unfold J, Mergeable.live. simpl.
  split; [reflexivity|]. split; [constructor|].
  split; [intros r; split; [intros []|lia]|].
  split; intros r [].
Qed.
End MergeableChunks.

Lemma set_delete_In x y s : In y (Mergeable.set_delete x s) <-> In y s /\ y <> x.
Proof.
  unfold Mergeable.set_delete. rewrite filter_In, negb_true_iff, Nat.eqb_neq.
  split; intros [H1 H2]; auto.
Qed.

Lemma set_delete_NoDup x s : NoDup s -> NoDup (Mergeable.set_delete x s).
Proof. apply NoDup_filter. Qed.

Lemma set_delete_absent x s : ~ In x s -> Mergeable.set_delete x s = s.
Proof.
  unfold Mergeable.set_delete. induction s as [|y s IH]; intros H; simpl; [reflexivity|].
  destruct (x =? y) eqn:E; simpl.
  - apply Nat.eqb_eq in E. subst. exfalso. apply H. now left.
  - rewrite IH; [reflexivity|]. intros Hin. apply H. now right.
Qed.

Lemma set_delete_app x s1 s2 :
  Mergeable.set_delete x (s1 ++ s2) = Mergeable.set_delete x s1 ++ Mergeable.set_delete x s2.
Proof. apply filter_app. Qed.

Lemma set_delete_perm x s :
  NoDup s -> In x s -> Permutation s (x :: Mergeable.set_delete x s).
Proof.
  induction s as [|y s IH]; intros Hnd Hin; [destruct Hin|].
  inversion Hnd as [|? ? Hy Hnd']. subst. unfold Mergeable.set_delete. simpl.
  destruct (x =? y) eqn:E; simpl.
  - apply Nat.eqb_eq in E. subst y. fold (Mergeable.set_delete x s).
    now rewrite set_delete_absent.
  - apply Nat.eqb_neq in E. destruct Hin as [->|Hin]; [congruence|].
    fold (Mergeable.set_delete x s). rewrite (IH Hnd' Hin) at 1. apply perm_swap.
Qed.

Lemma mergeable_heap_update_length r c h :
  length (Mergeable.heap_update r c h) = length h.
Proof.
  revert r. induction h as [|c' h IH]; intros [|r]; simpl; auto.
Qed.

Lemma mergeable_deref_update_same r c h :
  r < length h -> Mergeable.deref (Mergeable.heap_update r c h) r = c.
Proof.
  unfold Mergeable.deref. revert r. induction h as [|c' h IH]; intros [|r] H; simpl in *;
    try lia; [reflexivity|]. apply IH. lia.
Qed.

Lemma mergeable_deref_update_other r r' c h :
  r' <> r -> Mergeable.deref (Mergeable.heap_update r c h) r' = Mergeable.deref h r'.
Proof.
  unfold Mergeable.deref. revert r r'.
  induction h as [|c' h IH]; intros [|r] [|r'] H; simpl; try reflexivity; try congruence.
  apply IH. congruence.
Qed.

Lemma flat_map_agree {A B : Type} (f g : A -> list B) l :
  (forall x, In x l -> f x = g x) -> flat_map f l = flat_map g l.
Proof.
  induction l as [|x l IH]; intros H; simpl; [reflexivity|].
  rewrite (H x (or_introl eq_refl)), IH; [reflexivity|].
  intros y Hy. apply H. now right.
Qed.

Lemma subset_trans s : forall t u,
  String.length s = String.length t -> String.length t = String.length u ->
  Signature.subset s t = true -> Signature.subset t u = true ->
  Signature.subset s u = true.
Proof.
  induction s as [|c s IH]; intros [|d t] [|e u] H1 H2 Hst Htu; simpl in *;
    try discriminate; [reflexivity|].
  apply andb_true_iff in Hst as [Hc Hst]. apply andb_true_iff in Htu as [Hd Htu].
  apply andb_true_iff. split.
  - destruct (Signature.bit_of c), (Signature.bit_of d), (Signature.bit_of e);
      simpl in *; congruence.
  - apply (IH t u); [lia|lia|assumption|assumption].
Qed.

Lemma mergeable_findClosestChunk_found h toBeMerged sourceSignature targets :
  forall closest d target,
    Mergeable.findClosestChunk h toBeMerged sourceSignature targets closest d
    = Some target ->
    closest = Some target
    \/ (In target targets
        /\ Signature.getSignatureDistance sourceSignature
             (Mergeable.signature (Mergeable.deref h target))
             (negb (set_has target toBeMerged)) <> Signature.Infinity).
Proof.
  induction targets as [|x targets IH]; intros closest d target H; simpl in H; [now left|].
  destruct (Signature.number_eqb _ (Signature.Finite 1)) eqn:E1.
  - injection H as <-. right. split; [now left|].
    apply number_eqb_eq in E1. rewrite E1. discriminate.
  - destruct (Signature.number_ltb _ d) eqn:E2.
    + apply IH in H as [H|[H1 H2]].
      * injection H as <-. right. split; [now left|].
        intros Hinf. rewrite Hinf in E2. destruct d; discriminate.
      * right. split; [now right|assumption].
    + apply IH in H as [H|[H1 H2]]; [now left|].
      right. split; [now right|assumption].
Qed.

Lemma flat_map_modules_at_seq h :
  flat_map (Mergeable.modules_at h) (seq 0 (length h))
  = flat_map snd (map Mergeable.group h).
Proof.
  induction h as [|c h IH] using rev_ind; [reflexivity|].
  rewrite length_app, seq_app, !flat_map_app, map_app, flat_map_app. simpl.
  rewrite !app_nil_r. unfold Mergeable.modules_at at 2.
  rewrite mergeable_deref_last. f_equal. rewrite <- IH.
  apply flat_map_agree. intros r Hr. apply in_seq in Hr.
  unfold Mergeable.modules_at. rewrite mergeable_deref_app by lia. reflexivity.
Qed.

Section MergeSafety.
Variables (G : Graph) (E : list (string * list nat)) (n : nat) (minChunkSize : Z).
Hypothesis HE : forall k mods, In (k, mods) E -> String.length k = n.

Local Abbreviation sig h r := (Mergeable.signature (Mergeable.deref h r)).

(** Where a module of the chunk [r] comes from: a group whose signature is
    within that of the chunk; if the module has side effects the chunk has
    the signature of the group and cannot be merged. *)
Let origin (h : list Mergeable.ChunkDescription) (unmergeable : list nat) (r m : nat)
  : Prop :=
  exists k mods,
    In (k, mods) E /\ In m mods /\ Signature.subset k (sig h r) = true
    /\ (hasEffects (getModule G m) = true -> sig h r = k /\ In r unmergeable).

(** The invariant of the loop of [getOptimizedChunks]. *)
Let K (st : Mergeable.State) : Prop :=
  let h := Mergeable.heap st in
  NoDup (Mergeable.live st)
  /\ (forall r, In r (Mergeable.live st) -> r < length h)
  /\ Permutation (flat_map (Mergeable.modules_at h) (Mergeable.live st)) (flat_map snd E)
  /\ (forall r, In r (Mergeable.live st) -> String.length (sig h r) = n)
  /\ (forall r m, In r (Mergeable.live st) -> In m (Mergeable.modules_at h r) ->
        origin h (Mergeable.unmergeableChunks st) r m).

Lemma K_source_not_unmergeable st source :
  K st -> In source (Mergeable.chunksToBeMerged st) ->
  ~ In source (Mergeable.unmergeableChunks st).
Proof.
  intros [Hnd _] Hs Hu. eapply NoDup_app_disjoint; [exact Hnd|exact Hs|exact Hu].
Qed.

Lemma K_rest st source :
  K st -> In source (Mergeable.chunksToBeMerged st) ->
  let rest := Mergeable.set_delete source (Mergeable.chunksToBeMerged st)
              ++ Mergeable.unmergeableChunks st in
  Permutation (Mergeable.live st) (source :: rest)
  /\ NoDup rest /\ ~ In source rest
  /\ forall r, In r rest -> In r (Mergeable.live st).
Proof.
  intros HK Hs rest. pose proof (K_source_not_unmergeable _ HK Hs) as Hu.
  destruct HK as [Hnd _]. unfold Mergeable.live in *.
  assert (Heq : rest = Mergeable.set_delete source
                         (Mergeable.chunksToBeMerged st ++ Mergeable.unmergeableChunks st)).
  { unfold rest. now rewrite set_delete_app, (set_delete_absent _ _ Hu). }
  rewrite Heq. split; [|split; [|split]].
  - apply set_delete_perm; [assumption|]. apply in_or_app. now left.
  - now apply set_delete_NoDup.
  - intros H. apply set_delete_In in H as [_ H]. congruence.
  - intros r Hr. now apply set_delete_In in Hr as [Hr _].
Qed.

(** The chunk [source] is not in the set and not in the array any more; its
    modules are those of [closest] now. *)
Lemma K_absorb st source closest merged toBeMerged unmergeable :
  K st -> In source (Mergeable.chunksToBeMerged st) ->
  In closest (Mergeable.set_delete source (Mergeable.chunksToBeMerged st)
              ++ Mergeable.unmergeableChunks st) ->
  Mergeable.modules merged
  = Mergeable.modules_at (Mergeable.heap st) closest
    ++ Mergeable.modules_at (Mergeable.heap st) source ->
  String.length (Mergeable.signature merged) = n ->
  (forall k, String.length k = n ->
     Signature.subset k (sig (Mergeable.heap st) closest) = true
     \/ Signature.subset k (sig (Mergeable.heap st) source) = true ->
     Signature.subset k (Mergeable.signature merged) = true) ->
  (In closest (Mergeable.unmergeableChunks st) ->
   Mergeable.signature merged = sig (Mergeable.heap st) closest) ->
  Permutation (toBeMerged ++ unmergeable)
    (Mergeable.set_delete source (Mergeable.chunksToBeMerged st)
     ++ Mergeable.unmergeableChunks st) ->
  incl (Mergeable.unmergeableChunks st) unmergeable ->
  K {| Mergeable.heap := Mergeable.heap_update closest merged (Mergeable.heap st);
       Mergeable.chunksToBeMerged := toBeMerged;
       Mergeable.unmergeableChunks := unmergeable |}.
Proof.
  intros HK Hs Hc Hmods Hlen Hsub Hsame Hperm Hincl.
  destruct (K_rest _ HK Hs) as [Hlive [Hndrest [Hsrest Hrest]]].
  pose proof (K_source_not_unmergeable _ HK Hs) as Hsu.
  destruct HK as [Hnd [Hheap [Hall [Hlens Horigin]]]].
  set (h := Mergeable.heap st) in *.
  set (rest := Mergeable.set_delete source (Mergeable.chunksToBeMerged st)
               ++ Mergeable.unmergeableChunks st) in *.
  assert (Hne : closest <> source) by (intros ->; contradiction).
  assert (Hclive : In closest (Mergeable.live st)) by now apply Hrest.
  assert (Hslive : In source (Mergeable.live st))
    by (unfold Mergeable.live; apply in_or_app; now left).
  assert (Hnew : forall r, In r (toBeMerged ++ unmergeable) <-> In r rest).
  { intros r. split; apply Permutation_in; [assumption|now apply Permutation_sym]. }
  assert (Hat : forall r, r <> closest ->
                          Mergeable.deref (Mergeable.heap_update closest merged h) r
                          = Mergeable.deref h r).
  { intros r Hr. now apply mergeable_deref_update_other. }
  assert (Hclosest : Mergeable.deref (Mergeable.heap_update closest merged h) closest
                     = merged).
  { apply mergeable_deref_update_same. now apply Hheap. }
  unfold K, Mergeable.live. simpl.
  split; [|split; [|split; [|split]]].
  - eapply Permutation_NoDup; [apply Permutation_sym; exact Hperm|assumption].
  - intros r Hr. rewrite mergeable_heap_update_length. apply Hheap, Hrest. now apply Hnew.
  - rewrite (flat_map_perm _ Hperm).
    rewrite (flat_map_perm _ (@set_delete_perm closest rest Hndrest Hc)). simpl.
    unfold Mergeable.modules_at at 1. rewrite Hclosest, Hmods.
    rewrite (@flat_map_agree _ _
               (Mergeable.modules_at (Mergeable.heap_update closest merged h))
               (Mergeable.modules_at h)).
    + rewrite <- Hall, (flat_map_perm (Mergeable.modules_at h) Hlive). simpl.
      rewrite (flat_map_perm (Mergeable.modules_at h) (@set_delete_perm closest rest Hndrest Hc)).
      simpl. rewrite <- !app_assoc.
      rewrite Permutation_app_comm, <- app_assoc.
      apply Permutation_app_head, Permutation_app_comm.
    + intros r Hr. apply set_delete_In in Hr as [_ Hr].
      unfold Mergeable.modules_at. now rewrite Hat.
  - intros r Hr. apply Hnew in Hr. destruct (Nat.eq_dec r closest) as [->|Hr'].
    + now rewrite Hclosest.
    + rewrite Hat by assumption. now apply Hlens, Hrest.
  - intros r m Hr Hm. apply Hnew in Hr. unfold Mergeable.modules_at in Hm.
    destruct (Nat.eq_dec r closest) as [->|Hr'].
    + rewrite Hclosest, Hmods in Hm. unfold origin. rewrite Hclosest.
      apply in_app_iff in Hm as [Hm|Hm].
      * destruct (Horigin closest m Hclive Hm) as [k [mods [Hk [Hin [Hsubk Heff]]]]].
        exists k, mods. split; [assumption|]. split; [assumption|]. split.
        -- apply Hsub; [eapply HE; eauto|now left].
        -- intros He. destruct (Heff He) as [Hsig Hu].
           split; [now rewrite (Hsame Hu)|now apply Hincl].
      * destruct (Horigin source m Hslive Hm) as [k [mods [Hk [Hin [Hsubk Heff]]]]].
        exists k, mods. split; [assumption|]. split; [assumption|]. split.
        -- apply Hsub; [eapply HE; eauto|now right].
        -- intros He. destruct (Heff He) as [_ Hu]. contradiction.
    + rewrite Hat in Hm by assumption.
      destruct (Horigin r m (Hrest r Hr) Hm) as [k [mods [Hk [Hin [Hsubk Heff]]]]].
      exists k, mods. rewrite Hat by assumption.
      split; [assumption|]. split; [assumption|]. split; [assumption|].
      intros He. destruct (Heff He) as [Hsig Hu]. split; [assumption|now apply Hincl].
Qed.

Lemma K_permute st toBeMerged unmergeable :
  K st ->
  Permutation (toBeMerged ++ unmergeable) (Mergeable.live st) ->
  incl (Mergeable.unmergeableChunks st) unmergeable ->
  K {| Mergeable.heap := Mergeable.heap st;
       Mergeable.chunksToBeMerged := toBeMerged;
       Mergeable.unmergeableChunks := unmergeable |}.
Proof.
  intros [Hnd [Hheap [Hall [Hlens Horigin]]]] Hperm Hincl.
  assert (Hnew : forall r, In r (toBeMerged ++ unmergeable) -> In r (Mergeable.live st)).
  { intros r. now apply Permutation_in. }
  unfold K, Mergeable.live in *. simpl.
  split; [|split; [|split; [|split]]].
  - eapply Permutation_NoDup; [apply Permutation_sym; exact Hperm|assumption].
  - intros r Hr. now apply Hheap, Hnew.
  - now rewrite (flat_map_perm _ Hperm).
  - intros r Hr. now apply Hlens, Hnew.
  - intros r m Hr Hm.
    destruct (Horigin r m (Hnew r Hr) Hm) as [k [mods [Hk [Hin [Hsubk Heff]]]]].
    exists k, mods. split; [assumption|]. split; [assumption|]. split; [assumption|].
    intros He. destruct (Heff He) as [Hsig Hu]. split; [assumption|now apply Hincl].
Qed.

Lemma mergeSource_K st source :
  K st -> In source (Mergeable.chunksToBeMerged st) ->
  K (Mergeable.mergeSource minChunkSize source st).
Proof.
  intros HK Hs. unfold Mergeable.mergeSource.
  destruct (K_rest _ HK Hs) as [Hlive [Hndrest [Hsrest Hrest]]].
  pose proof (K_source_not_unmergeable _ HK Hs) as Hsu.
  set (h := Mergeable.heap st).
  set (toBeMerged := Mergeable.set_delete source (Mergeable.chunksToBeMerged st)) in *.
  destruct (Mergeable.findClosestChunk h toBeMerged _ _ None Signature.Infinity)
    as [closest|] eqn:Hfind.
  - apply mergeable_findClosestChunk_found in Hfind as [Hfind|[Hc Hd]]; [discriminate|].
    assert (Hlens : String.length (sig h source) = n
                    /\ String.length (sig h closest) = n).
    { destruct HK as [_ [_ [_ [Hlens _]]]]. split; apply Hlens.
      - unfold Mergeable.live. apply in_or_app. now left.
      - now apply Hrest. }
    destruct Hlens as [Hls Hlc].
    destruct (set_has closest toBeMerged) eqn:Hhas.
    + apply set_has_In in Hhas.
      assert (Hnu : ~ In closest (Mergeable.unmergeableChunks st)).
      { intros Hu. destruct HK as [Hnd _]. unfold toBeMerged in Hhas.
        apply set_delete_In in Hhas as [Hhas _].
        eapply NoDup_app_disjoint; [exact Hnd|exact Hhas|exact Hu]. }
      assert (Hmerge : Signature.mergeSignatures (sig h source) (sig h closest)
                       = merge_pointwise (sig h source) (sig h closest))
        by (apply mergeSignatures_pointwise; congruence).
      assert (Habs : forall tbm unm,
        Permutation (tbm ++ unm) (toBeMerged ++ Mergeable.unmergeableChunks st) ->
        incl (Mergeable.unmergeableChunks st) unm ->
        K {| Mergeable.heap :=
               Mergeable.heap_update closest
                 {| Mergeable.modules :=
                      Mergeable.modules (Mergeable.deref h closest)
                      ++ Mergeable.modules (Mergeable.deref h source);
                    Mergeable.signature :=
                      Signature.mergeSignatures (sig h source) (sig h closest);
                    Mergeable.size :=
                      Some (Mergeable.number_of (Mergeable.size (Mergeable.deref h closest))
                            + Mergeable.number_of
                                (Mergeable.size (Mergeable.deref h source))) |} h;
             Mergeable.chunksToBeMerged := tbm;
             Mergeable.unmergeableChunks := unm |}).
      { intros tbm unm Hp Hi.
        apply (@K_absorb st source closest _ tbm unm HK Hs Hc); simpl; auto.
        - rewrite Hmerge, merge_pointwise_length; congruence.
        - rewrite Hmerge. intros k Hk [Hsub|Hsub].
          + apply subset_trans with (t := sig h closest); try congruence.
            * rewrite merge_pointwise_length; congruence.
            * exact Hsub.
            * rewrite merge_pointwise_comm. apply subset_merge_pointwise. congruence.
          + apply subset_trans with (t := sig h source); try congruence.
            * rewrite merge_pointwise_length; congruence.
            * exact Hsub.
            * apply subset_merge_pointwise. congruence.
        - intros Hu. contradiction. }
      destruct (minChunkSize <? _)%Z.
      * apply Habs.
        -- unfold toBeMerged in Hhas |- *.
           assert (Hndt : NoDup (Mergeable.set_delete source (Mergeable.chunksToBeMerged st))).
           { destruct HK as [Hnd _]. apply set_delete_NoDup.
             now apply NoDup_app_remove_r in Hnd. }
           rewrite (@set_delete_perm closest _ Hndt Hhas) at 2. simpl.
           rewrite app_assoc. apply Permutation_sym, Permutation_cons_append.
        -- intros x Hx. apply in_or_app. now left.
      * apply Habs; [reflexivity|intros x Hx; exact Hx].
    + apply set_has_false in Hhas.
      assert (Hu : In closest (Mergeable.unmergeableChunks st)).
      { apply in_app_iff in Hc as [Hc|Hc]; [contradiction|assumption]. }
      assert (Hsubset : Signature.subset (sig h source) (sig h closest) = true).
      { apply getSignatureDistance_finite; [congruence|].
        replace (set_has closest toBeMerged) with false in Hd; [exact Hd|].
        symmetry. now apply set_has_false. }
      apply (@K_absorb st source closest _ toBeMerged (Mergeable.unmergeableChunks st)
               HK Hs Hc); simpl; auto.
      * intros k Hk [Hsub|Hsub]; [assumption|].
        apply subset_trans with (t := sig h source);
          [congruence|congruence|exact Hsub|exact Hsubset].
      * intros x Hx. exact Hx.
  - apply K_permute; [assumption| |intros x Hx; apply in_or_app; now left].
    rewrite Hlive. rewrite app_assoc. apply Permutation_sym, Permutation_cons_append.
Qed.

Lemma mergeSource_shrinks st source x :
  In x (Mergeable.chunksToBeMerged (Mergeable.mergeSource minChunkSize source st)) ->
  In x (Mergeable.chunksToBeMerged st) /\ x <> source.
Proof.
  unfold Mergeable.mergeSource.
  destruct (Mergeable.findClosestChunk _ _ _ _ _ _) as [closest|]; simpl.
  - destruct (set_has closest _); [destruct (minChunkSize <? _)%Z|]; simpl; intros H;
      first [ apply set_delete_In in H as [H _]; apply set_delete_In in H; exact H
            | apply set_delete_In in H; exact H ].
  - intros H. now apply set_delete_In in H.
Qed.

Lemma mergeAll_fold xs : forall st,
  K st ->
  let st' := fold_left
               (fun st sourceChunk =>
                  if set_has sourceChunk (Mergeable.chunksToBeMerged st)
                  then Mergeable.mergeSource minChunkSize sourceChunk st
                  else st) xs st in
  K st'
  /\ forall x, In x (Mergeable.chunksToBeMerged st') ->
                In x (Mergeable.chunksToBeMerged st) /\ ~ In x xs.
Proof.
  induction xs as [|y xs IH]; intros st HK; cbv zeta; simpl; [auto|].
  destruct (set_has y (Mergeable.chunksToBeMerged st)) eqn:Hy.
  - apply set_has_In in Hy.
    destruct (IH _ (@mergeSource_K st y HK Hy)) as [HK' Hshrink]. cbv zeta in *.
    split; [assumption|]. intros x Hx. apply Hshrink in Hx as [Hx Hnot].
    apply mergeSource_shrinks in Hx as [Hx Hne]. split; [assumption|].
    intros [H|H]; [congruence|contradiction].
  - apply set_has_false in Hy.
    destruct (IH _ HK) as [HK' Hshrink]. cbv zeta in *.
    split; [assumption|]. intros x Hx. apply Hshrink in Hx as [Hx Hnot].
    split; [assumption|]. intros [H|H]; [congruence|contradiction].
Qed.

(** When the loop of [getOptimizedChunks] has ended every chunk is in
    [unmergeableChunks]. *)
Lemma mergeAll_K st :
  K st ->
  K (Mergeable.mergeAll minChunkSize st)
  /\ Mergeable.chunksToBeMerged (Mergeable.mergeAll minChunkSize st) = [].
Proof.
  intros HK. unfold Mergeable.mergeAll.
  destruct (@mergeAll_fold (Mergeable.chunksToBeMerged st) st HK) as [HK' Hshrink].
  cbv zeta in *. split; [assumption|].
  destruct (Mergeable.chunksToBeMerged (fold_left _ _ _)) as [|x l]; [reflexivity|].
  exfalso. destruct (Hshrink x (or_introl eq_refl)) as [H1 H2]. contradiction.
Qed.

Lemma getMergeableChunks_K chunkModulesBySignature :
  Permutation (Object_entries chunkModulesBySignature) E ->
  K (Mergeable.getMergeableChunks G chunkModulesBySignature minChunkSize).
Proof.
  intros HPE.
  destruct (getMergeableChunks_facts G minChunkSize chunkModulesBySignature)
    as [Hh [Hnd [Hlive [_ Hunm]]]]. cbv zeta in *.
  set (st := Mergeable.getMergeableChunks G chunkModulesBySignature minChunkSize) in *.
  set (h := Mergeable.heap st) in *.
  assert (Hlen : length (Object_entries chunkModulesBySignature) = length h)
    by (now rewrite <- Hh, length_map).
  assert (Hgroup : forall r, r < length h ->
            In (Mergeable.group (Mergeable.deref h r)) E).
  { intros r Hr. apply (Permutation_in _ HPE). rewrite <- Hh.
    apply in_map. unfold Mergeable.deref. now apply nth_In. }
  unfold K. fold st h. split; [assumption|]. split; [intros r; apply Hlive|].
  split; [|split].
  - assert (Hseq : Permutation (Mergeable.live st) (seq 0 (length h))).
    { apply NoDup_Permutation; [assumption|apply seq_NoDup|].
      intros r. rewrite Hlive, in_seq. lia. }
    rewrite (flat_map_perm _ Hseq), <- (flat_map_perm snd HPE), <- Hh.
    now rewrite flat_map_modules_at_seq.
  - intros r Hr. apply Hlive, Hgroup in Hr. eapply HE. exact Hr.
  - intros r m Hr Hm. pose proof (Hgroup r (proj1 (Hlive r) Hr)) as Hg.
    exists (sig h r), (Mergeable.modules_at h r).
    split; [exact Hg|]. split; [assumption|]. split; [apply subset_refl|].
    intros He. split; [reflexivity|].
    unfold Mergeable.live in Hr. apply in_app_iff in Hr as [Hr|Hr]; [|assumption].
    exfalso.
    destruct (getMergeableChunks_facts G minChunkSize chunkModulesBySignature)
      as [_ [_ [_ [Htbm _]]]]. cbv zeta in Htbm. fold st h in Htbm.
    destruct (Htbm r Hr) as [Hmerge _]. unfold Mergeable.mergeable in Hmerge.
    apply andb_true_iff in Hmerge as [Hp _]. rewrite forallb_forall in Hp.
    apply Hp in Hm. unfold is_pure_module in Hm. rewrite He in Hm. discriminate.
Qed.

(** The chunks of [getOptimizedChunks] in terms of the groups [E]. *)
Lemma getOptimizedChunks_facts chunkModulesBySignature :
  Permutation (Object_entries chunkModulesBySignature) E ->
  let chunks := Mergeable.getOptimizedChunks G chunkModulesBySignature minChunkSize in
  Permutation (flat_map Mergeable.modules chunks) (flat_map snd E)
  /\ forall chunk m,
       In chunk chunks -> In m (Mergeable.modules chunk) ->
       exists k mods,
         In (k, mods) E /\ In m mods
         /\ Signature.subset k (Mergeable.signature chunk) = true
         /\ (hasEffects (getModule G m) = true -> Mergeable.signature chunk = k).
Proof.
  intros HPE. cbv zeta. unfold Mergeable.getOptimizedChunks.
  destruct (mergeAll_K (getMergeableChunks_K _ HPE)) as [HK Hnil].
  set (st := Mergeable.mergeAll minChunkSize _) in *.
  destruct HK as [_ [_ [Hall [_ Horigin]]]]. unfold Mergeable.live in *.
  rewrite Hnil in *. simpl in *. split.
  - rewrite <- Hall. clear.
    induction (Mergeable.unmergeableChunks st) as [|r l IH]; simpl; [reflexivity|].
    now apply Permutation_app_head.
  - intros chunk m Hc Hm. apply in_map_iff in Hc as [r [<- Hr]].
    destruct (Horigin r m Hr Hm) as [k [mods [Hk [Hin [Hsub Heff]]]]].
    exists k, mods. split; [assumption|]. split; [assumption|]. split; [assumption|].
    intros He. now apply Heff.
Qed.
End MergeSafety.

(** [getMergeableChunks] classifies the groups. Its chunk descriptions are
    the groups of [Object.entries(chunkModulesBySignature)] in their order;
    a chunk is in [chunksToBeMerged], with the length of its code as its
    size, exactly when none of its modules has side effects and that length
    is not above [minChunkSize]; otherwise it is in [unmergeableChunks] and
    its size is [null]. *)
Theorem getMergeableChunks_classifies (G : Graph)
    (chunkModulesBySignature : list (string * list nat)) (minChunkSize : Z) :
  let st := Mergeable.getMergeableChunks G chunkModulesBySignature minChunkSize in
  map Mergeable.group (Mergeable.heap st) = Object_entries chunkModulesBySignature
  /\ forall ref chunk,
       nth_error (Mergeable.heap st) ref = Some chunk ->
       if Mergeable.mergeable G minChunkSize (Mergeable.modules chunk)
       then In ref (Mergeable.chunksToBeMerged st)
            /\ ~ In ref (Mergeable.unmergeableChunks st)
            /\ Mergeable.size chunk = Some (modules_size G (Mergeable.modules chunk))
       else In ref (Mergeable.unmergeableChunks st)
            /\ ~ In ref (Mergeable.chunksToBeMerged st)
            /\ Mergeable.size chunk = None.
Proof.
  cbv zeta.
  destruct (getMergeableChunks_facts G minChunkSize chunkModulesBySignature)
    as [Hh [Hnd [Hlive [Htbm Hunm]]]]. cbv zeta in *.
  set (st := Mergeable.getMergeableChunks G chunkModulesBySignature minChunkSize) in *.
  split; [assumption|]. intros ref chunk Hnth.
  assert (Hchunk : Mergeable.deref (Mergeable.heap st) ref = chunk).
  { unfold Mergeable.deref. now apply nth_error_nth. }
  assert (Href : In ref (Mergeable.live st)).
  { apply Hlive. apply nth_error_Some. congruence. }
  unfold Mergeable.live in Href, Hnd. apply in_app_iff in Href as [Href|Href].
  - destruct (Htbm ref Href) as [Hm Hsize]. unfold Mergeable.modules_at in *.
    rewrite Hchunk in *. rewrite Hm. split; [assumption|]. split; [|assumption].
    intros Hu. eapply NoDup_app_disjoint; [exact Hnd|exact Href|exact Hu].
  - destruct (Hunm ref Href) as [Hm Hsize]. unfold Mergeable.modules_at in *.
    rewrite Hchunk in *. rewrite Hm. split; [assumption|]. split; [|assumption].
    intros Ht. eapply NoDup_app_disjoint; [exact Hnd|exact Ht|exact Href].
Qed.

(** The merge of [getOptimizedChunks] with [getMergeableChunks] loses no
    module and keeps side effects where they were. When the signatures of
    the groups have one length, the chunks returned hold the modules of the
    groups, each once; every entry of the signature of the group of a module
    is an entry of the signature of its chunk; and a chunk that holds a
    module with side effects has the signature of the group of that module,
    so that it is loaded by no other entries. *)
Theorem merge_keeps_side_effects_in_place (G : Graph)
    (chunkModulesBySignature : list (string * list nat)) (minChunkSize : Z) (n : nat) :
  (forall signature modules,
     In (signature, modules) chunkModulesBySignature -> String.length signature = n) ->
  let chunks := Mergeable.getOptimizedChunks G chunkModulesBySignature minChunkSize in
  Permutation (flat_map Mergeable.modules chunks) (flat_map snd chunkModulesBySignature)
  /\ forall chunk module,
       In chunk chunks -> In module (Mergeable.modules chunk) ->
       exists signature modules,
         In (signature, modules) chunkModulesBySignature /\ In module modules
         /\ Signature.subset signature (Mergeable.signature chunk) = true
         /\ (hasEffects (getModule G module) = true ->
             Mergeable.signature chunk = signature).
Proof.
  intros Hlen.
  apply (@getOptimizedChunks_facts G chunkModulesBySignature n minChunkSize Hlen).
  apply Object_entries_perm.
Qed.

Lemma merge_keeps_side_effects_in_place_witness :
  let chunks := Mergeable.getOptimizedChunks Examples.effectGraph
                  MergeableExamples.chunkModulesBySignature 100 in
  Permutation (flat_map Mergeable.modules chunks)
    (flat_map snd MergeableExamples.chunkModulesBySignature)
  /\ forall chunk module,
       In chunk chunks -> In module (Mergeable.modules chunk) ->
       exists signature modules,
         In (signature, modules) MergeableExamples.chunkModulesBySignature
         /\ In module modules
         /\ Signature.subset signature (Mergeable.signature chunk) = true
         /\ (hasEffects (getModule Examples.effectGraph module) = true ->
             Mergeable.signature chunk = signature).
Proof.
  apply (@merge_keeps_side_effects_in_place Examples.effectGraph
           MergeableExamples.chunkModulesBySignature 100 2).
  intros signature modules [H|[H|[H|[]]]]; injection H as <- _; reflexivity.
Defined.
